(** * Critical-path engine of the cpm repository

    A shallow embedding of [critical_path_script.py] (the uniform, unit-duration
    script) and [critical_path_script_2.py] (the weighted, class-based script),
    followed by the properties of the forward pass, the backward pass, the slack
    classification, the cycle handling, placeholder synthesis and annotation.

    Conventions of the embedding:
    - a Python [dict] is an association list in insertion order ([Dict.t]): the
      order of [self.nodes] and of [in_degree.items()] decides the Kahn order;
    - a Python [set] is a duplicate-free list of its elements; wherever the code
      iterates over a set of strings, the iteration order comes from a
      [SetOrder], an arbitrary but fixed permutation (the hash order);
    - a Python [float] is an exact rational ([Q]); [int] is [Z].  Sums and
      differences are therefore not rounded as doubles are: a slack that is 0
      here can be a rounding error of the order of 1e-16 in the program, which
      the tolerance 0.001 of its critical test absorbs.  The properties of
      the time tables are stated through what does not depend on rounding:
      which entries exist, maxima, minima, the order between times and
      membership in the critical set;
    - a raised exception ([KeyError]) is [None] in the [option] monad, and a
      [while] loop carries fuel, with [None] when the fuel runs out. *)

From Stdlib Require Import String Ascii ZArith QArith Qabs Qminmax Lia Lqa Bool
  PeanoNat List Permutation.
Import ListNotations.

Close Scope Q_scope.
Open Scope string_scope.
Open Scope list_scope.
Open Scope nat_scope.

(** ** Python values shared by both scripts *)

(** [x <- e ;; k]: sequencing of code that can raise. *)
Notation "x <- e ;; k" :=
  (match e with Some x => k | None => None end)
  (at level 61, e at next level, right associativity).
Notation "' p <- e ;; k" :=
  (match e with Some p => k | None => None end)
  (at level 61, p pattern, e at next level, right associativity).

(** [max(a, b)] and [min(a, b)] on floats: Python keeps the first argument
    unless the second is strictly greater (smaller). *)
Definition Qltb (a b : Q) : bool :=
  (Qnum a * QDen b <? Qnum b * QDen a)%Z.

Definition pymax (a b : Q) : Q := if Qltb a b then b else a.
Definition pymin (a b : Q) : Q := if Qltb b a then b else a.

(** [max(xs)] on a non-empty collection; [dflt] stands for the guarded empty
    case of the caller. *)
Definition pymax_list (xs : list Q) (dflt : Q) : Q :=
  match xs with
  | [] => dflt
  | x :: r => fold_left pymax r x
  end.

(** A [for] loop whose body can raise. *)
Fixpoint foldM {A B : Type} (f : A -> B -> option A) (l : list B) (a : A)
  : option A :=
  match l with
  | [] => Some a
  | x :: r => a' <- f a x ;; foldM f r a'
  end.

(** Membership in a list or set of strings: [x in xs]. *)
Definition str_in (x : string) (xs : list string) : bool :=
  existsb (String.eqb x) xs.

(** [s.add(x)] on a set kept as a duplicate-free list. *)
Definition set_add (x : string) (s : list string) : list string :=
  if str_in x s then s else s ++ [x].

(** [a - b] on sets. *)
Definition set_diff (a b : list string) : list string :=
  filter (fun x => negb (str_in x b)) a.

(** [set(xs)]. *)
Definition set_of_list (xs : list string) : list string :=
  fold_left (fun s x => set_add x s) xs [].

(** The order in which a set of strings is iterated. *)
Record SetOrder := {
  set_iter : list string -> list string;
  set_iter_perm : forall l, Permutation (set_iter l) l
}.

(** Iteration in insertion order, one admissible hash order. *)
Definition insertion_order : SetOrder :=
  {| set_iter := fun l => l; set_iter_perm := fun l => Permutation_refl l |}.

(** Python dictionaries with string keys. *)
Module Dict.
Section Ops.
  Context {V : Type}.

Definition t := list (string * V).

Fixpoint get (d : t) (k : string) : option V :=
    match d with
    | [] => None
    | (k', v) :: r => if String.eqb k' k then Some v else get r k
    end.

  (** [k in d] *)
Definition mem (d : t) (k : string) : bool :=
    match get d k with Some _ => true | None => false end.

  (** [d[k] = v]: overwrite in place, or append a new key. *)
Fixpoint set (d : t) (k : string) (v : V) : t :=
    match d with
    | [] => [(k, v)]
    | (k', v') :: r =>
        if String.eqb k' k then (k', v) :: r else (k', v') :: set r k v
    end.

  (** [d.get(k, dflt)] *)
Definition get_or (d : t) (k : string) (dflt : V) : V :=
    match get d k with Some v => v | None => dflt end.

  (** [d[k]] on a [defaultdict]: a missing key is inserted with the default. *)
Definition touch (d : t) (k : string) (dflt : V) : t :=
    match get d k with Some _ => d | None => d ++ [(k, dflt)] end.

Definition keys (d : t) : list string := map fst d.
Definition values (d : t) : list V := map snd d.

  (** The keys of a dictionary are pairwise distinct. *)
Fixpoint distinct (ks : list string) : bool :=
    match ks with
    | [] => true
    | k :: r => negb (str_in k r) && distinct r
    end.

Definition well_formed (d : t) : bool := distinct (keys d).
End Ops.
Arguments t : clear implicits.
End Dict.

(** A dependency record: [{source, target, pathType?}]. *)
Record Dependency := {
  source : string;
  target : string;
  pathType : option string
}.

(** A node record: [{id, title?, status?, assignee?, priority?, epicName?,
    onCriticalPath?}]. *)
Record Node := {
  id : string;
  title : option string;
  status : option string;
  assignee : option string;
  priority : option string;
  epicName : option string;
  onCriticalPath : option bool
}.

Definition set_onCriticalPath (n : Node) (b : bool) : Node :=
  {| id := id n; title := title n; status := status n; assignee := assignee n;
     priority := priority n; epicName := epicName n; onCriticalPath := Some b |}.

Definition set_pathType (d : Dependency) (p : string) : Dependency :=
  {| source := source d; target := target d; pathType := Some p |}.

(** The [while queue:] loop of [topological_sort], the same statements in both
    scripts.  [graph] is a [defaultdict(list)], [in_degree] a
    [defaultdict(int)]. *)
Section KahnLoop.

  (** [for target in graph[current]: in_degree[target] -= 1;
       if in_degree[target] == 0: queue.append(target)] *)
Definition relax_step (st : Dict.t Z * list string) (tgt : string)
    : Dict.t Z * list string :=
    let '(deg, queue) := st in
    let d := (Dict.get_or deg tgt 0 - 1)%Z in
    let deg' := Dict.set deg tgt d in
    if (d =? 0)%Z then (deg', queue ++ [tgt]) else (deg', queue).

Definition relax (targets : list string) (deg : Dict.t Z) (queue : list string)
    : Dict.t Z * list string :=
    fold_left relax_step targets (deg, queue).

Fixpoint kahn_loop (fuel : nat) (graph : Dict.t (list string))
      (deg : Dict.t Z) (queue result : list string)
    : option (Dict.t (list string) * list string) :=
    match queue with
    | [] => Some (graph, result)
    | current :: queue' =>
        match fuel with
        | O => None
        | S fuel' =>
            let result' := result ++ [current] in
            let graph' := Dict.touch graph current [] in
            let '(deg', queue'') :=
              relax (Dict.get_or graph' current []) deg queue' in
            kahn_loop fuel' graph' deg' queue'' result'
        end
    end.

  (** Number of keys whose counter is still positive. *)
Definition positives (deg : Dict.t Z) : nat :=
    length (filter (fun kv => (0 <? snd kv)%Z) deg).

  (** Fuel that always suffices: every iteration pops one queued id, and an id
      is queued only when its counter steps from 1 to 0. *)
Definition kahn_fuel (deg : Dict.t Z) (queue : list string) : nat :=
    length queue + positives deg.

End KahnLoop.

(** ** [critical_path_script_2.py]: class [CriticalPathCalculator] *)
Module Script2.

(** The fields of [self]. *)
Record Calculator := {
  nodes : Dict.t Node;
  dependencies : list Dependency;
  graph : Dict.t (list string);
  reverse_graph : Dict.t (list string)
}.

(** What the methods print. *)
Inductive Output :=
| OutCalculating
| OutCycleWarning
| OutFound (n : nat).

Definition build_graph_step (nds : Dict.t Node)
    (gr : Dict.t (list string) * Dict.t (list string)) (dep : Dependency) :=
  let '(g, rg) := gr in
  if Dict.mem nds (source dep) && Dict.mem nds (target dep) then
    (Dict.set g (source dep) (Dict.get_or g (source dep) [] ++ [target dep]),
     Dict.set rg (target dep) (Dict.get_or rg (target dep) [] ++ [source dep]))
  else (g, rg).

Definition build_graph (self : Calculator) : Calculator :=
  let '(g, rg) :=
    fold_left (build_graph_step (nodes self)) (dependencies self) ([], []) in
  {| nodes := nodes self; dependencies := dependencies self;
     graph := g; reverse_graph := rg |}.

Definition get_priority_weight (priority : string) : Q :=
  if String.eqb priority "Highest" then 5
  else if String.eqb priority "High" then 4
  else if String.eqb priority "Medium" then 3
  else if String.eqb priority "Low" then 2
  else if String.eqb priority "Lowest" then 1
  else 1.

Definition get_status_weight (status : string) : Q :=
  if String.eqb status "Done" then 0
  else if String.eqb status "In Progress" then 1 # 2
  else if String.eqb status "To Do" then 1
  else if String.eqb status "On hold" then 3 # 2
  else 1.

Definition node_priority (n : Node) : string :=
  match priority n with Some p => p | None => "Low" end.

Definition node_status (n : Node) : string :=
  match status n with Some s => s | None => "To Do" end.

(** [self.nodes[node_id]] raises [KeyError] on an unknown id. *)
Definition calculate_node_duration (self : Calculator) (node_id : string)
  : option Q :=
  node <- Dict.get (nodes self) node_id ;;
  let priority_weight := get_priority_weight (node_priority node) in
  let status_weight := get_status_weight (node_status node) in
  let base_duration := (priority_weight * status_weight)%Q in
  Some (pymax base_duration (1 # 10)).

Section WithSetOrder.
  Variable order : SetOrder.

  (** [in_degree] after the two initialisation loops. *)
Definition initial_in_degree (self : Calculator) : Dict.t Z :=
    let deg0 :=
      fold_left (fun deg node_id => Dict.set deg node_id 0%Z)
                (Dict.keys (nodes self)) [] in
    fold_left
      (fun deg src =>
         fold_left (fun deg tgt => Dict.set deg tgt (Dict.get_or deg tgt 0 + 1)%Z)
                   (Dict.get_or (graph self) src []) deg)
      (Dict.keys (graph self)) deg0.

Definition initial_queue (self : Calculator) (deg : Dict.t Z) : list string :=
    filter (fun node_id => (Dict.get_or deg node_id 0 =? 0)%Z)
           (Dict.keys (nodes self)).

  (** Returns the updated [self] (the loop reads [self.graph[current]] on a
      [defaultdict]), the order, and what was printed. *)
  (** The order at the exit of the [while] loop, before the cycle check. *)
Definition kahn_order (self : Calculator)
    : option (Dict.t (list string) * list string) :=
    let in_degree := initial_in_degree self in
    let queue := initial_queue self in_degree in
    kahn_loop (kahn_fuel in_degree queue) (graph self) in_degree queue [].

Definition topological_sort (self : Calculator)
    : option (Calculator * list string * list Output) :=
    '(g, result) <- kahn_order self ;;
    let self' := {| nodes := nodes self; dependencies := dependencies self;
                    graph := g; reverse_graph := reverse_graph self |} in
    if negb (length result =? length (nodes self)) then
      let missing_nodes :=
        set_diff (set_of_list (Dict.keys (nodes self))) (set_of_list result) in
      Some (self', result ++ set_iter order missing_nodes, [OutCycleWarning])
    else Some (self', result, []).

  (** The locals of [calculate_critical_path] at its return, next to the
      updated [self]; the method itself returns [(critical_nodes, slack)]. *)
Record Result := {
    self_out : Calculator;
    topo_order : list string;
    earliest_start : Dict.t Q;
    earliest_finish : Dict.t Q;
    project_completion : Q;
    latest_start : Dict.t Q;
    latest_finish : Dict.t Q;
    slack : Dict.t Q;
    critical_nodes : list string;
    printed : list Output
  }.

Definition max_predecessor_finish (self : Calculator) (ef : Dict.t Q)
      (node_id : string) : Q :=
    fold_left
      (fun m pred =>
         match Dict.get ef pred with Some f => pymax m f | None => m end)
      (Dict.get_or (reverse_graph self) node_id []) 0%Q.

  (** One iteration of the forward pass. *)
Definition forward_step (self : Calculator) (tabs : Dict.t Q * Dict.t Q)
      (node_id : string) : option (Dict.t Q * Dict.t Q) :=
    let '(es, ef) := tabs in
    duration <- calculate_node_duration self node_id ;;
    let es' := Dict.set es node_id (max_predecessor_finish self ef node_id) in
    start <- Dict.get es' node_id ;;
    Some (es', Dict.set ef node_id (start + duration)%Q).

Definition min_successor_start (self : Calculator) (completion : Q)
      (ls : Dict.t Q) (node_id : string) : Q :=
    fold_left
      (fun m succ =>
         match Dict.get ls succ with Some s => pymin m s | None => m end)
      (Dict.get_or (graph self) node_id []) completion.

  (** One iteration of the backward pass. *)
Definition backward_step (self : Calculator) (completion : Q)
      (tabs : Dict.t Q * Dict.t Q) (node_id : string)
    : option (Dict.t Q * Dict.t Q) :=
    let '(ls, lf) := tabs in
    duration <- calculate_node_duration self node_id ;;
    let lf' :=
      if Dict.mem lf node_id then lf
      else Dict.set lf node_id (min_successor_start self completion ls node_id) in
    finish <- Dict.get lf' node_id ;;
    Some (Dict.set ls node_id (finish - duration)%Q, lf').

Definition end_nodes (self : Calculator) : list string :=
    filter (fun node_id =>
              match Dict.get_or (graph self) node_id [] with
              | [] => true
              | _ :: _ => false
              end)
           (Dict.keys (nodes self)).

Definition is_critical_slack (slack_value : Q) : bool :=
    Qltb (Qabs slack_value) (1 # 1000).

Definition annotate_node (critical : list string) (kv : string * Node)
    : string * Node :=
    (fst kv, set_onCriticalPath (snd kv) (str_in (fst kv) critical)).

Definition annotate_dependency (nds : Dict.t Node) (critical : list string)
      (dep : Dependency) : Dependency :=
    if str_in (source dep) critical && str_in (target dep) critical
       && Dict.mem nds (source dep) && Dict.mem nds (target dep)
    then set_pathType dep "critical"
    else set_pathType dep "parallel".

Definition calculate_critical_path (self : Calculator) : option Result :=
    let self := build_graph self in
    '(self, topo, warned) <- topological_sort self ;;
    '(es, ef) <- foldM (forward_step self) topo ([], []) ;;
    let completion := pymax_list (Dict.values ef) 0%Q in
    let lf0 :=
      fold_left (fun lf node_id => Dict.set lf node_id completion)
                (end_nodes self) [] in
    '(ls, lf) <- foldM (backward_step self completion) (rev topo) ([], lf0) ;;
    let slack :=
      fold_left
        (fun sl node_id =>
           Dict.set sl node_id
             (Dict.get_or ls node_id 0 - Dict.get_or es node_id 0)%Q)
        (Dict.keys (nodes self)) [] in
    let critical :=
      fold_left
        (fun crit kv =>
           if is_critical_slack (snd kv) then set_add (fst kv) crit else crit)
        slack [] in
    let nodes' := map (annotate_node critical) (nodes self) in
    let deps' := map (annotate_dependency nodes' critical) (dependencies self) in
    Some {| self_out := {| nodes := nodes'; dependencies := deps';
                           graph := graph self;
                           reverse_graph := reverse_graph self |};
            topo_order := topo;
            earliest_start := es; earliest_finish := ef;
            project_completion := completion;
            latest_start := ls; latest_finish := lf;
            slack := slack; critical_nodes := critical;
            printed := [OutCalculating] ++ warned
                       ++ [OutFound (length critical)] |}.

End WithSetOrder.

(** [__init__] *)
Definition init : Calculator :=
  {| nodes := []; dependencies := []; graph := []; reverse_graph := [] |}.

(** [load_files], given what [json.load] returns for the files matched by
    [nodes*.json] and by [dependencies*.json], in the order of [glob.glob]. *)
Definition load_files (self : Calculator) (nodes_files : list (list Node))
    (deps_files : list (list Dependency)) : Calculator :=
  let nodes' :=
    fold_left
      (fun nds nodes_data =>
         fold_left (fun nds node => Dict.set nds (id node) node) nodes_data nds)
      nodes_files (nodes self) in
  let dependencies' :=
    fold_left (fun deps deps_data => deps ++ deps_data) deps_files
              (dependencies self) in
  {| nodes := nodes'; dependencies := dependencies';
     graph := graph self; reverse_graph := reverse_graph self |}.

(** [save_results]: the two lists written to [nodes.json] and
    [dependencies.json]. *)
Definition save_results (self : Calculator) : list Node * list Dependency :=
  let nodes_list := Dict.values (nodes self) in
  (nodes_list, dependencies self).

(** [sorted(xs)] on strings. *)
Fixpoint insert_sorted (x : string) (l : list string) : list string :=
  match l with
  | [] => [x]
  | y :: r => if String.leb x y then x :: l else y :: insert_sorted x r
  end.

Definition sorted (xs : list string) : list string :=
  fold_right insert_sorted [] xs.

(** [max(items, key=lambda x: x[1])] and [min(...)]: the first item with the
    largest (smallest) value. *)
Definition max_by_value (items : list (string * Q)) : option (string * Q) :=
  match items with
  | [] => None
  | x :: r =>
      Some (fold_left (fun best it => if Qltb (snd best) (snd it) then it else best)
                      r x)
  end.

Definition min_by_value (items : list (string * Q)) : option (string * Q) :=
  match items with
  | [] => None
  | x :: r =>
      Some (fold_left (fun best it => if Qltb (snd it) (snd best) then it else best)
                      r x)
  end.

(** One line of the listing of [print_statistics]:
    [node_id: title [status] [priority]]. *)
Record Line := {
  line_id : string;
  line_title : string;
  line_status : string;
  line_priority : string
}.

(** What [print_statistics] prints. *)
Record Statistics := {
  total_nodes : nat;
  total_dependencies : nat;
  critical_path_nodes : nat;
  critical_listing : list Line;
  critical_dependencies : nat;
  parallel_dependencies : nat;
  most_slack : option (string * Q);
  least_slack : option (string * Q)
}.

Definition has_pathType (p : string) (dep : Dependency) : bool :=
  match pathType dep with
  | Some q => String.eqb q p
  | None => false
  end.

Definition print_line (self : Calculator) (node_id : string) : option Line :=
  node <- Dict.get (nodes self) node_id ;;
  Some {| line_id := node_id;
          line_title := match title node with Some t => t | None => "No title" end;
          line_status := match status node with Some t => t | None => "Unknown" end;
          line_priority :=
            match priority node with Some t => t | None => "Unknown" end |}.

Definition print_statistics (self : Calculator) (critical_nodes : list string)
    (slack : Dict.t Q) : option Statistics :=
  listing <-
    foldM (fun acc node_id => line <- print_line self node_id ;; Some (acc ++ [line]))
          (sorted critical_nodes) [] ;;
  let critical_deps := filter (has_pathType "critical") (dependencies self) in
  let parallel_deps := filter (has_pathType "parallel") (dependencies self) in
  Some {| total_nodes := length (nodes self);
          total_dependencies := length (dependencies self);
          critical_path_nodes := length critical_nodes;
          critical_listing := listing;
          critical_dependencies := length critical_deps;
          parallel_dependencies := length parallel_deps;
          most_slack := max_by_value slack;
          least_slack := min_by_value slack |}.

(** How [main] ends: the error message for an empty node collection, the
    normal end with what was saved and printed, or the [except] branch, with
    what had been saved before the exception. *)
Inductive Outcome :=
| NoNodesLoaded
| Completed (saved : list Node * list Dependency) (stats : Statistics)
| Raised (saved : option (list Node * list Dependency)).

Definition main (order : SetOrder) (nodes_files : list (list Node))
    (deps_files : list (list Dependency)) : Outcome :=
  let calculator := load_files init nodes_files deps_files in
  match nodes calculator with
  | [] => NoNodesLoaded
  | _ :: _ =>
      match calculate_critical_path order calculator with
      | None => Raised None
      | Some r =>
          let calculator := self_out r in
          let saved := save_results calculator in
          match print_statistics calculator (critical_nodes r) (slack r) with
          | None => Raised (Some saved)
          | Some stats => Completed saved stats
          end
      end
  end.

End Script2.

(** ** [critical_path_script.py]: the unit-duration script *)
Module Script.

Section WithSetOrder.
  Variable order : SetOrder.

  (** The five values returned by [build_graph]. *)
Record Graph := {
    graph : Dict.t (list string);
    reverse_graph : Dict.t (list string);
    in_degree : Dict.t Z;
    out_degree : Dict.t Z;
    all_nodes : list string
  }.

Definition build_graph_step (g : Graph) (dep : Dependency) : Graph :=
    let source := source dep in
    let target := target dep in
    {| graph :=
         Dict.set (graph g) source (Dict.get_or (graph g) source [] ++ [target]);
       reverse_graph :=
         Dict.set (reverse_graph g) target
                  (Dict.get_or (reverse_graph g) target [] ++ [source]);
       in_degree :=
         Dict.set (in_degree g) target (Dict.get_or (in_degree g) target 0 + 1)%Z;
       out_degree :=
         Dict.set (out_degree g) source
                  (Dict.get_or (out_degree g) source 0 + 1)%Z;
       all_nodes := set_add target (set_add source (all_nodes g)) |}.

  (** [if node not in d: d[node] = 0] *)
Definition ensure_entry (d : Dict.t Z) (node : string) : Dict.t Z :=
    if Dict.mem d node then d else Dict.set d node 0%Z.

Definition build_graph (dependencies : list Dependency) : Graph :=
    let g :=
      fold_left build_graph_step dependencies
        {| graph := []; reverse_graph := []; in_degree := [];
           out_degree := []; all_nodes := [] |} in
    let '(ind, outd) :=
      fold_left
        (fun io node => (ensure_entry (fst io) node, ensure_entry (snd io) node))
        (set_iter order (all_nodes g)) (in_degree g, out_degree g) in
    {| graph := graph g; reverse_graph := reverse_graph g;
       in_degree := ind; out_degree := outd; all_nodes := all_nodes g |}.

  (** Returns the order together with [graph], which the loop reads as a
      [defaultdict]. *)
Definition topological_sort (graph : Dict.t (list string))
      (in_degree : Dict.t Z) : option (Dict.t (list string) * list string) :=
    let queue :=
      map fst (filter (fun kv => (snd kv =? 0)%Z) in_degree) in
    let temp_in_degree := in_degree in
    kahn_loop (kahn_fuel temp_in_degree queue) graph temp_in_degree queue [].

  (** [for dependent in graph[node]: ...] of the forward pass. *)
Definition push_start (node : string) (es : option (Dict.t Z))
      (dependent : string) : option (Dict.t Z) :=
    es <- es ;;
    start <- Dict.get es node ;;
    let new_start := (start + 1)%Z in
    match Dict.get es dependent with
    | None => Some (Dict.set es dependent new_start)
    | Some old =>
        if (old <? new_start)%Z then Some (Dict.set es dependent new_start)
        else Some es
    end.

Definition forward_step (gd : Dict.t (list string) * Dict.t Z)
      (node : string) : option (Dict.t (list string) * Dict.t Z) :=
    let '(g, es) := gd in
    let es := if Dict.mem es node then es else Dict.set es node 0%Z in
    let g := Dict.touch g node [] in
    es <- fold_left (push_start node) (Dict.get_or g node []) (Some es) ;;
    Some (g, es).

  (** [min(min_dependent_latest, latest_start[dependent] - 1)], with [None] for
      [float('inf')]. *)
Definition min_dependent (ls : Dict.t Z) (m : option Z) (dependent : string)
    : option Z :=
    match Dict.get ls dependent with
    | None => m
    | Some l =>
        match m with
        | None => Some (l - 1)%Z
        | Some m' => Some (if (l - 1 <? m')%Z then (l - 1)%Z else m')
        end
    end.

Definition backward_step (out_degree : Dict.t Z) (es : Dict.t Z)
      (gl : Dict.t (list string) * Dict.t Z) (node : string)
    : Dict.t (list string) * Dict.t Z :=
    let '(g, ls) := gl in
    if Dict.mem ls node then (g, ls)
    else if (Dict.get_or out_degree node 0 =? 0)%Z then
      (g, Dict.set ls node (Dict.get_or es node 0%Z))
    else
      let g := Dict.touch g node [] in
      match fold_left (min_dependent ls) (Dict.get_or g node []) None with
      | Some m => (g, Dict.set ls node m)
      | None => (g, Dict.set ls node (Dict.get_or es node 0%Z))
      end.

  (** Returns [(critical_nodes, earliest_start, latest_start)]. *)
Definition calculate_critical_path (gr : Graph)
    : option (list string * Dict.t Z * Dict.t Z) :=
    '(g, topo_order) <- topological_sort (graph gr) (in_degree gr) ;;
    let es0 :=
      fold_left
        (fun es node =>
           if (Dict.get_or (in_degree gr) node 0 =? 0)%Z
           then Dict.set es node 0%Z else es)
        (set_iter order (all_nodes gr)) [] in
    '(g, earliest_start) <- foldM forward_step topo_order (g, es0) ;;
    let ls0 :=
      fold_left
        (fun ls node =>
           if (Dict.get_or (out_degree gr) node 0 =? 0)%Z
           then Dict.set ls node (Dict.get_or earliest_start node 0%Z) else ls)
        (set_iter order (all_nodes gr)) [] in
    let '(g, latest_start) :=
      fold_left (backward_step (out_degree gr) earliest_start)
                (rev topo_order) (g, ls0) in
    let critical_nodes :=
      fold_left
        (fun crit node =>
           if (Dict.get_or earliest_start node 0 =?
               Dict.get_or latest_start node 0)%Z
           then set_add node crit else crit)
        (set_iter order (all_nodes gr)) [] in
    Some (critical_nodes, earliest_start, latest_start).

  (** [max_time = max(earliest_start.values()) if earliest_start else 0]:
      computed by [calculate_critical_path] between its two passes and not
      read afterwards. *)
Definition max_time (earliest_start : Dict.t Z) : Z :=
    match Dict.values earliest_start with
    | [] => 0%Z
    | x :: r => fold_left Z.max r x
    end.

Definition placeholder_node (node_id : string) : Node :=
    {| id := node_id;
       title := Some (String.append "Placeholder for " node_id);
       status := Some "Unknown";
       assignee := Some "Unassigned";
       priority := Some "medium";
       epicName := Some "Unknown Epic";
       onCriticalPath := Some false |}.

Definition referenced_node_ids (dependencies : list Dependency)
    : list string :=
    fold_left (fun s dep => set_add (target dep) (set_add (source dep) s))
              dependencies [].

Definition create_missing_nodes (nodes : list Node)
      (dependencies : list Dependency) : list Node :=
    let existing_node_ids := set_of_list (map id nodes) in
    let missing_node_ids :=
      set_diff (referenced_node_ids dependencies) existing_node_ids in
    fold_left (fun nodes node_id => nodes ++ [placeholder_node node_id])
              (set_iter order missing_node_ids) nodes.

Definition pair_in (e : string * string) (es : list (string * string))
    : bool :=
    existsb (fun e' => String.eqb (fst e) (fst e') && String.eqb (snd e) (snd e'))
            es.

Definition update_nodes_and_dependencies (nodes : list Node)
      (dependencies : list Dependency) (critical_nodes : list string)
    : list Node * list Dependency :=
    let nodes := create_missing_nodes nodes dependencies in
    let nodes :=
      map (fun node => set_onCriticalPath node (str_in (id node) critical_nodes))
          nodes in
    let critical_edges :=
      fold_left
        (fun ce dep =>
           if str_in (source dep) critical_nodes
              && str_in (target dep) critical_nodes
           then if pair_in (source dep, target dep) ce then ce
                else ce ++ [(source dep, target dep)]
           else ce)
        dependencies [] in
    let dependencies :=
      map (fun dep =>
             if pair_in (source dep, target dep) critical_edges
             then set_pathType dep "critical"
             else set_pathType dep "parallel")
          dependencies in
    (nodes, dependencies).

  (** [main] between loading and saving: from the loaded collections to the
      saved ones. *)
Definition main (nodes : list Node) (dependencies : list Dependency)
    : option (list Node * list Dependency) :=
    match dependencies with
    | [] => Some (map (fun node => set_onCriticalPath node false) nodes,
                  dependencies)
    | _ :: _ =>
        let gr := build_graph dependencies in
        '(critical_nodes, _, _) <- calculate_critical_path gr ;;
        Some (update_nodes_and_dependencies nodes dependencies critical_nodes)
    end.

End WithSetOrder.

(** What a file matched by the pattern of [load_json_files] gives when it is
    opened and parsed inside the [try]: a JSON array, another JSON value, a
    [JSONDecodeError] or [FileNotFoundError], which the [except] clause
    catches, or any other exception ([UnicodeDecodeError], [PermissionError],
    [IsADirectoryError], ...), which it does not catch. *)
Inductive FileData (A : Type) :=
| JsonList (items : list A)
| JsonValue (item : A)
| Unreadable
| Uncaught.
Arguments JsonList {A} items.
Arguments JsonValue {A} item.
Arguments Unreadable {A}.
Arguments Uncaught {A}.

(** One turn of the [for file_path in files] loop: the merged data so far and
    the paths reported by [print(f"Error loading ...")]; [None] when the
    exception is not one of the two that are caught. *)
Definition merge_file {A : Type} (st : list A * list string)
    (file : string * FileData A) : option (list A * list string) :=
  match snd file with
  | JsonList items => Some (fst st ++ items, snd st)
  | JsonValue item => Some (fst st ++ [item], snd st)
  | Unreadable => Some (fst st, snd st ++ [fst file])
  | Uncaught => None
  end.

(** [load_json_files]: the merged data and the reported paths, or [None]
    when an exception leaves the function. *)
Definition load_json_files {A : Type} (files : list (string * FileData A))
    : option (list A * list string) :=
  foldM merge_file files ([], []).

(** The summary printed at the end of [main], under [if dependencies:]. *)
Record Summary := {
  critical_count : nat;
  node_count : nat;
  critical_deps : nat;
  parallel_deps : nat
}.

Definition is_flagged (node : Node) : bool :=
  match onCriticalPath node with Some b => b | None => false end.

Definition has_pathType (p : string) (dep : Dependency) : bool :=
  match pathType dep with
  | Some q => String.eqb q p
  | None => false
  end.

Definition summary (nodes : list Node) (dependencies : list Dependency)
    : option Summary :=
  match dependencies with
  | [] => None
  | _ :: _ =>
      Some {| critical_count := length (filter is_flagged nodes);
              node_count := length nodes;
              critical_deps :=
                length (filter (has_pathType "critical") dependencies);
              parallel_deps :=
                length (filter (has_pathType "parallel") dependencies) |}
  end.

(** [main] from the files it reads to what it saves and prints: the saved
    nodes and dependencies, the summary, and the paths that failed to load;
    [None] when an exception leaves [main], which has no [try] of its own. *)
Definition main_files (order : SetOrder)
    (nodes_files : list (string * FileData Node))
    (deps_files : list (string * FileData Dependency))
    : option (list Node * list Dependency * option Summary * list string) :=
  '(nodes, errors1) <- load_json_files nodes_files ;;
  '(dependencies, errors2) <- load_json_files deps_files ;;
  '(nodes, dependencies) <- main order nodes dependencies ;;
  Some (nodes, dependencies, summary nodes dependencies, errors1 ++ errors2).

End Script.

(** ** Sample inputs *)
Module Samples.

Definition node (i p s : string) : Node :=
    {| id := i; title := None; status := Some s; assignee := None;
       priority := Some p; epicName := None; onCriticalPath := None |}.

Definition dep (s t : string) : Dependency :=
    {| source := s; target := t; pathType := None |}.

Definition calculator (nds : list Node) (deps : list Dependency)
    : Script2.Calculator :=
    {| Script2.nodes := map (fun n => (id n, n)) nds;
       Script2.dependencies := deps;
       Script2.graph := []; Script2.reverse_graph := [] |}.

End Samples.

(** * Properties *)

(** ** Strings, sets and dictionaries *)

Lemma str_in_In (x : string) (xs : list string) :
  str_in x xs = true <-> In x xs.
Proof.
  unfold str_in. rewrite existsb_exists. split.
  - intros [y [Hy He]]. apply String.eqb_eq in He. now subst.
  - intros H. exists x. split; [assumption | apply String.eqb_refl].
Qed.

Lemma str_in_false (x : string) (xs : list string) :
  str_in x xs = false <-> ~ In x xs.
Proof.
  rewrite <- str_in_In. destruct (str_in x xs); split; congruence.
Qed.

Lemma str_in_app (x : string) (a b : list string) :
  str_in x (a ++ b) = str_in x a || str_in x b.
Proof. unfold str_in. apply existsb_app. Qed.

Lemma set_add_In (x y : string) (s : list string) :
  In y (set_add x s) <-> y = x \/ In y s.
Proof.
  unfold set_add. destruct (str_in x s) eqn:E.
  - apply str_in_In in E. split; [tauto | intros [-> | H]; assumption].
  - rewrite in_app_iff. simpl. intuition congruence.
Qed.

Lemma set_add_NoDup (x : string) (s : list string) :
  NoDup s -> NoDup (set_add x s).
Proof.
  intros H. unfold set_add. destruct (str_in x s) eqn:E; [assumption |].
  apply str_in_false in E.
  apply NoDup_app; [assumption | repeat constructor; simpl; tauto |].
  intros a Ha [<- | []]. contradiction.
Qed.

Lemma set_of_list_spec (xs : list string) :
  NoDup (set_of_list xs) /\ forall y, In y (set_of_list xs) <-> In y xs.
Proof.
  unfold set_of_list.
  assert (G : forall s, NoDup s ->
            NoDup (fold_left (fun s x => set_add x s) xs s) /\
            forall y, In y (fold_left (fun s x => set_add x s) xs s)
                      <-> In y s \/ In y xs).
  { induction xs as [| x xs IH]; intros s Hs; simpl.
    - split; [assumption | intros y; tauto].
    - destruct (IH (set_add x s) (set_add_NoDup x s Hs)) as [H1 H2].
      split; [assumption |].
      intros y. rewrite H2, set_add_In. intuition congruence. }
  destruct (G [] (NoDup_nil _)) as [H1 H2]. split; [assumption |].
  intros y. rewrite H2. simpl. tauto.
Qed.

Lemma set_of_list_In (xs : list string) (y : string) :
  In y (set_of_list xs) <-> In y xs.
Proof. apply set_of_list_spec. Qed.

Lemma set_diff_In (a b : list string) (y : string) :
  In y (set_diff a b) <-> In y a /\ ~ In y b.
Proof.
  unfold set_diff. rewrite filter_In, negb_true_iff, str_in_false. tauto.
Qed.

Lemma set_diff_NoDup (a b : list string) : NoDup a -> NoDup (set_diff a b).
Proof. apply NoDup_filter. Qed.

Lemma set_iter_In (order : SetOrder) (l : list string) (y : string) :
  In y (set_iter order l) <-> In y l.
Proof.
  split; apply Permutation_in;
    [apply set_iter_perm | apply Permutation_sym, set_iter_perm].
Qed.

Lemma set_iter_NoDup (order : SetOrder) (l : list string) :
  NoDup l -> NoDup (set_iter order l).
Proof.
  intros H. eapply Permutation_NoDup; [| exact H].
  apply Permutation_sym, set_iter_perm.
Qed.

Lemma set_iter_nil (order : SetOrder) : set_iter order [] = [].
Proof. apply Permutation_nil, Permutation_sym, set_iter_perm. Qed.

Lemma foldM_app {A B : Type} (f : A -> B -> option A) (l1 l2 : list B) (a : A) :
  foldM f (l1 ++ l2) a = (a' <- foldM f l1 a ;; foldM f l2 a').
Proof.
  revert a. induction l1 as [| x l1 IH]; intros a; simpl; [reflexivity |].
  destruct (f a x); [apply IH | reflexivity].
Qed.

Module DictFacts.
Section Facts.
  Context {V : Type}.
  Implicit Types (d : Dict.t V) (k : string) (v : V).

Lemma get_set_same d k v : Dict.get (Dict.set d k v) k = Some v.
  Proof.
    induction d as [| [k' v'] d IH]; simpl.
    - now rewrite String.eqb_refl.
    - destruct (String.eqb k' k) eqn:E; simpl; rewrite E; [reflexivity | exact IH].
  Qed.

Lemma get_set_other d k k' v :
    k' <> k -> Dict.get (Dict.set d k v) k' = Dict.get d k'.
  Proof.
    intros Hne. induction d as [| [k0 v0] d IH]; simpl.
    - destruct (String.eqb k k') eqn:E; [| reflexivity].
      apply String.eqb_eq in E. congruence.
    - destruct (String.eqb k0 k) eqn:E; simpl.
      + apply String.eqb_eq in E. subst k0.
        destruct (String.eqb k k') eqn:E'; [| reflexivity].
        apply String.eqb_eq in E'. congruence.
      + destruct (String.eqb k0 k'); [reflexivity | exact IH].
  Qed.

Lemma get_or_set_same d k v dflt : Dict.get_or (Dict.set d k v) k dflt = v.
  Proof. unfold Dict.get_or. now rewrite get_set_same. Qed.

Lemma get_or_set_other d k k' v dflt :
    k' <> k -> Dict.get_or (Dict.set d k v) k' dflt = Dict.get_or d k' dflt.
  Proof. intros H. unfold Dict.get_or. now rewrite get_set_other. Qed.

Lemma get_In_keys d k : Dict.get d k <> None <-> In k (Dict.keys d).
  Proof.
    induction d as [| [k' v'] d IH]; simpl.
    - intuition congruence.
    - destruct (String.eqb k' k) eqn:E.
      + apply String.eqb_eq in E. intuition congruence.
      + apply String.eqb_neq in E. rewrite IH. intuition congruence.
  Qed.

Lemma mem_In_keys d k : Dict.mem d k = true <-> In k (Dict.keys d).
  Proof.
    rewrite <- get_In_keys. unfold Dict.mem.
    destruct (Dict.get d k); split; congruence.
  Qed.

Lemma get_None_keys d k : Dict.get d k = None <-> ~ In k (Dict.keys d).
  Proof.
    rewrite <- get_In_keys. destruct (Dict.get d k); intuition congruence.
  Qed.

Lemma get_In d k v : Dict.get d k = Some v -> In (k, v) d.
  Proof.
    induction d as [| [k' v'] d IH]; simpl; [discriminate |].
    destruct (String.eqb k' k) eqn:E.
    - apply String.eqb_eq in E. intros [= ->]. left. now subst.
    - intros H. right. now apply IH.
  Qed.

Lemma In_get_NoDup d k v :
    NoDup (Dict.keys d) -> In (k, v) d -> Dict.get d k = Some v.
  Proof.
    induction d as [| [k' v'] d IH]; simpl; [tauto |].
    intros Hnd [H | H].
    - injection H as -> ->. now rewrite String.eqb_refl.
    - inversion Hnd as [| ? ? Hni Hnd']; subst.
      destruct (String.eqb k' k) eqn:E.
      + apply String.eqb_eq in E. subst k'. exfalso. apply Hni.
        apply (in_map fst) in H. exact H.
      + now apply IH.
  Qed.

Lemma keys_set d k v :
    Dict.keys (Dict.set d k v) =
    if Dict.mem d k then Dict.keys d else Dict.keys d ++ [k].
  Proof.
    unfold Dict.mem, Dict.keys.
    induction d as [| [k' v'] d IH]; simpl; [reflexivity |].
    destruct (String.eqb k' k) eqn:E; simpl; [reflexivity |].
    rewrite IH. now destruct (Dict.get d k).
  Qed.

Lemma keys_set_In d k v k' :
    In k' (Dict.keys (Dict.set d k v)) <-> k' = k \/ In k' (Dict.keys d).
  Proof.
    rewrite keys_set. destruct (Dict.mem d k) eqn:E.
    - apply mem_In_keys in E. intuition congruence.
    - rewrite in_app_iff. simpl. intuition congruence.
  Qed.

Lemma keys_set_NoDup d k v :
    NoDup (Dict.keys d) -> NoDup (Dict.keys (Dict.set d k v)).
  Proof.
    intros H. rewrite keys_set. destruct (Dict.mem d k) eqn:E; [assumption |].
    apply NoDup_app; [assumption | repeat constructor; simpl; tauto |].
    intros a Ha [<- | []]. apply mem_In_keys in Ha. congruence.
  Qed.

Lemma get_or_touch d k k' dflt :
    Dict.get_or (Dict.touch d k dflt) k' dflt = Dict.get_or d k' dflt.
  Proof.
    unfold Dict.touch. destruct (Dict.get d k) eqn:E; [reflexivity |].
    unfold Dict.get_or.
    assert (G : forall d0, Dict.get (d0 ++ [(k, dflt)]) k' =
                  match Dict.get d0 k' with
                  | Some x => Some x
                  | None => if String.eqb k k' then Some dflt else None
                  end).
    { induction d0 as [| [k0 v0] d0 IH]; simpl; [reflexivity |].
      destruct (String.eqb k0 k'); [reflexivity | exact IH]. }
    rewrite G. destruct (Dict.get d k'); [reflexivity |].
    now destruct (String.eqb k k').
  Qed.

Lemma get_map (f : V -> V) d k :
    Dict.get (map (fun kv => (fst kv, f (snd kv))) d) k =
    option_map f (Dict.get d k).
  Proof.
    induction d as [| [k' v'] d IH]; simpl; [reflexivity |].
    destruct (String.eqb k' k); [reflexivity | exact IH].
  Qed.
End Facts.
End DictFacts.
Import DictFacts.

Lemma well_formed_NoDup {V : Type} (d : Dict.t V) :
  Dict.well_formed d = true -> NoDup (Dict.keys d).
Proof.
  unfold Dict.well_formed. generalize (Dict.keys d). intros ks.
  induction ks as [| k ks IH]; simpl; intros H; [constructor |].
  apply andb_true_iff in H. destruct H as [H1 H2].
  apply negb_true_iff, str_in_false in H1.
  constructor; [exact H1 | now apply IH].
Qed.

(** ** Rational comparisons *)

(** [m] is the largest (smallest) element of [l]. *)
Definition is_max_of (m : Q) (l : list Q) : Prop :=
  In m l /\ forall x, In x l -> (x <= m)%Q.

Definition is_min_of (m : Q) (l : list Q) : Prop :=
  In m l /\ forall x, In x l -> (m <= x)%Q.

Lemma Qltb_lt (a b : Q) : Qltb a b = true <-> (a < b)%Q.
Proof. unfold Qltb, Qlt. apply Z.ltb_lt. Qed.

Lemma Qltb_ge (a b : Q) : Qltb a b = false <-> (b <= a)%Q.
Proof. unfold Qltb, Qle. apply Z.ltb_ge. Qed.

Lemma pymax_cases (a b : Q) :
  (pymax a b = a /\ (b <= a)%Q) \/ (pymax a b = b /\ (a < b)%Q).
Proof.
  unfold pymax. destruct (Qltb a b) eqn:E.
  - right. split; [reflexivity | now apply Qltb_lt].
  - left. split; [reflexivity | now apply Qltb_ge].
Qed.

Lemma pymin_cases (a b : Q) :
  (pymin a b = a /\ (a <= b)%Q) \/ (pymin a b = b /\ (b < a)%Q).
Proof.
  unfold pymin. destruct (Qltb b a) eqn:E.
  - right. split; [reflexivity | now apply Qltb_lt].
  - left. split; [reflexivity | now apply Qltb_ge].
Qed.

(** ** The Kahn loop terminates *)

Lemma positives_set (deg : Dict.t Z) (k : string) (v : Z) :
  positives (Dict.set deg k v) + (if (0 <? Dict.get_or deg k 0)%Z then 1 else 0)
  = positives deg + (if (0 <? v)%Z then 1 else 0).
Proof.
  unfold positives, Dict.get_or.
  induction deg as [| [k' v'] deg IH]; simpl.
  - destruct (0 <? v)%Z; simpl; lia.
  - destruct (String.eqb k' k) eqn:E; simpl.
    + destruct (0 <? v)%Z, (0 <? v')%Z; simpl; lia.
    + destruct (0 <? v')%Z; simpl; lia.
Qed.

Lemma relax_step_fuel (deg : Dict.t Z) (q : list string) (t : string) :
  kahn_fuel (fst (relax_step (deg, q) t)) (snd (relax_step (deg, q) t))
  = kahn_fuel deg q.
Proof.
  unfold relax_step, kahn_fuel.
  pose proof (positives_set deg t (Dict.get_or deg t 0 - 1)%Z) as P.
  destruct (Dict.get_or deg t 0 - 1 =? 0)%Z eqn:E; simpl.
  - apply Z.eqb_eq in E.
    destruct (0 <? Dict.get_or deg t 0)%Z eqn:E1;
      destruct (0 <? Dict.get_or deg t 0 - 1)%Z eqn:E2;
      try apply Z.ltb_lt in E1; try apply Z.ltb_ge in E1;
      try apply Z.ltb_lt in E2; try apply Z.ltb_ge in E2;
      rewrite length_app; simpl; lia.
  - apply Z.eqb_neq in E.
    destruct (0 <? Dict.get_or deg t 0)%Z eqn:E1;
      destruct (0 <? Dict.get_or deg t 0 - 1)%Z eqn:E2;
      try apply Z.ltb_lt in E1; try apply Z.ltb_ge in E1;
      try apply Z.ltb_lt in E2; try apply Z.ltb_ge in E2;
      lia.
Qed.

Lemma relax_fuel (ts : list string) (deg : Dict.t Z) (q : list string) :
  kahn_fuel (fst (relax ts deg q)) (snd (relax ts deg q)) = kahn_fuel deg q.
Proof.
  unfold relax. revert deg q.
  induction ts as [| t ts IH]; intros deg q; cbn [fold_left]; [reflexivity |].
  destruct (relax_step (deg, q) t) as [deg1 q1] eqn:E.
  rewrite IH. pose proof (relax_step_fuel deg q t) as H.
  now rewrite E in H.
Qed.

Lemma kahn_loop_total (fuel : nat) (g : Dict.t (list string)) (deg : Dict.t Z)
    (q r : list string) :
  kahn_fuel deg q <= fuel -> exists out, kahn_loop fuel g deg q r = Some out.
Proof.
  revert g deg q r.
  induction fuel as [| fuel IH]; intros g deg q r Hf.
  - destruct q as [| c q]; simpl; [eauto |].
    unfold kahn_fuel in Hf. simpl in Hf. lia.
  - destruct q as [| c q]; simpl; [eauto |].
    destruct (relax (Dict.get_or (Dict.touch g c []) c []) deg q)
      as [deg' q'] eqn:E.
    apply IH.
    pose proof (relax_fuel (Dict.get_or (Dict.touch g c []) c []) deg q) as H.
    rewrite E in H. simpl in H. rewrite H.
    unfold kahn_fuel in *. simpl in Hf. lia.
Qed.

(** An invariant of the loop body holds when the loop exits. *)
Lemma kahn_loop_invariant
    (I : Dict.t (list string) -> Dict.t Z -> list string -> list string -> Prop) :
  (forall g deg c q r deg' q',
      I g deg (c :: q) r ->
      relax (Dict.get_or (Dict.touch g c []) c []) deg q = (deg', q') ->
      I (Dict.touch g c []) deg' q' (r ++ [c])) ->
  forall fuel g deg q r g' r',
    I g deg q r ->
    kahn_loop fuel g deg q r = Some (g', r') ->
    exists deg', I g' deg' [] r'.
Proof.
  intros Hstep fuel.
  induction fuel as [| fuel IH]; intros g deg q r g' r' HI Hrun.
  - destruct q; simpl in Hrun; [| discriminate].
    injection Hrun as <- <-. eauto.
  - destruct q as [| c q]; simpl in Hrun.
    + injection Hrun as <- <-. eauto.
    + destruct (relax (Dict.get_or (Dict.touch g c []) c []) deg q)
        as [deg' q'] eqn:E.
      eapply IH; [| exact Hrun]. eapply Hstep; eassumption.
Qed.

(** ** The unit-duration script always returns *)
Module ScriptFacts.
Import Script.

Section Facts.
  Variable order : SetOrder.

Lemma topological_sort_total (g : Dict.t (list string)) (deg : Dict.t Z) :
    exists out, topological_sort g deg = Some out.
  Proof. unfold topological_sort. apply kahn_loop_total. apply Nat.le_refl. Qed.

Lemma push_start_total (node : string) (ts : list string) (es : Dict.t Z) :
    Dict.mem es node = true ->
    exists es', fold_left (push_start node) ts (Some es) = Some es'
                /\ Dict.mem es' node = true.
  Proof.
    revert es. induction ts as [| t ts IH]; intros es Hm; simpl; [eauto |].
    assert (Hg : exists start, Dict.get es node = Some start).
    { unfold Dict.mem in Hm. destruct (Dict.get es node); [eauto | discriminate]. }
    destruct Hg as [start Hg]. rewrite Hg.
    assert (Hset : Dict.mem (Dict.set es t (start + 1)%Z) node = true).
    { apply mem_In_keys, keys_set_In. right. now apply mem_In_keys. }
    destruct (Dict.get es t) as [old |].
    - destruct (old <? start + 1)%Z; now apply IH.
    - now apply IH.
  Qed.

Lemma forward_step_total (gd : Dict.t (list string) * Dict.t Z)
      (node : string) : exists out, forward_step gd node = Some out.
  Proof.
    destruct gd as [g es]. unfold forward_step.
    set (es1 := if Dict.mem es node then es else Dict.set es node 0%Z).
    assert (Hm : Dict.mem es1 node = true).
    { subst es1. destruct (Dict.mem es node) eqn:E; [exact E |].
      apply mem_In_keys, keys_set_In. now left. }
    destruct (push_start_total node
                (Dict.get_or (Dict.touch g node []) node []) es1 Hm)
      as [es' [He _]].
    rewrite He. eauto.
  Qed.

Lemma forward_total (topo : list string)
      (gd : Dict.t (list string) * Dict.t Z) :
    exists out, foldM forward_step topo gd = Some out.
  Proof.
    revert gd. induction topo as [| n topo IH]; intros gd; simpl; [eauto |].
    destruct (forward_step_total gd n) as [out ->]. apply IH.
  Qed.

Lemma calculate_critical_path_total (gr : Graph) :
    exists out, calculate_critical_path order gr = Some out.
  Proof.
    unfold calculate_critical_path.
    destruct (topological_sort_total (graph gr) (in_degree gr)) as [[g topo] ->].
    destruct (forward_total topo
      (g, fold_left
            (fun es node =>
               if (Dict.get_or (in_degree gr) node 0 =? 0)%Z
               then Dict.set es node 0%Z else es)
            (set_iter order (all_nodes gr)) [])) as [[g1 es] ->].
    destruct (fold_left (backward_step (out_degree gr) es) (rev topo) _).
    eauto.
  Qed.

Lemma fold_set_add_incl (f : string -> bool) (l acc : list string) (x : string) :
    In x (fold_left (fun crit node => if f node then set_add node crit else crit)
                    l acc) ->
    In x acc \/ (In x l /\ f x = true).
  Proof.
    revert acc. induction l as [| n l IH]; intros acc H; simpl in H; [tauto |].
    apply IH in H. destruct H as [H | [H1 H2]]; [| simpl; tauto].
    destruct (f n) eqn:E; [| tauto].
    apply set_add_In in H. destruct H as [-> | H]; simpl; tauto.
  Qed.

Lemma critical_nodes_in_all_nodes (gr : Graph) crit es ls (x : string) :
    calculate_critical_path order gr = Some (crit, es, ls) ->
    In x crit -> In x (all_nodes gr).
  Proof.
    unfold calculate_critical_path.
    destruct (topological_sort (graph gr) (in_degree gr)) as [[g topo] |];
      [| discriminate].
    destruct (foldM forward_step topo _) as [[g1 es1] |]; [| discriminate].
    destruct (fold_left (backward_step (out_degree gr) es1) (rev topo) _)
      as [g2 ls2].
    intros [= <- <- <-] H.
    apply fold_set_add_incl in H. destruct H as [[] | [H _]].
    now apply set_iter_In in H.
  Qed.

Lemma build_graph_step_all_nodes (deps : list Dependency) (g : Graph)
      (x : string) :
    In x (all_nodes (fold_left build_graph_step deps g)) <->
    In x (all_nodes g) \/
    exists dep, In dep deps /\ (x = source dep \/ x = target dep).
  Proof.
    revert g. induction deps as [| d deps IH]; intros g; simpl.
    - split; [tauto | intros [H | [dep [[] _]]]; exact H].
    - rewrite IH. simpl. rewrite !set_add_In. split.
      + intros [[-> | [-> | H]] | [dep [H1 H2]]]; eauto 6.
      + intros [H | [dep [[<- | H1] H2]]]; eauto 6.
        destruct H2 as [-> | ->]; tauto.
  Qed.

Lemma build_graph_all_nodes (deps : list Dependency) (x : string) :
    In x (all_nodes (build_graph order deps)) <->
    exists dep, In dep deps /\ (x = source dep \/ x = target dep).
  Proof.
    unfold build_graph.
    destruct (fold_left _ (set_iter order _) _) as [ind outd]. simpl.
    rewrite build_graph_step_all_nodes. simpl. tauto.
  Qed.

Lemma create_missing_nodes_app (nodes : list Node) (deps : list Dependency) :
    create_missing_nodes order nodes deps =
    nodes ++ map placeholder_node
               (set_iter order
                  (set_diff (referenced_node_ids deps)
                            (set_of_list (map id nodes)))).
  Proof.
    unfold create_missing_nodes.
    generalize (set_iter order
                  (set_diff (referenced_node_ids deps)
                            (set_of_list (map id nodes)))).
    intros l. revert nodes. induction l as [| x l IH]; intros nodes; simpl.
    - now rewrite app_nil_r.
    - rewrite IH, <- app_assoc. reflexivity.
  Qed.

Lemma main_total (nodes : list Node) (deps : list Dependency) :
    exists out, main order nodes deps = Some out.
  Proof.
    unfold main. destruct deps as [| d deps]; [eauto |].
    destruct (calculate_critical_path_total (build_graph order (d :: deps)))
      as [[[crit es] ls] ->].
    eauto.
  Qed.

End Facts.
End ScriptFacts.

(** ** Annotation in the unit-duration script *)
Module ScriptAnnotation.
Import Script ScriptFacts.

Section Facts.
  Variable order : SetOrder.

Definition edge_label (crit : list string) (dep : Dependency) : string :=
    if str_in (source dep) crit && str_in (target dep) crit
    then "critical" else "parallel".

Lemma pair_in_spec (e : string * string) (es : list (string * string)) :
    pair_in e es = true <-> In e es.
  Proof.
    unfold pair_in. rewrite existsb_exists. split.
    - intros [[a b] [Hin He]]. destruct e as [x y]. simpl in He.
      apply andb_true_iff in He. destruct He as [H1 H2].
      apply String.eqb_eq in H1, H2. now subst.
    - intros H. exists e. split; [exact H |].
      now rewrite !String.eqb_refl.
  Qed.

Lemma critical_edges_spec (crit : list string) (deps : list Dependency)
      (acc : list (string * string)) (e : string * string) :
    In e (fold_left
            (fun ce dep =>
               if str_in (source dep) crit && str_in (target dep) crit
               then if pair_in (source dep, target dep) ce then ce
                    else ce ++ [(source dep, target dep)]
               else ce) deps acc) <->
    In e acc \/
    exists dep, In dep deps /\ e = (source dep, target dep)
                /\ str_in (source dep) crit && str_in (target dep) crit = true.
  Proof.
    revert acc. induction deps as [| d deps IH]; intros acc; simpl.
    - split; [tauto | intros [H | [dep [[] _]]]; exact H].
    - rewrite IH. clear IH.
      destruct (str_in (source d) crit && str_in (target d) crit) eqn:E.
      + destruct (pair_in (source d, target d) acc) eqn:P.
        * apply pair_in_spec in P. split.
          -- intros [H | [dep [H1 H2]]]; eauto 6.
          -- intros [H | [dep [[<- | H1] [H2 H3]]]];
               [now left | subst e; now left | eauto 6].
        * rewrite in_app_iff. simpl. split.
          -- intros [[H | [<- | []]] | [dep [H1 H2]]]; eauto 7.
          -- intros [H | [dep [[<- | H1] [H2 H3]]]];
               [tauto | subst e; tauto | eauto 7].
      + split.
        * intros [H | [dep [H1 H2]]]; eauto 6.
        * intros [H | [dep [[<- | H1] [H2 H3]]]];
            [now left | congruence | eauto 6].
  Qed.

  (** The two outputs of [update_nodes_and_dependencies], in closed form. *)
Lemma update_nodes_and_dependencies_spec (nodes : list Node)
      (deps : list Dependency) (crit : list string) :
    update_nodes_and_dependencies order nodes deps crit =
    (map (fun node => set_onCriticalPath node (str_in (id node) crit))
         (create_missing_nodes order nodes deps),
     map (fun dep => set_pathType dep (edge_label crit dep)) deps).
  Proof.
    unfold update_nodes_and_dependencies. f_equal.
    apply map_ext_in. intros dep Hdep. unfold edge_label.
    destruct (str_in (source dep) crit && str_in (target dep) crit) eqn:E.
    - assert (P : pair_in (source dep, target dep)
                (fold_left
                   (fun ce dep0 =>
                      if str_in (source dep0) crit && str_in (target dep0) crit
                      then if pair_in (source dep0, target dep0) ce then ce
                           else ce ++ [(source dep0, target dep0)]
                      else ce) deps []) = true).
      { apply pair_in_spec, critical_edges_spec. right. eauto. }
      now rewrite P.
    - destruct (pair_in _ _) eqn:P; [| reflexivity].
      apply pair_in_spec, critical_edges_spec in P.
      destruct P as [[] | [dep' [_ [He Hc]]]].
      injection He as Hs Ht. rewrite Hs, Ht in E. congruence.
  Qed.

Lemma build_graph_relabel (f : Dependency -> Dependency)
      (deps : list Dependency) :
    (forall dep, source (f dep) = source dep /\ target (f dep) = target dep) ->
    build_graph order (map f deps) = build_graph order deps.
  Proof.
    intros Hf. unfold build_graph.
    assert (G : forall g, fold_left build_graph_step (map f deps) g =
                          fold_left build_graph_step deps g).
    { induction deps as [| d deps IH]; intros g; simpl; [reflexivity |].
      rewrite IH. f_equal. unfold build_graph_step.
      destruct (Hf d) as [-> ->]. reflexivity. }
    now rewrite G.
  Qed.

Lemma referenced_node_ids_relabel (f : Dependency -> Dependency)
      (deps : list Dependency) :
    (forall dep, source (f dep) = source dep /\ target (f dep) = target dep) ->
    referenced_node_ids (map f deps) = referenced_node_ids deps.
  Proof.
    intros Hf. unfold referenced_node_ids. generalize (@nil string).
    induction deps as [| d deps IH]; intros acc; simpl; [reflexivity |].
    rewrite IH. destruct (Hf d) as [-> ->]. reflexivity.
  Qed.

Lemma referenced_node_ids_In (deps : list Dependency) (x : string) :
    In x (referenced_node_ids deps) <->
    exists dep, In dep deps /\ (x = source dep \/ x = target dep).
  Proof.
    unfold referenced_node_ids.
    assert (G : forall acc,
      In x (fold_left (fun s dep => set_add (target dep) (set_add (source dep) s))
                      deps acc) <->
      In x acc \/ exists dep, In dep deps /\ (x = source dep \/ x = target dep)).
    { induction deps as [| d deps IH]; intros acc; simpl.
      - split; [tauto | intros [H | [dep [[] _]]]; exact H].
      - rewrite IH, !set_add_In. split.
        + intros [[-> | [-> | H]] | [dep [H1 H2]]]; eauto 6.
        + intros [H | [dep [[<- | H1] H2]]]; eauto 6.
          destruct H2 as [-> | ->]; tauto. }
    rewrite G. simpl. tauto.
  Qed.

Lemma set_diff_nil (a b : list string) :
    (forall x, In x a -> In x b) -> set_diff a b = [].
  Proof.
    intros H. unfold set_diff. induction a as [| x a IH]; simpl; [reflexivity |].
    assert (E : str_in x b = true) by (apply str_in_In, H; now left).
    rewrite E. simpl. apply IH. intros y Hy. apply H. now right.
  Qed.

  (** Once the placeholders are in, [create_missing_nodes] adds nothing. *)
Lemma create_missing_nodes_closed (nodes : list Node)
      (deps : list Dependency) :
    (forall dep, In dep deps ->
       In (source dep) (map id nodes) /\ In (target dep) (map id nodes)) ->
    create_missing_nodes order nodes deps = nodes.
  Proof.
    intros H. rewrite create_missing_nodes_app, set_diff_nil.
    - rewrite set_iter_nil. simpl. apply app_nil_r.
    - intros x Hx. apply set_of_list_spec.
      apply referenced_node_ids_In in Hx.
      destruct Hx as [dep [Hd [-> | ->]]]; now apply H.
  Qed.

Lemma create_missing_nodes_ids (nodes : list Node) (deps : list Dependency)
      (dep : Dependency) :
    In dep deps ->
    In (source dep) (map id (create_missing_nodes order nodes deps)) /\
    In (target dep) (map id (create_missing_nodes order nodes deps)).
  Proof.
    intros Hd. rewrite create_missing_nodes_app, map_app, map_map. simpl.
    rewrite map_id.
    assert (G : forall x, (x = source dep \/ x = target dep) ->
              In x (map id nodes ++
                    set_iter order (set_diff (referenced_node_ids deps)
                                             (set_of_list (map id nodes))))).
    { intros x Hx. apply in_or_app.
      destruct (in_dec string_dec x (map id nodes)) as [Hi | Hi]; [now left |].
      right. apply set_iter_In, set_diff_In. split.
      - apply referenced_node_ids_In. eauto.
      - intros Hc. apply Hi. now apply set_of_list_spec. }
    split; apply G; tauto.
  Qed.

End Facts.
End ScriptAnnotation.

Module ScriptRun.
Import Script ScriptFacts ScriptAnnotation.

Section Facts.
  Variable order : SetOrder.

  (** [main] in closed form when there is at least one dependency. *)
Lemma main_spec (nodes : list Node) (deps : list Dependency) :
    deps <> [] ->
    exists crit es ls,
      calculate_critical_path order (build_graph order deps)
        = Some (crit, es, ls) /\
      main order nodes deps =
        Some (map (fun node => set_onCriticalPath node (str_in (id node) crit))
                  (create_missing_nodes order nodes deps),
              map (fun dep => set_pathType dep (edge_label crit dep)) deps).
  Proof.
    intros Hne. destruct deps as [| d deps]; [congruence |].
    destruct (calculate_critical_path_total order
                (build_graph order (d :: deps))) as [[[crit es] ls] Hc].
    exists crit, es, ls. split; [exact Hc |].
    unfold main. rewrite Hc.
    now rewrite update_nodes_and_dependencies_spec.
  Qed.

  (** A second run over the saved collections saves the same collections. *)
Lemma main_idempotent (nodes : list Node) (deps : list Dependency)
      (nodes' : list Node) (deps' : list Dependency) :
    main order nodes deps = Some (nodes', deps') ->
    main order nodes' deps' = Some (nodes', deps').
  Proof.
    destruct deps as [| d deps].
    - simpl. intros [= <- <-]. simpl. rewrite map_map. reflexivity.
    - remember (d :: deps) as ds eqn:Eds.
      assert (Hne : ds <> []) by (subst ds; discriminate).
      clear Eds d deps. intros Hrun.
      destruct (main_spec nodes ds Hne) as [crit [es [ls [Hc Hm]]]].
      rewrite Hm in Hrun. injection Hrun as <- <-.
      set (relabel := fun dep => set_pathType dep (edge_label crit dep)).
      assert (Hrel : forall dep,
                source (relabel dep) = source dep /\
                target (relabel dep) = target dep) by (intros; split; reflexivity).
      assert (Hne2 : map relabel ds <> []).
      { destruct ds; [congruence | discriminate]. }
      destruct (main_spec
                  (map (fun node =>
                          set_onCriticalPath node (str_in (id node) crit))
                       (create_missing_nodes order nodes ds))
                  (map relabel ds) Hne2)
        as [crit2 [es2 [ls2 [Hc2 Hm2]]]].
      rewrite build_graph_relabel in Hc2 by exact Hrel.
      rewrite Hc in Hc2. injection Hc2 as <- <- <-.
      rewrite Hm2. f_equal. f_equal.
      + rewrite create_missing_nodes_closed.
        * rewrite map_map. apply map_ext. intros n. reflexivity.
        * intros dep Hdep. apply in_map_iff in Hdep.
          destruct Hdep as [dep0 [<- Hdep0]].
          rewrite map_map. simpl.
          change (map (fun x => id x) ?l) with (map id l).
          now apply create_missing_nodes_ids.
      + rewrite map_map. apply map_ext. intros dep. reflexivity.
  Qed.

End Facts.
End ScriptRun.

(** C10 (uniform script): with at least one dependency, a node of the node
    collection whose id is neither source nor target of any dependency is
    saved with [onCriticalPath = false]: the critical set is a subset of
    [all_nodes], the endpoints of the dependencies. *)
Theorem isolated_node_not_critical (order : SetOrder) (nodes : list Node)
    (deps : list Dependency) :
  deps <> [] ->
  exists nodes' deps',
    Script.main order nodes deps = Some (nodes', deps') /\
    forall i node,
      nth_error nodes i = Some node ->
      (forall dep, In dep deps ->
         source dep <> id node /\ target dep <> id node) ->
      nth_error nodes' i = Some (set_onCriticalPath node false).
Proof.
  intros Hne.
  destruct (ScriptRun.main_spec order nodes deps Hne)
    as [crit [es [ls [Hc Hm]]]].
  eexists _, _. split; [exact Hm |].
  intros i node Hnth Hiso.
  rewrite ScriptFacts.create_missing_nodes_app, map_app.
  rewrite nth_error_app1.
  2: { rewrite length_map. apply nth_error_Some. congruence. }
  rewrite nth_error_map, Hnth. simpl. do 2 f_equal.
  apply str_in_false. intros Hin.
  eapply ScriptFacts.critical_nodes_in_all_nodes in Hin; [| exact Hc].
  apply ScriptFacts.build_graph_all_nodes in Hin.
  destruct Hin as [dep [Hd He]].
  destruct (Hiso dep Hd) as [H1 H2].
  destruct He; congruence.
Qed.

Lemma isolated_node_not_critical_witness :
  exists nodes' deps',
    Script.main insertion_order
      [Samples.node "X" "High" "To Do"; Samples.node "A" "Low" "Done"]
      [Samples.dep "A" "B"] = Some (nodes', deps') /\
    forall i node,
      nth_error [Samples.node "X" "High" "To Do"; Samples.node "A" "Low" "Done"]
                i = Some node ->
      (forall dep, In dep [Samples.dep "A" "B"] ->
         source dep <> id node /\ target dep <> id node) ->
      nth_error nodes' i = Some (set_onCriticalPath node false).
Proof.
  apply (isolated_node_not_critical insertion_order
           [Samples.node "X" "High" "To Do"; Samples.node "A" "Low" "Done"]
           [Samples.dep "A" "B"]).
  discriminate.
Defined.

(** ** The weighted script: graph construction *)
Module Script2Graph.
Import Script2.

Definition kept (nds : Dict.t Node) (dep : Dependency) : bool :=
    Dict.mem nds (source dep) && Dict.mem nds (target dep).

Lemma build_graph_fold (nds : Dict.t Node) (deps : list Dependency) :
    forall g rg g' rg',
      fold_left (build_graph_step nds) deps (g, rg) = (g', rg') ->
      (forall u, Dict.get_or g' u [] =
                 Dict.get_or g u [] ++
                 map target
                   (filter (fun d => kept nds d && String.eqb (source d) u) deps))
      /\ (forall v, Dict.get_or rg' v [] =
                    Dict.get_or rg v [] ++
                    map source
                      (filter (fun d => kept nds d && String.eqb (target d) v)
                              deps))
      /\ (NoDup (Dict.keys g) -> NoDup (Dict.keys g')).
  Proof.
    induction deps as [| d deps IH]; intros g rg g' rg' Hf; cbn [fold_left] in Hf.
    - injection Hf as <- <-. simpl.
      repeat split; intros; try now rewrite app_nil_r. assumption.
    - assert (Hstep : build_graph_step nds (g, rg) d =
        if kept nds d then
          (Dict.set g (source d) (Dict.get_or g (source d) [] ++ [target d]),
           Dict.set rg (target d) (Dict.get_or rg (target d) [] ++ [source d]))
        else (g, rg)) by reflexivity.
      rewrite Hstep in Hf. clear Hstep.
      destruct (kept nds d) eqn:K; apply IH in Hf; destruct Hf as [H1 [H2 H3]].
      + repeat split.
        * intros u. rewrite H1. cbn [filter]. rewrite K. cbn [andb].
          destruct (String.eqb (source d) u) eqn:E.
          -- apply String.eqb_eq in E. subst u.
             rewrite get_or_set_same, <- app_assoc. reflexivity.
          -- apply String.eqb_neq in E.
             rewrite get_or_set_other by congruence. reflexivity.
        * intros v. rewrite H2. cbn [filter]. rewrite K. cbn [andb].
          destruct (String.eqb (target d) v) eqn:E.
          -- apply String.eqb_eq in E. subst v.
             rewrite get_or_set_same, <- app_assoc. reflexivity.
          -- apply String.eqb_neq in E.
             rewrite get_or_set_other by congruence. reflexivity.
        * intros Hnd. apply H3. now apply keys_set_NoDup.
      + repeat split.
        * intros u. rewrite H1. cbn [filter]. rewrite K. reflexivity.
        * intros v. rewrite H2. cbn [filter]. rewrite K. reflexivity.
        * exact H3.
  Qed.

  (** Well-formed adjacency: what [build_graph] establishes. *)
Record graph_ok (self : Calculator) : Prop := {
    graph_keys : NoDup (Dict.keys (graph self));
    graph_reverse :
      forall u v, In v (Dict.get_or (graph self) u [])
                  <-> In u (Dict.get_or (reverse_graph self) v []);
    graph_nodes :
      forall u v, In v (Dict.get_or (graph self) u []) ->
                  In u (Dict.keys (nodes self))
                  /\ In v (Dict.keys (nodes self))
  }.

Lemma build_graph_adjacent (self : Calculator) (u v : string) :
    In v (Dict.get_or (graph (build_graph self)) u []) <->
    exists dep, In dep (dependencies self) /\ kept (nodes self) dep = true
                /\ source dep = u /\ target dep = v.
  Proof.
    unfold build_graph.
    destruct (fold_left (build_graph_step (nodes self)) (dependencies self)
                        ([], [])) as [g rg] eqn:H.
    apply build_graph_fold in H. simpl in *. destruct H as [H1 _]. rewrite H1. simpl.
    rewrite in_map_iff. split.
    - intros [dep [Ht Hf]]. apply filter_In in Hf. destruct Hf as [Hin Hb].
      apply andb_true_iff in Hb. destruct Hb as [Hk He].
      apply String.eqb_eq in He. eauto.
    - intros [dep [Hin [Hk [Hs Ht]]]]. exists dep. split; [exact Ht |].
      apply filter_In. split; [exact Hin |].
      rewrite Hk. simpl. now apply String.eqb_eq.
  Qed.

Lemma build_graph_reverse_adjacent (self : Calculator) (u v : string) :
    In u (Dict.get_or (reverse_graph (build_graph self)) v []) <->
    exists dep, In dep (dependencies self) /\ kept (nodes self) dep = true
                /\ source dep = u /\ target dep = v.
  Proof.
    unfold build_graph.
    destruct (fold_left (build_graph_step (nodes self)) (dependencies self)
                        ([], [])) as [g rg] eqn:H.
    apply build_graph_fold in H. simpl in *. destruct H as [_ [H2 _]]. rewrite H2. simpl.
    rewrite in_map_iff. split.
    - intros [dep [Ht Hf]]. apply filter_In in Hf. destruct Hf as [Hin Hb].
      apply andb_true_iff in Hb. destruct Hb as [Hk He].
      apply String.eqb_eq in He. eauto.
    - intros [dep [Hin [Hk [Hs Ht]]]]. exists dep. split; [exact Hs |].
      apply filter_In. split; [exact Hin |].
      rewrite Hk. simpl. now apply String.eqb_eq.
  Qed.

Lemma build_graph_nodes (self : Calculator) :
    nodes (build_graph self) = nodes self
    /\ dependencies (build_graph self) = dependencies self.
  Proof.
    unfold build_graph.
    destruct (fold_left (build_graph_step (nodes self)) (dependencies self)
                        ([], [])) as [g rg].
    split; reflexivity.
  Qed.

Lemma build_graph_ok (self : Calculator) : graph_ok (build_graph self).
  Proof.
    constructor.
    - unfold build_graph.
      destruct (fold_left (build_graph_step (nodes self)) (dependencies self)
                          ([], [])) as [g rg] eqn:H.
      apply build_graph_fold in H. simpl in *. apply H. constructor.
    - intros u v.
      now rewrite build_graph_adjacent, build_graph_reverse_adjacent.
    - intros u v H. apply build_graph_adjacent in H.
      destruct H as [dep [_ [Hk [<- <-]]]].
      unfold kept in Hk. apply andb_true_iff in Hk.
      destruct (build_graph_nodes self) as [-> _].
      split; apply mem_In_keys; tauto.
  Qed.

End Script2Graph.

(** ** The Kahn loop emits every node after all of its predecessors *)
Section KahnOrder.

Definition countZ (v : string) (l : list string) : Z :=
    Z.of_nat (count_occ string_dec l v).

Lemma countZ_nonneg (v : string) (l : list string) : (0 <= countZ v l)%Z.
  Proof. unfold countZ. lia. Qed.

Lemma countZ_cons (v x : string) (l : list string) :
    countZ v (x :: l) = ((if String.eqb x v then 1 else 0) + countZ v l)%Z.
  Proof.
    unfold countZ. simpl. destruct (string_dec x v) as [-> | Hne].
    - rewrite String.eqb_refl. lia.
    - apply String.eqb_neq in Hne. rewrite Hne. lia.
  Qed.

Lemma countZ_pos_In (v : string) (l : list string) :
    (0 < countZ v l)%Z <-> In v l.
  Proof.
    unfold countZ. rewrite (count_occ_In string_dec). lia.
  Qed.

  (** [adj u]: the successors of [u]; [sources]: the keys of the graph. *)
  Variable adj : string -> list string.
  Variable sources : list string.
  Hypothesis sources_NoDup : NoDup sources.
  Hypothesis adj_outside : forall u, ~ In u sources -> adj u = [].

  (** Edges into [v] from sources that are not in [done]. *)
Definition remaining_on (L done : list string) (v : string) : Z :=
    fold_right
      (fun u acc =>
         ((if str_in u done then 0 else countZ v (adj u)) + acc)%Z)
      0%Z L.

Definition remaining := remaining_on sources.

Lemma remaining_on_nonneg L done v : (0 <= remaining_on L done v)%Z.
  Proof.
    induction L as [| a L IH]; simpl; [lia |].
    pose proof (countZ_nonneg v (adj a)). destruct (str_in a done); lia.
  Qed.

Lemma remaining_on_snoc L done u v :
    NoDup L -> ~ In u done ->
    (remaining_on L (done ++ [u]) v
     + (if str_in u L then countZ v (adj u) else 0)
     = remaining_on L done v)%Z.
  Proof.
    intros Hnd Hu. induction L as [| a L IH]; simpl; [reflexivity |].
    inversion Hnd as [| ? ? Ha HL]; subst. specialize (IH HL).
    rewrite str_in_app. simpl. rewrite orb_false_r.
    destruct (String.eqb a u) eqn:E.
    - apply String.eqb_eq in E. subst a.
      rewrite String.eqb_refl in *. simpl.
      apply str_in_false in Ha. rewrite Ha in IH.
      apply str_in_false in Hu. rewrite Hu. simpl. lia.
    - rewrite String.eqb_sym, E. simpl.
      rewrite orb_false_r. destruct (str_in a done); lia.
  Qed.

Lemma remaining_snoc done u v :
    ~ In u done ->
    (remaining (done ++ [u]) v + countZ v (adj u) = remaining done v)%Z.
  Proof.
    intros Hu. unfold remaining.
    rewrite <- (remaining_on_snoc sources done u v sources_NoDup Hu).
    destruct (str_in u sources) eqn:E; [reflexivity |].
    apply str_in_false in E. rewrite (adj_outside u E). reflexivity.
  Qed.

Lemma remaining_on_zero L done v u :
    (remaining_on L done v <= 0)%Z -> In u L -> In v (adj u) -> In u done.
  Proof.
    induction L as [| a L IH]; simpl; [tauto |].
    intros Hz [-> | Hin] Hv.
    - pose proof (remaining_on_nonneg L done v).
      destruct (str_in u done) eqn:E; [now apply str_in_In |].
      apply countZ_pos_In in Hv. lia.
    - apply IH; try assumption.
      pose proof (remaining_on_nonneg L done v).
      pose proof (countZ_nonneg v (adj a)).
      destruct (str_in a done); lia.
  Qed.

Lemma remaining_zero done v u :
    (remaining done v <= 0)%Z -> In v (adj u) -> In u done.
  Proof.
    intros Hz Hv.
    destruct (in_dec string_dec u sources) as [Hin | Hout].
    - eapply remaining_on_zero; eassumption.
    - rewrite (adj_outside u Hout) in Hv. destruct Hv.
  Qed.

  (** The counters after the inner [for] loop. *)
Lemma relax_deg (ts : list string) (deg : Dict.t Z) (q : list string)
      (v : string) :
    Dict.get_or (fst (relax ts deg q)) v 0%Z
    = (Dict.get_or deg v 0 - countZ v ts)%Z.
  Proof.
    unfold relax. revert deg q.
    induction ts as [| t ts IH]; intros deg q; cbn [fold_left].
    - unfold countZ. simpl. lia.
    - assert (Hs : exists q1,
          relax_step (deg, q) t =
          (Dict.set deg t (Dict.get_or deg t 0 - 1)%Z, q1)).
      { unfold relax_step. destruct (_ =? _)%Z; eauto. }
      destruct Hs as [q1 ->]. rewrite IH, countZ_cons.
      destruct (String.eqb t v) eqn:E.
      + apply String.eqb_eq in E. subst v. rewrite get_or_set_same. lia.
      + apply String.eqb_neq in E.
        rewrite get_or_set_other by congruence. lia.
  Qed.

  (** What the inner [for] loop appends to the queue: exactly the ids whose
      counter steps from positive to zero. *)
Lemma relax_queue (ts : list string) (deg : Dict.t Z) (q : list string) :
    exists pushed,
      snd (relax ts deg q) = q ++ pushed
      /\ NoDup pushed
      /\ (forall p, In p pushed ->
            In p ts /\ (0 < Dict.get_or deg p 0)%Z
            /\ (Dict.get_or (fst (relax ts deg q)) p 0 <= 0)%Z)
      /\ (forall v, (0 < Dict.get_or deg v 0)%Z ->
            (Dict.get_or (fst (relax ts deg q)) v 0 <= 0)%Z -> In v pushed).
Proof.
    revert deg q. induction ts as [| t ts IH]; intros deg q.
    - exists []. simpl. rewrite app_nil_r.
      split; [reflexivity |]. split; [constructor |].
      split; [intros p [] |]. intros v H1 H2. lia.
    - unfold relax. cbn [fold_left].
      set (d := (Dict.get_or deg t 0 - 1)%Z).
      set (deg1 := Dict.set deg t d).
      assert (Hs : relax_step (deg, q) t =
                   (deg1, if (d =? 0)%Z then q ++ [t] else q)).
      { unfold relax_step. fold d. fold deg1. now destruct (d =? 0)%Z. }
      rewrite Hs. clear Hs.
      destruct (IH deg1 (if (d =? 0)%Z then q ++ [t] else q))
        as [pushed [Hq [Hnd [Hp Hall]]]].
      unfold relax in Hq, Hp, Hall.
      assert (Hold : forall p, (0 < Dict.get_or deg1 p 0)%Z ->
                               (0 < Dict.get_or deg p 0)%Z).
      { intros p. subst deg1. destruct (string_dec p t) as [-> | Hne].
        - rewrite get_or_set_same. subst d. lia.
        - now rewrite get_or_set_other. }
      assert (Hother : forall v, v <> t ->
                         Dict.get_or deg1 v 0%Z = Dict.get_or deg v 0%Z).
      { intros v Hv. subst deg1. now apply get_or_set_other. }
      assert (Hsame : Dict.get_or deg1 t 0%Z = d).
      { subst deg1. apply get_or_set_same. }
      destruct (d =? 0)%Z eqn:E.
      + apply Z.eqb_eq in E. exists (t :: pushed).
        split; [rewrite Hq, <- app_assoc; reflexivity |].
        split; [| split].
        * constructor; [| exact Hnd]. intros Hin.
          destruct (Hp t Hin) as [_ [Hpos _]]. lia.
        * intros p [<- | Hin].
          -- split; [now left |]. split; [subst d; lia |].
             pose proof (relax_deg ts deg1 (q ++ [t]) t) as R.
             unfold relax in R. rewrite R.
             pose proof (countZ_nonneg t ts). lia.
          -- destruct (Hp p Hin) as [H1 [H2 H3]].
             split; [now right |]. split; [now apply Hold | exact H3].
        * intros v H1 H2. destruct (string_dec v t) as [-> | Hne];
            [now left |].
          right. apply Hall; [| exact H2]. now rewrite Hother.
      + apply Z.eqb_neq in E.
        exists pushed. split; [exact Hq |]. split; [exact Hnd |]. split.
        * intros p Hin. destruct (Hp p Hin) as [H1 [H2 H3]].
          split; [now right |]. split; [now apply Hold | exact H3].
        * intros v H1 H2. apply Hall; [| exact H2].
          destruct (string_dec v t) as [-> | Hne].
          -- rewrite Hsame.
             pose proof (relax_deg ts deg1 q t) as R. unfold relax in R.
             rewrite R, Hsame in H2. pose proof (countZ_nonneg t ts).
             subst d. lia.
          -- now rewrite Hother.
Qed.

  (** A positive count of remaining edges names one of them. *)
Lemma remaining_on_pos L done v :
    (0 < remaining_on L done v)%Z ->
    exists u, In u L /\ ~ In u done /\ In v (adj u).
Proof.
    induction L as [| a L IH]; simpl; [lia |]. intros H.
    destruct (str_in a done) eqn:E.
    - destruct IH as [u [H1 H2]]; [lia |]. exists u. tauto.
    - destruct (Z.lt_ge_cases 0 (countZ v (adj a))) as [Hpos | Hz].
      + exists a. apply str_in_false in E. apply countZ_pos_In in Hpos. tauto.
      + destruct IH as [u [H1 H2]]; [lia |]. exists u. tauto.
Qed.

End KahnOrder.

Section KahnInvariant.

  Variable adj : string -> list string.
  Variable sources : list string.
  Variable node_keys : list string.
  Hypothesis sources_NoDup : NoDup sources.
  Hypothesis adj_outside : forall u, ~ In u sources -> adj u = [].
  Hypothesis adj_nodes : forall u v, In v (adj u) -> In v node_keys.

  (** [u] occurs strictly before [v] in [l]. *)
Definition before (u v : string) (l : list string) : Prop :=
    exists l1 l2, l = l1 ++ v :: l2 /\ In u l1.

Record kahn_inv (g : Dict.t (list string)) (deg : Dict.t Z)
      (q r : list string) : Prop := {
    inv_graph : forall k, Dict.get_or g k [] = adj k;
    inv_done : forall v, In v (q ++ r) -> (Dict.get_or deg v 0 <= 0)%Z;
    inv_nodup : NoDup (r ++ q);
    inv_remaining :
      forall v, Dict.get_or deg v 0%Z = remaining adj sources r v;
    inv_pending :
      forall v, In v node_keys ->
                In v (q ++ r) \/ (0 < Dict.get_or deg v 0)%Z;
    inv_ready : forall v, In v q -> forall u, In v (adj u) -> In u r;
    inv_ordered : forall v, In v r -> forall u, In v (adj u) -> before u v r;
    inv_nodes : forall v, In v (q ++ r) -> In v node_keys
  }.

Lemma kahn_inv_step g deg c q r deg' q' :
    kahn_inv g deg (c :: q) r ->
    relax (Dict.get_or (Dict.touch g c []) c []) deg q = (deg', q') ->
    kahn_inv (Dict.touch g c []) deg' q' (r ++ [c]).
  Proof.
    intros [Hg Hdone Hnd Hrem Hpend Hready Hord Hnodes] Hrelax.
    rewrite get_or_touch, Hg in Hrelax.
    destruct (relax_queue (adj c) deg q) as [pushed [Hq [Hpnd [Hp Hall]]]].
    pose proof (relax_deg (adj c) deg q) as Hdeg.
    rewrite Hrelax in Hq, Hp, Hall, Hdeg. simpl in Hq, Hp, Hall, Hdeg.
    subst q'.
    assert (Hc : ~ In c r).
    { intros Hin. apply NoDup_remove_2 in Hnd. apply Hnd.
      apply in_or_app. now left. }
    assert (Hmono : forall v, (Dict.get_or deg' v 0 <= Dict.get_or deg v 0)%Z).
    { intros v. rewrite Hdeg. pose proof (countZ_nonneg v (adj c)). lia. }
    assert (Hrem' : forall v,
              Dict.get_or deg' v 0%Z = remaining adj sources (r ++ [c]) v).
    { intros v. rewrite Hdeg.
      pose proof (remaining_snoc adj sources sources_NoDup adj_outside r c v Hc).
      specialize (Hrem v). lia. }
    assert (Hmem : forall v, In v q \/ In v r \/ v = c -> In v ((c :: q) ++ r)).
    { intros v Hv. simpl. rewrite in_app_iff. intuition congruence. }
    constructor.
    - intros k. now rewrite get_or_touch.
    - intros v Hv. rewrite !in_app_iff in Hv. simpl in Hv.
      destruct Hv as [[Hv | Hv] | [Hv | [<- | []]]].
      + eapply Z.le_trans; [apply Hmono |]. apply Hdone, Hmem. tauto.
      + now apply Hp.
      + eapply Z.le_trans; [apply Hmono |]. apply Hdone, Hmem. tauto.
      + eapply Z.le_trans; [apply Hmono |]. apply Hdone, Hmem. tauto.
    - replace ((r ++ [c]) ++ q ++ pushed) with ((r ++ c :: q) ++ pushed)
        by (rewrite <- !app_assoc; reflexivity).
      apply NoDup_app; [exact Hnd | exact Hpnd |].
      intros a Ha Hpa. destruct (Hp a Hpa) as [_ [Hpos _]].
      assert (Dict.get_or deg a 0 <= 0)%Z; [| lia].
      apply Hdone, Hmem. rewrite in_app_iff in Ha. simpl in Ha.
      intuition congruence.
    - exact Hrem'.
    - intros v Hv.
      destruct (Hpend v Hv) as [Hin | Hpos].
      + left. simpl in Hin. rewrite in_app_iff in Hin.
        rewrite !in_app_iff. simpl. intuition congruence.
      + destruct (Z.lt_ge_cases 0 (Dict.get_or deg' v 0%Z)) as [H | H];
          [now right |].
        left. rewrite !in_app_iff. left. right. apply Hall; [exact Hpos | lia].
    - intros v Hv u Hu. apply in_app_iff in Hv. destruct Hv as [Hv | Hv].
      + apply in_or_app. left. apply (Hready v); [now right | exact Hu].
      + destruct (Hp v Hv) as [_ [_ Hle]].
        eapply (remaining_zero adj sources adj_outside); [| exact Hu].
        rewrite <- Hrem'. exact Hle.
    - intros v Hv u Hu. apply in_app_iff in Hv. destruct Hv as [Hv | [<- | []]].
      + destruct (Hord v Hv u Hu) as [l1 [l2 [-> Hin]]].
        exists l1, (l2 ++ [c]). split; [| exact Hin].
        rewrite <- app_assoc. reflexivity.
      + exists r, []. split; [reflexivity |].
        apply (Hready c); [now left | exact Hu].
    - intros v Hv. rewrite !in_app_iff in Hv. simpl in Hv.
      destruct Hv as [[Hv | Hv] | [Hv | [<- | []]]].
      + apply Hnodes, Hmem. tauto.
      + destruct (Hp v Hv) as [Hin _]. eapply adj_nodes. exact Hin.
      + apply Hnodes, Hmem. tauto.
      + apply Hnodes, Hmem. tauto.
  Qed.

Lemma kahn_loop_ordered fuel g deg q g' r' :
    kahn_inv g deg q [] ->
    kahn_loop fuel g deg q [] = Some (g', r') ->
    (forall k, Dict.get_or g' k [] = adj k)
    /\ NoDup r'
    /\ (forall v, In v r' -> In v node_keys)
    /\ (forall v, In v r' -> forall u, In v (adj u) -> before u v r')
    /\ (forall v, In v node_keys -> ~ In v r' ->
          exists u, ~ In u r' /\ In v (adj u)).
Proof.
    intros Hinv Hrun.
    destruct (kahn_loop_invariant kahn_inv kahn_inv_step
                fuel g deg q [] g' r' Hinv Hrun) as [deg' H].
    destruct H as [Hg Hdone Hnd Hrem Hpend Hready Hord Hnodes].
    rewrite app_nil_r in Hnd. simpl in Hnodes, Hpend.
    repeat (split; [assumption |]).
    intros v Hv Hni. destruct (Hpend v Hv) as [Hin | Hpos]; [contradiction |].
    rewrite Hrem in Hpos. apply remaining_on_pos in Hpos.
    destruct Hpos as [u [_ H]]. exists u. exact H.
Qed.

End KahnInvariant.

(** ** The weighted script: topological order *)
Module Script2Order.
Import Script2 Script2Graph.

  (** Successors and predecessors as the passes read them. *)
Definition succs (self : Calculator) (u : string) : list string :=
    Dict.get_or (graph self) u [].
Definition preds (self : Calculator) (v : string) : list string :=
    Dict.get_or (reverse_graph self) v [].

Lemma zero_fill (ks : list string) (acc : Dict.t Z) (v : string) :
    Dict.get_or acc v 0%Z = 0%Z ->
    Dict.get_or (fold_left (fun deg k => Dict.set deg k 0%Z) ks acc) v 0%Z = 0%Z.
  Proof.
    revert acc. induction ks as [| k ks IH]; intros acc H; simpl; [exact H |].
    apply IH. destruct (string_dec v k) as [-> | Hne].
    - now rewrite get_or_set_same.
    - now rewrite get_or_set_other.
  Qed.

Lemma count_targets (ts : list string) (deg : Dict.t Z) (v : string) :
    Dict.get_or
      (fold_left (fun deg t => Dict.set deg t (Dict.get_or deg t 0 + 1)%Z) ts deg)
      v 0%Z
    = (Dict.get_or deg v 0 + countZ v ts)%Z.
  Proof.
    revert deg. induction ts as [| t ts IH]; intros deg; simpl.
    - unfold countZ. simpl. lia.
    - rewrite IH. fold (countZ v (t :: ts)). rewrite countZ_cons.
      destruct (String.eqb t v) eqn:E.
      + apply String.eqb_eq in E. subst v. rewrite get_or_set_same. lia.
      + apply String.eqb_neq in E.
        rewrite get_or_set_other by congruence. lia.
  Qed.

Lemma count_sources (adj : string -> list string) (L : list string)
      (deg : Dict.t Z) (v : string) :
    Dict.get_or
      (fold_left
         (fun deg src =>
            fold_left (fun deg t => Dict.set deg t (Dict.get_or deg t 0 + 1)%Z)
                      (adj src) deg)
         L deg) v 0%Z
    = (Dict.get_or deg v 0 + remaining_on adj L [] v)%Z.
  Proof.
    revert deg. induction L as [| a L IH]; intros deg; simpl; [lia |].
    rewrite IH, count_targets. lia.
  Qed.

Lemma initial_in_degree_spec (self : Calculator) (v : string) :
    Dict.get_or (initial_in_degree self) v 0%Z
    = remaining (succs self) (Dict.keys (graph self)) [] v.
  Proof.
    unfold initial_in_degree, remaining.
    rewrite (count_sources (succs self)), zero_fill; [lia | reflexivity].
  Qed.

  Section Order.
    Variable self : Calculator.
    Hypothesis Hok : graph_ok self.
    Hypothesis Hkeys : NoDup (Dict.keys (nodes self)).

Lemma succs_outside (u : string) :
      ~ In u (Dict.keys (graph self)) -> succs self u = [].
    Proof.
      intros H. apply get_None_keys in H. unfold succs, Dict.get_or.
      now rewrite H.
    Qed.

Lemma succs_nodes (u v : string) :
      In v (succs self u) -> In v (Dict.keys (nodes self)).
    Proof. intros H. now apply (graph_nodes self Hok u v). Qed.

Lemma initial_kahn_inv :
      kahn_inv (succs self) (Dict.keys (graph self)) (Dict.keys (nodes self))
               (graph self) (initial_in_degree self)
               (initial_queue self (initial_in_degree self)) [].
    Proof.
      assert (Hq : forall v, In v (initial_queue self (initial_in_degree self)) ->
                 In v (Dict.keys (nodes self))
                 /\ Dict.get_or (initial_in_degree self) v 0%Z = 0%Z).
      { intros v Hv. unfold initial_queue in Hv. apply filter_In in Hv.
        destruct Hv as [H1 H2]. apply Z.eqb_eq in H2. tauto. }
      constructor.
      - reflexivity.
      - intros v Hv. rewrite app_nil_r in Hv. apply Hq in Hv. lia.
      - simpl. unfold initial_queue. now apply NoDup_filter.
      - intros v. apply initial_in_degree_spec.
      - intros v Hv. rewrite app_nil_r.
        destruct (Z.eq_dec (Dict.get_or (initial_in_degree self) v 0%Z) 0)
          as [Hz | Hnz].
        + left. unfold initial_queue. apply filter_In. split; [exact Hv |].
          now apply Z.eqb_eq.
        + right. rewrite initial_in_degree_spec in *.
          pose proof (remaining_on_nonneg (succs self)
                        (Dict.keys (graph self)) [] v).
          unfold remaining in *. lia.
      - intros v Hv u Hu. apply Hq in Hv. destruct Hv as [_ Hz].
        rewrite initial_in_degree_spec in Hz.
        eapply (remaining_zero (succs self) (Dict.keys (graph self)));
          [exact succs_outside | | exact Hu]. lia.
      - intros v [].
      - intros v Hv. rewrite app_nil_r in Hv. now apply Hq.
    Qed.

Lemma kahn_order_total : exists g kahn, kahn_order self = Some (g, kahn).
    Proof.
      unfold kahn_order.
      destruct (kahn_loop_total
                  (kahn_fuel (initial_in_degree self)
                     (initial_queue self (initial_in_degree self)))
                  (graph self) (initial_in_degree self)
                  (initial_queue self (initial_in_degree self)) []
                  (Nat.le_refl _)) as [[g kahn] H].
      eauto.
    Qed.

Lemma kahn_order_spec g kahn :
      kahn_order self = Some (g, kahn) ->
      (forall k, Dict.get_or g k [] = succs self k)
      /\ NoDup kahn
      /\ (forall v, In v kahn -> In v (Dict.keys (nodes self)))
      /\ (forall v, In v kahn -> forall u, In v (succs self u) ->
                    before u v kahn)
      /\ (forall v, In v (Dict.keys (nodes self)) -> ~ In v kahn ->
            exists u, ~ In u kahn /\ In v (succs self u)).
    Proof.
      unfold kahn_order. intros H.
      eapply (kahn_loop_ordered (succs self) (Dict.keys (graph self))
                (Dict.keys (nodes self))); try eassumption.
      - apply (graph_keys self Hok).
      - exact succs_outside.
      - exact succs_nodes.
      - exact initial_kahn_inv.
    Qed.

  End Order.

End Script2Order.

Module Script2Sort.
Import Script2 Script2Graph Script2Order.

Definition with_graph (self : Calculator) (g : Dict.t (list string))
    : Calculator :=
    {| nodes := nodes self; dependencies := dependencies self;
       graph := g; reverse_graph := reverse_graph self |}.

  (** The ids left over when the loop stops short. *)
Definition leftover (order : SetOrder) (self : Calculator)
      (kahn : list string) : list string :=
    set_iter order
      (set_diff (set_of_list (Dict.keys (nodes self))) (set_of_list kahn)).

Lemma leftover_In order self kahn x :
    In x (leftover order self kahn) <->
    In x (Dict.keys (nodes self)) /\ ~ In x kahn.
  Proof.
    unfold leftover. rewrite set_iter_In, set_diff_In.
    destruct (set_of_list_spec (Dict.keys (nodes self))) as [_ H1].
    destruct (set_of_list_spec kahn) as [_ H2].
    rewrite H1, H2. tauto.
  Qed.

Lemma leftover_NoDup order self kahn : NoDup (leftover order self kahn).
  Proof.
    unfold leftover. apply set_iter_NoDup, set_diff_NoDup.
    apply set_of_list_spec.
  Qed.

Lemma topological_sort_unfold order self g kahn :
    kahn_order self = Some (g, kahn) ->
    topological_sort order self =
    Some (if length kahn =? length (nodes self)
          then (with_graph self g, kahn, [])
          else (with_graph self g, kahn ++ leftover order self kahn,
                [OutCycleWarning])).
  Proof.
    intros H. unfold topological_sort. rewrite H.
    destruct (length kahn =? length (nodes self)); reflexivity.
  Qed.

Lemma topological_sort_spec order self :
    graph_ok self -> NoDup (Dict.keys (nodes self)) ->
    exists g kahn rest out,
      kahn_order self = Some (g, kahn)
      /\ topological_sort order self
         = Some (with_graph self g, kahn ++ rest, out)
      /\ (forall k, Dict.get_or g k [] = succs self k)
      /\ NoDup (kahn ++ rest)
      /\ (forall x, In x (kahn ++ rest) <-> In x (Dict.keys (nodes self)))
      /\ (forall v, In v kahn -> forall u, In v (succs self u) ->
                    before u v kahn)
      /\ ((length kahn = length (nodes self) /\ rest = [] /\ out = [])
          \/ (length kahn < length (nodes self)
              /\ rest = leftover order self kahn
              /\ out = [OutCycleWarning])).
  Proof.
    intros Hok Hkeys.
    destruct (kahn_order_total self) as [g [kahn Hk]].
    destruct (kahn_order_spec self Hok Hkeys g kahn Hk)
      as [Hg [Hnd [Hsub [Hord _]]]].
    assert (Hlen : length kahn <= length (nodes self)).
    { rewrite <- (length_map fst (nodes self)).
      apply NoDup_incl_length; [exact Hnd | exact Hsub]. }
    rewrite (topological_sort_unfold order self g kahn Hk).
    destruct (length kahn =? length (nodes self)) eqn:E.
    - apply Nat.eqb_eq in E. exists g, kahn, [], [].
      rewrite app_nil_r.
      split; [exact Hk |]. split; [reflexivity |]. split; [exact Hg |].
      split; [exact Hnd |]. split; [| split; [exact Hord | left; tauto]].
      intros x. split; [apply Hsub |]. intros Hx.
      refine (@NoDup_length_incl _ kahn (Dict.keys (nodes self)) Hnd _ Hsub x Hx).
      unfold Dict.keys. rewrite length_map. lia.
    - apply Nat.eqb_neq in E.
      exists g, kahn, (leftover order self kahn), [OutCycleWarning].
      split; [exact Hk |]. split; [reflexivity |]. split; [exact Hg |].
      split; [| split; [| split; [exact Hord |]]].
      + apply NoDup_app; [exact Hnd | apply leftover_NoDup |].
        intros a Ha Hl. apply leftover_In in Hl. tauto.
      + intros x. split.
        * intros Hx. apply in_app_iff in Hx. destruct Hx as [Hx | Hx].
          -- now apply Hsub.
          -- apply leftover_In in Hx. tauto.
        * intros Hx. apply in_or_app.
          destruct (in_dec string_dec x kahn) as [Hi | Hi]; [now left |].
          right. apply leftover_In. tauto.
      + right. split; [lia |]. split; reflexivity.
  Qed.

End Script2Sort.

(** ** Walks in a graph given by its successor lists *)
Section Walks.
  Variable adj : string -> list string.

  (** A walk along at least one edge. *)
Inductive path : string -> string -> Prop :=
| path_edge u v : In v (adj u) -> path u v
| path_step u v w : In v (adj u) -> path v w -> path u w.

  (** A list in which each element is a successor of the one before. *)
Fixpoint walk (l : list string) : Prop :=
    match l with
    | a :: (b :: _) as r => In b (adj a) /\ walk r
    | _ => True
    end.

  (** The graph admits a topological numbering. *)
Definition numbered : Prop :=
    exists rank : string -> nat, forall u v, In v (adj u) -> rank u < rank v.

Lemma walk_suffix (l1 l2 : list string) : walk (l1 ++ l2) -> walk l2.
Proof.
    induction l1 as [| a l1 IH]; simpl; [tauto |].
    destruct (l1 ++ l2) eqn:E; [| tauto].
    intros _. apply app_eq_nil in E. destruct E as [_ ->]. exact I.
Qed.

Lemma walk_path (l2 : list string) :
    forall x y l3, walk (x :: l2 ++ y :: l3) -> path x y.
Proof.
    induction l2 as [| a l2 IH]; intros x y l3 H.
    - apply path_edge. simpl in H. tauto.
    - destruct H as [H1 H2]. eapply path_step; [exact H1 |].
      now apply (IH a y l3).
Qed.

Lemma numbered_no_cycle : numbered -> forall n, ~ path n n.
Proof.
    intros [rank Hrank] n Hp.
    assert (G : forall u v, path u v -> rank u < rank v).
    { intros u v H. induction H as [u v H | u v w H _ IH].
      - now apply Hrank.
      - apply Hrank in H. lia. }
    apply G in Hp. lia.
Qed.

End Walks.

(** Position of the first occurrence. *)
Fixpoint pos (x : string) (l : list string) : nat :=
  match l with
  | [] => 0
  | y :: r => if String.eqb y x then 0 else S (pos x r)
  end.

Lemma pos_In_lt (x : string) (l1 l2 : list string) :
  In x l1 -> pos x (l1 ++ l2) < length l1.
Proof.
  induction l1 as [| y l1 IH]; simpl; [tauto |]. intros H.
  destruct (String.eqb y x) eqn:E; [lia |].
  apply String.eqb_neq in E. destruct H as [H | H]; [congruence |].
  specialize (IH H). lia.
Qed.

Lemma pos_first (x : string) (l1 l2 : list string) :
  ~ In x l1 -> pos x (l1 ++ x :: l2) = length l1.
Proof.
  induction l1 as [| y l1 IH]; simpl; intros H.
  - now rewrite String.eqb_refl.
  - destruct (String.eqb y x) eqn:E.
    + apply String.eqb_eq in E. tauto.
    + rewrite IH; tauto.
Qed.

Lemma pos_before (u v : string) (l : list string) :
  NoDup l -> before u v l -> pos u l < pos v l.
Proof.
  intros Hnd [l1 [l2 [-> Hu]]].
  rewrite (pos_first v l1 l2).
  - now apply pos_In_lt.
  - apply NoDup_remove_2 in Hnd. intros H. apply Hnd, in_or_app. now left.
Qed.

Lemma repeated_element (l : list string) :
  ~ NoDup l -> exists x l1 l2 l3, l = l1 ++ x :: l2 ++ x :: l3.
Proof.
  induction l as [| a l IH]; intros H.
  - exfalso. apply H. constructor.
  - destruct (in_dec string_dec a l) as [Hin | Hni].
    + apply in_split in Hin. destruct Hin as [l2 [l3 ->]].
      exists a, [], l2, l3. reflexivity.
    + destruct IH as [x [l1 [l2 [l3 ->]]]].
      * intros Hnd. apply H. now constructor.
      * exists x, (a :: l1), l2, l3. reflexivity.
Qed.

(** In an order where every element comes after its predecessors, no element
    lies on a closed walk. *)
Lemma ordered_no_cycle (adj : string -> list string) (l : list string) :
  NoDup l ->
  (forall v, In v l -> forall u, In v (adj u) -> before u v l) ->
  forall n, In n l -> ~ path adj n n.
Proof.
  intros Hnd Hord n Hn Hp.
  assert (G : forall x y, path adj x y -> In y l ->
                          In x l /\ pos x l < pos y l).
  { intros x y H. induction H as [u v H | u v w H _ IH]; intros Hy.
    - pose proof (Hord v Hy u H) as Hb. split.
      + destruct Hb as [l1 [l2 [-> Hin]]]. apply in_or_app. now left.
      + now apply pos_before.
    - destruct (IH Hy) as [Hv Hlt].
      pose proof (Hord v Hv u H) as Hb. split.
      + destruct Hb as [l1 [l2 [-> Hin]]]. apply in_or_app. now left.
      + apply (pos_before u v l Hnd) in Hb. lia. }
  destruct (G n n Hp Hn) as [_ Hlt]. lia.
Qed.

(** ** The Kahn loop emits every node exactly when the graph is acyclic *)
Module Script2Acyclic.
Import Script2 Script2Graph Script2Order Script2Sort.

Section Order.
  Variable self : Calculator.
  Hypothesis Hok : graph_ok self.
  Hypothesis Hkeys : NoDup (Dict.keys (nodes self)).
  Variable g : Dict.t (list string).
  Variable kahn : list string.
  Hypothesis Hk : kahn_order self = Some (g, kahn).

Lemma numbered_all_emitted :
    numbered (succs self) ->
    forall v, In v (Dict.keys (nodes self)) -> In v kahn.
Proof.
    intros [rank Hrank].
    destruct (kahn_order_spec self Hok Hkeys g kahn Hk)
      as [_ [_ [_ [_ Hpend]]]].
    assert (G : forall k v, rank v < k -> In v (Dict.keys (nodes self)) ->
                            In v kahn).
    { induction k as [| k IH]; intros v Hr Hv; [lia |].
      destruct (in_dec string_dec v kahn) as [Hin | Hni]; [exact Hin |].
      destruct (Hpend v Hv Hni) as [u [Hu Huv]].
      exfalso. apply Hu. apply IH.
      - specialize (Hrank u v Huv). lia.
      - now apply (graph_nodes self Hok u v). }
    intros v Hv. apply (G (S (rank v))); [lia | exact Hv].
Qed.

Lemma all_emitted_length :
    (forall v, In v (Dict.keys (nodes self)) -> In v kahn) <->
    length kahn = length (nodes self).
Proof.
    destruct (kahn_order_spec self Hok Hkeys g kahn Hk)
      as [_ [Hnd [Hsub _]]].
    rewrite <- (length_map fst (nodes self)). fold (Dict.keys (nodes self)).
    split.
    - intros Hall. apply Nat.le_antisymm.
      + now apply NoDup_incl_length.
      + now apply NoDup_incl_length.
    - intros Hlen v Hv.
      refine (@NoDup_length_incl _ kahn (Dict.keys (nodes self)) Hnd _ Hsub v Hv).
      lia.
Qed.

Lemma all_emitted_numbered :
    (forall v, In v (Dict.keys (nodes self)) -> In v kahn) ->
    numbered (succs self).
Proof.
    intros Hall.
    destruct (kahn_order_spec self Hok Hkeys g kahn Hk)
      as [_ [Hnd [_ [Hord _]]]].
    exists (fun n => pos n kahn). intros u v Huv.
    apply pos_before; [exact Hnd |]. apply Hord; [| exact Huv].
    apply Hall. now apply (graph_nodes self Hok u v).
Qed.

  (** The test of [topological_sort] decides acyclicity. *)
Lemma kahn_complete_iff_numbered :
    length kahn = length (nodes self) <-> numbered (succs self).
Proof.
    rewrite <- all_emitted_length. split.
    - apply all_emitted_numbered.
    - apply numbered_all_emitted.
Qed.

Lemma some_not_emitted :
    length kahn < length (nodes self) ->
    exists v, In v (Dict.keys (nodes self)) /\ ~ In v kahn.
Proof.
    intros Hlt.
    assert (G : forall K,
              (forall v, In v K -> In v kahn)
              \/ exists v, In v K /\ ~ In v kahn).
    { induction K as [| a K [IH | [v [H1 H2]]]].
      - left. intros v [].
      - destruct (in_dec string_dec a kahn) as [Hin | Hni].
        + left. intros v [<- | Hv]; [exact Hin | now apply IH].
        + right. exists a. simpl. tauto.
      - right. exists v. simpl. tauto. }
    destruct (G (Dict.keys (nodes self))) as [Hall | Hex]; [| exact Hex].
    apply all_emitted_length in Hall. lia.
Qed.

Lemma long_walk (v0 : string) :
    In v0 (Dict.keys (nodes self)) -> ~ In v0 kahn ->
    forall n, exists l,
      length l = S n /\ walk (succs self) l
      /\ forall x, In x l -> In x (Dict.keys (nodes self)) /\ ~ In x kahn.
Proof.
    intros Hv0 Hn0.
    destruct (kahn_order_spec self Hok Hkeys g kahn Hk)
      as [_ [_ [_ [_ Hpend]]]].
    induction n as [| n [l [Hlen [Hw Hall]]]].
    - exists [v0]. split; [reflexivity |]. split; [exact I |].
      intros x [<- | []]. tauto.
    - destruct l as [| h t]; [discriminate |].
      destruct (Hall h (or_introl eq_refl)) as [Hh1 Hh2].
      destruct (Hpend h Hh1 Hh2) as [u [Hu Huh]].
      exists (u :: h :: t). split; [simpl in *; lia |].
      split; [split; assumption |].
      intros x [<- | Hx]; [| now apply Hall].
      split; [| exact Hu]. now apply (graph_nodes self Hok u h).
Qed.

  (** The loop stops short exactly when some node lies on a closed walk. *)
Lemma kahn_short_iff_cycle :
    length kahn < length (nodes self) <-> exists n, path (succs self) n n.
Proof.
    split.
    - intros Hlt. destruct (some_not_emitted Hlt) as [v0 [Hv0 Hn0]].
      destruct (long_walk v0 Hv0 Hn0 (length (Dict.keys (nodes self))))
        as [l [Hlen [Hw Hall]]].
      assert (Hdup : ~ NoDup l).
      { intros Hnd.
        assert (Hle : length l <= length (Dict.keys (nodes self))).
        { apply NoDup_incl_length; [exact Hnd |].
          intros x Hx. now apply Hall. }
        lia. }
      apply repeated_element in Hdup.
      destruct Hdup as [x [l1 [l2 [l3 ->]]]].
      exists x. apply walk_suffix in Hw.
      now apply (walk_path (succs self) l2 x x l3).
    - intros [n Hp].
      destruct (kahn_order_spec self Hok Hkeys g kahn Hk)
        as [_ [Hnd [Hsub _]]].
      assert (Hle : length kahn <= length (nodes self)).
      { rewrite <- (length_map fst (nodes self)).
        now apply NoDup_incl_length. }
      destruct (Nat.eq_dec (length kahn) (length (nodes self))) as [He | Hne];
        [| lia].
      apply kahn_complete_iff_numbered in He.
      exfalso. exact (numbered_no_cycle (succs self) He n Hp).
Qed.

End Order.

(** The same two facts for the graph that [build_graph] constructs. *)
Lemma built_short_iff_cycle (self : Calculator) g kahn :
  NoDup (Dict.keys (nodes self)) ->
  kahn_order (build_graph self) = Some (g, kahn) ->
  (length kahn < length (nodes self)
   <-> exists n, path (succs (build_graph self)) n n).
Proof.
  intros Hkeys Hk. destruct (build_graph_nodes self) as [Hn _].
  rewrite <- Hn in Hkeys. rewrite <- Hn.
  exact (kahn_short_iff_cycle (build_graph self) (build_graph_ok self)
           Hkeys g kahn Hk).
Qed.

Lemma built_no_cycle_all_emitted (self : Calculator) g kahn :
  NoDup (Dict.keys (nodes self)) ->
  kahn_order (build_graph self) = Some (g, kahn) ->
  (forall m, ~ path (succs (build_graph self)) m m) ->
  forall n, In n (Dict.keys (nodes self)) -> In n kahn.
Proof.
  intros Hkeys Hk Hno n Hn.
  destruct (build_graph_nodes self) as [HnB _].
  pose proof Hkeys as HkB. rewrite <- HnB in HkB. rewrite <- HnB in Hn.
  pose proof (build_graph_ok self) as Hok.
  destruct (kahn_order_spec _ Hok HkB g kahn Hk) as [_ [Hnd [Hsub _]]].
  apply (all_emitted_length _ Hok HkB g kahn Hk); [| exact Hn].
  assert (Hle : length kahn <= length (nodes (build_graph self))).
  { rewrite <- (length_map fst (nodes (build_graph self))).
    now apply NoDup_incl_length. }
  destruct (Nat.eq_dec (length kahn) (length (nodes (build_graph self))))
    as [He | Hne]; [exact He |].
  exfalso.
  assert (Hlt : length kahn < length (nodes (build_graph self))) by lia.
  apply (kahn_short_iff_cycle _ Hok HkB g kahn Hk) in Hlt.
  destruct Hlt as [m Hm]. exact (Hno m Hm).
Qed.

End Script2Acyclic.

(** ** The unit-duration script: ids on a cycle never enter the order *)
Module ScriptOrder.
Import Script.

Definition adj (g : Dict.t (list string)) (u : string) : list string :=
  Dict.get_or g u [].

Lemma countZ_snoc (v t : string) (l : list string) :
  countZ v (l ++ [t])
  = (countZ v l + (if String.eqb t v then 1 else 0))%Z.
Proof.
  induction l as [| a l IH]; simpl.
  - rewrite countZ_cons. unfold countZ. simpl. lia.
  - rewrite !countZ_cons, IH. lia.
Qed.

Lemma remaining_on_app (f : string -> list string) (L1 L2 : list string)
    (v : string) :
  remaining_on f (L1 ++ L2) [] v
  = (remaining_on f L1 [] v + remaining_on f L2 [] v)%Z.
Proof.
  induction L1 as [| a L1 IH]; simpl; [lia |]. rewrite IH. lia.
Qed.

Lemma remaining_on_append (f f' : string -> list string) (L : list string)
    (s t v : string) :
  NoDup L ->
  (forall u, u <> s -> f' u = f u) -> f' s = f s ++ [t] ->
  remaining_on f' L [] v
  = (remaining_on f L [] v
     + (if str_in s L then (if String.eqb t v then 1 else 0) else 0))%Z.
Proof.
  intros Hnd Hother Hs.
  induction L as [| a L IH]; simpl; [lia |].
  inversion Hnd as [| ? ? Ha HL]; subst. specialize (IH HL).
  destruct (String.eqb s a) eqn:E.
  - apply String.eqb_eq in E. subst a. simpl.
    apply str_in_false in Ha. rewrite Ha in IH.
    rewrite Hs, countZ_snoc, IH. lia.
  - apply String.eqb_neq in E. simpl.
    rewrite (Hother a) by congruence. rewrite IH. lia.
Qed.

(** What the loop of [build_graph] maintains. *)
Record counted (g : Graph) : Prop := {
  counted_graph_keys : NoDup (Dict.keys (graph g));
  counted_degree_keys : NoDup (Dict.keys (in_degree g));
  counted_degree :
    forall v, Dict.get_or (in_degree g) v 0%Z
              = remaining_on (adj (graph g)) (Dict.keys (graph g)) [] v;
  counted_targets :
    forall u v, In v (adj (graph g) u) -> In v (Dict.keys (in_degree g))
}.

Lemma counted_step (g : Graph) (dep : Dependency) :
  counted g -> counted (build_graph_step g dep).
Proof.
  intros [Hgk Hdk Hdeg Htg]. unfold build_graph_step.
  set (s := source dep). set (t := target dep).
  set (g' := Dict.set (graph g) s (Dict.get_or (graph g) s [] ++ [t])).
  assert (Hadj_s : adj g' s = adj (graph g) s ++ [t]).
  { unfold adj, g'. now rewrite get_or_set_same. }
  assert (Hadj_o : forall u, u <> s -> adj g' u = adj (graph g) u).
  { intros u Hu. unfold adj, g'. now rewrite get_or_set_other. }
  constructor; simpl; fold s t g'.
  - now apply keys_set_NoDup.
  - now apply keys_set_NoDup.
  - intros v.
    assert (Hl : Dict.get_or
                   (Dict.set (in_degree g) t (Dict.get_or (in_degree g) t 0 + 1)%Z)
                   v 0%Z
                 = (Dict.get_or (in_degree g) v 0
                    + (if String.eqb t v then 1 else 0))%Z).
    { destruct (String.eqb t v) eqn:E.
      - apply String.eqb_eq in E. subst v. now rewrite get_or_set_same.
      - apply String.eqb_neq in E.
        rewrite get_or_set_other by congruence. lia. }
    rewrite Hl, Hdeg. clear Hl. unfold g' at 2. rewrite keys_set.
    destruct (Dict.mem (graph g) s) eqn:Em.
    + rewrite (remaining_on_append (adj (graph g)) (adj g')
                 (Dict.keys (graph g)) s t v Hgk Hadj_o Hadj_s).
      apply mem_In_keys, str_in_In in Em. now rewrite Em.
    + assert (Hni : ~ In s (Dict.keys (graph g))).
      { intros H. apply mem_In_keys in H. congruence. }
      rewrite remaining_on_app.
      rewrite (remaining_on_append (adj (graph g)) (adj g')
                 (Dict.keys (graph g)) s t v Hgk Hadj_o Hadj_s).
      apply str_in_false in Hni. rewrite Hni. simpl.
      rewrite Hadj_s, countZ_snoc.
      assert (He : adj (graph g) s = []).
      { unfold adj, Dict.get_or. unfold Dict.mem in Em.
        now destruct (Dict.get (graph g) s). }
      rewrite He. unfold countZ. simpl. lia.
  - intros u v Hv. apply keys_set_In.
    destruct (string_dec u s) as [-> | Hne].
    + rewrite Hadj_s in Hv. apply in_app_iff in Hv.
      destruct Hv as [Hv | [<- | []]]; [| now left].
      right. now apply (Htg s).
    + rewrite (Hadj_o u Hne) in Hv. right. now apply (Htg u).
Qed.

Lemma ensure_entry_spec (d : Dict.t Z) (node : string) :
  (forall v, Dict.get_or (ensure_entry d node) v 0%Z = Dict.get_or d v 0%Z)
  /\ (NoDup (Dict.keys d) -> NoDup (Dict.keys (ensure_entry d node)))
  /\ (forall v, In v (Dict.keys d) -> In v (Dict.keys (ensure_entry d node))).
Proof.
  unfold ensure_entry. destruct (Dict.mem d node) eqn:E.
  - repeat split; auto.
  - split; [| split].
    + intros v. destruct (string_dec v node) as [-> | Hne].
      * rewrite get_or_set_same. unfold Dict.get_or, Dict.mem in *.
        now destruct (Dict.get d node).
      * now rewrite get_or_set_other.
    + apply keys_set_NoDup.
    + intros v Hv. apply keys_set_In. now right.
Qed.

Lemma build_graph_counted (order : SetOrder) (deps : list Dependency) :
  counted (build_graph order deps).
Proof.
  unfold build_graph.
  set (g := fold_left build_graph_step deps
              {| graph := []; reverse_graph := []; in_degree := [];
                 out_degree := []; all_nodes := [] |}).
  assert (Hg : counted g).
  { subst g. generalize deps.
    assert (G : forall ds g0, counted g0 ->
                  counted (fold_left build_graph_step ds g0)).
    { induction ds as [| d ds IH]; intros g0 H0; simpl; [exact H0 |].
      apply IH. now apply counted_step. }
    intros ds. apply G. constructor; simpl.
    - constructor.
    - constructor.
    - intros v. reflexivity.
    - intros u v []. }
  assert (F : forall L io,
            let out := fold_left
                         (fun io node =>
                            (ensure_entry (fst io) node,
                             ensure_entry (snd io) node)) L io in
            (forall v, Dict.get_or (fst out) v 0%Z = Dict.get_or (fst io) v 0%Z)
            /\ (NoDup (Dict.keys (fst io)) -> NoDup (Dict.keys (fst out)))
            /\ (forall v, In v (Dict.keys (fst io)) ->
                          In v (Dict.keys (fst out)))).
  { induction L as [| a L IH]; intros io; simpl.
    - repeat split; auto.
    - destruct (IH (ensure_entry (fst io) a, ensure_entry (snd io) a))
        as [H1 [H2 H3]]. simpl in H1, H2, H3.
      destruct (ensure_entry_spec (fst io) a) as [E1 [E2 E3]].
      split; [| split].
      + intros v. now rewrite H1, E1.
      + intros H. now apply H2, E2.
      + intros v H. now apply H3, E3. }
  specialize (F (set_iter order (all_nodes g)) (in_degree g, out_degree g)).
  cbv zeta in F.
  destruct (fold_left _ (set_iter order (all_nodes g)) _) as [ind outd].
  simpl in F. destruct F as [F1 [F2 F3]].
  destruct Hg as [Hgk Hdk Hdeg Htg].
  constructor; simpl.
  - exact Hgk.
  - now apply F2.
  - intros v. now rewrite F1.
  - intros u v H. apply F3. now apply (Htg u).
Qed.

Lemma NoDup_filter_keys (d : Dict.t Z) (f : string * Z -> bool) :
  NoDup (Dict.keys d) -> NoDup (map fst (filter f d)).
Proof.
  unfold Dict.keys. induction d as [| [k v] d IH]; simpl; intros H;
    [constructor |].
  inversion H as [| ? ? Hk Hd]; subst.
  destruct (f (k, v)); simpl; [| now apply IH].
  constructor; [| now apply IH].
  intros Hin. apply Hk. apply in_map_iff in Hin.
  destruct Hin as [[k' v'] [Heq Hin]]. simpl in Heq. subst k'.
  apply filter_In in Hin. destruct Hin as [Hin _].
  apply (in_map fst) in Hin. exact Hin.
Qed.

(** The exit of the Kahn loop of [topological_sort] on a built graph. *)
Lemma topological_sort_kahn (order : SetOrder) (deps : list Dependency)
    g topo :
  topological_sort (graph (build_graph order deps))
                   (in_degree (build_graph order deps)) = Some (g, topo) ->
  (forall k, Dict.get_or g k [] = adj (graph (build_graph order deps)) k)
  /\ NoDup topo
  /\ (forall v, In v topo ->
        In v (Dict.keys (in_degree (build_graph order deps))))
  /\ (forall v, In v topo ->
        forall u, In v (adj (graph (build_graph order deps)) u) ->
                  before u v topo)
  /\ (forall v, In v (Dict.keys (in_degree (build_graph order deps))) ->
        ~ In v topo ->
        exists u, ~ In u topo
                  /\ In v (adj (graph (build_graph order deps)) u)).
Proof.
  intros Hrun. unfold topological_sort in Hrun.
  destruct (build_graph_counted order deps) as [Hgk Hdk Hdeg Htg].
  set (gr := build_graph order deps) in *.
  set (q0 := map fst (filter (fun kv => (snd kv =? 0)%Z) (in_degree gr))) in *.
  assert (Hq : forall v, In v q0 ->
             In v (Dict.keys (in_degree gr))
             /\ Dict.get_or (in_degree gr) v 0%Z = 0%Z).
  { intros v Hv. unfold q0 in Hv. apply in_map_iff in Hv.
    destruct Hv as [[k z] [Hk Hin]]. simpl in Hk. subst k.
    apply filter_In in Hin. destruct Hin as [Hin Hz]. simpl in Hz.
    apply Z.eqb_eq in Hz. subst z. split.
    - apply (in_map fst) in Hin. exact Hin.
    - unfold Dict.get_or. now rewrite (In_get_NoDup _ _ _ Hdk Hin). }
  assert (Hout : forall u, ~ In u (Dict.keys (graph gr)) ->
                           adj (graph gr) u = []).
  { intros u H. apply get_None_keys in H. unfold adj, Dict.get_or.
    now rewrite H. }
  assert (Hinv : kahn_inv (adj (graph gr)) (Dict.keys (graph gr))
                   (Dict.keys (in_degree gr))
                   (graph gr) (in_degree gr) q0 []).
  { constructor.
    - reflexivity.
    - intros v Hv. rewrite app_nil_r in Hv. apply Hq in Hv. lia.
    - simpl. unfold q0. now apply NoDup_filter_keys.
    - intros v. apply Hdeg.
    - intros v Hv. rewrite app_nil_r.
      destruct (Z.eq_dec (Dict.get_or (in_degree gr) v 0%Z) 0) as [Hz | Hnz].
      + left. unfold q0. apply in_map_iff.
        apply get_In_keys in Hv.
        destruct (Dict.get (in_degree gr) v) as [z |] eqn:E; [| congruence].
        exists (v, z). split; [reflexivity |]. apply filter_In.
        split; [now apply get_In |]. simpl.
        unfold Dict.get_or in Hz. rewrite E in Hz. now apply Z.eqb_eq.
      + right. rewrite Hdeg in *.
        pose proof (remaining_on_nonneg (adj (graph gr))
                      (Dict.keys (graph gr)) [] v). lia.
    - intros v Hv u Hu. apply Hq in Hv. destruct Hv as [_ Hz].
      rewrite Hdeg in Hz.
      eapply (remaining_zero (adj (graph gr)) (Dict.keys (graph gr)));
        [exact Hout | | exact Hu].
      unfold remaining. lia.
    - intros v [].
    - intros v Hv. rewrite app_nil_r in Hv. now apply Hq. }
  exact (kahn_loop_ordered (adj (graph gr)) (Dict.keys (graph gr))
           (Dict.keys (in_degree gr)) Hgk Hout Htg
           _ _ _ _ _ _ Hinv Hrun).
Qed.

(** The order returned by [topological_sort] on a built graph. *)
Lemma topological_sort_ordered (order : SetOrder) (deps : list Dependency)
    g topo :
  topological_sort (graph (build_graph order deps))
                   (in_degree (build_graph order deps)) = Some (g, topo) ->
  NoDup topo
  /\ (forall v, In v topo ->
        forall u, In v (adj (graph (build_graph order deps)) u) ->
                  before u v topo)
  /\ (forall k, Dict.get_or g k [] = adj (graph (build_graph order deps)) k).
Proof.
  intros Hrun.
  destruct (topological_sort_kahn order deps g topo Hrun)
    as [Hgraph [Hnd [_ [Hord _]]]].
  split; [exact Hnd |]. split; [exact Hord | exact Hgraph].
Qed.

(** An id on a closed walk is never in the order. *)
Lemma cycle_not_in_order (order : SetOrder) (deps : list Dependency)
    g topo (n : string) :
  topological_sort (graph (build_graph order deps))
                   (in_degree (build_graph order deps)) = Some (g, topo) ->
  In n topo ->
  ~ path (adj (graph (build_graph order deps))) n n.
Proof.
  intros Hrun Hn.
  destruct (topological_sort_ordered order deps g topo Hrun)
    as [Hnd [Hord _]].
  now apply (ordered_no_cycle _ topo Hnd Hord).
Qed.

End ScriptOrder.

(** ** The weighted script: forward and backward passes *)
Module Script2Passes.
Import Script2 Script2Graph Script2Order Script2Sort.

  (** A table entry, read with default 0. *)
Definition val (tab : Dict.t Q) (k : string) : Q := Dict.get_or tab k 0%Q.

Lemma fold_guarded (op : Q -> Q -> Q) (tab : Dict.t Q) (ps : list string)
      (a : Q) :
    fold_left
      (fun m p => match Dict.get tab p with Some f => op m f | None => m end)
      ps a
    = fold_left op (map (val tab) (filter (Dict.mem tab) ps)) a.
  Proof.
    revert a. induction ps as [| p ps IH]; intros a; simpl; [reflexivity |].
    unfold Dict.mem at 1. unfold val at 1. unfold Dict.get_or.
    destruct (Dict.get tab p) eqn:E; simpl.
    - rewrite E. apply IH.
    - apply IH.
  Qed.

Lemma snoc_split {A : Type} (l l1 l2 : list A) (x n : A) :
    l ++ [x] = l1 ++ n :: l2 ->
    (exists l2', l2 = l2' ++ [x] /\ l = l1 ++ n :: l2')
    \/ (l1 = l /\ n = x /\ l2 = []).
  Proof.
    intros H. destruct (exists_last (l := n :: l2)) as [l' [y Hy]];
      [discriminate |].
    destruct l2 as [| b l2].
    - right. apply app_inj_tail in H. destruct H as [-> ->]. tauto.
    - left. destruct (exists_last (l := b :: l2)) as [l2' [z Hz]];
        [discriminate |].
      rewrite Hz in H. rewrite app_comm_cons, app_assoc in H.
      apply app_inj_tail in H. destruct H as [-> ->].
      exists l2'. split; [exact Hz | reflexivity].
  Qed.

Lemma NoDup_split_unique (l1 l2 l1' l2' : list string) (n : string) :
    NoDup (l1 ++ n :: l2) -> l1 ++ n :: l2 = l1' ++ n :: l2' ->
    l1 = l1' /\ l2 = l2'.
  Proof.
    revert l1'. induction l1 as [| a l1 IH]; intros l1' Hnd He.
    - destruct l1' as [| b l1']; simpl in *.
      + injection He as ->. tauto.
      + injection He as <- He. inversion Hnd as [| ? ? Hn _]; subst.
        exfalso. apply Hn. apply in_or_app. simpl. tauto.
    - destruct l1' as [| b l1']; simpl in *.
      + injection He as -> He. inversion Hnd as [| ? ? Hn _]; subst.
        exfalso. apply Hn. apply in_or_app. simpl. tauto.
      + injection He as <- He. inversion Hnd as [| ? ? _ Hnd']; subst.
        destruct (IH l1' Hnd' He) as [-> ->]. tauto.
  Qed.

  Section Forward.
    Variable self : Calculator.

Definition earlier_preds (l1 : list string) (n : string) : list string :=
      filter (fun p => str_in p l1) (preds self n).

    (** The value the forward pass stores for a node visited after [l1]. *)
Definition start_after (l1 : list string) (ef : Dict.t Q) (n : string) : Q :=
      fold_left pymax (map (val ef) (earlier_preds l1 n)) 0%Q.

Record fwd_inv (l : list string) (es ef : Dict.t Q) : Prop := {
      fwd_keys_es : Dict.keys es = l;
      fwd_keys_ef : Dict.keys ef = l;
      fwd_at : forall l1 n l2, l = l1 ++ n :: l2 ->
        exists d, calculate_node_duration self n = Some d
                  /\ Dict.get es n = Some (start_after l1 ef n)
                  /\ Dict.get ef n = Some (start_after l1 ef n + d)%Q
    }.

Lemma start_after_ext l1 ef ef' n :
      (forall p, In p l1 -> val ef' p = val ef p) ->
      start_after l1 ef' n = start_after l1 ef n.
    Proof.
      intros H. unfold start_after. f_equal. apply map_ext_in.
      intros p Hp. apply H. unfold earlier_preds in Hp.
      apply filter_In in Hp. now apply str_in_In.
    Qed.

Lemma max_predecessor_finish_spec l ef n :
      Dict.keys ef = l ->
      max_predecessor_finish self ef n = start_after l ef n.
    Proof.
      intros Hk. unfold max_predecessor_finish, start_after, earlier_preds.
      rewrite fold_guarded. fold (preds self n). do 2 f_equal.
      apply filter_ext. intros p.
      destruct (str_in p l) eqn:E.
      - apply mem_In_keys. rewrite Hk. now apply str_in_In.
      - destruct (Dict.mem ef p) eqn:E'; [| reflexivity].
        apply mem_In_keys in E'. rewrite Hk in E'.
        apply str_in_In in E'. congruence.
    Qed.

Lemma forward_spec (l : list string) :
      NoDup l -> (forall n, In n l -> In n (Dict.keys (nodes self))) ->
      exists es ef,
        foldM (forward_step self) l ([], []) = Some (es, ef)
        /\ fwd_inv l es ef.
    Proof.
      induction l as [| x l IH] using rev_ind; intros Hnd Hsub.
      - exists [], []. split; [reflexivity |].
        constructor; try reflexivity.
        intros l1 n l2 H. destruct l1; discriminate.
      - apply NoDup_remove in Hnd. rewrite app_nil_r in Hnd.
        destruct Hnd as [Hnd Hx].
        destruct IH as [es [ef [Hrun [Hkes Hkef Hat]]]]; [exact Hnd | |].
        { intros n Hn. apply Hsub, in_or_app. now left. }
        assert (Hd : exists d, calculate_node_duration self x = Some d).
        { unfold calculate_node_duration.
          assert (Hin : In x (Dict.keys (nodes self))).
          { apply Hsub, in_or_app. simpl. tauto. }
          apply get_In_keys in Hin.
          destruct (Dict.get (nodes self) x); [eauto | congruence]. }
        destruct Hd as [d Hd].
        set (m := max_predecessor_finish self ef x).
        set (es' := Dict.set es x m).
        set (ef' := Dict.set ef x (m + d)%Q).
        exists es', ef'. split.
        + rewrite foldM_app, Hrun. simpl. rewrite Hd.
          fold m. fold es'. subst es'. rewrite get_set_same. reflexivity.
        + assert (Hval : forall p, In p l -> val ef' p = val ef p).
          { intros p Hp. unfold val. subst ef'.
            apply get_or_set_other. intros ->. contradiction. }
          constructor.
          * subst es'. rewrite keys_set.
            destruct (Dict.mem es x) eqn:E; [| now rewrite Hkes].
            apply mem_In_keys in E. rewrite Hkes in E. contradiction.
          * subst ef'. rewrite keys_set.
            destruct (Dict.mem ef x) eqn:E; [| now rewrite Hkef].
            apply mem_In_keys in E. rewrite Hkef in E. contradiction.
          * intros l1 n l2 Hsplit. apply snoc_split in Hsplit.
            destruct Hsplit as [[l2' [-> Hl]] | [-> [-> ->]]].
            -- destruct (Hat l1 n l2' Hl) as [dn [H1 [H2 H3]]].
               assert (Hne : n <> x).
               { intros ->. apply Hx. rewrite Hl. apply in_or_app.
                 simpl. tauto. }
               exists dn. split; [exact H1 |].
               rewrite (start_after_ext l1 ef ef').
               ++ subst es' ef'. rewrite !get_set_other by exact Hne. tauto.
               ++ intros p Hp. apply Hval. rewrite Hl. apply in_or_app.
                  now left.
            -- exists d. split; [exact Hd |].
               rewrite (start_after_ext l ef ef') by exact Hval.
               rewrite <- (max_predecessor_finish_spec l ef x Hkef). fold m.
               subst es' ef'. rewrite !get_set_same. tauto.
    Qed.

  End Forward.

End Script2Passes.

Module Script2Backward.
Import Script2 Script2Graph Script2Order Script2Sort Script2Passes.

Lemma fold_set_const (c : Q) (L : list string) (acc : Dict.t Q) (k : string) :
    (In k (Dict.keys (fold_left (fun lf n => Dict.set lf n c) L acc))
       <-> In k (Dict.keys acc) \/ In k L)
    /\ Dict.get (fold_left (fun lf n => Dict.set lf n c) L acc) k
       = if str_in k L then Some c else Dict.get acc k.
  Proof.
    revert acc. induction L as [| a L IH]; intros acc; simpl.
    - split; [tauto | reflexivity].
    - destruct (IH (Dict.set acc a c)) as [H1 H2]. split.
      + rewrite H1, keys_set_In. intuition congruence.
      + rewrite H2. destruct (str_in k L) eqn:E.
        * now rewrite orb_true_r.
        * rewrite orb_false_r. destruct (String.eqb k a) eqn:E'.
          -- apply String.eqb_eq in E'. subst a. apply get_set_same.
          -- apply String.eqb_neq in E'. now apply get_set_other.
  Qed.

  Section Backward.
    Variable self : Calculator.
    Variable completion : Q.

Definition later_succs (l1 : list string) (n : string) : list string :=
      filter (fun s => str_in s l1) (succs self n).

    (** The value the backward pass stores for an interior node visited after
        [l1]. *)
Definition finish_after (l1 : list string) (ls : Dict.t Q) (n : string) : Q :=
      fold_left pymin (map (val ls) (later_succs l1 n)) completion.

Definition initial_latest_finish : Dict.t Q :=
      fold_left (fun lf node_id => Dict.set lf node_id completion)
                (end_nodes self) [].

Record bwd_inv (l : list string) (ls lf : Dict.t Q) : Prop := {
      bwd_keys_ls : Dict.keys ls = l;
      bwd_keys_lf :
        forall k, In k (Dict.keys lf) <-> In k (end_nodes self) \/ In k l;
      bwd_end : forall k, In k (end_nodes self) -> Dict.get lf k = Some completion;
      bwd_at : forall l1 n l2, l = l1 ++ n :: l2 ->
        exists d F, calculate_node_duration self n = Some d
                    /\ Dict.get lf n = Some F
                    /\ Dict.get ls n = Some (F - d)%Q
                    /\ (~ In n (end_nodes self) -> F = finish_after l1 ls n)
    }.

Lemma finish_after_ext l1 ls ls' n :
      (forall p, In p l1 -> val ls' p = val ls p) ->
      finish_after l1 ls' n = finish_after l1 ls n.
    Proof.
      intros H. unfold finish_after. f_equal. apply map_ext_in.
      intros p Hp. apply H. unfold later_succs in Hp.
      apply filter_In in Hp. now apply str_in_In.
    Qed.

Lemma min_successor_start_spec l ls n :
      Dict.keys ls = l ->
      min_successor_start self completion ls n = finish_after l ls n.
    Proof.
      intros Hk. unfold min_successor_start, finish_after, later_succs.
      rewrite fold_guarded. fold (succs self n). do 2 f_equal.
      apply filter_ext. intros p.
      destruct (str_in p l) eqn:E.
      - apply mem_In_keys. rewrite Hk. now apply str_in_In.
      - destruct (Dict.mem ls p) eqn:E'; [| reflexivity].
        apply mem_In_keys in E'. rewrite Hk in E'.
        apply str_in_In in E'. congruence.
    Qed.

Lemma backward_spec (l : list string) :
      NoDup l -> (forall n, In n l -> In n (Dict.keys (nodes self))) ->
      exists ls lf,
        foldM (backward_step self completion) l ([], initial_latest_finish)
          = Some (ls, lf)
        /\ bwd_inv l ls lf.
    Proof.
      induction l as [| x l IH] using rev_ind; intros Hnd Hsub.
      - exists [], initial_latest_finish. split; [reflexivity |].
        constructor.
        + reflexivity.
        + intros k. unfold initial_latest_finish.
          destruct (fold_set_const completion (end_nodes self) [] k) as [H _].
          rewrite H. simpl. tauto.
        + intros k Hk. unfold initial_latest_finish.
          destruct (fold_set_const completion (end_nodes self) [] k) as [_ H].
          rewrite H. apply str_in_In in Hk. now rewrite Hk.
        + intros l1 n l2 H. destruct l1; discriminate.
      - apply NoDup_remove in Hnd. rewrite app_nil_r in Hnd.
        destruct Hnd as [Hnd Hx].
        destruct IH as [ls [lf [Hrun [Hkls Hklf Hend Hat]]]]; [exact Hnd | |].
        { intros n Hn. apply Hsub, in_or_app. now left. }
        assert (Hd : exists d, calculate_node_duration self x = Some d).
        { unfold calculate_node_duration.
          assert (Hin : In x (Dict.keys (nodes self))).
          { apply Hsub, in_or_app. simpl. tauto. }
          apply get_In_keys in Hin.
          destruct (Dict.get (nodes self) x); [eauto | congruence]. }
        destruct Hd as [d Hd].
        set (lf' := if Dict.mem lf x then lf
                    else Dict.set lf x (min_successor_start self completion ls x)).
        assert (HF : exists F, Dict.get lf' x = Some F
                     /\ (~ In x (end_nodes self) -> F = finish_after l ls x)
                     /\ (forall k, k <> x -> Dict.get lf' k = Dict.get lf k)
                     /\ (forall k, In k (Dict.keys lf') <->
                                   In k (end_nodes self) \/ In k (l ++ [x]))).
        { subst lf'. destruct (Dict.mem lf x) eqn:E.
          - apply mem_In_keys in E. apply Hklf in E.
            destruct E as [E | E]; [| contradiction].
            exists completion. split; [now apply Hend |].
            split; [tauto |]. split; [reflexivity |].
            intros k. rewrite Hklf, in_app_iff. simpl. intuition congruence.
          - exists (finish_after l ls x).
            rewrite (min_successor_start_spec l ls x Hkls).
            split; [apply get_set_same |]. split; [reflexivity |].
            split; [intros k Hk; now apply get_set_other |].
            intros k. rewrite keys_set_In, Hklf, in_app_iff. simpl.
            intuition congruence. }
        destruct HF as [F [HF1 [HF2 [HF3 HF4]]]].
        set (ls' := Dict.set ls x (F - d)%Q).
        exists ls', lf'. split.
        + rewrite foldM_app, Hrun. simpl. rewrite Hd.
          fold lf'. rewrite HF1. reflexivity.
        + assert (Hval : forall p, In p l -> val ls' p = val ls p).
          { intros p Hp. unfold val. subst ls'.
            apply get_or_set_other. intros ->. contradiction. }
          constructor.
          * subst ls'. rewrite keys_set.
            destruct (Dict.mem ls x) eqn:E; [| now rewrite Hkls].
            apply mem_In_keys in E. rewrite Hkls in E. contradiction.
          * exact HF4.
          * intros k Hk. destruct (string_dec k x) as [-> | Hne].
            -- assert (Hm : Dict.mem lf x = true).
               { apply mem_In_keys, Hklf. now left. }
               unfold lf'. rewrite Hm. now apply Hend.
            -- rewrite HF3 by exact Hne. now apply Hend.
          * intros l1 n l2 Hsplit. apply snoc_split in Hsplit.
            destruct Hsplit as [[l2' [-> Hl]] | [-> [-> ->]]].
            -- destruct (Hat l1 n l2' Hl) as [dn [Fn [H1 [H2 [H3 H4]]]]].
               assert (Hne : n <> x).
               { intros ->. apply Hx. rewrite Hl. apply in_or_app.
                 simpl. tauto. }
               exists dn, Fn. split; [exact H1 |].
               rewrite (finish_after_ext l1 ls ls').
               ++ rewrite HF3 by exact Hne. subst ls'.
                  rewrite get_set_other by exact Hne. tauto.
               ++ intros p Hp. apply Hval. rewrite Hl. apply in_or_app.
                  now left.
            -- exists d, F. split; [exact Hd |]. split; [exact HF1 |].
               rewrite (finish_after_ext l ls ls') by exact Hval.
               subst ls'. rewrite get_set_same. tauto.
    Qed.

  End Backward.

End Script2Backward.

(** ** The weighted script: one run, in closed form *)
Module Script2Run.
Import Script2 Script2Graph Script2Order Script2Sort Script2Passes
  Script2Backward.

Lemma duration_nodes (s1 s2 : Calculator) (n : string) :
    nodes s1 = nodes s2 ->
    calculate_node_duration s1 n = calculate_node_duration s2 n.
  Proof. intros H. unfold calculate_node_duration. now rewrite H. Qed.

Lemma fwd_inv_ext (s1 s2 : Calculator) l es ef :
    (forall n, preds s1 n = preds s2 n) -> nodes s1 = nodes s2 ->
    fwd_inv s1 l es ef -> fwd_inv s2 l es ef.
  Proof.
    intros Hp Hn [H1 H2 H3]. constructor; try assumption.
    intros l1 n l2 Hs. destruct (H3 l1 n l2 Hs) as [d [Hd [He Hf]]].
    exists d. rewrite <- (duration_nodes s1 s2 n Hn).
    unfold start_after, earlier_preds in *. rewrite <- Hp. tauto.
  Qed.

Lemma end_nodes_ext (s1 s2 : Calculator) :
    (forall n, succs s1 n = succs s2 n) -> nodes s1 = nodes s2 ->
    end_nodes s1 = end_nodes s2.
  Proof.
    intros Hs Hn. unfold end_nodes. rewrite Hn. apply filter_ext.
    intros n. fold (succs s1 n). fold (succs s2 n). now rewrite Hs.
  Qed.

Lemma bwd_inv_ext (s1 s2 : Calculator) c l ls lf :
    (forall n, succs s1 n = succs s2 n) -> nodes s1 = nodes s2 ->
    bwd_inv s1 c l ls lf -> bwd_inv s2 c l ls lf.
  Proof.
    intros Hs Hn [H1 H2 H3 H4].
    pose proof (end_nodes_ext s1 s2 Hs Hn) as He.
    constructor; try assumption.
    - intros k. rewrite <- He. apply H2.
    - intros k. rewrite <- He. apply H3.
    - intros l1 n l2 Hsp. destruct (H4 l1 n l2 Hsp) as [d [F [Hd [Hf [Hl Hi]]]]].
      exists d, F. rewrite <- (duration_nodes s1 s2 n Hn), <- He.
      unfold finish_after, later_succs in *. rewrite <- Hs. tauto.
  Qed.

Definition slack_table (nds : Dict.t Node) (es ls : Dict.t Q) : Dict.t Q :=
    fold_left
      (fun sl node_id =>
         Dict.set sl node_id
           (Dict.get_or ls node_id 0 - Dict.get_or es node_id 0)%Q)
      (Dict.keys nds) [].

Definition critical_set (sl : Dict.t Q) : list string :=
    fold_left
      (fun crit kv =>
         if is_critical_slack (snd kv) then set_add (fst kv) crit else crit)
      sl [].

Record run_facts (order : SetOrder) (self : Calculator) (r : Result)
    : Prop := {
    rf_kahn :
      exists g kahn rest warned,
        kahn_order (build_graph self) = Some (g, kahn)
        /\ topo_order r = kahn ++ rest
        /\ (forall v, In v kahn -> forall u,
              In v (succs (build_graph self) u) -> before u v kahn)
        /\ ((length kahn = length (nodes self) /\ rest = [] /\ warned = [])
            \/ (length kahn < length (nodes self)
                /\ rest = leftover order (build_graph self) kahn
                /\ warned = [OutCycleWarning]))
        /\ printed r = [OutCalculating] ++ warned
                       ++ [OutFound (length (critical_nodes r))];
    rf_nodup : NoDup (topo_order r);
    rf_cover : forall x, In x (topo_order r) <-> In x (Dict.keys (nodes self));
    rf_forward :
      fwd_inv (build_graph self) (topo_order r)
              (earliest_start r) (earliest_finish r);
    rf_completion :
      project_completion r = pymax_list (Dict.values (earliest_finish r)) 0%Q;
    rf_backward :
      bwd_inv (build_graph self) (project_completion r) (rev (topo_order r))
              (latest_start r) (latest_finish r);
    rf_slack :
      slack r = slack_table (nodes self) (earliest_start r) (latest_start r);
    rf_critical : critical_nodes r = critical_set (slack r);
    rf_nodes :
      nodes (self_out r) = map (annotate_node (critical_nodes r)) (nodes self);
    rf_deps :
      dependencies (self_out r)
      = map (annotate_dependency (nodes (self_out r)) (critical_nodes r))
            (dependencies self)
  }.

Lemma calculate_critical_path_spec (order : SetOrder) (self : Calculator) :
    NoDup (Dict.keys (nodes self)) ->
    exists r, calculate_critical_path order self = Some r
              /\ run_facts order self r.
  Proof.
    intros Hkeys. unfold calculate_critical_path.
    set (B := build_graph self).
    destruct (build_graph_nodes self) as [HnB HdB]. fold B in HnB, HdB.
    assert (HkB : NoDup (Dict.keys (nodes B))) by now rewrite HnB.
    destruct (topological_sort_spec order B (build_graph_ok self) HkB)
      as [g [kahn [rest [warned [Hk [Hts [Hg [Hnd [Hcov [Hord Hcase]]]]]]]]]].
    rewrite Hts.
    set (S := with_graph B g).
    assert (HnS : nodes S = nodes B) by reflexivity.
    assert (Hsucc : forall n, succs S n = succs B n) by exact Hg.
    assert (Hpred : forall n, preds S n = preds B n) by reflexivity.
    destruct (forward_spec S (kahn ++ rest) Hnd) as [es [ef [Hf Hfi]]].
    { intros n Hn. rewrite HnS. now apply Hcov. }
    rewrite Hf.
    set (C := pymax_list (Dict.values ef) 0%Q).
    destruct (backward_spec S C (rev (kahn ++ rest))) as [ls [lf [Hb Hbi]]].
    { now apply NoDup_rev. }
    { intros n Hn. apply in_rev in Hn. rewrite HnS. now apply Hcov. }
    unfold initial_latest_finish in Hb. rewrite Hb.
    eexists. split; [reflexivity |].
    constructor; cbn [topo_order earliest_start earliest_finish latest_start
                      latest_finish project_completion slack critical_nodes
                      printed self_out nodes dependencies].
    - exists g, kahn, rest, warned. rewrite HnB in Hcase. tauto.
    - exact Hnd.
    - intros x. rewrite <- HnB. apply Hcov.
    - now apply (fwd_inv_ext S B).
    - reflexivity.
    - now apply (bwd_inv_ext S B).
    - unfold slack_table. now rewrite <- HnB.
    - reflexivity.
    - now rewrite <- HnB.
    - now rewrite <- HdB.
  Qed.

End Script2Run.

Lemma fold_pymax_spec (l : list Q) (a : Q) :
  (a <= fold_left pymax l a)%Q
  /\ (forall x, In x l -> (x <= fold_left pymax l a)%Q)
  /\ (fold_left pymax l a = a \/ In (fold_left pymax l a) l).
Proof.
  revert a. induction l as [| y l IH]; intros a; simpl.
  - split; [apply Qle_refl |]. split; [tauto | now left].
  - destruct (IH (pymax a y)) as [H1 [H2 H3]].
    destruct (pymax_cases a y) as [[E Hle] | [E Hlt]]; rewrite E in *.
    + split; [exact H1 |]. split.
      * intros x [<- | Hx]; [eapply Qle_trans; eassumption | now apply H2].
      * destruct H3; tauto.
    + split; [eapply Qle_trans; [apply Qlt_le_weak; exact Hlt | exact H1] |].
      split.
      * intros x [<- | Hx]; [exact H1 | now apply H2].
      * destruct H3 as [-> | H3]; tauto.
Qed.

Lemma fold_pymin_spec (l : list Q) (a : Q) :
  (fold_left pymin l a <= a)%Q
  /\ (forall x, In x l -> (fold_left pymin l a <= x)%Q)
  /\ (fold_left pymin l a = a \/ In (fold_left pymin l a) l).
Proof.
  revert a. induction l as [| y l IH]; intros a; simpl.
  - split; [apply Qle_refl |]. split; [tauto | now left].
  - destruct (IH (pymin a y)) as [H1 [H2 H3]].
    destruct (pymin_cases a y) as [[E Hle] | [E Hlt]]; rewrite E in *.
    + split; [exact H1 |]. split.
      * intros x [<- | Hx]; [eapply Qle_trans; eassumption | now apply H2].
      * destruct H3; tauto.
    + split; [eapply Qle_trans; [exact H1 | apply Qlt_le_weak; exact Hlt] |].
      split.
      * intros x [<- | Hx]; [exact H1 | now apply H2].
      * destruct H3 as [-> | H3]; tauto.
Qed.

(** Over values all above the seed, [fold_left pymax] returns the maximum. *)
Lemma fold_pymax_is_max (l : list Q) (a : Q) :
  l <> [] -> (forall x, In x l -> (a < x)%Q) ->
  is_max_of (fold_left pymax l a) l.
Proof.
  intros Hne Hgt. destruct (fold_pymax_spec l a) as [H1 [H2 H3]].
  split; [| exact H2].
  destruct H3 as [E | H3]; [| exact H3].
  destruct l as [| y l]; [congruence |]. exfalso.
  assert (Hy : (a < y)%Q) by (apply Hgt; now left).
  assert (Hle : (y <= fold_left pymax (y :: l) a)%Q) by (apply H2; now left).
  rewrite E in Hle. apply (Qlt_irrefl a). eapply Qlt_le_trans; eassumption.
Qed.

Lemma fold_pymin_is_min (l : list Q) (a : Q) :
  l <> [] -> (forall x, In x l -> (x < a)%Q) ->
  is_min_of (fold_left pymin l a) l.
Proof.
  intros Hne Hlt. destruct (fold_pymin_spec l a) as [H1 [H2 H3]].
  split; [| exact H2].
  destruct H3 as [E | H3]; [| exact H3].
  destruct l as [| y l]; [congruence |]. exfalso.
  assert (Hy : (y < a)%Q) by (apply Hlt; now left).
  assert (Hle : (fold_left pymin (y :: l) a <= y)%Q) by (apply H2; now left).
  rewrite E in Hle. apply (Qlt_irrefl a). eapply Qle_lt_trans; eassumption.
Qed.

Lemma pymax_list_is_max (x : Q) (l : list Q) (dflt : Q) :
  is_max_of (pymax_list (x :: l) dflt) (x :: l).
Proof.
  simpl. destruct (fold_pymax_spec l x) as [H1 [H2 H3]]. split.
  - destruct H3 as [-> | H3]; [now left | now right].
  - intros y [<- | Hy]; [exact H1 | now apply H2].
Qed.

Lemma filter_all {A : Type} (f : A -> bool) (l : list A) :
  (forall x, In x l -> f x = true) -> filter f l = l.
Proof.
  induction l as [| a l IH]; intros H; simpl; [reflexivity |].
  rewrite (H a) by now left. f_equal. apply IH. intros x Hx. apply H. now right.
Qed.

(** ** The weighted duration policy *)

Lemma duration_at_least (self : Script2.Calculator) (n : string) (d : Q) :
  Script2.calculate_node_duration self n = Some d -> (1 # 10 <= d)%Q.
Proof.
  unfold Script2.calculate_node_duration.
  destruct (Dict.get (Script2.nodes self) n) as [node |]; [| discriminate].
  intros [= <-].
  destruct (pymax_cases
              (Script2.get_priority_weight (Script2.node_priority node)
               * Script2.get_status_weight (Script2.node_status node))
              (1 # 10)) as [[-> H] | [-> H]]; [exact H | apply Qle_refl].
Qed.

(** C6: the duration of a node is the larger of
    [priority_weight * status_weight] and 0.1, with the two weight tables of
    the script (an absent priority reads as "Low", an absent status as
    "To Do"); hence every duration is at least 0.1 and positive. *)
Theorem weighted_duration_policy (self : Script2.Calculator) (node_id : string)
    (node : Node) :
  Dict.get (Script2.nodes self) node_id = Some node ->
  (exists d,
      Script2.calculate_node_duration self node_id = Some d
      /\ (d == Qmax (Script2.get_priority_weight (Script2.node_priority node)
                     * Script2.get_status_weight (Script2.node_status node))
                    (1 # 10))%Q
      /\ (1 # 10 <= d)%Q /\ (0 < d)%Q)
  /\ (forall p, priority node = Some p -> Script2.node_priority node = p)
  /\ (forall s, status node = Some s -> Script2.node_status node = s)
  /\ Script2.get_priority_weight "Highest" = 5%Q
  /\ Script2.get_priority_weight "High" = 4%Q
  /\ Script2.get_priority_weight "Medium" = 3%Q
  /\ Script2.get_priority_weight "Low" = 2%Q
  /\ Script2.get_priority_weight "Lowest" = 1%Q
  /\ (forall p, ~ In p ["Highest"; "High"; "Medium"; "Low"; "Lowest"] ->
                Script2.get_priority_weight p = 1%Q)
  /\ Script2.get_status_weight "Done" = 0%Q
  /\ Script2.get_status_weight "In Progress" = (1 # 2)%Q
  /\ Script2.get_status_weight "To Do" = 1%Q
  /\ Script2.get_status_weight "On hold" = (3 # 2)%Q
  /\ (forall s, ~ In s ["Done"; "In Progress"; "To Do"; "On hold"] ->
                Script2.get_status_weight s = 1%Q).
Proof.
  intros Hget. split; [| split; [| split]].
  - exists (pymax (Script2.get_priority_weight (Script2.node_priority node)
                   * Script2.get_status_weight (Script2.node_status node))
                  (1 # 10)).
    assert (Hd : Script2.calculate_node_duration self node_id =
                 Some (pymax
                         (Script2.get_priority_weight (Script2.node_priority node)
                          * Script2.get_status_weight (Script2.node_status node))
                         (1 # 10))).
    { unfold Script2.calculate_node_duration. now rewrite Hget. }
    split; [exact Hd |]. pose proof (duration_at_least self node_id _ Hd) as Hle.
    split; [| split; [exact Hle |]].
    + destruct (pymax_cases
                  (Script2.get_priority_weight (Script2.node_priority node)
                   * Script2.get_status_weight (Script2.node_status node))
                  (1 # 10)) as [[-> H] | [-> H]].
      * symmetry. now apply Q.max_l.
      * symmetry. apply Q.max_r. now apply Qlt_le_weak.
    + eapply Qlt_le_trans; [| exact Hle]. reflexivity.
  - intros p Hp. unfold Script2.node_priority. now rewrite Hp.
  - intros s Hs. unfold Script2.node_status. now rewrite Hs.
  - repeat (split; [reflexivity |]). split; [| repeat (split; [reflexivity |])].
    + intros p Hp. unfold Script2.get_priority_weight.
      repeat match goal with
             | |- context [String.eqb p ?c] =>
                 destruct (String.eqb_spec p c) as [-> | _];
                 [exfalso; apply Hp; simpl; tauto |]
             end.
      reflexivity.
    + intros s Hs. unfold Script2.get_status_weight.
      repeat match goal with
             | |- context [String.eqb s ?c] =>
                 destruct (String.eqb_spec s c) as [-> | _];
                 [exfalso; apply Hs; simpl; tauto |]
             end.
      reflexivity.
Qed.

Lemma weighted_duration_policy_witness :
  exists d,
    Script2.calculate_node_duration
      (Samples.calculator [Samples.node "A" "High" "In Progress"] []) "A"
    = Some d /\ (d == 2)%Q.
Proof.
  destruct (weighted_duration_policy
              (Samples.calculator [Samples.node "A" "High" "In Progress"] [])
              "A" (Samples.node "A" "High" "In Progress") eq_refl)
    as [[d [Hd [Hmax _]]] _].
  exists d. split; [exact Hd |]. rewrite Hmax. reflexivity.
Defined.

(** ** The weighted script: forward pass *)
Module Script2Forward.
Import Script2 Script2Graph Script2Order Script2Sort Script2Passes
  Script2Backward Script2Run.

Lemma start_after_nonneg (G : Calculator) l1 ef n :
  (0 <= start_after G l1 ef n)%Q.
Proof.
  unfold start_after.
  now destruct (fold_pymax_spec (map (val ef) (earlier_preds G l1 n)) 0%Q).
Qed.

Lemma fwd_lookup (G : Calculator) l es ef n :
  fwd_inv G l es ef -> In n l ->
  exists l1 l2 d,
    l = l1 ++ n :: l2
    /\ calculate_node_duration G n = Some d
    /\ Dict.get es n = Some (start_after G l1 ef n)
    /\ Dict.get ef n = Some (start_after G l1 ef n + d)%Q.
Proof.
  intros [_ _ Hat] Hn. apply in_split in Hn. destruct Hn as [l1 [l2 Hl]].
  destruct (Hat l1 n l2 Hl) as [d H]. exists l1, l2, d. tauto.
Qed.

Lemma fwd_start_le_finish (G : Calculator) l es ef n :
  fwd_inv G l es ef -> In n l ->
  (0 <= val es n)%Q /\ (val es n + (1 # 10) <= val ef n)%Q.
Proof.
  intros Hinv Hn.
  destruct (fwd_lookup G l es ef n Hinv Hn) as [l1 [l2 [d [_ [Hd [He Hf]]]]]].
  unfold val, Dict.get_or. rewrite He, Hf.
  pose proof (start_after_nonneg G l1 ef n).
  pose proof (duration_at_least G n d Hd). split; [assumption | lra].
Qed.

Lemma fwd_finish_pos (G : Calculator) l es ef n :
  fwd_inv G l es ef -> In n l -> (0 < val ef n)%Q.
Proof.
  intros Hinv Hn. destruct (fwd_start_le_finish G l es ef n Hinv Hn). lra.
Qed.

(** A node placed after all of its predecessors starts at their latest
    finish. *)
Lemma fwd_start_all_preds (G : Calculator) l es ef l1 n l2 :
  fwd_inv G l es ef -> l = l1 ++ n :: l2 ->
  (forall p, In p (preds G n) -> In p l1) ->
  Dict.get es n = Some (fold_left pymax (map (val ef) (preds G n)) 0%Q).
Proof.
  intros [_ _ Hat] Hl Hall. destruct (Hat l1 n l2 Hl) as [d [_ [He _]]].
  rewrite He. unfold start_after, earlier_preds.
  rewrite filter_all; [reflexivity |].
  intros p Hp. apply str_in_In. now apply Hall.
Qed.

Lemma values_of_keys (tab : Dict.t Q) (v : Q) :
  NoDup (Dict.keys tab) ->
  (In v (Dict.values tab) <-> In v (map (val tab) (Dict.keys tab))).
Proof.
  intros Hnd. unfold Dict.values, Dict.keys. rewrite map_map, !in_map_iff.
  split; intros [[k w] [He Hin]]; exists (k, w); simpl in *;
    (split; [| exact Hin]).
  - unfold val, Dict.get_or. now rewrite (In_get_NoDup tab k w Hnd Hin).
  - unfold val, Dict.get_or in He.
    now rewrite (In_get_NoDup tab k w Hnd Hin) in He.
Qed.

End Script2Forward.

(** ** The unit-duration script: the forward pass *)
Module ScriptForward.
Import Script ScriptOrder.

(** [m] is the greatest element of [l]. *)
Definition is_greatest (m : Z) (l : list Z) : Prop :=
  In m l /\ forall x, In x l -> (x <= m)%Z.

(** Predecessors of [v], as [reverse_graph] lists them. *)
Definition radj (rg : Dict.t (list string)) (v : string) : list string :=
  Dict.get_or rg v [].

Lemma forward_step_graph g es0 (n : string) g' es' :
  forward_step (g, es0) n = Some (g', es') -> g' = Dict.touch g n [].
Proof.
  unfold forward_step.
  destruct (fold_left (push_start n) _ _); [| discriminate].
  now intros [= <- _].
Qed.


(** [reverse_graph] is the converse of [graph]. *)
Lemma build_graph_reverse (order : SetOrder) (deps : list Dependency)
    (u v : string) :
  In u (radj (reverse_graph (build_graph order deps)) v)
  <-> In v (adj (graph (build_graph order deps)) u).
Proof.
  unfold build_graph.
  set (g := fold_left build_graph_step deps
              {| graph := []; reverse_graph := []; in_degree := [];
                 out_degree := []; all_nodes := [] |}).
  destruct (fold_left _ (set_iter order (all_nodes g)) _) as [ind outd].
  simpl. subst g. revert u v.
  assert (G : forall ds g0,
            (forall u v, In u (radj (reverse_graph g0) v)
                         <-> In v (adj (graph g0) u)) ->
            forall u v,
              In u (radj (reverse_graph (fold_left build_graph_step ds g0)) v)
              <-> In v (adj (graph (fold_left build_graph_step ds g0)) u)).
  { induction ds as [| d ds IH]; intros g0 H0; simpl; [exact H0 |].
    apply IH. intros u v. unfold build_graph_step, adj, radj. simpl.
    specialize (H0 u v). unfold adj, radj in H0.
    destruct (string_dec v (target d)) as [-> | Hv];
      destruct (string_dec u (source d)) as [-> | Hu];
      rewrite ?get_or_set_same, ?get_or_set_other by assumption;
      rewrite ?in_app_iff; simpl; intuition congruence. }
  apply G. intros u v. unfold adj, radj. simpl. tauto.
Qed.

(** The pushes of one iteration of the forward loop. *)
Lemma push_fold (x : string) (a : Z) (L : list string) (es1 : Dict.t Z) :
  Dict.get es1 x = Some a -> ~ In x L ->
  exists es',
    fold_left (push_start x) L (Some es1) = Some es'
    /\ Dict.get es' x = Some a
    /\ (forall k, ~ In k L -> Dict.get es' k = Dict.get es1 k)
    /\ (forall d, In d L ->
          exists b,
            Dict.get es' d = Some b /\ (a + 1 <= b)%Z
            /\ (b = (a + 1)%Z \/ Dict.get es1 d = Some b)
            /\ (forall old, Dict.get es1 d = Some old -> (old <= b)%Z)).
Proof.
  revert es1. induction L as [| d0 L IH]; intros es1 Hx HxL.
  - exists es1. simpl. repeat split; auto. intros d [].
  - assert (Hd0 : d0 <> x) by (intros ->; apply HxL; now left).
    assert (HxL' : ~ In x L) by (intros H; apply HxL; now right).
    assert (Hstep : exists es2 b0,
               push_start x (Some es1) d0 = Some es2
               /\ Dict.get es2 x = Some a
               /\ (forall k, k <> d0 -> Dict.get es2 k = Dict.get es1 k)
               /\ Dict.get es2 d0 = Some b0 /\ (a + 1 <= b0)%Z
               /\ (b0 = (a + 1)%Z \/ Dict.get es1 d0 = Some b0)
               /\ (forall old, Dict.get es1 d0 = Some old -> (old <= b0)%Z)).
    { unfold push_start. simpl. rewrite Hx.
      destruct (Dict.get es1 d0) as [old |] eqn:Eold.
      - destruct (old <? a + 1)%Z eqn:El.
        + apply Z.ltb_lt in El.
          exists (Dict.set es1 d0 (a + 1)%Z), (a + 1)%Z.
          split; [reflexivity |].
          split; [now rewrite get_set_other by congruence |].
          split; [intros k Hk; now apply get_set_other |].
          split; [apply get_set_same |]. split; [lia |].
          split; [now left |]. intros o [= <-]. lia.
        + apply Z.ltb_ge in El. exists es1, old.
          split; [reflexivity |]. split; [exact Hx |].
          split; [reflexivity |]. split; [exact Eold |]. split; [lia |].
          split; [now right |]. intros o [= <-]. lia.
      - exists (Dict.set es1 d0 (a + 1)%Z), (a + 1)%Z.
        split; [reflexivity |].
        split; [now rewrite get_set_other by congruence |].
        split; [intros k Hk; now apply get_set_other |].
        split; [apply get_set_same |]. split; [lia |].
        split; [now left |]. intros o [=]. }
    destruct Hstep as [es2 [b0 [Hpush [H2x [H2o [H2d [Hab0 [Hb0 Hold0]]]]]]]].
    destruct (IH es2 H2x HxL') as [es' [Hfold [Hx' [Hkeep Hall]]]].
    exists es'. cbn [fold_left]. rewrite Hpush.
    split; [exact Hfold |]. split; [exact Hx' |]. split.
    + intros k Hk. rewrite Hkeep by (intros H; apply Hk; now right).
      apply H2o. intros ->. apply Hk. now left.
    + intros d Hd.
      destruct (string_dec d d0) as [-> | Hne].
      * destruct (in_dec string_dec d0 L) as [HdL | HdL].
        -- destruct (Hall d0 HdL) as [b [Hb [Hab [Hcase Hmono]]]].
           exists b. split; [exact Hb |]. split; [exact Hab |].
           specialize (Hmono b0 H2d). split.
           ++ destruct Hcase as [-> | Hc]; [now left |].
              rewrite H2d in Hc. injection Hc as <-.
              destruct Hb0 as [-> | Hb0]; [now left | now right].
           ++ intros old Ho. specialize (Hold0 old Ho). lia.
        -- exists b0. rewrite (Hkeep d0 HdL).
           split; [exact H2d |]. split; [exact Hab0 |].
           split; [exact Hb0 | exact Hold0].
      * destruct Hd as [-> | Hd]; [congruence |].
        destruct (Hall d Hd) as [b [Hb [Hab [Hcase Hmono]]]].
        exists b. rewrite <- (H2o d Hne).
        split; [exact Hb |]. split; [exact Hab |].
        split; [exact Hcase | exact Hmono].
Qed.

Section Pass.
  Variable f : string -> list string.

  (** What the forward loop maintains, [P] being the ids visited so far. *)
Record fwd_inv (P : list string) (es : Dict.t Z) : Prop := {
    fwd_origin :
      forall v b, Dict.get es v = Some b ->
        (0 <= b)%Z
        /\ (b = 0%Z
            \/ exists u, In u P /\ In v (f u)
                         /\ Dict.get es u = Some (b - 1)%Z);
    fwd_edges :
      forall u v, In u P -> In v (f u) ->
        exists a b, Dict.get es u = Some a /\ Dict.get es v = Some b
                    /\ (a + 1 <= b)%Z;
    fwd_visited : forall u, In u P -> Dict.get es u <> None
  }.

Lemma fwd_inv_step (P : list string) (x : string) g es g' es' :
    fwd_inv P es ->
    (forall k, Dict.get_or g k [] = f k) ->
    ~ In x P ->
    (forall d, In d (f x) -> d <> x /\ ~ In d P) ->
    forward_step (g, es) x = Some (g', es') ->
    fwd_inv (P ++ [x]) es'.
  Proof.
    intros [Horig Hedges Hvis] Hg HxP Hfresh. unfold forward_step.
    rewrite get_or_touch, Hg.
    set (es1 := if Dict.mem es x then es else Dict.set es x 0%Z).
    assert (H1 : exists a, Dict.get es1 x = Some a
                   /\ (forall k, k <> x -> Dict.get es1 k = Dict.get es k)
                   /\ (Dict.get es x = Some a
                       \/ (Dict.get es x = None /\ a = 0%Z))).
    { subst es1. unfold Dict.mem.
      destruct (Dict.get es x) as [a |] eqn:Ea.
      - exists a. rewrite Ea. auto.
      - exists 0%Z. rewrite get_set_same.
        split; [reflexivity |]. split; [| now right].
        intros k Hk. now apply get_set_other. }
    destruct H1 as [a [H1x [H1o H1c]]].
    assert (HxL : ~ In x (f x)).
    { intros H. now destruct (Hfresh x H). }
    destruct (push_fold x a (f x) es1 H1x HxL)
      as [es2 [Hfold [H2x [H2keep H2all]]]].
    rewrite Hfold. intros [= _ <-].
    assert (Ha : (0 <= a)%Z).
    { destruct H1c as [H | [_ ->]]; [| lia]. now apply Horig in H. }
    assert (Hstable : forall u, In u P -> Dict.get es2 u = Dict.get es u).
    { intros u Hu.
      assert (Hux : u <> x) by (intros ->; contradiction).
      rewrite H2keep; [now apply H1o |].
      intros H. now destruct (Hfresh u H). }
    assert (Htrans : forall v b, Dict.get es v = Some b ->
               (0 <= b)%Z
               /\ (b = 0%Z
                   \/ exists u, In u (P ++ [x]) /\ In v (f u)
                                /\ Dict.get es2 u = Some (b - 1)%Z)).
    { intros v b Hb. destruct (Horig v b Hb) as [Hb0 [-> | [u [Hu [Hv He]]]]].
      - split; [lia | now left].
      - split; [exact Hb0 |]. right. exists u.
        split; [apply in_or_app; now left |]. split; [exact Hv |].
        now rewrite Hstable. }
    constructor.
    - intros v b Hb.
      destruct (in_dec string_dec v (f x)) as [Hv | Hv].
      + destruct (H2all v Hv) as [b' [Hb' [Hab [Hcase _]]]].
        rewrite Hb in Hb'. injection Hb' as <-.
        destruct Hcase as [-> | Hc].
        * split; [lia |]. right. exists x.
          split; [apply in_or_app; right; now left |]. split; [exact Hv |].
          rewrite H2x. f_equal. lia.
        * rewrite H1o in Hc by (now destruct (Hfresh v Hv)).
          now apply Htrans.
      + rewrite (H2keep v Hv) in Hb.
        destruct (string_dec v x) as [-> | Hne].
        * rewrite H1x in Hb. injection Hb as <-.
          destruct H1c as [H | [_ ->]]; [now apply Htrans |].
          split; [lia | now left].
        * rewrite H1o in Hb by exact Hne. now apply Htrans.
    - intros u v Hu Hv. apply in_app_or in Hu.
      destruct Hu as [Hu | [<- | []]].
      + destruct (Hedges u v Hu Hv) as [a0 [b0 [Ha0 [Hb0 Hle]]]].
        exists a0. rewrite (Hstable u Hu).
        destruct (in_dec string_dec v (f x)) as [Hvx | Hvx].
        * destruct (H2all v Hvx) as [b' [Hb' [_ [_ Hmono]]]].
          exists b'. split; [exact Ha0 |]. split; [exact Hb' |].
          rewrite H1o in Hmono by (now destruct (Hfresh v Hvx)).
          specialize (Hmono b0 Hb0). lia.
        * exists b0. rewrite (H2keep v Hvx).
          split; [exact Ha0 |]. split; [| exact Hle].
          destruct (string_dec v x) as [-> | Hne].
          -- rewrite H1x. destruct H1c as [H | [H _]]; congruence.
          -- now rewrite H1o.
      + destruct (H2all v Hv) as [b' [Hb' [Hab _]]].
        exists a, b'. auto.
    - intros u Hu. apply in_app_or in Hu.
      destruct Hu as [Hu | [<- | []]].
      + rewrite (Hstable u Hu). now apply Hvis.
      + congruence.
  Qed.

Lemma forward_inv (topo : list string) (g : Dict.t (list string))
      (es0 : Dict.t Z) :
    NoDup topo ->
    (forall v, In v topo -> forall u, In v (f u) -> before u v topo) ->
    (forall k, Dict.get_or g k [] = f k) ->
    (forall v b, Dict.get es0 v = Some b -> b = 0%Z) ->
    forall P rest g' es',
      topo = P ++ rest ->
      foldM forward_step P (g, es0) = Some (g', es') ->
      fwd_inv P es' /\ forall k, Dict.get_or g' k [] = f k.
  Proof.
    intros Hnd Hord Hg H0.
    induction P as [| x P IH] using rev_ind; intros rest g' es' Htopo Hrun.
    - simpl in Hrun. injection Hrun as <- <-. split; [| exact Hg].
      constructor.
      + intros v b Hb. apply H0 in Hb. subst b. split; [lia | now left].
      + intros u v [].
      + intros u [].
    - rewrite foldM_app in Hrun.
      destruct (foldM forward_step P (g, es0)) as [[g1 es1] |] eqn:E1;
        [| discriminate].
      cbn [foldM] in Hrun.
      destruct (forward_step (g1, es1) x) as [[g2 es2] |] eqn:E2;
        [| discriminate].
      injection Hrun as <- <-.
      rewrite <- app_assoc in Htopo. simpl in Htopo.
      destruct (IH (x :: rest) g1 es1 Htopo eq_refl) as [Hinv Hg1].
      assert (HxP : ~ In x P).
      { rewrite Htopo in Hnd. apply NoDup_remove_2 in Hnd.
        intros H. apply Hnd. apply in_or_app. now left. }
      assert (Hx : In x topo).
      { rewrite Htopo. apply in_or_app. right. now left. }
      split.
      + apply (fwd_inv_step P x g1 es1 g2 es2 Hinv Hg1 HxP); [| exact E2].
        intros d Hd. split.
        * intros ->. destruct (Hord x Hx x Hd) as [l1 [l2 [Hl Hin]]].
          rewrite Hl in Hnd. apply NoDup_remove_2 in Hnd.
          apply Hnd. apply in_or_app. now left.
        * intros HdP.
          assert (Hdt : In d topo).
          { rewrite Htopo. apply in_or_app. now left. }
          destruct (Hord d Hdt x Hd) as [l1 [l2 [Hl Hin]]].
          apply in_split in HdP. destruct HdP as [p1 [p2 HP]].
          assert (E : topo = p1 ++ d :: (p2 ++ x :: rest)).
          { rewrite Htopo, HP, <- app_assoc. reflexivity. }
          rewrite Hl in E. rewrite Hl in Hnd.
          destruct (Script2Passes.NoDup_split_unique _ _ _ _ _ Hnd E)
            as [-> _].
          apply HxP. rewrite HP. apply in_or_app. now left.
      + apply forward_step_graph in E2. subst g2. intros k.
        now rewrite get_or_touch.
  Qed.

End Pass.

Lemma initial_earliest_zero (deg : Dict.t Z) (L : list string)
    (acc : Dict.t Z) :
  (forall v b, Dict.get acc v = Some b -> b = 0%Z) ->
  forall v b,
    Dict.get
      (fold_left
         (fun es node =>
            if (Dict.get_or deg node 0 =? 0)%Z
            then Dict.set es node 0%Z else es) L acc) v = Some b ->
    b = 0%Z.
Proof.
  revert acc. induction L as [| a L IH]; intros acc H0; simpl; [exact H0 |].
  apply IH. destruct (Dict.get_or deg a 0 =? 0)%Z; [| exact H0].
  intros v b. destruct (string_dec v a) as [-> | Hne].
  - rewrite get_set_same. now intros [= <-].
  - rewrite get_set_other by exact Hne. apply H0.
Qed.

(** The forward pass of [calculate_critical_path] on a built graph. *)
Lemma calculate_critical_path_earliest (order : SetOrder)
    (deps : list Dependency) :
  exists g topo crit es ls,
    topological_sort (graph (build_graph order deps))
                     (in_degree (build_graph order deps)) = Some (g, topo)
    /\ calculate_critical_path order (build_graph order deps)
       = Some (crit, es, ls)
    /\ forall n, In n topo ->
         (radj (reverse_graph (build_graph order deps)) n = [] ->
          Dict.get es n = Some 0%Z)
         /\ (radj (reverse_graph (build_graph order deps)) n <> [] ->
             exists m,
               Dict.get es n = Some m
               /\ is_greatest m
                    (map (fun u => (Dict.get_or es u 0 + 1)%Z)
                         (radj (reverse_graph (build_graph order deps)) n))).
Proof.
  set (gr := build_graph order deps).
  destruct (ScriptFacts.topological_sort_total (graph gr) (in_degree gr))
    as [[g topo] Hts].
  destruct (topological_sort_ordered order deps g topo Hts)
    as [Hnd [Hord Hg]]. fold gr in Hord, Hg.
  unfold calculate_critical_path. rewrite Hts.
  set (es0 := fold_left
                (fun es node =>
                   if (Dict.get_or (in_degree gr) node 0 =? 0)%Z
                   then Dict.set es node 0%Z else es)
                (set_iter order (all_nodes gr)) []).
  destruct (ScriptFacts.forward_total topo (g, es0)) as [[g1 es] Hfw].
  rewrite Hfw.
  destruct (fold_left (backward_step (out_degree gr) es) (rev topo) _)
    as [g2 ls].
  exists g, topo. eexists. exists es, ls.
  split; [reflexivity |]. split; [reflexivity |].
  assert (H0 : forall v b, Dict.get es0 v = Some b -> b = 0%Z).
  { apply initial_earliest_zero. intros v b [=]. }
  destruct (forward_inv (adj (graph gr)) topo g es0 Hnd Hord Hg H0
              topo [] g1 es (eq_sym (app_nil_r topo)) Hfw)
    as [[Horig Hedges Hvis] _].
  assert (Hpred : forall u n, In n topo -> In n (adj (graph gr) u) ->
             exists a b, Dict.get es u = Some a /\ Dict.get es n = Some b
                         /\ (0 <= a)%Z /\ (a + 1 <= b)%Z).
  { intros u n Hn Hu.
    destruct (Hord n Hn u Hu) as [l1 [l2 [Hl Hin]]].
    assert (Hut : In u topo) by (rewrite Hl; apply in_or_app; now left).
    destruct (Hedges u n Hut Hu) as [a [b [Ha [Hb Hle]]]].
    exists a, b. destruct (Horig u a Ha) as [Ha0 _]. auto. }
  intros n Hn.
  destruct (Dict.get es n) as [b |] eqn:Eb; [| now apply Hvis in Hn].
  destruct (Horig n b Eb) as [Hb0 Hcase].
  split.
  - intros Hnone. f_equal.
    destruct Hcase as [-> | [u [_ [Hu _]]]]; [reflexivity |].
    apply (build_graph_reverse order deps) in Hu. fold gr in Hu.
    rewrite Hnone in Hu. destruct Hu.
  - intros Hsome. exists b. split; [reflexivity |].
    destruct (radj (reverse_graph gr) n) as [| u0 us] eqn:Er; [congruence |].
    assert (Hu0 : In n (adj (graph gr) u0)).
    { apply (build_graph_reverse order deps). fold gr. rewrite Er. now left. }
    destruct (Hpred u0 n Hn Hu0) as [a0 [b0 [Ha0 [Hb0' [Hpos Hle]]]]].
    rewrite Eb in Hb0'. injection Hb0' as <-.
    destruct Hcase as [-> | [u [_ [Hu He]]]]; [lia |].
    rewrite <- Er. split.
    + apply in_map_iff. exists u. split.
      * unfold Dict.get_or. rewrite He. lia.
      * now apply (build_graph_reverse order deps).
    + intros y Hy. apply in_map_iff in Hy. destruct Hy as [u' [<- Hu']].
      apply (build_graph_reverse order deps) in Hu'. fold gr in Hu'.
      destruct (Hpred u' n Hn Hu') as [a' [b' [Ha' [Hb' [_ Hle']]]]].
      rewrite Eb in Hb'. injection Hb' as <-.
      unfold Dict.get_or. rewrite Ha'. exact Hle'.
Qed.

End ScriptForward.

(** C1: in a run of the weighted script, a node emitted by the Kahn loop has
    [earliest_start] equal to the maximum [earliest_finish] over all of its
    predecessors (0 when it has none); when the graph has no closed walk every
    node is emitted by the Kahn loop; every node has
    [earliest_finish = earliest_start + duration]; and the project completion
    time is the maximum [earliest_finish] over all nodes (0 without nodes).
    The unit-duration script keeps [earliest_start] only, every task taking
    one unit: a node of its order has [earliest_start] equal to the maximum of
    [earliest_start + 1] over all of its predecessors (0 when it has none). *)
Theorem forward_pass (order : SetOrder) (self : Script2.Calculator) :
  Dict.well_formed (Script2.nodes self) = true ->
  (exists r,
    Script2.calculate_critical_path order self = Some r
    /\ (forall g kahn n,
          Script2.kahn_order (Script2.build_graph self) = Some (g, kahn) ->
          In n kahn ->
          (Script2Order.preds (Script2.build_graph self) n = [] ->
           Dict.get (Script2.earliest_start r) n = Some 0%Q)
          /\ (Script2Order.preds (Script2.build_graph self) n <> [] ->
              is_max_of
                (Script2Passes.val (Script2.earliest_start r) n)
                (map (Script2Passes.val (Script2.earliest_finish r))
                     (Script2Order.preds (Script2.build_graph self) n))))
    /\ (forall g kahn,
          Script2.kahn_order (Script2.build_graph self) = Some (g, kahn) ->
          (forall m, ~ path (Script2Order.succs (Script2.build_graph self)) m m) ->
          forall n, In n (Dict.keys (Script2.nodes self)) -> In n kahn)
    /\ (forall n, In n (Dict.keys (Script2.nodes self)) ->
          exists d s,
            Script2.calculate_node_duration self n = Some d
            /\ Dict.get (Script2.earliest_start r) n = Some s
            /\ Dict.get (Script2.earliest_finish r) n = Some (s + d)%Q)
    /\ (Script2.nodes self = [] -> Script2.project_completion r = 0%Q)
    /\ (Script2.nodes self <> [] ->
        is_max_of (Script2.project_completion r)
                  (map (Script2Passes.val (Script2.earliest_finish r))
                       (Dict.keys (Script2.nodes self)))))
  /\ (forall deps,
        exists g topo crit es ls,
          Script.topological_sort
            (Script.graph (Script.build_graph order deps))
            (Script.in_degree (Script.build_graph order deps))
          = Some (g, topo)
          /\ Script.calculate_critical_path order
               (Script.build_graph order deps) = Some (crit, es, ls)
          /\ forall n, In n topo ->
               (ScriptForward.radj
                  (Script.reverse_graph (Script.build_graph order deps)) n
                = [] ->
                Dict.get es n = Some 0%Z)
               /\ (ScriptForward.radj
                     (Script.reverse_graph (Script.build_graph order deps)) n
                   <> [] ->
                   exists m,
                     Dict.get es n = Some m
                     /\ ScriptForward.is_greatest m
                          (map (fun u => (Dict.get_or es u 0 + 1)%Z)
                               (ScriptForward.radj
                                  (Script.reverse_graph
                                     (Script.build_graph order deps)) n)))).
Proof.
  intros Hwf. split;
    [| intros deps;
       exact (ScriptForward.calculate_critical_path_earliest order deps)].
  apply well_formed_NoDup in Hwf.
  destruct (Script2Run.calculate_critical_path_spec order self Hwf)
    as [r [Hrun F]].
  exists r. split; [exact Hrun |].
  destruct F as [Hkahn Hnd Hcov Hfwd Hcomp _ _ _ _ _].
  pose proof (Script2Graph.build_graph_ok self) as Hok.
  destruct (Script2Graph.build_graph_nodes self) as [HnB _].
  split; [| split; [| split; [| split]]].
  - intros g kahn n Hk Hn.
    destruct Hkahn as [g0 [kahn0 [rest [warned [Hk0 [Htopo [Hord _]]]]]]].
    rewrite Hk in Hk0. injection Hk0 as <- <-.
    assert (Hall : forall l1 l2, Script2.topo_order r = l1 ++ n :: l2 ->
              forall p, In p (Script2Order.preds (Script2.build_graph self) n) ->
                        In p l1).
    { intros l1 l2 Hl p Hp.
      apply (Script2Graph.graph_reverse _ Hok) in Hp.
      destruct (Hord n Hn p Hp) as [k1 [k2 [Hkk Hin]]].
      rewrite Htopo, Hkk, <- app_assoc in Hl. simpl in Hl.
      assert (Hnd' : NoDup (k1 ++ n :: k2 ++ rest)).
      { rewrite Htopo, Hkk, <- app_assoc in Hnd. exact Hnd. }
      destruct (Script2Passes.NoDup_split_unique _ _ _ _ _ Hnd' Hl) as [-> _].
      exact Hin. }
    assert (Hin : In n (Script2.topo_order r)).
    { rewrite Htopo. apply in_or_app. now left. }
    apply in_split in Hin. destruct Hin as [l1 [l2 Hl]].
    pose proof (Script2Forward.fwd_start_all_preds _ _ _ _ l1 n l2 Hfwd Hl
                  (Hall l1 l2 Hl)) as Hes.
    split.
    + intros Hp. rewrite Hes, Hp. reflexivity.
    + intros Hp. unfold Script2Passes.val at 1. unfold Dict.get_or.
      rewrite Hes. apply fold_pymax_is_max.
      * intros Hm. apply map_eq_nil in Hm. contradiction.
      * intros x Hx. apply in_map_iff in Hx. destruct Hx as [p [<- Hp']].
        eapply Script2Forward.fwd_finish_pos; [exact Hfwd |].
        rewrite Hl. apply in_or_app. left. now apply (Hall l1 l2 Hl).
  - intros g kahn Hk Hno n Hn.
    exact (Script2Acyclic.built_no_cycle_all_emitted self g kahn Hwf Hk Hno
             n Hn).
  - intros n Hn. apply Hcov in Hn.
    destruct (Script2Forward.fwd_lookup _ _ _ _ n Hfwd Hn)
      as [l1 [l2 [d [_ [Hd [He Hf]]]]]].
    exists d, (Script2Passes.start_after (Script2.build_graph self) l1
                 (Script2.earliest_finish r) n).
    rewrite <- (Script2Run.duration_nodes _ self n HnB). tauto.
  - intros Hnil. rewrite Hcomp.
    destruct Hfwd as [_ Hkef _].
    assert (Ht : Script2.topo_order r = []).
    { destruct (Script2.topo_order r) as [| x t]; [reflexivity |].
      exfalso. assert (Hx : In x (Dict.keys (Script2.nodes self))).
      { apply Hcov. now left. }
      rewrite Hnil in Hx. destruct Hx. }
    rewrite Ht in Hkef. unfold Dict.keys in Hkef. apply map_eq_nil in Hkef.
    rewrite Hkef. reflexivity.
  - intros Hne. rewrite Hcomp.
    pose proof Hfwd as [_ Hkef _].
    assert (Hnk : NoDup (Dict.keys (Script2.earliest_finish r))).
    { now rewrite Hkef. }
    assert (Hvals : Dict.values (Script2.earliest_finish r) <> []).
    { intros Hv. unfold Dict.values in Hv. apply map_eq_nil in Hv.
      rewrite Hv in Hkef. simpl in Hkef.
      destruct (Script2.nodes self) as [| [k nd] rest]; [congruence |].
      assert (Hx : In k (Script2.topo_order r)) by (apply Hcov; now left).
      rewrite <- Hkef in Hx. destruct Hx. }
    assert (Hm : is_max_of
                   (pymax_list (Dict.values (Script2.earliest_finish r)) 0%Q)
                   (Dict.values (Script2.earliest_finish r))).
    { destruct (Dict.values (Script2.earliest_finish r)) as [| x vs];
        [congruence | apply pymax_list_is_max]. }
    destruct Hm as [Hin Hmax].
    assert (Hsame : forall v,
              In v (Dict.values (Script2.earliest_finish r)) <->
              In v (map (Script2Passes.val (Script2.earliest_finish r))
                        (Dict.keys (Script2.nodes self)))).
    { intros v. rewrite (Script2Forward.values_of_keys _ v Hnk), Hkef.
      rewrite !in_map_iff. split; intros [k [He Hk]]; exists k;
        (split; [exact He | now apply Hcov]). }
    split.
    + now apply Hsame.
    + intros v Hv. apply Hmax. now apply Hsame.
Qed.

Lemma forward_pass_witness :
  exists r,
    Script2.calculate_critical_path insertion_order
      (Samples.calculator
         [Samples.node "A" "Low" "To Do"; Samples.node "B" "Lowest" "To Do";
          Samples.node "C" "Highest" "To Do"; Samples.node "D" "Low" "Done"]
         [Samples.dep "A" "B"; Samples.dep "B" "D"; Samples.dep "A" "C";
          Samples.dep "C" "D"]) = Some r
    /\ Script2Passes.val (Script2.earliest_start r) "D" = 7%Q.
Proof.
  destruct (forward_pass insertion_order
              (Samples.calculator
                 [Samples.node "A" "Low" "To Do";
                  Samples.node "B" "Lowest" "To Do";
                  Samples.node "C" "Highest" "To Do";
                  Samples.node "D" "Low" "Done"]
                 [Samples.dep "A" "B"; Samples.dep "B" "D";
                  Samples.dep "A" "C"; Samples.dep "C" "D"]) eq_refl)
    as [[r [Hrun _]] _].
  exists r. split; [exact Hrun |].
  vm_compute in Hrun. injection Hrun as <-. reflexivity.
Defined.

(** ** The weighted script: the time tables along the order *)
Module Script2Tables.
Import Script2 Script2Graph Script2Order Script2Sort Script2Passes
  Script2Backward Script2Run Script2Forward.

Lemma str_in_rev (x : string) (l : list string) :
  str_in x (rev l) = str_in x l.
Proof.
  destruct (str_in x l) eqn:E.
  - apply str_in_In. apply str_in_In in E. now apply in_rev in E.
  - apply str_in_false. apply str_in_false in E. intros H. apply E.
    now apply in_rev.
Qed.

Section Tables.
  Variable G : Calculator.
  Variable topo : list string.
  Variables es ef ls lf : Dict.t Q.
  Variable C : Q.
  Hypothesis Hok : graph_ok G.
  Hypothesis Hnd : NoDup topo.
  Hypothesis Hfwd : fwd_inv G topo es ef.
  Hypothesis Hbwd : bwd_inv G C (rev topo) ls lf.
  Hypothesis HC : forall n, In n topo -> (val ef n <= C)%Q.

  (** Successors of [n] that the reversed loop has already resolved: those
      placed after [n] in the order. *)
Definition resolved_succs (l2 : list string) (n : string) : list string :=
    filter (fun s => str_in s l2) (succs G n).

Lemma finish_after_fold l2 n :
    finish_after G C (rev l2) ls n
    = fold_left pymin (map (val ls) (resolved_succs l2 n)) C.
Proof.
    unfold finish_after, later_succs, resolved_succs. do 2 f_equal.
    apply filter_ext. intros s. apply str_in_rev.
Qed.

Lemma finish_after_le l1 n : (finish_after G C l1 ls n <= C)%Q.
Proof.
    unfold finish_after.
    now destruct (fold_pymin_spec (map (val ls) (later_succs G l1 n)) C).
Qed.

  (** Everything the two passes store for the node at a given position. *)
Lemma at_split l1 n l2 :
    topo = l1 ++ n :: l2 ->
    exists d F,
      calculate_node_duration G n = Some d
      /\ Dict.get es n = Some (start_after G l1 ef n)
      /\ Dict.get ef n = Some (start_after G l1 ef n + d)%Q
      /\ Dict.get lf n = Some F
      /\ Dict.get ls n = Some (F - d)%Q
      /\ (F <= C)%Q
      /\ (In n (end_nodes G) -> F = C)
      /\ (~ In n (end_nodes G) ->
          F = fold_left pymin (map (val ls) (resolved_succs l2 n)) C).
Proof.
    intros Hl.
    destruct Hfwd as [_ _ Hat]. destruct (Hat l1 n l2 Hl) as [d [Hd [He Hf]]].
    destruct Hbwd as [_ _ Hend Hbat].
    assert (Hr : rev topo = rev l2 ++ n :: rev l1).
    { rewrite Hl, rev_app_distr. simpl. now rewrite <- app_assoc. }
    destruct (Hbat (rev l2) n (rev l1) Hr) as [d' [F [Hd' [Hlf [Hls Hint]]]]].
    rewrite Hd in Hd'. injection Hd' as <-.
    exists d, F. repeat (split; [assumption |]).
    assert (Hend' : In n (end_nodes G) -> F = C).
    { intros Hin. rewrite (Hend n Hin) in Hlf. congruence. }
    split; [| split; [exact Hend' |]].
    - destruct (in_dec string_dec n (end_nodes G)) as [Hin | Hni].
      + rewrite (Hend' Hin). apply Qle_refl.
      + rewrite (Hint Hni). apply finish_after_le.
    - intros Hni. rewrite (Hint Hni). apply finish_after_fold.
Qed.

  (** The backward pass never schedules a finish before the earliest one. *)
Lemma earliest_le_latest_finish :
    forall k l1 n l2,
      length l2 <= k -> topo = l1 ++ n :: l2 -> (val ef n <= val lf n)%Q.
Proof.
    induction k as [k IH] using lt_wf_ind. intros l1 n l2 Hk Hl.
    destruct (at_split l1 n l2 Hl)
      as [d [F [Hd [He [Hf [Hlf [Hls [HFC [Hend Hint]]]]]]]]].
    assert (Hn : In n topo).
    { rewrite Hl. apply in_or_app. simpl. tauto. }
    assert (Hlfv : val lf n = F).
    { unfold val, Dict.get_or. now rewrite Hlf. }
    rewrite Hlfv.
    destruct (in_dec string_dec n (end_nodes G)) as [Hin | Hni].
    { rewrite (Hend Hin). now apply HC. }
    rewrite (Hint Hni).
    destruct (fold_pymin_spec (map (val ls) (resolved_succs l2 n)) C)
      as [_ [_ [-> | Hmem]]]; [now apply HC |].
    apply in_map_iff in Hmem. destruct Hmem as [s [Hs Hsin]].
    rewrite <- Hs. unfold resolved_succs in Hsin. apply filter_In in Hsin.
    destruct Hsin as [Hsucc Hs2]. apply str_in_In in Hs2.
    apply in_split in Hs2. destruct Hs2 as [a [b Hab]].
    assert (Hl' : topo = (l1 ++ n :: a) ++ s :: b).
    { rewrite Hl, Hab, <- app_assoc. reflexivity. }
    destruct (at_split (l1 ++ n :: a) s b Hl')
      as [ds [Fs [Hds [Hes [Hfs [Hlfs [Hlss _]]]]]]].
    assert (IHs : (val ef s <= val lf s)%Q).
    { apply (IH (length b)) with (l1 := l1 ++ n :: a) (l2 := b).
      - rewrite Hab, length_app in Hk. simpl in Hk. lia.
      - apply Nat.le_refl.
      - exact Hl'. }
    unfold val, Dict.get_or in IHs. rewrite Hfs, Hlfs in IHs.
    unfold val at 2. unfold Dict.get_or. rewrite Hlss.
    assert (Hge : (val ef n <= start_after G (l1 ++ n :: a) ef s)%Q).
    { unfold start_after.
      destruct (fold_pymax_spec
                  (map (val ef) (earlier_preds G (l1 ++ n :: a) s)) 0%Q)
        as [_ [H _]].
      apply H. apply in_map. unfold earlier_preds. apply filter_In. split.
      - now apply (graph_reverse G Hok).
      - apply str_in_In, in_or_app. simpl. tauto. }
    lra.
Qed.

Lemma slack_nonneg l1 n l2 :
    topo = l1 ++ n :: l2 ->
    (val es n <= val ef n)%Q /\ (val ls n <= val lf n)%Q
    /\ (0 <= val ls n - val es n)%Q.
Proof.
    intros Hl.
    pose proof (earliest_le_latest_finish (length l2) l1 n l2 (Nat.le_refl _) Hl)
      as Hle.
    destruct (at_split l1 n l2 Hl)
      as [d [F [Hd [He [Hf [Hlf [Hls _]]]]]]].
    pose proof (duration_at_least G n d Hd) as Hdur.
    unfold val, Dict.get_or in *. rewrite He, Hf, Hlf, Hls in *.
    repeat split; lra.
Qed.

End Tables.
End Script2Tables.

Module Script2Slack.
Import Script2 Script2Graph Script2Order Script2Sort Script2Passes
  Script2Backward Script2Run Script2Forward Script2Tables.

Lemma fold_set_fn (f : string -> Q) (L : list string) (acc : Dict.t Q)
    (k : string) :
  (In k (Dict.keys (fold_left (fun sl n => Dict.set sl n (f n)) L acc))
     <-> In k (Dict.keys acc) \/ In k L)
  /\ Dict.get (fold_left (fun sl n => Dict.set sl n (f n)) L acc) k
     = (if str_in k L then Some (f k) else Dict.get acc k)
  /\ (NoDup (Dict.keys acc) ->
      NoDup (Dict.keys (fold_left (fun sl n => Dict.set sl n (f n)) L acc))).
Proof.
  revert acc. induction L as [| a L IH]; intros acc; simpl.
  - split; [tauto |]. split; [reflexivity | tauto].
  - destruct (IH (Dict.set acc a (f a))) as [H1 [H2 H3]]. split; [| split].
    + rewrite H1, keys_set_In. intuition congruence.
    + rewrite H2. destruct (str_in k L) eqn:E.
      * now rewrite orb_true_r.
      * rewrite orb_false_r. destruct (String.eqb k a) eqn:E'.
        -- apply String.eqb_eq in E'. subst a. apply get_set_same.
        -- apply String.eqb_neq in E'. now apply get_set_other.
    + intros Hnd. apply H3. now apply keys_set_NoDup.
Qed.

Lemma slack_table_get (nds : Dict.t Node) (es ls : Dict.t Q) (n : string) :
  In n (Dict.keys nds) ->
  Dict.get (slack_table nds es ls) n = Some (val ls n - val es n)%Q.
Proof.
  intros Hn. unfold slack_table.
  destruct (fold_set_fn (fun k => (Dict.get_or ls k 0 - Dict.get_or es k 0)%Q)
              (Dict.keys nds) [] n) as [_ [H _]].
  rewrite H. apply str_in_In in Hn. now rewrite Hn.
Qed.

Lemma slack_table_keys (nds : Dict.t Node) (es ls : Dict.t Q) :
  NoDup (Dict.keys (slack_table nds es ls))
  /\ forall k, In k (Dict.keys (slack_table nds es ls)) <-> In k (Dict.keys nds).
Proof.
  unfold slack_table. split.
  - apply (fold_set_fn (fun k => (Dict.get_or ls k 0 - Dict.get_or es k 0)%Q)
             (Dict.keys nds) [] ""). constructor.
  - intros k.
    destruct (fold_set_fn (fun k => (Dict.get_or ls k 0 - Dict.get_or es k 0)%Q)
                (Dict.keys nds) [] k) as [H _].
    rewrite H. simpl. tauto.
Qed.

Lemma critical_set_In (sl : Dict.t Q) (n : string) :
  In n (critical_set sl) <->
  exists v, In (n, v) sl /\ is_critical_slack v = true.
Proof.
  unfold critical_set.
  assert (G : forall acc,
    In n (fold_left
            (fun crit kv =>
               if is_critical_slack (snd kv) then set_add (fst kv) crit
               else crit) sl acc) <->
    In n acc \/ exists v, In (n, v) sl /\ is_critical_slack v = true).
  { induction sl as [| [k w] sl IH]; intros acc; simpl.
    - split; [tauto | intros [H | [v [[] _]]]; exact H].
    - rewrite IH. destruct (is_critical_slack w) eqn:E.
      + rewrite set_add_In. split.
        * intros [[-> | H] | [v [H1 H2]]]; eauto 6.
        * intros [H | [v [[Heq | H1] H2]]]; eauto 6.
          injection Heq as -> ->. tauto.
      + split.
        * intros [H | [v [H1 H2]]]; eauto 6.
        * intros [H | [v [[Heq | H1] H2]]]; eauto 6.
          injection Heq as -> ->. congruence. }
  rewrite G. simpl. tauto.
Qed.

Lemma is_critical_slack_spec (v : Q) :
  is_critical_slack v = true <-> (Qabs v < 1 # 1000)%Q.
Proof. unfold is_critical_slack. apply Qltb_lt. Qed.

Section Run.
  Variable order : SetOrder.
  Variable self : Calculator.
  Variable r : Result.
  Hypothesis Hkeys : NoDup (Dict.keys (nodes self)).
  Hypothesis F : run_facts order self r.

Lemma run_finish_le_completion (n : string) :
    In n (topo_order r) ->
    (val (earliest_finish r) n <= project_completion r)%Q.
Proof.
    intros Hn. rewrite (rf_completion _ _ _ F).
    pose proof (rf_forward _ _ _ F) as [_ Hkef _].
    assert (Hnk : NoDup (Dict.keys (earliest_finish r))).
    { rewrite Hkef. apply (rf_nodup _ _ _ F). }
    assert (Hv : In (val (earliest_finish r) n)
                    (Dict.values (earliest_finish r))).
    { apply (values_of_keys _ _ Hnk). apply in_map. now rewrite Hkef. }
    destruct (Dict.values (earliest_finish r)) as [| x vs]; [destruct Hv |].
    now apply (pymax_list_is_max x vs 0%Q).
Qed.

Lemma run_at_split l1 n l2 :
    topo_order r = l1 ++ n :: l2 ->
    exists d F',
      calculate_node_duration self n = Some d
      /\ Dict.get (earliest_start r) n
         = Some (start_after (build_graph self) l1 (earliest_finish r) n)
      /\ Dict.get (earliest_finish r) n
         = Some (start_after (build_graph self) l1 (earliest_finish r) n + d)%Q
      /\ Dict.get (latest_finish r) n = Some F'
      /\ Dict.get (latest_start r) n = Some (F' - d)%Q
      /\ (F' <= project_completion r)%Q
      /\ (In n (end_nodes (build_graph self)) -> F' = project_completion r)
      /\ (~ In n (end_nodes (build_graph self)) ->
          F' = fold_left pymin
                 (map (val (latest_start r))
                      (resolved_succs (build_graph self) l2 n))
                 (project_completion r)).
Proof.
    intros Hl.
    destruct (at_split (build_graph self) (topo_order r)
                (earliest_start r) (earliest_finish r)
                (latest_start r) (latest_finish r) (project_completion r)
                (rf_forward _ _ _ F) (rf_backward _ _ _ F) l1 n l2 Hl)
      as [d [F' H]].
    exists d, F'.
    destruct (build_graph_nodes self) as [HnB _].
    rewrite <- (duration_nodes _ self n HnB). exact H.
Qed.

Lemma run_slack_nonneg (n : string) :
    In n (Dict.keys (nodes self)) ->
    (val (earliest_start r) n <= val (earliest_finish r) n)%Q
    /\ (val (latest_start r) n <= val (latest_finish r) n)%Q
    /\ (0 <= val (latest_start r) n - val (earliest_start r) n)%Q.
Proof.
    intros Hn. apply (rf_cover _ _ _ F) in Hn.
    apply in_split in Hn. destruct Hn as [l1 [l2 Hl]].
    apply (slack_nonneg (build_graph self) (topo_order r)
             (earliest_start r) (earliest_finish r)
             (latest_start r) (latest_finish r) (project_completion r)
             (build_graph_ok self)
             (rf_forward _ _ _ F) (rf_backward _ _ _ F)
             run_finish_le_completion l1 n l2 Hl).
Qed.

Lemma run_slack_get (n : string) :
    In n (Dict.keys (nodes self)) ->
    Dict.get (slack r) n
    = Some (val (latest_start r) n - val (earliest_start r) n)%Q.
Proof.
    intros Hn. rewrite (rf_slack _ _ _ F). now apply slack_table_get.
Qed.

Lemma run_critical (n : string) :
    In n (critical_nodes r) <->
    In n (Dict.keys (nodes self))
    /\ (Qabs (val (latest_start r) n - val (earliest_start r) n) < 1 # 1000)%Q.
Proof.
    rewrite (rf_critical _ _ _ F), critical_set_In.
    destruct (slack_table_keys (nodes self) (earliest_start r) (latest_start r))
      as [Hnd Hk].
    rewrite <- (rf_slack _ _ _ F) in Hnd, Hk.
    split.
    - intros [v [Hin Hc]].
      assert (Hn : In n (Dict.keys (nodes self))).
      { apply Hk. apply (in_map fst) in Hin. exact Hin. }
      split; [exact Hn |].
      apply (In_get_NoDup _ _ _ Hnd) in Hin.
      rewrite (run_slack_get n Hn) in Hin. injection Hin as <-.
      now apply is_critical_slack_spec.
    - intros [Hn Hc].
      exists (val (latest_start r) n - val (earliest_start r) n)%Q.
      split; [| now apply is_critical_slack_spec].
      apply get_In. now apply run_slack_get.
Qed.

End Run.
End Script2Slack.

(** ** The weighted script: backward pass *)
Module Script2Latest.
Import Script2 Script2Graph Script2Order Script2Sort Script2Passes
  Script2Backward Script2Run Script2Forward Script2Tables Script2Slack.

Section Run.
  Variable order : SetOrder.
  Variable self : Calculator.
  Variable r : Result.
  Hypothesis F : run_facts order self r.

Lemma end_nodes_In (n : string) :
    In n (end_nodes (build_graph self)) <->
    In n (Dict.keys (nodes self)) /\ succs (build_graph self) n = [].
Proof.
    unfold end_nodes. rewrite filter_In.
    destruct (build_graph_nodes self) as [-> _].
    fold (succs (build_graph self) n).
    destruct (succs (build_graph self) n); intuition congruence.
Qed.

Lemma run_latest_start_lt (s : string) :
    In s (topo_order r) ->
    (val (latest_start r) s < project_completion r)%Q.
Proof.
    intros Hs. apply in_split in Hs. destruct Hs as [a [b Hab]].
    destruct (run_at_split order self r F a s b Hab)
      as [d [Fs [Hd [_ [_ [_ [Hls [Hle _]]]]]]]].
    pose proof (duration_at_least self s d Hd).
    unfold val, Dict.get_or. rewrite Hls. lra.
Qed.

  (** A node emitted by the Kahn loop has all its successors later in the
      order. *)
Lemma run_kahn_succs_later g kahn n l1 l2 :
    kahn_order (build_graph self) = Some (g, kahn) -> In n kahn ->
    topo_order r = l1 ++ n :: l2 ->
    forall s, In s (succs (build_graph self) n) -> In s l2.
Proof.
    intros Hk Hn Hl s Hs.
    destruct (rf_kahn _ _ _ F)
      as [g0 [kahn0 [rest [warned [Hk0 [Htopo [Hord _]]]]]]].
    rewrite Hk in Hk0. injection Hk0 as <- <-.
    pose proof (rf_nodup _ _ _ F) as Hnd.
    assert (Hst : In s (topo_order r)).
    { apply (rf_cover _ _ _ F).
      destruct (graph_nodes _ (build_graph_ok self) n s Hs) as [_ H].
      now destruct (build_graph_nodes self) as [<- _]. }
    rewrite Htopo in Hst. apply in_app_iff in Hst.
    destruct Hst as [Hsk | Hsr].
    - destruct (Hord s Hsk n Hs) as [k1 [k2 [Hkk Hin]]].
      apply in_split in Hin. destruct Hin as [a [b Hab]].
      assert (E : topo_order r = a ++ n :: (b ++ s :: k2 ++ rest)).
      { rewrite Htopo, Hkk, Hab. repeat (rewrite <- app_assoc; simpl).
        reflexivity. }
      rewrite Hl in E. rewrite Hl in Hnd.
      destruct (NoDup_split_unique _ _ _ _ _ Hnd E) as [_ ->].
      apply in_or_app. simpl. tauto.
    - apply in_split in Hn. destruct Hn as [a [b Hab]].
      assert (E : topo_order r = a ++ n :: (b ++ rest)).
      { rewrite Htopo, Hab, <- app_assoc. reflexivity. }
      rewrite Hl in E. rewrite Hl in Hnd.
      destruct (NoDup_split_unique _ _ _ _ _ Hnd E) as [_ ->].
      apply in_or_app. tauto.
Qed.

End Run.
End Script2Latest.

(** ** The unit-duration script: the backward pass *)
Module ScriptBackward.
Import Script ScriptOrder.

(** [m] is the least element of [l]. *)
Definition is_least (m : Z) (l : list Z) : Prop :=
  In m l /\ forall x, In x l -> (m <= x)%Z.

Lemma str_in_set_iter (order : SetOrder) (n : string) (l : list string) :
  str_in n (set_iter order l) = str_in n l.
Proof.
  destruct (str_in n l) eqn:E.
  - apply str_in_In. apply set_iter_In. now apply str_in_In.
  - apply str_in_false. rewrite set_iter_In. now apply str_in_false.
Qed.

Lemma fold_min_dependent (ls : Dict.t Z) (L : list string) (m0 : option Z) :
  match fold_left (min_dependent ls) L m0 with
  | None => m0 = None /\ forall s, In s L -> Dict.get ls s = None
  | Some m =>
      (m0 = Some m
       \/ exists s l, In s L /\ Dict.get ls s = Some l /\ m = (l - 1)%Z)
      /\ (forall m', m0 = Some m' -> (m <= m')%Z)
      /\ (forall s l, In s L -> Dict.get ls s = Some l -> (m <= l - 1)%Z)
  end.
Proof.
  revert m0. induction L as [| a L IH]; intros m0; simpl.
  - destruct m0 as [m |].
    + split; [now left |]. split.
      * intros m' [= <-]. lia.
      * intros s l [].
    + split; [reflexivity | intros s []].
  - specialize (IH (min_dependent ls m0 a)).
    destruct (fold_left (min_dependent ls) L (min_dependent ls m0 a))
      as [m |].
    + destruct IH as [Hin [Hle Hall]].
      unfold min_dependent in Hin, Hle.
      destruct (Dict.get ls a) as [l |] eqn:Ea.
      * destruct m0 as [m0' |].
        -- split; [| split].
           ++ destruct Hin as [[= Hm] | [s [l' [Hs [Hg Hm]]]]].
              ** destruct (l - 1 <? m0')%Z; [right | left; congruence].
                 exists a, l. subst m. tauto.
              ** right. exists s, l'. tauto.
           ++ intros m' [= <-]. specialize (Hle _ eq_refl).
              destruct (l - 1 <? m0')%Z eqn:El; [apply Z.ltb_lt in El |]; lia.
           ++ intros s l' [<- | Hs] Hg.
              ** rewrite Ea in Hg. injection Hg as <-.
                 specialize (Hle _ eq_refl).
                 destruct (l - 1 <? m0')%Z eqn:El;
                   [| apply Z.ltb_ge in El]; lia.
              ** now apply (Hall s).
        -- split; [| split].
           ++ right. destruct Hin as [[= Hm] | [s [l' [Hs [Hg Hm]]]]].
              ** exists a, l. subst m. tauto.
              ** exists s, l'. tauto.
           ++ intros m' [=].
           ++ intros s l' [<- | Hs] Hg.
              ** rewrite Ea in Hg. injection Hg as <-.
                 now apply Hle.
              ** now apply (Hall s).
      * split; [| split].
        -- destruct Hin as [Hm | [s [l' [Hs [Hg Hm]]]]]; [now left |].
           right. exists s, l'. tauto.
        -- exact Hle.
        -- intros s l' [<- | Hs] Hg; [congruence | now apply (Hall s)].
    + destruct IH as [Hm Hall]. unfold min_dependent in Hm.
      destruct (Dict.get ls a) as [l |] eqn:Ea.
      * destruct m0; discriminate.
      * split; [exact Hm |]. intros s [<- | Hs]; [exact Ea | now apply Hall].
Qed.

Section Pass.
  Variable order : SetOrder.
  Variable gr : Graph.
  Variable es : Dict.t Z.

  (** The ids that the initialisation of [latest_start] selects. *)
Definition is_end (n : string) : bool :=
    str_in n (all_nodes gr) && (Dict.get_or (out_degree gr) n 0 =? 0)%Z.

  (** [latest_start] after its initialisation loop. *)
Definition initial_latest : Dict.t Z :=
    fold_left
      (fun ls node =>
         if (Dict.get_or (out_degree gr) node 0 =? 0)%Z
         then Dict.set ls node (Dict.get_or es node 0%Z) else ls)
      (set_iter order (all_nodes gr)) [].

  (** The successors of [n] that have a [latest_start] when the reversed loop
      visits [n]; [later] holds the ids placed after [n] in the order. *)
Definition resolved (later : list string) (n : string) : list string :=
    filter (fun s => is_end s || str_in s later) (adj (graph gr) n).

Lemma fold_anchor_get (L : list string) (acc : Dict.t Z) (n : string) :
    Dict.get
      (fold_left
         (fun ls node =>
            if (Dict.get_or (out_degree gr) node 0 =? 0)%Z
            then Dict.set ls node (Dict.get_or es node 0%Z) else ls) L acc) n
    = if str_in n L && (Dict.get_or (out_degree gr) n 0 =? 0)%Z
      then Some (Dict.get_or es n 0%Z) else Dict.get acc n.
  Proof.
    revert acc. induction L as [| a L IH]; intros acc; simpl; [reflexivity |].
    rewrite IH. unfold str_in. simpl. fold (str_in n L).
    destruct (String.eqb_spec n a) as [-> | Hne]; simpl.
    - destruct (Dict.get_or (out_degree gr) a 0 =? 0)%Z eqn:Ez.
      + rewrite get_set_same. now destruct (str_in a L).
      + now rewrite !andb_false_r.
    - destruct (Dict.get_or (out_degree gr) a 0 =? 0)%Z;
        [rewrite get_set_other by exact Hne |]; reflexivity.
  Qed.

Lemma initial_latest_get (n : string) :
    Dict.get initial_latest n
    = if is_end n then Some (Dict.get_or es n 0%Z) else None.
  Proof.
    unfold initial_latest, is_end. rewrite fold_anchor_get.
    now rewrite str_in_set_iter.
  Qed.

Lemma initial_latest_mem (n : string) : Dict.mem initial_latest n = is_end n.
  Proof.
    unfold Dict.mem. rewrite initial_latest_get. now destruct (is_end n).
  Qed.

Lemma backward_step_spec g1 ls1 (x : string) g' ls' :
    (forall k, Dict.get_or g1 k [] = adj (graph gr) k) ->
    backward_step (out_degree gr) es (g1, ls1) x = (g', ls') ->
    (forall k, Dict.get_or g' k [] = adj (graph gr) k)
    /\ (Dict.mem ls1 x = true -> ls' = ls1)
    /\ (Dict.mem ls1 x = false ->
        exists v,
          ls' = Dict.set ls1 x v
          /\ (Dict.get_or (out_degree gr) x 0%Z = 0%Z ->
              v = Dict.get_or es x 0%Z)
          /\ (Dict.get_or (out_degree gr) x 0%Z <> 0%Z ->
              filter (Dict.mem ls1) (adj (graph gr) x) = [] ->
              v = Dict.get_or es x 0%Z)
          /\ (Dict.get_or (out_degree gr) x 0%Z <> 0%Z ->
              filter (Dict.mem ls1) (adj (graph gr) x) <> [] ->
              is_least v
                (map (fun s => (Dict.get_or ls1 s 0 - 1)%Z)
                     (filter (Dict.mem ls1) (adj (graph gr) x))))).
  Proof.
    intros Hg. unfold backward_step.
    destruct (Dict.mem ls1 x) eqn:Em.
    { intros [= <- <-]. split; [exact Hg |]. split; [reflexivity | discriminate]. }
    destruct (Dict.get_or (out_degree gr) x 0 =? 0)%Z eqn:Ez.
    { apply Z.eqb_eq in Ez. intros [= <- <-].
      split; [exact Hg |]. split; [discriminate |]. intros _.
      exists (Dict.get_or es x 0%Z). split; [reflexivity |].
      split; [reflexivity |]. split; intros H; contradiction. }
    apply Z.eqb_neq in Ez.
    rewrite get_or_touch, Hg.
    pose proof (fold_min_dependent ls1 (adj (graph gr) x) None) as Hmin.
    assert (Hg' : forall k,
               Dict.get_or (Dict.touch g1 x []) k [] = adj (graph gr) k).
    { intros k. now rewrite get_or_touch. }
    destruct (fold_left (min_dependent ls1) (adj (graph gr) x) None) as [m |].
    - intros [= <- <-]. split; [exact Hg' |]. split; [discriminate |].
      intros _. exists m. split; [reflexivity |].
      destruct Hmin as [[[=] | [s [l [Hs [Hl Hm]]]]] [_ Hall]].
      assert (HsR : In s (filter (Dict.mem ls1) (adj (graph gr) x))).
      { apply filter_In. split; [exact Hs |]. unfold Dict.mem. now rewrite Hl. }
      split; [intros H; contradiction |]. split.
      + intros _ HR. rewrite HR in HsR. destruct HsR.
      + intros _ _. split.
        * apply in_map_iff. exists s. split; [| exact HsR].
          unfold Dict.get_or. rewrite Hl. now subst m.
        * intros y Hy. apply in_map_iff in Hy. destruct Hy as [s' [<- Hs']].
          apply filter_In in Hs'. destruct Hs' as [Hs1 Hs2].
          unfold Dict.mem in Hs2. unfold Dict.get_or.
          destruct (Dict.get ls1 s') as [l' |] eqn:El'; [| discriminate].
          now apply (Hall s').
    - intros [= <- <-]. split; [exact Hg' |]. split; [discriminate |].
      intros _. exists (Dict.get_or es x 0%Z). split; [reflexivity |].
      destruct Hmin as [_ Hall].
      split; [reflexivity |]. split; [reflexivity |].
      intros _ HR. exfalso. apply HR.
      destruct (filter (Dict.mem ls1) (adj (graph gr) x)) as [| s R] eqn:ER;
        [reflexivity |].
      assert (Hs : In s (filter (Dict.mem ls1) (adj (graph gr) x))).
      { rewrite ER. now left. }
      apply filter_In in Hs. destruct Hs as [Hs1 Hs2].
      unfold Dict.mem in Hs2. now rewrite (Hall s Hs1) in Hs2.
  Qed.

  (** The reversed loop over the ids [P], from a table [ls0]: entries are
      written once, and the entry of an id is decided by the entries present
      when it is visited. *)
Lemma backward_fold (P : list string) :
    NoDup P ->
    forall g ls0 g' ls',
      (forall k, Dict.get_or g k [] = adj (graph gr) k) ->
      fold_left (backward_step (out_degree gr) es) P (g, ls0) = (g', ls') ->
      (forall k, Dict.get_or g' k [] = adj (graph gr) k)
      /\ (forall n v, Dict.get ls0 n = Some v -> Dict.get ls' n = Some v)
      /\ (forall n, Dict.mem ls' n = Dict.mem ls0 n || str_in n P)
      /\ (forall p1 n p2,
            P = p1 ++ n :: p2 -> Dict.mem ls0 n = false ->
            (Dict.get_or (out_degree gr) n 0%Z = 0%Z ->
             Dict.get ls' n = Some (Dict.get_or es n 0%Z))
            /\ (Dict.get_or (out_degree gr) n 0%Z <> 0%Z ->
                filter (fun s => Dict.mem ls0 s || str_in s p1)
                       (adj (graph gr) n) = [] ->
                Dict.get ls' n = Some (Dict.get_or es n 0%Z))
            /\ (Dict.get_or (out_degree gr) n 0%Z <> 0%Z ->
                filter (fun s => Dict.mem ls0 s || str_in s p1)
                       (adj (graph gr) n) <> [] ->
                exists m,
                  Dict.get ls' n = Some m
                  /\ is_least m
                       (map (fun s => (Dict.get_or ls' s 0 - 1)%Z)
                            (filter (fun s => Dict.mem ls0 s || str_in s p1)
                                    (adj (graph gr) n))))).
  Proof.
    induction P as [| x P IH] using rev_ind; intros Hnd g ls0 g' ls' Hg Hfold.
    - simpl in Hfold. injection Hfold as <- <-.
      split; [exact Hg |]. split; [auto |]. split.
      + intros n. simpl. now rewrite orb_false_r.
      + intros p1 n p2 H. now destruct p1.
    - rewrite fold_left_app in Hfold. simpl in Hfold.
      destruct (fold_left (backward_step (out_degree gr) es) P (g, ls0))
        as [g1 ls1] eqn:E1.
      assert (HndP : NoDup P /\ ~ In x P).
      { apply NoDup_remove in Hnd. rewrite app_nil_r in Hnd. exact Hnd. }
      destruct HndP as [HndP HxP].
      destruct (IH HndP g ls0 g1 ls1 Hg E1) as [Hg1 [Hkeep [Hmem Hvis]]].
      destruct (backward_step_spec g1 ls1 x g' ls' Hg1 Hfold)
        as [Hg' [Hsame Hnew]].
      split; [exact Hg' |].
      assert (Hx1 : Dict.mem ls1 x = Dict.mem ls0 x).
      { rewrite Hmem. apply str_in_false in HxP. rewrite HxP.
        now rewrite orb_false_r. }
      destruct (Dict.mem ls1 x) eqn:Em.
      + specialize (Hsame eq_refl). subst ls'.
        split; [exact Hkeep |]. split.
        * intros n. rewrite Hmem, str_in_app.
          destruct (string_dec n x) as [-> | Hne].
          -- now rewrite <- Hx1.
          -- assert (Hnx : str_in n [x] = false).
             { apply str_in_false. simpl. intuition congruence. }
             now rewrite Hnx, orb_false_r.
        * intros p1 n p2 Hsplit Hn0.
          apply Script2Passes.snoc_split in Hsplit.
          destruct Hsplit as [[p2' [-> HP]] | [_ [-> _]]]; [| congruence].
          exact (Hvis p1 n p2' HP Hn0).
      + destruct (Hnew eq_refl) as [v [-> [Hv0 [Hv1 Hv2]]]].
        assert (Hgx : Dict.get ls1 x = None).
        { unfold Dict.mem in Em. now destruct (Dict.get ls1 x). }
        assert (Hother : forall s, Dict.mem ls1 s = true ->
                   Dict.get (Dict.set ls1 x v) s = Dict.get ls1 s).
        { intros s Hs. apply get_set_other. intros ->. congruence. }
        split; [| split].
        * intros n v0 Hn. rewrite Hother; [now apply Hkeep |].
          unfold Dict.mem. now rewrite (Hkeep n v0 Hn).
        * intros n. rewrite str_in_app.
          destruct (string_dec n x) as [-> | Hne].
          -- assert (Hxx : str_in x [x] = true).
             { apply str_in_In. now left. }
             unfold Dict.mem at 1. rewrite get_set_same, Hxx.
             now rewrite !orb_true_r.
          -- assert (Hnx : str_in n [x] = false).
             { apply str_in_false. simpl. intuition congruence. }
             unfold Dict.mem at 1. rewrite get_set_other by exact Hne.
             fold (Dict.mem ls1 n). now rewrite Hmem, Hnx, orb_false_r.
        * intros p1 n p2 Hsplit Hn0.
          assert (Hmap : forall q, (forall s, In s q -> In s P) ->
                    map (fun s => (Dict.get_or (Dict.set ls1 x v) s 0 - 1)%Z)
                        (filter (fun s => Dict.mem ls0 s || str_in s q)
                                (adj (graph gr) n))
                    = map (fun s => (Dict.get_or ls1 s 0 - 1)%Z)
                          (filter (fun s => Dict.mem ls0 s || str_in s q)
                                  (adj (graph gr) n))).
          { intros q Hq. apply map_ext_in. intros s Hs.
            apply filter_In in Hs. destruct Hs as [_ Hs].
            unfold Dict.get_or. rewrite Hother; [reflexivity |].
            rewrite Hmem. apply orb_true_iff in Hs.
            destruct Hs as [Hs | Hs]; [now rewrite Hs |].
            apply str_in_In, Hq, str_in_In in Hs. rewrite Hs.
            now rewrite orb_true_r. }
          apply Script2Passes.snoc_split in Hsplit.
          destruct Hsplit as [[p2' [-> HP]] | [-> [-> _]]].
          -- assert (Hnx : n <> x).
             { intros ->. apply HxP. rewrite HP. apply in_or_app. simpl. tauto. }
             destruct (Hvis p1 n p2' HP Hn0) as [H0 [H1 H2]].
             rewrite get_set_other by exact Hnx.
             split; [exact H0 |]. split; [exact H1 |].
             intros Hz HR. rewrite Hmap; [now apply H2 |].
             intros s Hs. rewrite HP. apply in_or_app. now left.
          -- rewrite get_set_same.
             assert (HR : filter (fun s => Dict.mem ls0 s || str_in s P)
                                 (adj (graph gr) x)
                          = filter (Dict.mem ls1) (adj (graph gr) x)).
             { apply filter_ext. intros s. now rewrite Hmem. }
             split; [intros Hz; now rewrite (Hv0 Hz) |]. split.
             ++ intros Hz Hemp. rewrite HR in Hemp. now rewrite (Hv1 Hz Hemp).
             ++ intros Hz Hne. exists v. split; [reflexivity |].
                rewrite Hmap by auto. rewrite HR in *. now apply Hv2.
  Qed.

End Pass.

(** [out_degree] counts the successors. *)
Lemma build_graph_out_degree (order : SetOrder) (deps : list Dependency)
    (n : string) :
  Dict.get_or (out_degree (build_graph order deps)) n 0%Z
  = Z.of_nat (length (adj (graph (build_graph order deps)) n)).
Proof.
  unfold build_graph.
  set (g := fold_left build_graph_step deps
              {| graph := []; reverse_graph := []; in_degree := [];
                 out_degree := []; all_nodes := [] |}).
  assert (Hg : forall v, Dict.get_or (out_degree g) v 0%Z
                         = Z.of_nat (length (adj (graph g) v))).
  { subst g.
    assert (G : forall ds g0,
              (forall v, Dict.get_or (out_degree g0) v 0%Z
                         = Z.of_nat (length (adj (graph g0) v))) ->
              forall v,
                Dict.get_or (out_degree (fold_left build_graph_step ds g0)) v 0%Z
                = Z.of_nat
                    (length (adj (graph (fold_left build_graph_step ds g0)) v))).
    { induction ds as [| d ds IH]; intros g0 H0; simpl; [exact H0 |].
      apply IH. intros v. unfold build_graph_step, adj. simpl.
      destruct (string_dec v (source d)) as [-> | Hne].
      - rewrite !get_or_set_same, H0. unfold adj.
        rewrite length_app. simpl. lia.
      - rewrite !get_or_set_other by exact Hne. apply H0. }
    apply G. intros v. reflexivity. }
  assert (F : forall L io v,
            Dict.get_or
              (snd (fold_left
                      (fun io node =>
                         (ensure_entry (fst io) node,
                          ensure_entry (snd io) node)) L io)) v 0%Z
            = Dict.get_or (snd io) v 0%Z).
  { induction L as [| a L IH]; intros io v; simpl; [reflexivity |].
    rewrite IH. simpl. apply ensure_entry_spec. }
  specialize (F (set_iter order (all_nodes g)) (in_degree g, out_degree g) n).
  destruct (fold_left _ (set_iter order (all_nodes g)) _) as [ind outd].
  simpl in *. now rewrite F.
Qed.


End ScriptBackward.

(** C2 on the unit-duration script, at the edges A -> B, B -> C, C -> E and
    A -> D.  The script computes [max_time = 3], the largest
    [earliest_start], under its comment "Initialize end nodes" and never
    reads it: the node D, of out-degree zero, gets [latest_start = 1], its
    own [earliest_start], instead of being anchored at the completion time.
    So D has no slack and is reported critical, although it is off the
    longest path A, B, C, E. *)
Lemma end_node_keeps_own_start :
  exists crit es ls,
    Script.calculate_critical_path insertion_order
      (Script.build_graph insertion_order
         [Samples.dep "A" "B"; Samples.dep "B" "C"; Samples.dep "C" "E";
          Samples.dep "A" "D"]) = Some (crit, es, ls)
    /\ Dict.get
         (Script.out_degree
            (Script.build_graph insertion_order
               [Samples.dep "A" "B"; Samples.dep "B" "C"; Samples.dep "C" "E";
                Samples.dep "A" "D"])) "D" = Some 0%Z
    /\ Dict.get es "D" = Some 1%Z
    /\ Dict.get ls "D" = Some 1%Z
    /\ Script.max_time es = 3%Z
    /\ In "D" crit.
Proof.
  eexists _, _, _. split; [vm_compute; reflexivity |].
  vm_compute. intuition.
Qed.



(** ** Slack classification and annotation *)
Module Classification.
Import ScriptAnnotation.

Lemma get_annotate (crit : list string) (nds : Dict.t Node) (n : string) :
  Dict.get (map (Script2.annotate_node crit) nds) n
  = option_map (fun nd => set_onCriticalPath nd (str_in n crit))
               (Dict.get nds n).
Proof.
  induction nds as [| [k nd] nds IH]; simpl; [reflexivity |].
  destruct (String.eqb k n) eqn:E; [| exact IH].
  apply String.eqb_eq in E. subst k. reflexivity.
Qed.

Lemma keys_annotate (crit : list string) (nds : Dict.t Node) :
  Dict.keys (map (Script2.annotate_node crit) nds) = Dict.keys nds.
Proof.
  unfold Dict.keys. rewrite map_map. apply map_ext. intros [k nd]. reflexivity.
Qed.

Lemma mem_annotate (crit : list string) (nds : Dict.t Node) (n : string) :
  Dict.mem (map (Script2.annotate_node crit) nds) n = Dict.mem nds n.
Proof.
  unfold Dict.mem. rewrite get_annotate. now destruct (Dict.get nds n).
Qed.

(** With a critical set drawn from the node ids, the weighted script labels a
    dependency by its two endpoints alone. *)
Lemma annotate_dependency_label (crit : list string) (nds : Dict.t Node)
    (dep : Dependency) :
  (forall n, In n crit -> In n (Dict.keys nds)) ->
  Script2.annotate_dependency nds crit dep
  = set_pathType dep (edge_label crit dep).
Proof.
  intros Hsub. unfold Script2.annotate_dependency, edge_label.
  destruct (str_in (source dep) crit) eqn:Es; [| reflexivity].
  destruct (str_in (target dep) crit) eqn:Et; [| reflexivity].
  simpl. apply str_in_In in Es, Et.
  apply Hsub, mem_In_keys in Es. apply Hsub, mem_In_keys in Et.
  now rewrite Es, Et.
Qed.

Lemma edge_label_critical (crit : list string) (dep : Dependency) :
  edge_label crit dep = "critical" <->
  In (source dep) crit /\ In (target dep) crit.
Proof.
  unfold edge_label. rewrite <- !str_in_In.
  destruct (str_in (source dep) crit), (str_in (target dep) crit); simpl;
    intuition discriminate.
Qed.

Lemma edge_label_cases (crit : list string) (dep : Dependency) :
  edge_label crit dep = "critical" \/ edge_label crit dep = "parallel".
Proof. unfold edge_label. destruct (_ && _); tauto. Qed.

Lemma fold_set_add_In (f : string -> bool) (l : list string) (x : string) :
  In x (fold_left (fun crit node => if f node then set_add node crit else crit)
                  l []) <->
  In x l /\ f x = true.
Proof.
  assert (G : forall acc,
    In x (fold_left
            (fun crit node => if f node then set_add node crit else crit) l acc)
    <-> In x acc \/ (In x l /\ f x = true)).
  { induction l as [| n l IH]; intros acc; simpl; [tauto |].
    rewrite IH. destruct (f n) eqn:E.
    - rewrite set_add_In. split.
      + intros [[-> | H] | [H1 H2]]; tauto.
      + intros [H | [[-> | H1] H2]]; tauto.
    - split.
      + intros [H | [H1 H2]]; tauto.
      + intros [H | [[-> | H1] H2]]; [tauto | congruence | tauto]. }
  rewrite G. simpl. tauto.
Qed.

(** The critical set of the unit-duration script: the ids of [all_nodes] whose
    earliest and latest start coincide. *)
Lemma uniform_critical_nodes (order : SetOrder) (gr : Script.Graph)
    crit es ls (x : string) :
  Script.calculate_critical_path order gr = Some (crit, es, ls) ->
  (In x crit <->
   In x (Script.all_nodes gr)
   /\ Dict.get_or es x 0%Z = Dict.get_or ls x 0%Z).
Proof.
  unfold Script.calculate_critical_path.
  destruct (Script.topological_sort (Script.graph gr) (Script.in_degree gr))
    as [[g topo] |]; [| discriminate].
  destruct (foldM Script.forward_step topo _) as [[g1 es1] |]; [| discriminate].
  destruct (fold_left (Script.backward_step (Script.out_degree gr) es1)
                      (rev topo) _) as [g2 ls2].
  intros [= <- <- <-].
  rewrite (fold_set_add_In
             (fun node => (Dict.get_or es1 node 0 =? Dict.get_or ls2 node 0)%Z)).
  rewrite set_iter_In, Z.eqb_eq. tauto.
Qed.

End Classification.

(** C3: in a run of the weighted script the slack of a node is
    [latest_start - earliest_start]; a node is in the critical set, and is
    saved with [onCriticalPath = true], exactly when [|slack| < 1e-3]; every
    dependency is saved with [pathType = "critical"] exactly when both its
    endpoints are critical, and ["parallel"] otherwise.  The unit-duration
    script labels dependencies by the same rule, its critical nodes being those
    whose earliest and latest start coincide. *)
Theorem slack_classification (order : SetOrder) (self : Script2.Calculator) :
  Dict.well_formed (Script2.nodes self) = true ->
  (exists r,
     Script2.calculate_critical_path order self = Some r
     /\ (forall n, In n (Dict.keys (Script2.nodes self)) ->
           Dict.get (Script2.slack r) n
           = Some (Script2Passes.val (Script2.latest_start r) n
                   - Script2Passes.val (Script2.earliest_start r) n)%Q)
     /\ (forall n, In n (Dict.keys (Script2.nodes self)) ->
           (In n (Script2.critical_nodes r) <->
            (Qabs (Script2Passes.val (Script2.slack r) n) < 1 # 1000)%Q))
     /\ (forall n, In n (Script2.critical_nodes r) ->
           In n (Dict.keys (Script2.nodes self)))
     /\ (forall n nd, Dict.get (Script2.nodes self) n = Some nd ->
           Dict.get (Script2.nodes (Script2.self_out r)) n
           = Some (set_onCriticalPath nd
                     (str_in n (Script2.critical_nodes r))))
     /\ Script2.dependencies (Script2.self_out r)
        = map (fun dep =>
                 set_pathType dep
                   (ScriptAnnotation.edge_label (Script2.critical_nodes r) dep))
              (Script2.dependencies self))
  /\ (forall crit dep,
        (ScriptAnnotation.edge_label crit dep = "critical" <->
         In (source dep) crit /\ In (target dep) crit)
        /\ (ScriptAnnotation.edge_label crit dep = "critical"
            \/ ScriptAnnotation.edge_label crit dep = "parallel"))
  /\ (forall nds deps crit,
        snd (Script.update_nodes_and_dependencies order nds deps crit)
        = map (fun dep =>
                 set_pathType dep (ScriptAnnotation.edge_label crit dep)) deps)
  /\ (forall gr crit es ls x,
        Script.calculate_critical_path order gr = Some (crit, es, ls) ->
        (In x crit <->
         In x (Script.all_nodes gr)
         /\ Dict.get_or es x 0%Z = Dict.get_or ls x 0%Z)).
Proof.
  intros Hwf. apply well_formed_NoDup in Hwf.
  split; [| split; [| split]].
  - destruct (Script2Run.calculate_critical_path_spec order self Hwf)
      as [r [Hrun F]].
    exists r. split; [exact Hrun |].
    assert (Hsub : forall n, In n (Script2.critical_nodes r) ->
                             In n (Dict.keys (Script2.nodes self))).
    { intros n Hn. now apply (Script2Slack.run_critical order self r F) in Hn. }
    split; [| split; [| split; [exact Hsub | split]]].
    + intros n Hn. now apply (Script2Slack.run_slack_get order self r F).
    + intros n Hn.
      rewrite (Script2Slack.run_critical order self r F).
      unfold Script2Passes.val at 3. unfold Dict.get_or.
      rewrite (Script2Slack.run_slack_get order self r F n Hn). tauto.
    + intros n nd Hget. rewrite (Script2Run.rf_nodes _ _ _ F).
      rewrite Classification.get_annotate, Hget. reflexivity.
    + rewrite (Script2Run.rf_deps _ _ _ F). apply map_ext. intros dep.
      apply Classification.annotate_dependency_label.
      intros n Hn. rewrite (Script2Run.rf_nodes _ _ _ F).
      rewrite Classification.keys_annotate. now apply Hsub.
  - intros crit dep. split.
    + apply Classification.edge_label_critical.
    + apply Classification.edge_label_cases.
  - intros nds deps crit.
    now rewrite ScriptAnnotation.update_nodes_and_dependencies_spec.
  - intros gr crit es ls x. apply Classification.uniform_critical_nodes.
Qed.

Lemma slack_classification_witness :
  exists r,
    Script2.calculate_critical_path insertion_order
      (Samples.calculator
         [Samples.node "A" "Low" "To Do"; Samples.node "B" "Lowest" "To Do";
          Samples.node "C" "Highest" "To Do"; Samples.node "D" "Low" "Done"]
         [Samples.dep "A" "B"; Samples.dep "B" "D"; Samples.dep "A" "C";
          Samples.dep "C" "D"]) = Some r
    /\ Script2.critical_nodes r = ["A"; "C"; "D"]
    /\ map pathType (Script2.dependencies (Script2.self_out r))
       = [Some "parallel"; Some "parallel"; Some "critical"; Some "critical"].
Proof.
  destruct (slack_classification insertion_order
              (Samples.calculator
                 [Samples.node "A" "Low" "To Do";
                  Samples.node "B" "Lowest" "To Do";
                  Samples.node "C" "Highest" "To Do";
                  Samples.node "D" "Low" "Done"]
                 [Samples.dep "A" "B"; Samples.dep "B" "D";
                  Samples.dep "A" "C"; Samples.dep "C" "D"]) eq_refl)
    as [[r [Hrun _]] _].
  exists r. split; [exact Hrun |].
  vm_compute in Hrun. injection Hrun as <-. split; reflexivity.
Defined.

(** C4, on the unit-duration script: with the cyclic dependencies A -> B -> A
    the order returned by [topological_sort] is not extended by the unordered
    ids, although both are nodes of the graph. *)
Lemma cycle_order_not_extended :
  exists g topo,
    Script.topological_sort
      (Script.graph
         (Script.build_graph insertion_order
            [Samples.dep "A" "B"; Samples.dep "B" "A"]))
      (Script.in_degree
         (Script.build_graph insertion_order
            [Samples.dep "A" "B"; Samples.dep "B" "A"])) = Some (g, topo)
    /\ Script.all_nodes
         (Script.build_graph insertion_order
            [Samples.dep "A" "B"; Samples.dep "B" "A"]) = ["A"; "B"]
    /\ topo = [].
Proof. eexists _, _. vm_compute. repeat split. Qed.

(** C4, as the code has it.  Weighted script: the run always returns; the
    Kahn loop emits fewer ids than there are nodes exactly when the graph has
    a closed walk, and then the remaining node ids
    are appended to the order (each once, in set-iteration order) and the cycle
    warning is printed, otherwise nothing is appended and no warning is
    printed; every node is saved with an [onCriticalPath] value.
    Unit-duration script: [topological_sort] returns the Kahn order alone, in
    which no id on a closed walk occurs; the run always returns and every
    saved node carries an [onCriticalPath] value. *)
Theorem cycle_tolerance (order : SetOrder) (self : Script2.Calculator) :
  Dict.well_formed (Script2.nodes self) = true ->
  (exists r g kahn,
     Script2.calculate_critical_path order self = Some r
     /\ Script2.kahn_order (Script2.build_graph self) = Some (g, kahn)
     /\ (length kahn < length (Script2.nodes self)
         <-> exists n, path (Script2Order.succs (Script2.build_graph self)) n n)
     /\ (length kahn < length (Script2.nodes self) ->
         exists rest,
           Script2.topo_order r = kahn ++ rest
           /\ NoDup rest
           /\ (forall x, In x rest <->
                 In x (Dict.keys (Script2.nodes self)) /\ ~ In x kahn)
           /\ Script2.printed r
              = [Script2.OutCalculating; Script2.OutCycleWarning;
                 Script2.OutFound (length (Script2.critical_nodes r))])
     /\ (length kahn = length (Script2.nodes self) ->
         Script2.topo_order r = kahn
         /\ Script2.printed r
            = [Script2.OutCalculating;
               Script2.OutFound (length (Script2.critical_nodes r))])
     /\ (forall n nd, Dict.get (Script2.nodes self) n = Some nd ->
           Dict.get (Script2.nodes (Script2.self_out r)) n
           = Some (set_onCriticalPath nd
                     (str_in n (Script2.critical_nodes r)))))
  /\ (forall deps g topo n,
        Script.topological_sort
          (Script.graph (Script.build_graph order deps))
          (Script.in_degree (Script.build_graph order deps)) = Some (g, topo) ->
        In n topo ->
        ~ path (ScriptOrder.adj (Script.graph (Script.build_graph order deps)))
               n n)
  /\ (forall nds deps,
        exists nds' deps',
          Script.main order nds deps = Some (nds', deps')
          /\ length nds <= length nds'
          /\ forall nd, In nd nds' -> exists b, onCriticalPath nd = Some b).
Proof.
  intros Hwf. apply well_formed_NoDup in Hwf. split; [| split].
  2: { intros deps g topo n Hrun Hn.
       exact (ScriptOrder.cycle_not_in_order order deps g topo n Hrun Hn). }
  - destruct (Script2Run.calculate_critical_path_spec order self Hwf)
      as [r [Hrun F]].
    destruct (Script2Run.rf_kahn _ _ _ F)
      as [g [kahn [rest [warned [Hk [Htopo [_ [Hcase Hprint]]]]]]]].
    exists r, g, kahn. split; [exact Hrun |]. split; [exact Hk |].
    split; [| split; [| split]].
    + exact (Script2Acyclic.built_short_iff_cycle self g kahn Hwf Hk).
    + intros Hlt. destruct Hcase as [[He _] | [_ [Hrest Hw]]]; [lia |].
      exists rest. split; [exact Htopo |]. subst rest warned.
      split; [apply Script2Sort.leftover_NoDup |].
      split; [| exact Hprint].
      intros x. rewrite Script2Sort.leftover_In.
      now destruct (Script2Graph.build_graph_nodes self) as [-> _].
    + intros Heq. destruct Hcase as [[_ [Hrest Hw]] | [Hlt _]]; [| lia].
      subst rest warned. rewrite app_nil_r in Htopo. tauto.
    + intros n nd Hget. rewrite (Script2Run.rf_nodes _ _ _ F).
      rewrite Classification.get_annotate, Hget. reflexivity.
  - intros nds deps. destruct deps as [| d deps].
    + eexists _, _. split; [reflexivity |]. rewrite length_map.
      split; [apply Nat.le_refl |].
      intros nd Hnd. apply in_map_iff in Hnd. destruct Hnd as [nd0 [<- _]].
      eexists. reflexivity.
    + destruct (ScriptRun.main_spec order nds (d :: deps))
        as [crit [es [ls [_ Hm]]]]; [discriminate |].
      eexists _, _. split; [exact Hm |].
      rewrite length_map, ScriptFacts.create_missing_nodes_app, length_app.
      split; [lia |].
      intros nd Hnd. apply in_map_iff in Hnd. destruct Hnd as [nd0 [<- _]].
      eexists. reflexivity.
Qed.

Lemma cycle_tolerance_witness :
  exists r,
    Script2.calculate_critical_path insertion_order
      (Samples.calculator
         [Samples.node "A" "Low" "To Do"; Samples.node "B" "Lowest" "To Do";
          Samples.node "C" "Highest" "To Do"]
         [Samples.dep "A" "B"; Samples.dep "B" "A"; Samples.dep "B" "C"])
    = Some r
    /\ Script2.topo_order r = ["A"; "B"; "C"]
    /\ In Script2.OutCycleWarning (Script2.printed r).
Proof.
  destruct (cycle_tolerance insertion_order
              (Samples.calculator
                 [Samples.node "A" "Low" "To Do";
                  Samples.node "B" "Lowest" "To Do";
                  Samples.node "C" "Highest" "To Do"]
                 [Samples.dep "A" "B"; Samples.dep "B" "A";
                  Samples.dep "B" "C"]) eq_refl)
    as [[r [g [kahn [Hrun _]]]] _].
  exists r. split; [exact Hrun |].
  vm_compute in Hrun. injection Hrun as <-.
  split; [reflexivity | simpl; tauto].
Defined.

(** ** Runs without dependencies *)
Module EmptyEdges.
Import Script2 Script2Graph Script2Order Script2Sort Script2Passes
  Script2Backward Script2Run Script2Forward Script2Tables Script2Slack
  Script2Latest.

Section Run.
  Variable order : SetOrder.
  Variable self : Calculator.
  Variable r : Result.
  Hypothesis F : run_facts order self r.
  Hypothesis Hdeps : dependencies self = [].

Lemma no_succs (n : string) : succs (build_graph self) n = [].
Proof.
    destruct (succs (build_graph self) n) as [| s l] eqn:E; [reflexivity |].
    assert (H : In s (succs (build_graph self) n)) by (rewrite E; now left).
    apply build_graph_adjacent in H. destruct H as [dep [Hin _]].
    rewrite Hdeps in Hin. destruct Hin.
Qed.

Lemma no_preds (n : string) : preds (build_graph self) n = [].
Proof.
    destruct (preds (build_graph self) n) as [| s l] eqn:E; [reflexivity |].
    assert (H : In s (preds (build_graph self) n)) by (rewrite E; now left).
    apply build_graph_reverse_adjacent in H. destruct H as [dep [Hin _]].
    rewrite Hdeps in Hin. destruct Hin.
Qed.

  (** Without dependencies every node starts at 0, finishes after its own
      duration, and may finish as late as the project completion time. *)
Lemma tables (n : string) :
    In n (Dict.keys (nodes self)) ->
    exists d,
      calculate_node_duration self n = Some d
      /\ Dict.get (earliest_start r) n = Some 0%Q
      /\ Dict.get (earliest_finish r) n = Some (0 + d)%Q
      /\ Dict.get (latest_finish r) n = Some (project_completion r)
      /\ Dict.get (latest_start r) n = Some (project_completion r - d)%Q.
Proof.
    intros Hn. pose proof Hn as Hn'.
    apply (rf_cover _ _ _ F) in Hn. apply in_split in Hn.
    destruct Hn as [l1 [l2 Hl]].
    destruct (run_at_split order self r F l1 n l2 Hl)
      as [d [F' [Hd [He [Hf [Hlf [Hls [_ [Hend _]]]]]]]]].
    assert (Hs : start_after (build_graph self) l1 (earliest_finish r) n = 0%Q).
    { unfold start_after, earlier_preds. now rewrite no_preds. }
    rewrite Hs in He, Hf.
    assert (HF : F' = project_completion r).
    { apply Hend. apply (end_nodes_In self). split; [exact Hn' | apply no_succs]. }
    subst F'. exists d. tauto.
Qed.

End Run.
End EmptyEdges.

(** C7, on the weighted script: a single node and no dependency; the node is
    saved with [onCriticalPath = true]. *)
Lemma empty_edges_node_critical :
  exists r,
    Script2.calculate_critical_path insertion_order
      (Samples.calculator [Samples.node "A" "Low" "To Do"] []) = Some r
    /\ Script2.dependencies (Script2.self_out r) = []
    /\ Dict.get (Script2.nodes (Script2.self_out r)) "A"
       = Some (set_onCriticalPath (Samples.node "A" "Low" "To Do") true).
Proof. eexists. vm_compute. repeat split. Qed.

(** C7, as the code has it.  Unit-duration script: without dependencies the
    run returns and saves every node with [onCriticalPath = false].  Weighted
    script: without dependencies the run returns; every node has
    [earliest_start = 0] and [latest_start = project_completion - duration];
    the project completion time is the largest node duration; a node is saved
    with [onCriticalPath = true] exactly when its duration is within 1e-3 of
    the project completion time; so a node of largest duration, hence some
    node of a non-empty collection, is saved as critical. *)
Theorem empty_edge_set (order : SetOrder) (self : Script2.Calculator) :
  Dict.well_formed (Script2.nodes self) = true ->
  Script2.dependencies self = [] ->
  (forall nds,
      Script.main order nds []
      = Some (map (fun nd => set_onCriticalPath nd false) nds, []))
  /\ exists r,
       Script2.calculate_critical_path order self = Some r
       /\ (forall n nd d,
             Dict.get (Script2.nodes self) n = Some nd ->
             Script2.calculate_node_duration self n = Some d ->
             Dict.get (Script2.earliest_start r) n = Some 0%Q
             /\ Dict.get (Script2.latest_start r) n
                = Some (Script2.project_completion r - d)%Q
             /\ (d <= Script2.project_completion r)%Q
             /\ Dict.get (Script2.nodes (Script2.self_out r)) n
                = Some (set_onCriticalPath nd
                          (str_in n (Script2.critical_nodes r)))
             /\ (In n (Script2.critical_nodes r) <->
                 (Script2.project_completion r - d < 1 # 1000)%Q))
       /\ (Script2.nodes self <> [] ->
           exists n nd d,
             Dict.get (Script2.nodes self) n = Some nd
             /\ Script2.calculate_node_duration self n = Some d
             /\ (Script2.project_completion r == d)%Q
             /\ Dict.get (Script2.nodes (Script2.self_out r)) n
                = Some (set_onCriticalPath nd true)).
Proof.
  intros Hwf Hdeps. apply well_formed_NoDup in Hwf.
  split; [reflexivity |].
  destruct (Script2Run.calculate_critical_path_spec order self Hwf)
    as [r [Hrun F]].
  exists r. split; [exact Hrun |].
  assert (Hnode : forall n nd d,
            Dict.get (Script2.nodes self) n = Some nd ->
            Script2.calculate_node_duration self n = Some d ->
            Dict.get (Script2.earliest_start r) n = Some 0%Q
            /\ Dict.get (Script2.latest_start r) n
               = Some (Script2.project_completion r - d)%Q
            /\ (d <= Script2.project_completion r)%Q
            /\ Dict.get (Script2.nodes (Script2.self_out r)) n
               = Some (set_onCriticalPath nd
                         (str_in n (Script2.critical_nodes r)))
            /\ (In n (Script2.critical_nodes r) <->
                (Script2.project_completion r - d < 1 # 1000)%Q)).
  { intros n nd d Hget Hd.
    assert (Hn : In n (Dict.keys (Script2.nodes self))).
    { apply get_In_keys. congruence. }
    destruct (EmptyEdges.tables order self r F Hdeps n Hn)
      as [d' [Hd' [He [Hf [Hlf Hls]]]]].
    rewrite Hd in Hd'. injection Hd' as <-.
    assert (Hle : (d <= Script2.project_completion r)%Q).
    { pose proof (Script2Slack.run_finish_le_completion order self r F n) as H.
      unfold Script2Passes.val, Dict.get_or in H. rewrite Hf in H.
      assert (Ht : In n (Script2.topo_order r))
        by now apply (Script2Run.rf_cover _ _ _ F).
      specialize (H Ht). lra. }
    split; [exact He |]. split; [exact Hls |]. split; [exact Hle |]. split.
    - rewrite (Script2Run.rf_nodes _ _ _ F).
      rewrite Classification.get_annotate, Hget. reflexivity.
    - rewrite (Script2Slack.run_critical order self r F).
      unfold Script2Passes.val, Dict.get_or. rewrite He, Hls.
      split.
      + intros [_ H]. apply Qabs_Qlt_condition in H. lra.
      + intros H. split; [exact Hn |]. apply Qabs_Qlt_condition. lra. }
  split; [exact Hnode |].
  intros Hne.
  destruct (Script2.nodes self) as [| [k nd0] rest] eqn:En; [congruence |].
  clear Hne.
  pose proof (Script2Run.rf_forward _ _ _ F) as [_ Hkef _].
  assert (Hnk : NoDup (Dict.keys (Script2.earliest_finish r))).
  { rewrite Hkef. apply (Script2Run.rf_nodup _ _ _ F). }
  assert (Hk : In k (Script2.topo_order r)).
  { apply (Script2Run.rf_cover _ _ _ F). rewrite En. now left. }
  assert (Hv : exists n, In n (Script2.topo_order r)
                 /\ Script2Passes.val (Script2.earliest_finish r) n
                    = Script2.project_completion r).
  { rewrite (Script2Run.rf_completion _ _ _ F).
    assert (Hvals : In (Script2Passes.val (Script2.earliest_finish r) k)
                       (Dict.values (Script2.earliest_finish r))).
    { apply (Script2Forward.values_of_keys _ _ Hnk). apply in_map.
      now rewrite Hkef. }
    destruct (Dict.values (Script2.earliest_finish r)) as [| x vs] eqn:Ev;
      [destruct Hvals |].
    destruct (pymax_list_is_max x vs 0%Q) as [Hin _].
    rewrite <- Ev in Hin.
    apply (Script2Forward.values_of_keys _ _ Hnk) in Hin.
    apply in_map_iff in Hin. destruct Hin as [n [Hval Hin]].
    rewrite Hkef in Hin. exists n. rewrite Ev in Hval. tauto. }
  destruct Hv as [n [Hn Hval]].
  apply (Script2Run.rf_cover _ _ _ F) in Hn.
  assert (Hg : exists nd, Dict.get (Script2.nodes self) n = Some nd).
  { apply get_In_keys in Hn. destruct (Dict.get (Script2.nodes self) n);
      [eauto | congruence]. }
  destruct Hg as [nd Hg].
  destruct (EmptyEdges.tables order self r F Hdeps n Hn)
    as [d [Hd [_ [Hf _]]]].
  rewrite <- En in Hnode.
  destruct (Hnode n nd d Hg Hd) as [_ [_ [_ [Hout Hcrit]]]].
  unfold Script2Passes.val, Dict.get_or in Hval. rewrite Hf in Hval.
  assert (Hcd : (Script2.project_completion r == d)%Q).
  { rewrite <- Hval. ring. }
  exists n, nd, d. rewrite <- En. split; [exact Hg |]. split; [exact Hd |].
  split; [exact Hcd |].
  rewrite Hout. do 2 f_equal. apply str_in_In, Hcrit.
  rewrite Hcd. ring_simplify. reflexivity.
Qed.

Lemma empty_edge_set_witness :
  exists r,
    Script2.calculate_critical_path insertion_order
      (Samples.calculator
         [Samples.node "A" "Low" "To Do"; Samples.node "B" "High" "To Do"] [])
    = Some r
    /\ Script2.critical_nodes r = ["B"].
Proof.
  destruct (empty_edge_set insertion_order
              (Samples.calculator
                 [Samples.node "A" "Low" "To Do";
                  Samples.node "B" "High" "To Do"] []) eq_refl eq_refl)
    as [_ [r [Hrun _]]].
  exists r. split; [exact Hrun |].
  vm_compute in Hrun. injection Hrun as <-. reflexivity.
Defined.

(** C5, on the unit-duration script: with no nodes and the dependency
    A -> B, the placeholder for "A" is saved with [onCriticalPath = true];
    no saved node with id "A" has [onCriticalPath = false]. *)
Lemma placeholder_saved_critical :
  exists nds' deps',
    Script.main insertion_order [] [Samples.dep "A" "B"] = Some (nds', deps')
    /\ In (set_onCriticalPath (Script.placeholder_node "A") true) nds'
    /\ forall nd, In nd nds' -> id nd = "A" -> onCriticalPath nd = Some true.
Proof.
  eexists _, _. split; [vm_compute; reflexivity |]. split.
  - simpl. tauto.
  - intros nd [<- | [<- | []]]; [reflexivity | discriminate].
Qed.

(** C5, as the code has it.  Unit-duration script: for an id referenced by a
    dependency and absent from the node collection, [create_missing_nodes]
    appends a placeholder with title "Placeholder for <id>", status "Unknown",
    priority "medium", assignee "Unassigned" and [onCriticalPath = false];
    after the run the placeholder is saved with the same attributes and with
    [onCriticalPath] set by the annotation (true exactly when the id is in the
    critical set), and every endpoint of every dependency is the id of a
    saved node.  Weighted script: no node is added; a dependency with an
    absent endpoint stays out of the graph and is saved as "parallel". *)
Theorem placeholder_synthesis (order : SetOrder) (nds : list Node)
    (deps : list Dependency) (dep : Dependency) (i : string) :
  In dep deps -> i = source dep \/ i = target dep ->
  (forall nd, In nd nds -> id nd <> i) ->
  (In (Script.placeholder_node i) (Script.create_missing_nodes order nds deps)
   /\ id (Script.placeholder_node i) = i
   /\ title (Script.placeholder_node i)
      = Some (String.append "Placeholder for " i)
   /\ status (Script.placeholder_node i) = Some "Unknown"
   /\ priority (Script.placeholder_node i) = Some "medium"
   /\ assignee (Script.placeholder_node i) = Some "Unassigned"
   /\ onCriticalPath (Script.placeholder_node i) = Some false)
  /\ (exists crit es ls nds' deps',
        Script.calculate_critical_path order (Script.build_graph order deps)
        = Some (crit, es, ls)
        /\ Script.main order nds deps = Some (nds', deps')
        /\ In (set_onCriticalPath (Script.placeholder_node i) (str_in i crit))
              nds'
        /\ forall dep', In dep' deps ->
             In (source dep') (map id nds') /\ In (target dep') (map id nds'))
  /\ (forall self,
        Dict.well_formed (Script2.nodes self) = true ->
        exists r,
          Script2.calculate_critical_path order self = Some r
          /\ Dict.keys (Script2.nodes (Script2.self_out r))
             = Dict.keys (Script2.nodes self)
          /\ forall dep',
               In dep' (Script2.dependencies self) ->
               ~ In (source dep') (Dict.keys (Script2.nodes self))
               \/ ~ In (target dep') (Dict.keys (Script2.nodes self)) ->
               ~ In (target dep')
                    (Script2Order.succs (Script2.build_graph self) (source dep'))
               /\ In (set_pathType dep' "parallel")
                     (Script2.dependencies (Script2.self_out r))).
Proof.
  intros Hdep Hi Habs. split; [| split].
  - split; [| repeat split; reflexivity].
    rewrite ScriptFacts.create_missing_nodes_app. apply in_or_app. right.
    apply in_map. apply set_iter_In, set_diff_In. split.
    + apply ScriptAnnotation.referenced_node_ids_In. eauto.
    + intros Hin. rewrite set_of_list_In in Hin. apply in_map_iff in Hin.
      destruct Hin as [nd [Hid Hnd]]. now apply (Habs nd Hnd).
  - assert (Hne : deps <> []) by (intros ->; destruct Hdep).
    destruct (ScriptRun.main_spec order nds deps Hne)
      as [crit [es [ls [Hc Hm]]]].
    exists crit, es, ls. eexists _, _. split; [exact Hc |].
    split; [exact Hm |]. split.
    + apply in_map_iff. exists (Script.placeholder_node i).
      split; [reflexivity |].
      rewrite ScriptFacts.create_missing_nodes_app. apply in_or_app. right.
      apply in_map. apply set_iter_In, set_diff_In. split.
      * apply ScriptAnnotation.referenced_node_ids_In. eauto.
      * intros Hin. rewrite set_of_list_In in Hin. apply in_map_iff in Hin.
        destruct Hin as [nd [Hid Hnd]]. now apply (Habs nd Hnd).
    + intros dep' Hd'. rewrite map_map. simpl.
      change (map (fun x => id x) ?l) with (map id l).
      now apply ScriptAnnotation.create_missing_nodes_ids.
  - intros self Hwf. apply well_formed_NoDup in Hwf.
    destruct (Script2Run.calculate_critical_path_spec order self Hwf)
      as [r [Hrun F]].
    exists r. split; [exact Hrun |]. split.
    + rewrite (Script2Run.rf_nodes _ _ _ F). apply Classification.keys_annotate.
    + intros dep' Hd' Hdangling.
      assert (Hout : ~ In (target dep')
                (Script2Order.succs (Script2.build_graph self) (source dep'))).
      { intros Hin.
        destruct (Script2Graph.graph_nodes _ (Script2Graph.build_graph_ok self)
                    _ _ Hin) as [H1 H2].
        destruct (Script2Graph.build_graph_nodes self) as [Hn _].
        rewrite Hn in H1, H2. tauto. }
      split; [exact Hout |].
      rewrite (Script2Run.rf_deps _ _ _ F). apply in_map_iff. exists dep'.
      split; [| exact Hd'].
      unfold Script2.annotate_dependency.
      rewrite (Script2Run.rf_nodes _ _ _ F), !Classification.mem_annotate.
      destruct (Dict.mem (Script2.nodes self) (source dep')) eqn:Es;
        destruct (Dict.mem (Script2.nodes self) (target dep')) eqn:Et;
        rewrite ?andb_false_r; try reflexivity.
      apply mem_In_keys in Es, Et. tauto.
Qed.

Lemma placeholder_synthesis_witness :
  In (Script.placeholder_node "B")
     (Script.create_missing_nodes insertion_order
        [Samples.node "A" "Low" "To Do"] [Samples.dep "A" "B"]).
Proof.
  refine (proj1 (proj1 (placeholder_synthesis insertion_order
            [Samples.node "A" "Low" "To Do"] [Samples.dep "A" "B"]
            (Samples.dep "A" "B") "B" _ _ _))).
  - simpl. tauto.
  - right. reflexivity.
  - intros nd [<- | []]. discriminate.
Defined.

(** ** Running the annotation again *)
Module Rerun.
Import Script2 Script2Graph Script2Sort.

(** Two calculators that the passes cannot tell apart. *)
Record agree (a b : Calculator) : Prop := {
  agree_keys : Dict.keys (nodes b) = Dict.keys (nodes a);
  agree_duration :
    forall n, calculate_node_duration b n = calculate_node_duration a n;
  agree_graph : graph b = graph a;
  agree_reverse : reverse_graph b = reverse_graph a
}.

Lemma foldM_ext {A B : Type} (f g : A -> B -> option A) (l : list B) (a : A) :
  (forall x y, f x y = g x y) -> foldM f l a = foldM g l a.
Proof.
  intros H. revert a. induction l as [| x l IH]; intros a; simpl;
    [reflexivity |].
  rewrite H. destruct (g a x); [apply IH | reflexivity].
Qed.

Lemma agree_kahn_order (a b : Calculator) :
  agree a b -> kahn_order b = kahn_order a.
Proof.
  intros [Hk _ Hg _]. unfold kahn_order, initial_in_degree, initial_queue.
  now rewrite Hk, Hg.
Qed.

Lemma agree_topological_sort (order : SetOrder) (a b a' : Calculator)
    topo warned :
  agree a b ->
  topological_sort order a = Some (a', topo, warned) ->
  exists b',
    topological_sort order b = Some (b', topo, warned)
    /\ agree a' b'
    /\ nodes a' = nodes a /\ dependencies a' = dependencies a
    /\ nodes b' = nodes b /\ dependencies b' = dependencies b.
Proof.
  intros Hag. pose proof Hag as [Hk Hd Hg Hr].
  unfold topological_sort. rewrite (agree_kahn_order a b Hag).
  destruct (kahn_order a) as [[g result] |]; [| discriminate].
  assert (Hlen : length (nodes b) = length (nodes a)).
  { rewrite <- (length_map fst (nodes b)), <- (length_map fst (nodes a)).
    unfold Dict.keys in Hk. now rewrite Hk. }
  rewrite Hlen, Hk.
  assert (Hag' : agree
            {| nodes := nodes a; dependencies := dependencies a;
               graph := g; reverse_graph := reverse_graph a |}
            {| nodes := nodes b; dependencies := dependencies b;
               graph := g; reverse_graph := reverse_graph b |}).
  { constructor; simpl; try assumption; try reflexivity. }
  destruct (negb (length result =? length (nodes a)));
    intros [= <- <- <-]; eexists; (split; [reflexivity |]);
    repeat split; try reflexivity; apply Hag'.
Qed.

Lemma agree_forward_step (a b : Calculator) tabs n :
  agree a b -> forward_step b tabs n = forward_step a tabs n.
Proof.
  intros [_ Hd _ Hr]. unfold forward_step, max_predecessor_finish.
  destruct tabs as [es ef]. now rewrite Hd, Hr.
Qed.

Lemma agree_backward_step (a b : Calculator) c tabs n :
  agree a b -> backward_step b c tabs n = backward_step a c tabs n.
Proof.
  intros [_ Hd Hg _]. unfold backward_step, min_successor_start.
  destruct tabs as [ls lf]. now rewrite Hd, Hg.
Qed.

Lemma agree_end_nodes (a b : Calculator) :
  agree a b -> end_nodes b = end_nodes a.
Proof. intros [Hk _ Hg _]. unfold end_nodes. now rewrite Hk, Hg. Qed.

Lemma annotate_node_twice (crit : list string) (kv : string * Node) :
  annotate_node crit (annotate_node crit kv) = annotate_node crit kv.
Proof. reflexivity. Qed.

Lemma annotate_dependency_twice (n1 n2 : Dict.t Node) (crit : list string)
    (dep : Dependency) :
  (forall k, Dict.mem n2 k = Dict.mem n1 k) ->
  annotate_dependency n2 crit (annotate_dependency n1 crit dep)
  = annotate_dependency n1 crit dep.
Proof.
  intros Hm. unfold annotate_dependency.
  destruct (str_in (source dep) crit && str_in (target dep) crit
            && Dict.mem n1 (source dep) && Dict.mem n1 (target dep)) eqn:E;
    simpl; rewrite !Hm, E; reflexivity.
Qed.

(** [build_graph] reads the node keys and the endpoints only. *)
Lemma build_graph_agree (a b : Calculator) :
  (forall k, Dict.mem (nodes b) k = Dict.mem (nodes a) k) ->
  Dict.keys (nodes b) = Dict.keys (nodes a) ->
  (forall n, calculate_node_duration b n = calculate_node_duration a n) ->
  map source (dependencies b) = map source (dependencies a) ->
  map target (dependencies b) = map target (dependencies a) ->
  agree (build_graph a) (build_graph b).
Proof.
  intros Hm Hk Hd Hs Ht.
  assert (G : forall da db gr,
            map source db = map source da -> map target db = map target da ->
            fold_left (build_graph_step (nodes b)) db gr
            = fold_left (build_graph_step (nodes a)) da gr).
  { induction da as [| x da IH]; intros db gr Hs' Ht'.
    - destruct db; [reflexivity | discriminate].
    - destruct db as [| y db]; [discriminate |].
      simpl in Hs', Ht'. injection Hs' as Hsy Hs'. injection Ht' as Hty Ht'.
      simpl. rewrite (IH db _ Hs' Ht'). f_equal.
      unfold build_graph_step. destruct gr as [g rg].
      now rewrite !Hm, Hsy, Hty. }
  unfold build_graph. rewrite (G (dependencies a) (dependencies b) _ Hs Ht).
  destruct (fold_left (build_graph_step (nodes a)) (dependencies a) ([], []))
    as [g rg].
  constructor; simpl; try reflexivity; try assumption.
Qed.

(** The second run of [calculate_critical_path] over its own output. *)
Lemma calculate_critical_path_again (order : SetOrder) (self : Calculator)
    (r1 : Result) :
  calculate_critical_path order self = Some r1 ->
  exists r2,
    calculate_critical_path order (self_out r1) = Some r2
    /\ nodes (self_out r2) = nodes (self_out r1)
    /\ dependencies (self_out r2) = dependencies (self_out r1)
    /\ critical_nodes r2 = critical_nodes r1
    /\ slack r2 = slack r1
    /\ topo_order r2 = topo_order r1.
Proof.
  intros Hrun. unfold calculate_critical_path in Hrun.
  destruct (topological_sort order (build_graph self))
    as [[[S1 topo] warned] |] eqn:Hts; [| discriminate].
  destruct (foldM (forward_step S1) topo ([], [])) as [[es ef] |] eqn:Hf;
    [| discriminate].
  destruct (foldM (backward_step S1 (pymax_list (Dict.values ef) 0%Q))
              (rev topo) _) as [[ls lf] |] eqn:Hb; [| discriminate].
  injection Hrun as <-. cbn [self_out nodes dependencies critical_nodes slack
                             topo_order].
  set (crit := fold_left
                 (fun crit kv =>
                    if is_critical_slack (snd kv) then set_add (fst kv) crit
                    else crit)
                 (fold_left
                    (fun sl node_id =>
                       Dict.set sl node_id
                         (Dict.get_or ls node_id 0 - Dict.get_or es node_id 0)%Q)
                    (Dict.keys (nodes S1)) []) []) in *.
  set (nodes1 := map (annotate_node crit) (nodes S1)).
  set (deps1 := map (annotate_dependency nodes1 crit) (dependencies S1)).
  set (s2 := {| nodes := nodes1; dependencies := deps1;
                graph := graph S1; reverse_graph := reverse_graph S1 |}).
  destruct (build_graph_nodes self) as [HnB HdB].
  assert (Hag0 : agree (build_graph self) (build_graph self)).
  { constructor; reflexivity. }
  destruct (agree_topological_sort order _ _ _ _ _ Hag0 Hts)
    as [S1' [Hts' [_ [HnS [HdS _]]]]].
  assert (HagB : agree (build_graph self) (build_graph s2)).
  { apply build_graph_agree; simpl.
    - intros k. subst nodes1. rewrite Classification.mem_annotate.
      now rewrite HnS, HnB.
    - subst nodes1. rewrite Classification.keys_annotate.
      now rewrite HnS, HnB.
    - intros n. unfold calculate_node_duration. simpl. subst nodes1.
      rewrite Classification.get_annotate, HnS, HnB.
      now destruct (Dict.get (nodes self) n).
    - subst deps1. rewrite map_map, HdS, HdB. apply map_ext.
      intros d. unfold annotate_dependency. now destruct (_ && _).
    - subst deps1. rewrite map_map, HdS, HdB. apply map_ext.
      intros d. unfold annotate_dependency. now destruct (_ && _). }
  destruct (agree_topological_sort order _ _ _ _ _ HagB Hts)
    as [S2 [Hts2 [HagS [_ [_ [HnS2 HdS2]]]]]].
  unfold calculate_critical_path. rewrite Hts2.
  rewrite (foldM_ext (forward_step S2) (forward_step S1))
    by (intros; now apply agree_forward_step).
  rewrite Hf.
  rewrite (agree_end_nodes S1 S2 HagS).
  rewrite (foldM_ext (backward_step S2 (pymax_list (Dict.values ef) 0%Q))
                     (backward_step S1 (pymax_list (Dict.values ef) 0%Q)))
    by (intros; now apply agree_backward_step).
  rewrite Hb.
  rewrite (agree_keys S1 S2 HagS). fold crit.
  destruct (build_graph_nodes s2) as [Hn2 Hd2].
  eexists. split; [reflexivity |].
  cbn [self_out nodes dependencies critical_nodes slack topo_order].
  assert (Hnodes : map (annotate_node crit) (nodes S2) = nodes1).
  { rewrite HnS2, Hn2. simpl. subst nodes1. rewrite map_map.
    apply map_ext. intros kv. apply annotate_node_twice. }
  rewrite Hnodes.
  split; [reflexivity |]. split; [| repeat split; reflexivity].
  rewrite HdS2, Hd2. simpl. subst deps1. rewrite map_map.
  apply map_ext. intros d. apply annotate_dependency_twice. reflexivity.
Qed.

End Rerun.

Lemma update_nodes_and_dependencies_twice (order : SetOrder)
    (nds : list Node) (deps : list Dependency) (crit : list string) :
  Script.update_nodes_and_dependencies order
    (fst (Script.update_nodes_and_dependencies order nds deps crit))
    (snd (Script.update_nodes_and_dependencies order nds deps crit)) crit
  = Script.update_nodes_and_dependencies order nds deps crit.
Proof.
  rewrite !ScriptAnnotation.update_nodes_and_dependencies_spec. simpl.
  f_equal.
  - rewrite ScriptAnnotation.create_missing_nodes_closed.
    + rewrite map_map. apply map_ext. intros n. reflexivity.
    + intros dep Hdep. apply in_map_iff in Hdep.
      destruct Hdep as [dep0 [<- Hdep0]].
      rewrite map_map. simpl.
      change (map (fun x => id x) ?l) with (map id l).
      now apply ScriptAnnotation.create_missing_nodes_ids.
  - rewrite map_map. apply map_ext. intros dep. reflexivity.
Qed.

(** C9: a second run over the output of a first run, with the same set order
    and the same duration policy, saves the same [onCriticalPath] on every
    node and the same [pathType] on every dependency: for
    [calculate_critical_path] of the weighted script, for [main] of the
    unit-duration script, and for [update_nodes_and_dependencies] with a given
    critical set. *)
Theorem annotation_idempotent (order : SetOrder) :
  (forall self r1,
      Script2.calculate_critical_path order self = Some r1 ->
      exists r2,
        Script2.calculate_critical_path order (Script2.self_out r1) = Some r2
        /\ Script2.nodes (Script2.self_out r2)
           = Script2.nodes (Script2.self_out r1)
        /\ Script2.dependencies (Script2.self_out r2)
           = Script2.dependencies (Script2.self_out r1)
        /\ Script2.critical_nodes r2 = Script2.critical_nodes r1)
  /\ (forall nds deps nds' deps',
        Script.main order nds deps = Some (nds', deps') ->
        Script.main order nds' deps' = Some (nds', deps'))
  /\ (forall nds deps crit,
        Script.update_nodes_and_dependencies order
          (fst (Script.update_nodes_and_dependencies order nds deps crit))
          (snd (Script.update_nodes_and_dependencies order nds deps crit)) crit
        = Script.update_nodes_and_dependencies order nds deps crit).
Proof.
  split; [| split].
  - intros self r1 Hrun.
    destruct (Rerun.calculate_critical_path_again order self r1 Hrun)
      as [r2 [H1 [H2 [H3 [H4 _]]]]].
    exists r2. tauto.
  - apply ScriptRun.main_idempotent.
  - apply update_nodes_and_dependencies_twice.
Qed.

Lemma annotation_idempotent_witness :
  Script.main insertion_order
    [set_onCriticalPath (Samples.node "A" "Low" "To Do") true;
     set_onCriticalPath (Script.placeholder_node "B") true]
    [set_pathType (Samples.dep "A" "B") "critical"]
  = Some ([set_onCriticalPath (Samples.node "A" "Low" "To Do") true;
           set_onCriticalPath (Script.placeholder_node "B") true],
          [set_pathType (Samples.dep "A" "B") "critical"]).
Proof.
  apply (proj1 (proj2 (annotation_idempotent insertion_order))
           [Samples.node "A" "Low" "To Do"] [Samples.dep "A" "B"]).
  reflexivity.
Defined.

(** * Further properties of the two scripts *)

(** ** The weighted script: loading *)
Module Script2Load.
Import Script2.

Lemma NoDup_well_formed {V : Type} (d : Dict.t V) :
  NoDup (Dict.keys d) -> Dict.well_formed d = true.
Proof.
  unfold Dict.well_formed. generalize (Dict.keys d). intros ks.
  induction ks as [| k ks IH]; intros H; simpl; [reflexivity |].
  inversion H as [| ? ? Hk Hks]; subst.
  apply str_in_false in Hk. rewrite Hk. simpl. now apply IH.
Qed.

Lemma find_app {A : Type} (f : A -> bool) (l1 l2 : list A) :
  find f (l1 ++ l2)
  = match find f l1 with Some x => Some x | None => find f l2 end.
Proof.
  induction l1 as [| a l1 IH]; simpl; [reflexivity |].
  now destruct (f a).
Qed.

(** The node kept under [i]: the last one loaded with that id. *)
Definition last_loaded (i : string) (loaded : list Node) : option Node :=
  find (fun n => String.eqb (id n) i) (rev loaded).

Lemma load_one_file (nodes_data : list Node) (nds : Dict.t Node) (i : string) :
  Dict.get
    (fold_left (fun nds node => Dict.set nds (id node) node) nodes_data nds) i
  = match last_loaded i nodes_data with
    | Some n => Some n
    | None => Dict.get nds i
    end.
Proof.
  unfold last_loaded. revert nds.
  induction nodes_data as [| n r IH]; intros nds; simpl; [reflexivity |].
  rewrite IH, find_app. simpl.
  destruct (find _ (rev r)); [reflexivity |].
  destruct (String.eqb_spec (id n) i) as [<- | Hne].
  - apply get_set_same.
  - apply get_set_other. congruence.
Qed.

Lemma load_one_file_NoDup (nodes_data : list Node) (nds : Dict.t Node) :
  NoDup (Dict.keys nds) ->
  NoDup (Dict.keys
           (fold_left (fun nds node => Dict.set nds (id node) node)
                      nodes_data nds)).
Proof.
  revert nds. induction nodes_data as [| n r IH]; intros nds H; simpl;
    [exact H |].
  apply IH. now apply keys_set_NoDup.
Qed.

Lemma load_node_files (files : list (list Node)) (nds : Dict.t Node)
    (i : string) :
  Dict.get
    (fold_left
       (fun nds nodes_data =>
          fold_left (fun nds node => Dict.set nds (id node) node) nodes_data nds)
       files nds) i
  = match last_loaded i (concat files) with
    | Some n => Some n
    | None => Dict.get nds i
    end.
Proof.
  revert nds. induction files as [| f r IH]; intros nds; simpl;
    [reflexivity |].
  rewrite IH. unfold last_loaded. rewrite rev_app_distr, find_app.
  destruct (find _ (rev (concat r))); [reflexivity |].
  apply load_one_file.
Qed.

Lemma load_node_files_NoDup (files : list (list Node)) (nds : Dict.t Node) :
  NoDup (Dict.keys nds) ->
  NoDup (Dict.keys
           (fold_left
              (fun nds nodes_data =>
                 fold_left (fun nds node => Dict.set nds (id node) node)
                           nodes_data nds)
              files nds)).
Proof.
  revert nds. induction files as [| f r IH]; intros nds H; simpl; [exact H |].
  apply IH. now apply load_one_file_NoDup.
Qed.

Lemma load_dependency_files (files : list (list Dependency))
    (deps : list Dependency) :
  fold_left (fun deps deps_data => deps ++ deps_data) files deps
  = deps ++ concat files.
Proof.
  revert deps. induction files as [| f r IH]; intros deps; simpl.
  - now rewrite app_nil_r.
  - now rewrite IH, app_assoc.
Qed.

End Script2Load.

(** X1: [load_files] keeps [self.nodes] a dictionary with pairwise distinct
    keys; under an id it holds the last node loaded with that id, and
    otherwise what [self.nodes] held before; the loaded dependencies are
    appended file by file, in order, duplicates included; the two adjacency
    tables are left alone. *)
Theorem load_files_last_wins (self : Script2.Calculator)
    (nodes_files : list (list Node)) (deps_files : list (list Dependency)) :
  Dict.well_formed (Script2.nodes self) = true ->
  Dict.well_formed
    (Script2.nodes (Script2.load_files self nodes_files deps_files)) = true
  /\ (forall i,
        Dict.get (Script2.nodes (Script2.load_files self nodes_files deps_files))
                 i
        = match Script2Load.last_loaded i (concat nodes_files) with
          | Some n => Some n
          | None => Dict.get (Script2.nodes self) i
          end)
  /\ (forall i n,
        Script2Load.last_loaded i (concat nodes_files) = Some n ->
        id n = i /\ In n (concat nodes_files))
  /\ (forall n, In n (concat nodes_files) ->
        Dict.mem (Script2.nodes (Script2.load_files self nodes_files deps_files))
                 (id n) = true)
  /\ Script2.dependencies (Script2.load_files self nodes_files deps_files)
     = Script2.dependencies self ++ concat deps_files
  /\ Script2.graph (Script2.load_files self nodes_files deps_files)
     = Script2.graph self
  /\ Script2.reverse_graph (Script2.load_files self nodes_files deps_files)
     = Script2.reverse_graph self.
Proof.
  intros Hwf. apply well_formed_NoDup in Hwf.
  assert (Hfound : forall i n,
             Script2Load.last_loaded i (concat nodes_files) = Some n ->
             id n = i /\ In n (concat nodes_files)).
  { intros i n H. unfold Script2Load.last_loaded in H.
    apply find_some in H. destruct H as [Hin Heq].
    apply String.eqb_eq in Heq. split; [exact Heq |].
    now apply in_rev. }
  unfold Script2.load_files. simpl.
  split; [| split; [| split; [| split; [| split; [| split]]]]].
  - apply Script2Load.NoDup_well_formed.
    now apply Script2Load.load_node_files_NoDup.
  - intros i. apply Script2Load.load_node_files.
  - exact Hfound.
  - intros n Hn. unfold Dict.mem. rewrite Script2Load.load_node_files.
    destruct (Script2Load.last_loaded (id n) (concat nodes_files)) eqn:E;
      [reflexivity |].
    exfalso. unfold Script2Load.last_loaded in E.
    apply in_rev in Hn. pose proof (find_none _ _ E n Hn) as Hf.
    simpl in Hf. rewrite String.eqb_refl in Hf. discriminate.
  - apply Script2Load.load_dependency_files.
  - reflexivity.
  - reflexivity.
Qed.

Lemma load_files_last_wins_witness :
  Dict.get
    (Script2.nodes
       (Script2.load_files Script2.init
          [[Samples.node "A" "Low" "To Do"; Samples.node "B" "High" "Done"];
           [Samples.node "A" "Highest" "Done"]] [])) "A"
  = Some (Samples.node "A" "Highest" "Done").
Proof.
  destruct (load_files_last_wins Script2.init
              [[Samples.node "A" "Low" "To Do"; Samples.node "B" "High" "Done"];
               [Samples.node "A" "Highest" "Done"]] [] eq_refl)
    as [_ [H _]].
  rewrite H. reflexivity.
Defined.

(** ** The weighted script: the graph, the order and the durations *)

(** X2: after [build_graph], [graph[u]] lists the targets of the dependencies
    that start at [u] and have both endpoints among the nodes, in the order of
    the dependencies and with their repetitions; [reverse_graph[v]] lists
    their sources in the same way; a dependency with an endpoint that is not
    a node adds nothing; the nodes and the dependencies are left alone. *)
Theorem build_graph_lists_kept_edges (self : Script2.Calculator) :
  (forall u,
      Script2Order.succs (Script2.build_graph self) u
      = map target
          (filter (fun d => Script2Graph.kept (Script2.nodes self) d
                            && String.eqb (source d) u)
                  (Script2.dependencies self)))
  /\ (forall v,
        Script2Order.preds (Script2.build_graph self) v
        = map source
            (filter (fun d => Script2Graph.kept (Script2.nodes self) d
                              && String.eqb (target d) v)
                    (Script2.dependencies self)))
  /\ (forall d,
        Script2Graph.kept (Script2.nodes self) d = true <->
        In (source d) (Dict.keys (Script2.nodes self))
        /\ In (target d) (Dict.keys (Script2.nodes self)))
  /\ Script2.nodes (Script2.build_graph self) = Script2.nodes self
  /\ Script2.dependencies (Script2.build_graph self)
     = Script2.dependencies self.
Proof.
  unfold Script2Order.succs, Script2Order.preds, Script2.build_graph.
  destruct (fold_left (Script2.build_graph_step (Script2.nodes self))
                      (Script2.dependencies self) ([], [])) as [g rg] eqn:E.
  apply Script2Graph.build_graph_fold in E. destruct E as [Hg [Hrg _]].
  simpl. split; [| split; [| split; [| split]]].
  - intros u. now rewrite Hg.
  - intros v. now rewrite Hrg.
  - intros d. unfold Script2Graph.kept. rewrite andb_true_iff.
    now rewrite !mem_In_keys.
  - reflexivity.
  - reflexivity.
Qed.

(** X3: for every input with distinct node ids, cyclic or not, the order used
    by the two passes holds every node id exactly once, and each table has
    exactly one entry per node: [earliest_start] and [earliest_finish] in
    that order, [latest_start] in the reverse order, [slack] in the order of
    [self.nodes]. *)
Theorem every_node_once (order : SetOrder) (self : Script2.Calculator) :
  Dict.well_formed (Script2.nodes self) = true ->
  exists r,
    Script2.calculate_critical_path order self = Some r
    /\ Permutation (Script2.topo_order r) (Dict.keys (Script2.nodes self))
    /\ NoDup (Script2.topo_order r)
    /\ Dict.keys (Script2.earliest_start r) = Script2.topo_order r
    /\ Dict.keys (Script2.earliest_finish r) = Script2.topo_order r
    /\ Dict.keys (Script2.latest_start r) = rev (Script2.topo_order r)
    /\ (forall n, In n (Dict.keys (Script2.latest_finish r)) <->
                  In n (Dict.keys (Script2.nodes self)))
    /\ Permutation (Dict.keys (Script2.slack r))
                   (Dict.keys (Script2.nodes self)).
Proof.
  intros Hwf. apply well_formed_NoDup in Hwf.
  destruct (Script2Run.calculate_critical_path_spec order self Hwf)
    as [r [Hrun F]].
  exists r. split; [exact Hrun |].
  pose proof (Script2Run.rf_nodup _ _ _ F) as Hnd.
  pose proof (Script2Run.rf_cover _ _ _ F) as Hcov.
  destruct (Script2Run.rf_forward _ _ _ F) as [Hes Hef _].
  destruct (Script2Run.rf_backward _ _ _ F) as [Hls Hlf _ _].
  split; [now apply NoDup_Permutation |].
  split; [exact Hnd |]. split; [exact Hes |]. split; [exact Hef |].
  split; [exact Hls |]. split.
  - intros n. rewrite Hlf, <- in_rev, Hcov.
    split; [intros [H | H]; [| exact H] | tauto].
    now apply (Script2Latest.end_nodes_In self) in H.
  - rewrite (Script2Run.rf_slack _ _ _ F).
    destruct (Script2Slack.slack_table_keys (Script2.nodes self)
                (Script2.earliest_start r) (Script2.latest_start r))
      as [Hn Hk].
    now apply NoDup_Permutation.
Qed.

Lemma every_node_once_witness :
  exists r,
    Script2.calculate_critical_path insertion_order
      (Samples.calculator
         [Samples.node "A" "Low" "To Do"; Samples.node "B" "High" "To Do"]
         [Samples.dep "A" "B"; Samples.dep "B" "A"]) = Some r
    /\ Permutation (Script2.topo_order r) ["A"; "B"].
Proof.
  destruct (every_node_once insertion_order
              (Samples.calculator
                 [Samples.node "A" "Low" "To Do";
                  Samples.node "B" "High" "To Do"]
                 [Samples.dep "A" "B"; Samples.dep "B" "A"]) eq_refl)
    as [r [Hrun [Hperm _]]].
  exists r. split; [exact Hrun | exact Hperm].
Defined.

(** X4: the duration of a node lies between 0.1 and 7.5; it is 0.1 exactly
    when the status of the node is ["Done"], whatever its priority; and an id
    that is not a key of [self.nodes] raises [KeyError]. *)
Theorem duration_range (self : Script2.Calculator) (node_id : string) :
  match Dict.get (Script2.nodes self) node_id with
  | None => Script2.calculate_node_duration self node_id = None
  | Some node =>
      exists d,
        Script2.calculate_node_duration self node_id = Some d
        /\ (1 # 10 <= d)%Q /\ (d <= 15 # 2)%Q
        /\ ((d == 1 # 10)%Q <-> Script2.node_status node = "Done")
        /\ (Script2.node_status node <> "Done" -> (1 # 2 <= d)%Q)
  end.
Proof.
  unfold Script2.calculate_node_duration.
  destruct (Dict.get (Script2.nodes self) node_id) as [node |];
    [| reflexivity].
  simpl. eexists. split; [reflexivity |].
  unfold Script2.get_priority_weight, Script2.get_status_weight.
  destruct (String.eqb_spec (Script2.node_status node) "Done") as [Hd | Hd].
  - assert (E : forall p : Q, pymax (p * 0) (1 # 10) = (1 # 10)%Q).
    { intros p. destruct (pymax_cases (p * 0) (1 # 10)) as [[H1 H2] | [H1 _]];
        [| exact H1].
      exfalso. assert (p * 0 == 0)%Q by ring. lra. }
    rewrite E. repeat split; try lra; try reflexivity; try tauto.
  - repeat match goal with
           | |- context [String.eqb ?a ?b] => destruct (String.eqb a b)
           end;
      match goal with
      | |- context [pymax ?a ?b] =>
          destruct (pymax_cases a b) as [[-> H] | [-> H]]
      end;
      repeat split; try lra; try tauto; try (intros; exfalso; lra);
      try (intros H'; exfalso; revert H'; lra).
Qed.

(** ** The weighted script: the schedule along the edges *)
Module Script2Schedule.
Import Script2 Script2Graph Script2Order Script2Sort Script2Passes
       Script2Backward Script2Run Script2Tables.

Section Run.
  Variable order : SetOrder.
  Variable self : Calculator.
  Variable r : Result.
  Hypothesis F : run_facts order self r.

  (** A predecessor visited earlier finishes before the node starts. *)
Lemma edge_forward l1 v l2 u :
    topo_order r = l1 ++ v :: l2 ->
    In u (preds (build_graph self) v) -> In u l1 ->
    (val (earliest_finish r) u <= val (earliest_start r) v)%Q.
  Proof.
    intros Hl Hu Hin.
    destruct (Script2Slack.run_at_split order self r F l1 v l2 Hl)
      as [d [F' [_ [Hes _]]]].
    unfold val at 2. unfold Dict.get_or. rewrite Hes.
    unfold start_after.
    apply (fold_pymax_spec _ 0%Q). apply in_map. unfold earlier_preds.
    apply filter_In. split; [exact Hu | now apply str_in_In].
  Qed.

  (** The start of a node is 0 or the finish of a predecessor visited
      earlier. *)
Lemma start_origin l1 v l2 :
    topo_order r = l1 ++ v :: l2 ->
    Dict.get (earliest_start r) v = Some 0%Q
    \/ exists u, In u (preds (build_graph self) v) /\ In u l1
                 /\ Dict.get (earliest_start r) v
                    = Some (val (earliest_finish r) u).
  Proof.
    intros Hl.
    destruct (Script2Slack.run_at_split order self r F l1 v l2 Hl)
      as [d [F' [_ [Hes _]]]].
    rewrite Hes. unfold start_after.
    destruct (fold_pymax_spec
                (map (val (earliest_finish r))
                     (earlier_preds (build_graph self) l1 v)) 0%Q)
      as [_ [_ [H | H]]].
    - left. now rewrite H.
    - right. apply in_map_iff in H. destruct H as [u [Hu Hin]].
      unfold earlier_preds in Hin. apply filter_In in Hin.
      destruct Hin as [Hp Hl1]. apply str_in_In in Hl1.
      exists u. rewrite <- Hu. auto.
  Qed.

  (** A node finishes, at the latest, before a successor visited later in the
      order has to start. *)
Lemma edge_backward l1 u l2 v :
    topo_order r = l1 ++ u :: l2 ->
    In v (succs (build_graph self) u) -> In v l2 ->
    (val (latest_finish r) u <= val (latest_start r) v)%Q.
  Proof.
    intros Hl Hv Hin.
    destruct (Script2Slack.run_at_split order self r F l1 u l2 Hl)
      as [d [F' [_ [_ [_ [Hlf [_ [_ [_ Hint]]]]]]]]].
    assert (Hne : ~ In u (end_nodes (build_graph self))).
    { intros H. apply (Script2Latest.end_nodes_In self) in H.
      destruct H as [_ H]. rewrite H in Hv. destruct Hv. }
    unfold val at 1. unfold Dict.get_or. rewrite Hlf, (Hint Hne).
    apply (fold_pymin_spec _ (project_completion r)). apply in_map.
    unfold resolved_succs. apply filter_In.
    split; [exact Hv | now apply str_in_In].
  Qed.

  (** The four times of a node, in terms of its duration. *)
Lemma times l1 n l2 :
    topo_order r = l1 ++ n :: l2 ->
    exists d s f,
      calculate_node_duration self n = Some d
      /\ Dict.get (earliest_start r) n = Some s
      /\ Dict.get (earliest_finish r) n = Some (s + d)%Q
      /\ Dict.get (latest_finish r) n = Some f
      /\ Dict.get (latest_start r) n = Some (f - d)%Q
      /\ (1 # 10 <= d)%Q /\ (0 <= s)%Q /\ (s <= f - d)%Q
      /\ (f <= project_completion r)%Q.
  Proof.
    intros Hl.
    destruct (Script2Slack.run_at_split order self r F l1 n l2 Hl)
      as [d [F' [Hd [Hes [Hef [Hlf [Hls [HF _]]]]]]]].
    exists d, (start_after (build_graph self) l1 (earliest_finish r) n), F'.
    assert (Hn : In n (Dict.keys (nodes self))).
    { apply (rf_cover _ _ _ F). rewrite Hl. apply in_or_app. right. now left. }
    destruct (Script2Slack.run_slack_nonneg order self r F n Hn)
      as [_ [_ Hs]].
    unfold val, Dict.get_or in Hs. rewrite Hls, Hes in Hs.
    pose proof (duration_at_least self n d Hd).
    pose proof (Script2Forward.start_after_nonneg (build_graph self) l1
                  (earliest_finish r) n).
    repeat split; try assumption. lra.
  Qed.

  (** A later element of the order, seen from an earlier one. *)
Lemma split_later l1 u l2 v :
    topo_order r = l1 ++ u :: l2 -> In v l2 ->
    exists a b, topo_order r = (l1 ++ u :: a) ++ v :: b /\ l2 = a ++ v :: b.
  Proof.
    intros Hl Hv. apply in_split in Hv. destruct Hv as [a [b ->]].
    exists a, b. split; [| reflexivity].
    rewrite Hl, <- app_assoc. reflexivity.
  Qed.

Lemma split_earlier l1 v l2 u :
    topo_order r = l1 ++ v :: l2 -> In u l1 ->
    exists a b, topo_order r = a ++ u :: (b ++ v :: l2) /\ l1 = a ++ u :: b.
  Proof.
    intros Hl Hu. apply in_split in Hu. destruct Hu as [a [b ->]].
    exists a, b. split; [| reflexivity].
    rewrite Hl, <- app_assoc. reflexivity.
  Qed.

  (** The predecessors of an id emitted by the Kahn loop come before it. *)
Lemma kahn_preds_earlier g kahn n l1 l2 :
    kahn_order (build_graph self) = Some (g, kahn) -> In n kahn ->
    topo_order r = l1 ++ n :: l2 ->
    forall p, In p (preds (build_graph self) n) -> In p l1.
  Proof.
    intros Hk Hn Hl p Hp.
    destruct (rf_kahn _ _ _ F)
      as [g0 [kahn0 [rest [warned [Hk0 [Htopo [Hord _]]]]]]].
    rewrite Hk in Hk0. injection Hk0 as <- <-.
    pose proof (rf_nodup _ _ _ F) as Hnd.
    apply (graph_reverse _ (build_graph_ok self)) in Hp.
    destruct (Hord n Hn p Hp) as [k1 [k2 [Hkk Hin]]].
    rewrite Htopo, Hkk, <- app_assoc in Hl. simpl in Hl.
    assert (Hnd' : NoDup (k1 ++ n :: k2 ++ rest)).
    { rewrite Htopo, Hkk, <- app_assoc in Hnd. exact Hnd. }
    destruct (NoDup_split_unique _ _ _ _ _ Hnd' Hl) as [-> _].
    exact Hin.
  Qed.

  (** Some node finishes at the project completion time. *)
Lemma completion_attained :
    nodes self <> [] ->
    exists n, In n (topo_order r)
              /\ val (earliest_finish r) n = project_completion r.
  Proof.
    intros Hne.
    destruct (nodes self) as [| [k nd0] rest] eqn:En; [congruence |].
    pose proof (rf_forward _ _ _ F) as [_ Hkef _].
    assert (Hnk : NoDup (Dict.keys (earliest_finish r))).
    { rewrite Hkef. apply (rf_nodup _ _ _ F). }
    assert (Hk : In k (topo_order r)).
    { apply (rf_cover _ _ _ F). rewrite En. now left. }
    rewrite (rf_completion _ _ _ F).
    assert (Hvals : In (val (earliest_finish r) k)
                       (Dict.values (earliest_finish r))).
    { apply (Script2Forward.values_of_keys _ _ Hnk). apply in_map.
      now rewrite Hkef. }
    destruct (Dict.values (earliest_finish r)) as [| x vs] eqn:Ev;
      [destruct Hvals |].
    destruct (pymax_list_is_max x vs 0%Q) as [Hin _].
    rewrite <- Ev in Hin.
    apply (Script2Forward.values_of_keys _ _ Hnk) in Hin.
    apply in_map_iff in Hin. destruct Hin as [n [Hval Hin]].
    rewrite Hkef in Hin. exists n. rewrite Ev in Hval. tauto.
  Qed.

  (** In the exact arithmetic of the embedding, a node that finishes at the
      completion time has no slack. *)
Lemma last_finisher l1 n l2 :
    topo_order r = l1 ++ n :: l2 ->
    val (earliest_finish r) n = project_completion r ->
    Dict.get (latest_finish r) n = Some (project_completion r)
    /\ (val (latest_start r) n - val (earliest_start r) n == 0)%Q.
  Proof.
    intros Hl HC.
    destruct (Script2Slack.run_at_split order self r F l1 n l2 Hl)
      as [d [F' [Hd [Hes [Hef [Hlf [Hls [HF [Hend Hint]]]]]]]]].
    assert (HF' : F' = project_completion r).
    { destruct (in_dec string_dec n (end_nodes (build_graph self)))
        as [He | He]; [now apply Hend |].
      rewrite (Hint He).
      destruct (resolved_succs (build_graph self) l2 n) as [| v vs] eqn:Er;
        [reflexivity |].
      exfalso.
      assert (Hv : In v (resolved_succs (build_graph self) l2 n)).
      { rewrite Er. now left. }
      unfold resolved_succs in Hv. apply filter_In in Hv.
      destruct Hv as [Hvs Hvl]. apply str_in_In in Hvl.
      destruct (split_later l1 n l2 v Hl Hvl) as [a [b [Hab _]]].
      assert (Hp : In n (preds (build_graph self) v)).
      { now apply (graph_reverse _ (build_graph_ok self)). }
      assert (Hna : In n (l1 ++ n :: a)).
      { apply in_or_app. right. now left. }
      pose proof (edge_forward _ v _ n Hab Hp Hna) as Hle.
      destruct (times _ v _ Hab)
        as [dv [sv [fv [_ [Hsv [Hfv [_ [_ [Hdv _]]]]]]]]].
      assert (Hvt : In v (topo_order r)).
      { rewrite Hab. apply in_or_app. right. now left. }
      pose proof (Script2Slack.run_finish_le_completion order self r F v Hvt)
        as Hcv.
      unfold val, Dict.get_or in Hle, Hcv, HC.
      rewrite Hsv in Hle. rewrite Hfv in Hcv. rewrite Hef in Hle, HC.
      rewrite <- HC in Hcv. lra. }
    subst F'. split; [exact Hlf |].
    unfold val, Dict.get_or in *. rewrite Hef in HC.
    rewrite Hls, Hes, <- HC. ring.
  Qed.

End Run.
End Script2Schedule.

(** X5: whenever there is at least one node (distinct ids, cyclic input or
    not), some node finishes at the project completion time, and every such
    node has [latest_finish] equal to the completion time, is in the critical
    set and is saved with [onCriticalPath = true].  So the critical set is
    never empty for a non-empty node collection.  (The slack of such a node
    is 0 in exact arithmetic and a rounding error in doubles; what is stated
    is its membership in the critical set, which the tolerance of the test
    decides.) *)
Theorem last_finisher_is_critical (order : SetOrder)
    (self : Script2.Calculator) :
  Dict.well_formed (Script2.nodes self) = true ->
  Script2.nodes self <> [] ->
  exists r,
    Script2.calculate_critical_path order self = Some r
    /\ (exists n, In n (Dict.keys (Script2.nodes self))
                  /\ Script2Passes.val (Script2.earliest_finish r) n
                     = Script2.project_completion r)
    /\ forall n nd,
         Dict.get (Script2.nodes self) n = Some nd ->
         Script2Passes.val (Script2.earliest_finish r) n
         = Script2.project_completion r ->
         Dict.get (Script2.latest_finish r) n
         = Some (Script2.project_completion r)
         /\ In n (Script2.critical_nodes r)
         /\ Dict.get (Script2.nodes (Script2.self_out r)) n
            = Some (set_onCriticalPath nd true).
Proof.
  intros Hwf Hne. apply well_formed_NoDup in Hwf.
  destruct (Script2Run.calculate_critical_path_spec order self Hwf)
    as [r [Hrun F]].
  exists r. split; [exact Hrun |]. split.
  - destruct (Script2Schedule.completion_attained order self r F Hne)
      as [n [Hn Hv]].
    exists n. split; [now apply (Script2Run.rf_cover _ _ _ F) | exact Hv].
  - intros n nd Hget HC.
    assert (Hn : In n (Dict.keys (Script2.nodes self))).
    { apply get_In_keys. congruence. }
    assert (Ht : In n (Script2.topo_order r))
      by now apply (Script2Run.rf_cover _ _ _ F).
    apply in_split in Ht. destruct Ht as [l1 [l2 Hl]].
    destruct (Script2Schedule.last_finisher order self r F l1 n l2 Hl HC)
      as [Hlf Hz].
    assert (Hcrit : In n (Script2.critical_nodes r)).
    { apply (Script2Slack.run_critical order self r F). split; [exact Hn |].
      rewrite Hz. reflexivity. }
    split; [exact Hlf |]. split; [exact Hcrit |].
    rewrite (Script2Run.rf_nodes _ _ _ F).
    rewrite Classification.get_annotate, Hget. simpl.
    apply str_in_In in Hcrit. now rewrite Hcrit.
Qed.

Lemma last_finisher_is_critical_witness :
  exists r,
    Script2.calculate_critical_path insertion_order
      (Samples.calculator
         [Samples.node "A" "Low" "To Do"; Samples.node "B" "High" "To Do"]
         [Samples.dep "A" "B"; Samples.dep "B" "A"]) = Some r
    /\ exists n, In n ["A"; "B"]
                 /\ Script2Passes.val (Script2.earliest_finish r) n
                    = Script2.project_completion r.
Proof.
  destruct (last_finisher_is_critical insertion_order
              (Samples.calculator
                 [Samples.node "A" "Low" "To Do";
                  Samples.node "B" "High" "To Do"]
                 [Samples.dep "A" "B"; Samples.dep "B" "A"]) eq_refl)
    as [r [Hrun [Hn _]]]; [discriminate |].
  exists r. split; [exact Hrun | exact Hn].
Defined.

(** X6: the computed schedule respects the edges.  For an edge [u -> v] of
    the graph with [v] after [u] in the order, [u] finishes no later than [v]
    starts, in the earliest and in the latest schedule.  When the graph has
    no closed walk this holds for every dependency whose two endpoints are
    nodes. *)
Theorem schedule_respects_edges (order : SetOrder)
    (self : Script2.Calculator) :
  Dict.well_formed (Script2.nodes self) = true ->
  exists r,
    Script2.calculate_critical_path order self = Some r
    /\ (forall l1 u l2 v,
          Script2.topo_order r = l1 ++ u :: l2 ->
          In v (Script2Order.succs (Script2.build_graph self) u) ->
          In v l2 ->
          (Script2Passes.val (Script2.earliest_finish r) u
           <= Script2Passes.val (Script2.earliest_start r) v)%Q
          /\ (Script2Passes.val (Script2.latest_finish r) u
              <= Script2Passes.val (Script2.latest_start r) v)%Q)
    /\ ((forall m, ~ path (Script2Order.succs (Script2.build_graph self)) m m) ->
        forall dep,
          In dep (Script2.dependencies self) ->
          In (source dep) (Dict.keys (Script2.nodes self)) ->
          In (target dep) (Dict.keys (Script2.nodes self)) ->
          (Script2Passes.val (Script2.earliest_finish r) (source dep)
           <= Script2Passes.val (Script2.earliest_start r) (target dep))%Q
          /\ (Script2Passes.val (Script2.latest_finish r) (source dep)
              <= Script2Passes.val (Script2.latest_start r) (target dep))%Q).
Proof.
  intros Hwf. apply well_formed_NoDup in Hwf.
  destruct (Script2Run.calculate_critical_path_spec order self Hwf)
    as [r [Hrun F]].
  exists r. split; [exact Hrun |].
  assert (Hedge : forall l1 u l2 v,
            Script2.topo_order r = l1 ++ u :: l2 ->
            In v (Script2Order.succs (Script2.build_graph self) u) ->
            In v l2 ->
            (Script2Passes.val (Script2.earliest_finish r) u
             <= Script2Passes.val (Script2.earliest_start r) v)%Q
            /\ (Script2Passes.val (Script2.latest_finish r) u
                <= Script2Passes.val (Script2.latest_start r) v)%Q).
  { intros l1 u l2 v Hl Hv Hin. split.
    - destruct (Script2Schedule.split_later r l1 u l2 v Hl Hin)
        as [a [b [Hab _]]].
      apply (Script2Schedule.edge_forward order self r F _ v _ u Hab).
      + now apply (Script2Graph.graph_reverse _ (Script2Graph.build_graph_ok self)).
      + apply in_or_app. right. now left.
    - now apply (Script2Schedule.edge_backward order self r F l1 u l2 v). }
  split; [exact Hedge |].
  intros Hno dep Hdep Hs Ht.
  destruct (Script2Order.kahn_order_total (Script2.build_graph self))
    as [g [kahn Hk]].
  pose proof (Script2Acyclic.built_no_cycle_all_emitted self g kahn Hwf Hk Hno
                (source dep) Hs) as Hsk.
  assert (Hst : In (source dep) (Script2.topo_order r))
    by now apply (Script2Run.rf_cover _ _ _ F).
  apply in_split in Hst. destruct Hst as [l1 [l2 Hl]].
  assert (Hadj : In (target dep)
                    (Script2Order.succs (Script2.build_graph self)
                                        (source dep))).
  { apply Script2Graph.build_graph_adjacent. exists dep.
    split; [exact Hdep |]. split; [| tauto].
    unfold Script2Graph.kept. apply mem_In_keys in Hs, Ht.
    now rewrite Hs, Ht. }
  apply (Hedge l1 (source dep) l2 (target dep) Hl Hadj).
  exact (Script2Latest.run_kahn_succs_later order self r F g kahn (source dep)
           l1 l2 Hk Hsk Hl (target dep) Hadj).
Qed.

Lemma schedule_respects_edges_witness :
  exists r,
    Script2.calculate_critical_path insertion_order
      (Samples.calculator
         [Samples.node "A" "Low" "To Do"; Samples.node "B" "High" "To Do"]
         [Samples.dep "A" "B"]) = Some r
    /\ (Script2Passes.val (Script2.earliest_finish r) "A"
        <= Script2Passes.val (Script2.earliest_start r) "B")%Q.
Proof.
  destruct (schedule_respects_edges insertion_order
              (Samples.calculator
                 [Samples.node "A" "Low" "To Do";
                  Samples.node "B" "High" "To Do"]
                 [Samples.dep "A" "B"]) eq_refl)
    as [r [Hrun [Hedge _]]].
  exists r. split; [exact Hrun |].
  assert (Ht : Script2.topo_order r = [] ++ "A" :: ["B"]).
  { vm_compute in Hrun. injection Hrun as <-. reflexivity. }
  apply (Hedge [] "A" ["B"] "B" Ht); [| now left].
  vm_compute. now left.
Defined.

(** X7: critical nodes form chains.  A critical node that was emitted by the
    Kahn loop and has successors has a critical successor, and one that has
    predecessors has a critical predecessor; a dependency between two
    critical nodes is saved with [pathType = "critical"].  In a graph
    without closed walk every node is emitted, so every critical node lies on
    a chain of critical edges from a node without predecessors to a node
    without successors. *)
Theorem critical_nodes_chain (order : SetOrder) (self : Script2.Calculator) :
  Dict.well_formed (Script2.nodes self) = true ->
  exists r g kahn,
    Script2.calculate_critical_path order self = Some r
    /\ Script2.kahn_order (Script2.build_graph self) = Some (g, kahn)
    /\ (forall u, In u kahn -> In u (Script2.critical_nodes r) ->
          Script2Order.succs (Script2.build_graph self) u <> [] ->
          exists v, In v (Script2Order.succs (Script2.build_graph self) u)
                    /\ In v (Script2.critical_nodes r))
    /\ (forall v, In v kahn -> In v (Script2.critical_nodes r) ->
          Script2Order.preds (Script2.build_graph self) v <> [] ->
          exists u, In u (Script2Order.preds (Script2.build_graph self) v)
                    /\ In u (Script2.critical_nodes r))
    /\ (forall dep, In dep (Script2.dependencies self) ->
          In (source dep) (Script2.critical_nodes r) ->
          In (target dep) (Script2.critical_nodes r) ->
          In (set_pathType dep "critical")
             (Script2.dependencies (Script2.self_out r)))
    /\ ((forall m, ~ path (Script2Order.succs (Script2.build_graph self)) m m) ->
        forall n, In n (Dict.keys (Script2.nodes self)) -> In n kahn).
Proof.
  intros Hwf. apply well_formed_NoDup in Hwf.
  destruct (Script2Run.calculate_critical_path_spec order self Hwf)
    as [r [Hrun F]].
  destruct (Script2Order.kahn_order_total (Script2.build_graph self))
    as [g [kahn Hk]].
  exists r, g, kahn. split; [exact Hrun |]. split; [exact Hk |].
  pose proof (Script2Graph.build_graph_ok self) as Hok.
  assert (Hkt : forall n, In n kahn -> In n (Script2.topo_order r)).
  { intros n Hn.
    destruct (Script2Run.rf_kahn _ _ _ F)
      as [g0 [kahn0 [rest [warned [Hk0 [Htopo _]]]]]].
    rewrite Hk in Hk0. injection Hk0 as <- <-.
    rewrite Htopo. apply in_or_app. now left. }
  assert (Hslack : forall n l1 l2,
            Script2.topo_order r = l1 ++ n :: l2 ->
            (In n (Script2.critical_nodes r) <->
             (Script2Passes.val (Script2.latest_finish r) n
              - Script2Passes.val (Script2.earliest_finish r) n
              < 1 # 1000)%Q)
            /\ (Script2Passes.val (Script2.earliest_finish r) n
                <= Script2Passes.val (Script2.latest_finish r) n)%Q
            /\ (Script2Passes.val (Script2.latest_finish r) n
                - Script2Passes.val (Script2.earliest_finish r) n
                == Script2Passes.val (Script2.latest_start r) n
                   - Script2Passes.val (Script2.earliest_start r) n)%Q).
  { intros n l1 l2 Hl.
    destruct (Script2Schedule.times order self r F l1 n l2 Hl)
      as [d [s [f [_ [Hs [Hf [Hlf [Hls [_ [_ [Hle _]]]]]]]]]]].
    assert (Hn : In n (Dict.keys (Script2.nodes self))).
    { apply (Script2Run.rf_cover _ _ _ F). rewrite Hl.
      apply in_or_app. right. now left. }
    rewrite (Script2Slack.run_critical order self r F).
    unfold Script2Passes.val, Dict.get_or. rewrite Hs, Hf, Hlf, Hls.
    split; [| split; [lra | ring]].
    split.
    - intros [_ H]. apply Qabs_Qlt_condition in H. lra.
    - intros H. split; [exact Hn |]. apply Qabs_Qlt_condition. lra. }
  split; [| split; [| split]].
  - intros u Hu Hcrit Hsucc.
    pose proof (Hkt u Hu) as Hut. apply in_split in Hut.
    destruct Hut as [l1 [l2 Hl]].
    pose proof (Script2Latest.run_kahn_succs_later order self r F g kahn u
                  l1 l2 Hk Hu Hl) as Hlater.
    destruct (Script2Slack.run_at_split order self r F l1 u l2 Hl)
      as [d [F' [_ [_ [_ [Hlf [_ [_ [_ Hint]]]]]]]]].
    assert (Hne : ~ In u (Script2.end_nodes (Script2.build_graph self))).
    { intros H. apply (Script2Latest.end_nodes_In self) in H. tauto. }
    assert (Hres : Script2Tables.resolved_succs (Script2.build_graph self) l2 u
                   = Script2Order.succs (Script2.build_graph self) u).
    { unfold Script2Tables.resolved_succs. apply filter_all.
      intros s Hs. apply str_in_In. now apply Hlater. }
    specialize (Hint Hne). rewrite Hres in Hint.
    assert (Hmin : is_min_of F'
                     (map (Script2Passes.val (Script2.latest_start r))
                          (Script2Order.succs (Script2.build_graph self) u))).
    { rewrite Hint. apply fold_pymin_is_min.
      - intros Hm. apply map_eq_nil in Hm. contradiction.
      - intros x Hx. apply in_map_iff in Hx. destruct Hx as [s [<- Hs]].
        apply (Script2Latest.run_latest_start_lt order self r F).
        rewrite Hl. apply in_or_app. right. right. now apply Hlater. }
    destruct Hmin as [Hin _]. apply in_map_iff in Hin.
    destruct Hin as [v [Hv Hvs]]. exists v. split; [exact Hvs |].
    pose proof (Hlater v Hvs) as Hvl.
    destruct (Script2Schedule.split_later r l1 u l2 v Hl Hvl)
      as [a [b [Hab _]]].
    assert (Hfw : (Script2Passes.val (Script2.earliest_finish r) u
                   <= Script2Passes.val (Script2.earliest_start r) v)%Q).
    { apply (Script2Schedule.edge_forward order self r F _ v _ u Hab).
      - now apply (Script2Graph.graph_reverse _ Hok).
      - apply in_or_app. right. now left. }
    destruct (Hslack u l1 l2 Hl) as [Hcu [_ _]].
    apply Hcu in Hcrit.
    destruct (Script2Schedule.times order self r F _ v _ Hab)
      as [dv [sv [fv [_ [Hsv [Hfv [Hlfv [Hlsv [_ [_ [Hlev _]]]]]]]]]]].
    apply (Script2Slack.run_critical order self r F). split.
    + apply (Script2Run.rf_cover _ _ _ F). rewrite Hab.
      apply in_or_app. right. now left.
    + apply Qabs_Qlt_condition.
      unfold Script2Passes.val, Dict.get_or in *.
      rewrite Hlf in Hcrit. rewrite Hlsv in Hv. rewrite Hsv in Hfw.
      rewrite Hlsv, Hsv. rewrite <- Hv in Hcrit. lra.
  - intros v Hv Hcrit Hpred.
    pose proof (Hkt v Hv) as Hvt. apply in_split in Hvt.
    destruct Hvt as [l1 [l2 Hl]].
    pose proof (Script2Schedule.kahn_preds_earlier order self r F g kahn v
                  l1 l2 Hk Hv Hl) as Hearlier.
    pose proof (Script2Forward.fwd_start_all_preds _ _ _ _ l1 v l2
                  (Script2Run.rf_forward _ _ _ F) Hl Hearlier) as Hes.
    assert (Hmax : is_max_of
                     (Script2Passes.val (Script2.earliest_start r) v)
                     (map (Script2Passes.val (Script2.earliest_finish r))
                          (Script2Order.preds (Script2.build_graph self) v))).
    { unfold Script2Passes.val at 1. unfold Dict.get_or. rewrite Hes.
      apply fold_pymax_is_max.
      - intros Hm. apply map_eq_nil in Hm. contradiction.
      - intros x Hx. apply in_map_iff in Hx. destruct Hx as [p [<- Hp]].
        eapply Script2Forward.fwd_finish_pos;
          [exact (Script2Run.rf_forward _ _ _ F) |].
        rewrite Hl. apply in_or_app. left. now apply Hearlier. }
    destruct Hmax as [Hin _]. apply in_map_iff in Hin.
    destruct Hin as [u [Hu Hup]]. exists u. split; [exact Hup |].
    pose proof (Hearlier u Hup) as Hul.
    destruct (Script2Schedule.split_earlier r l1 v l2 u Hl Hul)
      as [a [b [Hab _]]].
    assert (Hbw : (Script2Passes.val (Script2.latest_finish r) u
                   <= Script2Passes.val (Script2.latest_start r) v)%Q).
    { apply (Script2Schedule.edge_backward order self r F a u _ v Hab).
      - now apply (Script2Graph.graph_reverse _ Hok).
      - apply in_or_app. right. now left. }
    destruct (Hslack u a _ Hab) as [Hcu [Hle _]].
    apply Hcu.
    apply (Script2Slack.run_critical order self r F) in Hcrit.
    destruct Hcrit as [_ Hcrit]. apply Qabs_Qlt_condition in Hcrit.
    rewrite Hu. lra.
  - intros dep Hdep Hs Ht.
    rewrite (Script2Run.rf_deps _ _ _ F). apply in_map_iff. exists dep.
    split; [| exact Hdep].
    unfold Script2.annotate_dependency.
    assert (Hm : forall n, In n (Script2.critical_nodes r) ->
               Dict.mem (Script2.nodes (Script2.self_out r)) n = true).
    { intros n Hn. rewrite (Script2Run.rf_nodes _ _ _ F).
      rewrite Classification.mem_annotate. apply mem_In_keys.
      now apply (Script2Slack.run_critical order self r F) in Hn. }
    rewrite (Hm _ Hs), (Hm _ Ht).
    apply str_in_In in Hs, Ht. now rewrite Hs, Ht.
  - intros Hno n Hn.
    exact (Script2Acyclic.built_no_cycle_all_emitted self g kahn Hwf Hk Hno
             n Hn).
Qed.

Lemma critical_nodes_chain_witness :
  exists r,
    Script2.calculate_critical_path insertion_order
      (Samples.calculator
         [Samples.node "A" "Low" "To Do"; Samples.node "B" "High" "To Do"]
         [Samples.dep "A" "B"]) = Some r
    /\ In "B" (Script2.critical_nodes r).
Proof.
  destruct (critical_nodes_chain insertion_order
              (Samples.calculator
                 [Samples.node "A" "Low" "To Do";
                  Samples.node "B" "High" "To Do"]
                 [Samples.dep "A" "B"]) eq_refl)
    as [r [g [kahn [Hrun [Hk [Hsucc _]]]]]].
  exists r. split; [exact Hrun |].
  vm_compute in Hk. injection Hk as <- <-.
  destruct (Hsucc "A") as [v [Hv Hc]].
  - now left.
  - vm_compute in Hrun. injection Hrun as <-. vm_compute. now left.
  - vm_compute. discriminate.
  - vm_compute in Hv. destruct Hv as [<- | []]. exact Hc.
Defined.

(** The project completion time is not negative. *)
Lemma completion_nonneg (order : SetOrder) (self : Script2.Calculator)
    (r : Script2.Result) :
  Script2Run.run_facts order self r -> (0 <= Script2.project_completion r)%Q.
Proof.
  intros F.
  destruct (Script2.topo_order r) as [| k t] eqn:Et.
  - rewrite (Script2Run.rf_completion _ _ _ F).
    destruct (Script2Run.rf_forward _ _ _ F) as [_ Hkef _].
    rewrite Et in Hkef. unfold Dict.keys in Hkef. apply map_eq_nil in Hkef.
    rewrite Hkef. simpl. lra.
  - assert (Hk : In k (Script2.topo_order r)) by (rewrite Et; now left).
    pose proof (Script2Slack.run_finish_le_completion order self r F k Hk).
    pose proof (Script2Forward.fwd_finish_pos _ _ _ _ k
                  (Script2Run.rf_forward _ _ _ F) Hk).
    lra.
Qed.

(** X8: no computed time leaves the project.  The completion time is not
    negative, and for every node
    [0 <= earliest_start <= earliest_finish <= project_completion] and
    [latest_start <= latest_finish <= project_completion]. *)
Theorem times_within_project (order : SetOrder) (self : Script2.Calculator) :
  Dict.well_formed (Script2.nodes self) = true ->
  exists r,
    Script2.calculate_critical_path order self = Some r
    /\ (0 <= Script2.project_completion r)%Q
    /\ forall n, In n (Dict.keys (Script2.nodes self)) ->
         (0 <= Script2Passes.val (Script2.earliest_start r) n)%Q
         /\ (Script2Passes.val (Script2.earliest_start r) n
             <= Script2Passes.val (Script2.earliest_finish r) n)%Q
         /\ (Script2Passes.val (Script2.earliest_finish r) n
             <= Script2.project_completion r)%Q
         /\ (Script2Passes.val (Script2.latest_start r) n
             <= Script2Passes.val (Script2.latest_finish r) n)%Q
         /\ (Script2Passes.val (Script2.latest_finish r) n
             <= Script2.project_completion r)%Q.
Proof.
  intros Hwf. apply well_formed_NoDup in Hwf.
  destruct (Script2Run.calculate_critical_path_spec order self Hwf)
    as [r [Hrun F]].
  exists r. split; [exact Hrun |].
  split; [exact (completion_nonneg order self r F) |].
  intros n Hn.
  pose proof Hn as Ht. apply (Script2Run.rf_cover _ _ _ F) in Ht.
  pose proof (Script2Slack.run_finish_le_completion order self r F n Ht)
    as Hfin.
  apply in_split in Ht. destruct Ht as [l1 [l2 Hl]].
  destruct (Script2Slack.run_at_split order self r F l1 n l2 Hl)
    as [d [F' [Hd [Hes [Hef [Hlf [Hls [HF _]]]]]]]].
  pose proof (duration_at_least self n d Hd) as Hd1.
  pose proof (Script2Forward.start_after_nonneg (Script2.build_graph self) l1
                (Script2.earliest_finish r) n) as Hs0.
  unfold Script2Passes.val, Dict.get_or in *.
  rewrite Hef in Hfin. rewrite Hes, Hef, Hlf, Hls.
  repeat split; lra.
Qed.

Lemma times_within_project_witness :
  exists r,
    Script2.calculate_critical_path insertion_order
      (Samples.calculator
         [Samples.node "A" "Low" "To Do"; Samples.node "B" "High" "To Do"]
         [Samples.dep "A" "B"]) = Some r
    /\ (0 <= Script2.project_completion r)%Q.
Proof.
  destruct (times_within_project insertion_order
              (Samples.calculator
                 [Samples.node "A" "Low" "To Do";
                  Samples.node "B" "High" "To Do"]
                 [Samples.dep "A" "B"]) eq_refl)
    as [r [Hrun [HC _]]].
  exists r. split; [exact Hrun | exact HC].
Defined.

(** ** The weighted script: the longest chain *)
Module Script2Longest.
Import Script2 Script2Graph Script2Order Script2Passes Script2Run.

(** The duration of a node, 0 for an id that is not a node. *)
Definition duration_of (self : Calculator) (n : string) : Q :=
  match calculate_node_duration self n with Some d => d | None => 0%Q end.

(** The total duration of the nodes of a chain. *)
Definition chain_duration (self : Calculator) (l : list string) : Q :=
  fold_right (fun n acc => (duration_of self n + acc)%Q) 0%Q l.

Lemma chain_duration_snoc (self : Calculator) (l : list string) (n : string) :
  (chain_duration self (l ++ [n])
   == chain_duration self l + duration_of self n)%Q.
Proof.
  induction l as [| a l IH]; simpl.
  - ring.
  - rewrite IH. ring.
Qed.

Lemma walk_snoc (adj : string -> list string) (l : list string)
    (p n : string) :
  walk adj (l ++ [p]) -> In n (adj p) -> walk adj ((l ++ [p]) ++ [n]).
Proof.
  induction l as [| a l IH]; intros Hw Hn.
  - simpl. tauto.
  - destruct l as [| b l].
    + simpl in *. tauto.
    + simpl in Hw. destruct Hw as [Hab Hw]. simpl. split; [exact Hab |].
      apply IH; assumption.
Qed.

Lemma walk_snoc_inv (adj : string -> list string) (l : list string)
    (p n : string) :
  walk adj ((l ++ [p]) ++ [n]) -> walk adj (l ++ [p]) /\ In n (adj p).
Proof.
  induction l as [| a l IH]; intros Hw.
  - simpl in Hw. simpl. tauto.
  - destruct l as [| b l].
    + simpl in Hw. simpl. tauto.
    + simpl in Hw. destruct Hw as [Hab Hw].
      destruct (IH Hw) as [H1 H2]. split; [| exact H2].
      simpl. split; [exact Hab | exact H1].
Qed.

Section Run.
  Variable order : SetOrder.
  Variable self : Calculator.
  Variable r : Result.
  Hypothesis Hkeys : NoDup (Dict.keys (nodes self)).
  Hypothesis F : run_facts order self r.

  (** Every node ends a chain whose total duration is its earliest finish. *)
Lemma chain_to :
    forall k l1 n l2,
      length l1 <= k -> topo_order r = l1 ++ n :: l2 ->
      exists l,
        walk (succs (build_graph self)) (l ++ [n])
        /\ (forall x, In x l -> In x l1)
        /\ (chain_duration self (l ++ [n]) == val (earliest_finish r) n)%Q.
  Proof.
    induction k as [| k IH]; intros l1 n l2 Hlen Hl.
    - destruct l1; [| simpl in Hlen; lia].
      destruct (Script2Schedule.times order self r F [] n l2 Hl)
        as [d [s [f [Hd [Hs [Hf _]]]]]].
      destruct (Script2Schedule.start_origin order self r F [] n l2 Hl)
        as [H0 | [u [_ [[] _]]]].
      exists []. split; [exact I |]. split; [intros x [] |].
      simpl. unfold duration_of, val, Dict.get_or. rewrite Hd, Hf.
      rewrite Hs in H0. injection H0 as ->. ring.
    - destruct (Script2Schedule.times order self r F l1 n l2 Hl)
        as [d [s [f [Hd [Hs [Hf _]]]]]].
      destruct (Script2Schedule.start_origin order self r F l1 n l2 Hl)
        as [H0 | [u [Hu [Hul Hsu]]]].
      + exists []. split; [exact I |]. split; [intros x [] |].
        simpl. unfold duration_of, val, Dict.get_or. rewrite Hd, Hf.
        rewrite Hs in H0. injection H0 as ->. ring.
      + destruct (Script2Schedule.split_earlier r l1 n l2 u Hl Hul)
          as [a [b [Hab Hl1]]].
        assert (Hla : length a <= k).
        { rewrite Hl1, length_app in Hlen. simpl in Hlen. lia. }
        destruct (IH a u _ Hla Hab) as [lu [Hw [Hsub Hsum]]].
        exists (lu ++ [u]). split; [| split].
        * apply walk_snoc; [exact Hw |].
          now apply (graph_reverse _ (build_graph_ok self)).
        * intros x Hx. rewrite Hl1. apply in_app_or in Hx.
          apply in_or_app. destruct Hx as [Hx | [<- | []]].
          -- left. now apply Hsub.
          -- right. now left.
        * rewrite chain_duration_snoc, Hsum.
          unfold duration_of, val at 2. unfold Dict.get_or.
          rewrite Hd, Hf. rewrite Hs in Hsu. injection Hsu as ->. ring.
  Qed.

  (** Without closed walk, a chain that ends at a node is over before the
      earliest finish of that node. *)
Lemma chain_bounded :
    (forall m, ~ path (succs (build_graph self)) m m) ->
    forall l n,
      walk (succs (build_graph self)) (l ++ [n]) ->
      In n (Dict.keys (nodes self)) ->
      (chain_duration self (l ++ [n]) <= val (earliest_finish r) n)%Q.
  Proof.
    intros Hno.
    destruct (kahn_order_total (build_graph self)) as [g [kahn Hk]].
    induction l as [| p l IH] using rev_ind; intros n Hw Hn.
    - apply (rf_cover _ _ _ F) in Hn. apply in_split in Hn.
      destruct Hn as [l1 [l2 Hl]].
      destruct (Script2Schedule.times order self r F l1 n l2 Hl)
        as [d [s [f [Hd [Hs [Hf [_ [_ [_ [Hs0 _]]]]]]]]]].
      simpl. unfold duration_of, val, Dict.get_or. rewrite Hd, Hf. lra.
    - apply walk_snoc_inv in Hw. destruct Hw as [Hw Hpn].
      destruct (graph_nodes _ (build_graph_ok self) p n Hpn) as [Hp _].
      destruct (build_graph_nodes self) as [HnB _]. rewrite HnB in Hp.
      specialize (IH p Hw Hp).
      pose proof (Script2Acyclic.built_no_cycle_all_emitted self g kahn Hkeys
                    Hk Hno p Hp) as Hpk.
      assert (Hpt : In p (topo_order r)) by now apply (rf_cover _ _ _ F).
      apply in_split in Hpt. destruct Hpt as [l1 [l2 Hl]].
      pose proof (Script2Latest.run_kahn_succs_later order self r F g kahn p
                    l1 l2 Hk Hpk Hl n Hpn) as Hnl.
      destruct (Script2Schedule.split_later r l1 p l2 n Hl Hnl)
        as [a [b [Hab _]]].
      assert (Hfw : (val (earliest_finish r) p
                     <= val (earliest_start r) n)%Q).
      { apply (Script2Schedule.edge_forward order self r F _ n _ p Hab).
        - now apply (graph_reverse _ (build_graph_ok self)).
        - apply in_or_app. right. now left. }
      destruct (Script2Schedule.times order self r F _ n _ Hab)
        as [d [s [f [Hd [Hs [Hf _]]]]]].
      assert (Hefn : val (earliest_finish r) n = (s + d)%Q).
      { unfold val, Dict.get_or. now rewrite Hf. }
      assert (Hesn : val (earliest_start r) n = s).
      { unfold val, Dict.get_or. now rewrite Hs. }
      rewrite chain_duration_snoc, Hefn. rewrite Hesn in Hfw.
      unfold duration_of. rewrite Hd. lra.
  Qed.

End Run.
End Script2Longest.

(** X9: the project completion time is the total duration of the longest
    chain of dependencies.  Every node ends a chain of edges of the graph
    whose durations add up to its [earliest_finish], and with at least one
    node some chain adds up to the project completion time (cyclic input or
    not); when the graph has no closed walk, no chain of edges takes longer
    than the [earliest_finish] of the node it ends at, nor than the project
    completion time. *)
Theorem completion_is_longest_chain (order : SetOrder)
    (self : Script2.Calculator) :
  Dict.well_formed (Script2.nodes self) = true ->
  exists r,
    Script2.calculate_critical_path order self = Some r
    /\ (forall n, In n (Dict.keys (Script2.nodes self)) ->
          exists l,
            walk (Script2Order.succs (Script2.build_graph self)) (l ++ [n])
            /\ (Script2Longest.chain_duration self (l ++ [n])
                == Script2Passes.val (Script2.earliest_finish r) n)%Q)
    /\ (Script2.nodes self <> [] ->
        exists l,
          l <> []
          /\ walk (Script2Order.succs (Script2.build_graph self)) l
          /\ (Script2Longest.chain_duration self l
              == Script2.project_completion r)%Q)
    /\ ((forall m, ~ path (Script2Order.succs (Script2.build_graph self)) m m) ->
        forall l,
          walk (Script2Order.succs (Script2.build_graph self)) l ->
          (Script2Longest.chain_duration self l
           <= Script2.project_completion r)%Q
          /\ forall l' n, l = l' ++ [n] ->
               In n (Dict.keys (Script2.nodes self)) ->
               (Script2Longest.chain_duration self l
                <= Script2Passes.val (Script2.earliest_finish r) n)%Q).
Proof.
  intros Hwf. apply well_formed_NoDup in Hwf.
  destruct (Script2Run.calculate_critical_path_spec order self Hwf)
    as [r [Hrun F]].
  exists r. split; [exact Hrun |].
  assert (Hto : forall n, In n (Dict.keys (Script2.nodes self)) ->
            exists l,
              walk (Script2Order.succs (Script2.build_graph self)) (l ++ [n])
              /\ (Script2Longest.chain_duration self (l ++ [n])
                  == Script2Passes.val (Script2.earliest_finish r) n)%Q).
  { intros n Hn. apply (Script2Run.rf_cover _ _ _ F) in Hn.
    apply in_split in Hn. destruct Hn as [l1 [l2 Hl]].
    destruct (Script2Longest.chain_to order self r F (length l1) l1 n l2
                (Nat.le_refl _) Hl) as [l [Hw [_ Hsum]]].
    exists l. split; assumption. }
  pose proof (completion_nonneg order self r F) as HC0.
  split; [exact Hto |]. split.
  - intros Hne.
    destruct (Script2Schedule.completion_attained order self r F Hne)
      as [n [Hn HC]].
    apply (Script2Run.rf_cover _ _ _ F) in Hn.
    destruct (Hto n Hn) as [l [Hw Hsum]].
    exists (l ++ [n]). split; [now destruct l |]. split; [exact Hw |].
    now rewrite Hsum, HC.
  - intros Hno l Hw.
    assert (Hend : forall l' n, l = l' ++ [n] ->
              In n (Dict.keys (Script2.nodes self)) ->
              (Script2Longest.chain_duration self l
               <= Script2Passes.val (Script2.earliest_finish r) n)%Q).
    { intros l' n -> Hn.
      now apply (Script2Longest.chain_bounded order self r Hwf F Hno). }
    split; [| exact Hend].
    destruct l as [| n l' _] using rev_ind.
    + simpl. exact HC0.
    + destruct (in_dec string_dec n (Dict.keys (Script2.nodes self)))
        as [Hn | Hn].
      * specialize (Hend l' n eq_refl Hn).
        apply (Script2Run.rf_cover _ _ _ F) in Hn.
        pose proof (Script2Slack.run_finish_le_completion order self r F n Hn).
        lra.
      * destruct l' as [| p l'] using rev_ind.
        -- simpl. unfold Script2Longest.duration_of,
             Script2.calculate_node_duration.
           apply get_None_keys in Hn. rewrite Hn. simpl. lra.
        -- exfalso. apply Script2Longest.walk_snoc_inv in Hw.
           destruct Hw as [_ Hpn].
           destruct (Script2Graph.graph_nodes _
                       (Script2Graph.build_graph_ok self) p n Hpn) as [_ H].
           destruct (Script2Graph.build_graph_nodes self) as [HnB _].
           rewrite HnB in H. contradiction.
Qed.

Lemma completion_is_longest_chain_witness :
  exists r,
    Script2.calculate_critical_path insertion_order
      (Samples.calculator
         [Samples.node "A" "Low" "To Do"; Samples.node "B" "High" "To Do"]
         [Samples.dep "A" "B"]) = Some r
    /\ exists l,
         l <> []
         /\ (Script2Longest.chain_duration
               (Samples.calculator
                  [Samples.node "A" "Low" "To Do";
                   Samples.node "B" "High" "To Do"]
                  [Samples.dep "A" "B"]) l
             == Script2.project_completion r)%Q.
Proof.
  destruct (completion_is_longest_chain insertion_order
              (Samples.calculator
                 [Samples.node "A" "Low" "To Do";
                  Samples.node "B" "High" "To Do"]
                 [Samples.dep "A" "B"]) eq_refl)
    as [r [Hrun [_ [Hsome _]]]].
  exists r. split; [exact Hrun |].
  destruct Hsome as [l [Hl [_ Hsum]]]; [discriminate |].
  exists l. split; assumption.
Defined.

(** ** The weighted script: saving and reporting *)
Module Script2Report.
Import Script2 Script2Run.

Lemma insert_sorted_perm (x : string) (l : list string) :
  Permutation (insert_sorted x l) (x :: l).
Proof.
  induction l as [| y l IH]; simpl; [reflexivity |].
  destruct (String.leb x y); [reflexivity |].
  rewrite IH. apply perm_swap.
Qed.

Lemma sorted_perm (l : list string) : Permutation (sorted l) l.
Proof.
  induction l as [| x l IH]; simpl; [reflexivity |].
  rewrite insert_sorted_perm. now constructor.
Qed.

Lemma print_line_some (self : Calculator) (n : string) :
  In n (Dict.keys (nodes self)) ->
  exists line, print_line self n = Some line /\ line_id line = n.
Proof.
  intros Hn. apply get_In_keys in Hn. unfold print_line.
  destruct (Dict.get (nodes self) n) as [nd |]; [| congruence].
  simpl. eexists. split; reflexivity.
Qed.

Lemma listing_spec (self : Calculator) (L : list string) (acc : list Line) :
  (forall n, In n L -> In n (Dict.keys (nodes self))) ->
  exists lines,
    foldM (fun acc node_id =>
             line <- print_line self node_id ;; Some (acc ++ [line]))
          L acc = Some (acc ++ lines)
    /\ map line_id lines = L.
Proof.
  revert acc. induction L as [| n L IH]; intros acc H; cbn [foldM].
  - exists []. now rewrite app_nil_r.
  - destruct (print_line_some self n (H n (or_introl eq_refl)))
      as [line [Hl Hid]].
    rewrite Hl.
    destruct (IH (acc ++ [line])) as [lines [Hf Hm]].
    { intros m Hm. apply H. now right. }
    rewrite Hf. exists (line :: lines). rewrite <- app_assoc. simpl.
    split; [reflexivity |]. now rewrite Hid, Hm.
Qed.

Lemma critical_set_NoDup (sl : Dict.t Q) : NoDup (critical_set sl).
Proof.
  unfold critical_set.
  assert (G : forall l acc, NoDup acc ->
            NoDup (fold_left
                     (fun crit kv =>
                        if is_critical_slack (snd kv)
                        then set_add (fst kv) crit else crit) l acc)).
  { induction l as [| kv l IH]; intros acc H; simpl; [exact H |].
    apply IH. destruct (is_critical_slack (snd kv)); [| exact H].
    now apply set_add_NoDup. }
  apply G. constructor.
Qed.

(** Every saved dependency carries one of the two labels. *)
Lemma labels_partition (deps : list Dependency) :
  (forall d, In d deps ->
     pathType d = Some "critical" \/ pathType d = Some "parallel") ->
  length (filter (has_pathType "critical") deps)
  + length (filter (has_pathType "parallel") deps) = length deps.
Proof.
  induction deps as [| d deps IH]; intros H; simpl; [reflexivity |].
  assert (IH' := IH (fun x Hx => H x (or_intror Hx))).
  assert (Hd : (has_pathType "critical" d = true
                /\ has_pathType "parallel" d = false)
               \/ (has_pathType "critical" d = false
                   /\ has_pathType "parallel" d = true)).
  { unfold has_pathType.
    destruct (H d (or_introl eq_refl)) as [-> | ->]; [left | right];
      split; reflexivity. }
  destruct Hd as [[-> ->] | [-> ->]]; simpl; lia.
Qed.

Lemma min_by_value_spec (items : list (string * Q)) :
  items <> [] ->
  exists n v,
    min_by_value items = Some (n, v) /\ In (n, v) items
    /\ forall m w, In (m, w) items -> (v <= w)%Q.
Proof.
  destruct items as [| x r]; [congruence |]. intros _. simpl.
  assert (G : forall (l : list (string * Q)) (best : string * Q),
            let out :=
              fold_left (fun best it =>
                           if Qltb (snd it) (snd best) then it else best)
                        l best in
            (out = best \/ In out l)
            /\ (snd out <= snd best)%Q
            /\ forall it, In it l -> (snd out <= snd it)%Q).
  { induction l as [| it l IH]; intros best; simpl.
    - split; [now left |]. split; [lra | intros ? []].
    - specialize (IH (if Qltb (snd it) (snd best) then it else best)).
      simpl in IH. destruct IH as [Hin [Hle Hall]].
      destruct (Qltb (snd it) (snd best)) eqn:E.
      + apply Qltb_lt in E. split; [| split].
        * destruct Hin as [-> | Hin]; [right; now left | right; now right].
        * lra.
        * intros it' [<- | Hit]; [exact Hle | now apply Hall].
      + apply Qltb_ge in E. split; [| split].
        * destruct Hin as [-> | Hin]; [now left | right; now right].
        * exact Hle.
        * intros it' [<- | Hit]; [lra | now apply Hall]. }
  specialize (G r x). simpl in G. destruct G as [Hin [Hle Hall]].
  destruct (fold_left _ r x) as [n v] eqn:Eo.
  exists n, v. split; [reflexivity |]. split.
  - destruct Hin as [<- | Hin]; [now left | now right].
  - intros m w [Heq | Hmw].
    + rewrite Heq in Hle. exact Hle.
    + exact (Hall (m, w) Hmw).
Qed.

Lemma max_by_value_spec (items : list (string * Q)) :
  items <> [] ->
  exists n v,
    max_by_value items = Some (n, v) /\ In (n, v) items
    /\ forall m w, In (m, w) items -> (w <= v)%Q.
Proof.
  destruct items as [| x r]; [congruence |]. intros _. simpl.
  assert (G : forall (l : list (string * Q)) (best : string * Q),
            let out :=
              fold_left (fun best it =>
                           if Qltb (snd best) (snd it) then it else best)
                        l best in
            (out = best \/ In out l)
            /\ (snd best <= snd out)%Q
            /\ forall it, In it l -> (snd it <= snd out)%Q).
  { induction l as [| it l IH]; intros best; simpl.
    - split; [now left |]. split; [lra | intros ? []].
    - specialize (IH (if Qltb (snd best) (snd it) then it else best)).
      simpl in IH. destruct IH as [Hin [Hle Hall]].
      destruct (Qltb (snd best) (snd it)) eqn:E.
      + apply Qltb_lt in E. split; [| split].
        * destruct Hin as [-> | Hin]; [right; now left | right; now right].
        * lra.
        * intros it' [<- | Hit]; [exact Hle | now apply Hall].
      + apply Qltb_ge in E. split; [| split].
        * destruct Hin as [-> | Hin]; [now left | right; now right].
        * exact Hle.
        * intros it' [<- | Hit]; [lra | now apply Hall]. }
  specialize (G r x). simpl in G. destruct G as [Hin [Hle Hall]].
  destruct (fold_left _ r x) as [n v] eqn:Eo.
  exists n, v. split; [reflexivity |]. split.
  - destruct Hin as [<- | Hin]; [now left | now right].
  - intros m w [Heq | Hmw].
    + rewrite Heq in Hle. exact Hle.
    + exact (Hall (m, w) Hmw).
Qed.

(** The nodes saved with the flag set are the critical ones. *)
Lemma flagged_count (crit : list string) (nds : Dict.t Node) :
  NoDup (Dict.keys nds) -> NoDup crit ->
  (forall n, In n crit -> In n (Dict.keys nds)) ->
  length (filter (fun nd => match onCriticalPath nd with
                            | Some b => b | None => false end)
                 (Dict.values (map (annotate_node crit) nds)))
  = length crit.
Proof.
  intros Hk Hc Hsub.
  assert (E : length (filter (fun nd => match onCriticalPath nd with
                                        | Some b => b | None => false end)
                             (Dict.values (map (annotate_node crit) nds)))
              = length (filter (fun k => str_in k crit) (Dict.keys nds))).
  { unfold Dict.values, Dict.keys. clear.
    induction nds as [| [k nd] nds IH]; simpl; [reflexivity |].
    destruct (str_in k crit); simpl; now rewrite IH. }
  rewrite E. apply Permutation_length. apply NoDup_Permutation.
  - now apply NoDup_filter.
  - exact Hc.
  - intros x. rewrite filter_In, str_in_In. split; [tauto |].
    intros H. split; [now apply Hsub | exact H].
Qed.

(** After a run, [print_statistics] finds every critical node in
    [self.nodes]. *)
Lemma print_statistics_total (order : SetOrder) (self : Calculator)
    (r : Result) :
  run_facts order self r ->
  exists stats,
    print_statistics (self_out r) (critical_nodes r) (slack r) = Some stats
    /\ map line_id (critical_listing stats) = sorted (critical_nodes r)
    /\ total_nodes stats = length (nodes (self_out r))
    /\ total_dependencies stats = length (dependencies (self_out r))
    /\ critical_path_nodes stats = length (critical_nodes r)
    /\ critical_dependencies stats
       = length (filter (has_pathType "critical") (dependencies (self_out r)))
    /\ parallel_dependencies stats
       = length (filter (has_pathType "parallel") (dependencies (self_out r)))
    /\ most_slack stats = max_by_value (slack r)
    /\ least_slack stats = min_by_value (slack r).
Proof.
  intros F. unfold print_statistics.
  destruct (listing_spec (self_out r) (sorted (critical_nodes r)) [])
    as [lines [Hf Hm]].
  { intros n Hn. apply (Permutation_in _ (sorted_perm _)) in Hn.
    rewrite (rf_nodes _ _ _ F), Classification.keys_annotate.
    now apply (Script2Slack.run_critical order self r F) in Hn. }
  rewrite Hf. simpl. eexists. split; [reflexivity |]. simpl.
  repeat split; try reflexivity. exact Hm.
Qed.

End Script2Report.

(** What [load_files] leaves in a fresh calculator. *)
Lemma load_files_facts (nodes_files : list (list Node))
    (deps_files : list (list Dependency)) :
  NoDup (Dict.keys
           (Script2.nodes
              (Script2.load_files Script2.init nodes_files deps_files)))
  /\ (forall i,
        Dict.get (Script2.nodes
                    (Script2.load_files Script2.init nodes_files deps_files)) i
        = Script2Load.last_loaded i (concat nodes_files))
  /\ (forall n, In n (concat nodes_files) ->
        Dict.mem (Script2.nodes
                    (Script2.load_files Script2.init nodes_files deps_files))
                 (id n) = true)
  /\ (forall k nd,
        In (k, nd) (Script2.nodes
                      (Script2.load_files Script2.init nodes_files deps_files))
        -> id nd = k)
  /\ Script2.dependencies
       (Script2.load_files Script2.init nodes_files deps_files)
     = concat deps_files.
Proof.
  assert (Hget : forall i,
             Dict.get (Script2.nodes
                         (Script2.load_files Script2.init nodes_files
                                             deps_files)) i
             = Script2Load.last_loaded i (concat nodes_files)).
  { intros i. unfold Script2.load_files. simpl.
    rewrite Script2Load.load_node_files. simpl.
    now destruct (Script2Load.last_loaded i (concat nodes_files)). }
  assert (Hnd : NoDup (Dict.keys
                         (Script2.nodes
                            (Script2.load_files Script2.init nodes_files
                                                deps_files)))).
  { unfold Script2.load_files. simpl.
    apply Script2Load.load_node_files_NoDup. constructor. }
  split; [exact Hnd |]. split; [exact Hget |]. split; [| split].
  - intros n Hn. unfold Dict.mem. rewrite Hget.
    destruct (Script2Load.last_loaded (id n) (concat nodes_files)) eqn:E;
      [reflexivity |].
    exfalso. unfold Script2Load.last_loaded in E.
    apply in_rev in Hn. pose proof (find_none _ _ E n Hn) as Hf.
    simpl in Hf. rewrite String.eqb_refl in Hf. discriminate.
  - intros k nd Hin. apply (In_get_NoDup _ _ _ Hnd) in Hin.
    rewrite Hget in Hin. unfold Script2Load.last_loaded in Hin.
    apply find_some in Hin. destruct Hin as [_ Heq].
    now apply String.eqb_eq in Heq.
  - unfold Script2.load_files. simpl.
    now rewrite Script2Load.load_dependency_files.
Qed.

(** X10: after a run, [print_statistics] never fails on a missing node; it
    lists every critical node once; the counts of critical and of parallel
    dependencies add up to the number of dependencies; the count of critical
    nodes is the number of saved nodes with [onCriticalPath = true]; and with
    at least one node, the two slacks it reports are the slacks of two
    nodes, the least and the largest of all. *)
Theorem statistics_add_up (order : SetOrder) (self : Script2.Calculator) :
  Dict.well_formed (Script2.nodes self) = true ->
  exists r stats,
    Script2.calculate_critical_path order self = Some r
    /\ Script2.print_statistics (Script2.self_out r) (Script2.critical_nodes r)
                                (Script2.slack r) = Some stats
    /\ Script2.total_nodes stats = length (Script2.nodes self)
    /\ Script2.total_dependencies stats = length (Script2.dependencies self)
    /\ Script2.critical_dependencies stats + Script2.parallel_dependencies stats
       = length (Script2.dependencies self)
    /\ Script2.critical_path_nodes stats
       = length (filter (fun nd => match onCriticalPath nd with
                                   | Some b => b | None => false end)
                        (fst (Script2.save_results (Script2.self_out r))))
    /\ Permutation (map Script2.line_id (Script2.critical_listing stats))
                   (Script2.critical_nodes r)
    /\ NoDup (Script2.critical_nodes r)
    /\ (Script2.nodes self <> [] ->
        exists n v m w,
          Script2.least_slack stats = Some (n, v)
          /\ Script2.most_slack stats = Some (m, w)
          /\ Dict.get (Script2.slack r) n = Some v
          /\ Dict.get (Script2.slack r) m = Some w
          /\ In n (Dict.keys (Script2.nodes self))
          /\ In m (Dict.keys (Script2.nodes self))
          /\ forall k, In k (Dict.keys (Script2.nodes self)) ->
               (v <= Script2Passes.val (Script2.slack r) k <= w)%Q).
Proof.
  intros Hwf. apply well_formed_NoDup in Hwf.
  destruct (Script2Run.calculate_critical_path_spec order self Hwf)
    as [r [Hrun F]].
  destruct (Script2Report.print_statistics_total order self r F)
    as [stats [Hst [Hlist [Htn [Htd [Hcn [Hcd [Hpd [Hmost Hleast]]]]]]]]].
  exists r, stats. split; [exact Hrun |]. split; [exact Hst |].
  assert (Hcnd : NoDup (Script2.critical_nodes r)).
  { rewrite (Script2Run.rf_critical _ _ _ F).
    apply Script2Report.critical_set_NoDup. }
  split; [| split; [| split; [| split; [| split; [| split]]]]].
  - rewrite Htn, (Script2Run.rf_nodes _ _ _ F). apply length_map.
  - rewrite Htd, (Script2Run.rf_deps _ _ _ F). apply length_map.
  - rewrite Hcd, Hpd, Script2Report.labels_partition.
    + rewrite (Script2Run.rf_deps _ _ _ F). apply length_map.
    + intros d Hd. rewrite (Script2Run.rf_deps _ _ _ F) in Hd.
      apply in_map_iff in Hd. destruct Hd as [d0 [<- _]].
      unfold Script2.annotate_dependency.
      destruct (_ && _); simpl; tauto.
  - rewrite Hcn. unfold Script2.save_results. simpl.
    rewrite (Script2Run.rf_nodes _ _ _ F).
    symmetry. apply Script2Report.flagged_count; [exact Hwf | exact Hcnd |].
    intros n Hn. now apply (Script2Slack.run_critical order self r F) in Hn.
  - rewrite Hlist. apply Script2Report.sorted_perm.
  - exact Hcnd.
  - intros Hne.
    destruct (Script2Slack.slack_table_keys (Script2.nodes self)
                (Script2.earliest_start r) (Script2.latest_start r))
      as [Hsn Hsk].
    rewrite <- (Script2Run.rf_slack _ _ _ F) in Hsn, Hsk.
    assert (Hval : forall k v, In (k, v) (Script2.slack r) ->
              In k (Dict.keys (Script2.nodes self))
              /\ Dict.get (Script2.slack r) k = Some v).
    { intros k v Hin. split.
      - apply Hsk. apply (in_map fst) in Hin. exact Hin.
      - exact (In_get_NoDup _ _ _ Hsn Hin). }
    assert (Hitem : forall k, In k (Dict.keys (Script2.nodes self)) ->
              In (k, Script2Passes.val (Script2.slack r) k) (Script2.slack r)).
    { intros k Hk. apply get_In. unfold Script2Passes.val, Dict.get_or.
      now rewrite (Script2Slack.run_slack_get order self r F k Hk). }
    assert (Hnonempty : Script2.slack r <> []).
    { destruct (Script2.nodes self) as [| [k0 nd0] rest] eqn:En;
        [congruence |].
      intros E. pose proof (Hitem k0 (or_introl eq_refl)) as H.
      rewrite E in H. destruct H. }
    destruct (Script2Report.min_by_value_spec _ Hnonempty)
      as [n [v [Hmin [Hin Hall]]]].
    destruct (Script2Report.max_by_value_spec _ Hnonempty)
      as [m [w [Hmax [Hinw Hallw]]]].
    exists n, v, m, w. rewrite Hleast, Hmost.
    destruct (Hval n v Hin) as [Hnk Hnv].
    destruct (Hval m w Hinw) as [Hmk Hmv].
    split; [exact Hmin |]. split; [exact Hmax |].
    split; [exact Hnv |]. split; [exact Hmv |].
    split; [exact Hnk |]. split; [exact Hmk |].
    intros k Hk. specialize (Hallw _ _ (Hitem k Hk)).
    specialize (Hall _ _ (Hitem k Hk)). lra.
Qed.

Lemma statistics_add_up_witness :
  exists r stats,
    Script2.calculate_critical_path insertion_order
      (Samples.calculator
         [Samples.node "A" "Low" "To Do"; Samples.node "B" "High" "To Do"]
         [Samples.dep "A" "B"; Samples.dep "A" "Z"]) = Some r
    /\ Script2.print_statistics (Script2.self_out r) (Script2.critical_nodes r)
                                (Script2.slack r) = Some stats
    /\ Script2.critical_dependencies stats + Script2.parallel_dependencies stats
       = 2.
Proof.
  destruct (statistics_add_up insertion_order
              (Samples.calculator
                 [Samples.node "A" "Low" "To Do";
                  Samples.node "B" "High" "To Do"]
                 [Samples.dep "A" "B"; Samples.dep "A" "Z"]) eq_refl)
    as [r [stats [Hrun [Hst [_ [_ [Hsum _]]]]]]].
  exists r, stats. split; [exact Hrun |]. split; [exact Hst | exact Hsum].
Defined.

(** X11: [main] never reaches its [except] branch.  When no node was loaded
    it prints its error and saves nothing; otherwise it saves one node per
    loaded id, the last one loaded with that id, changed only in
    [onCriticalPath], and the loaded dependencies in their order, changed
    only in [pathType]. *)
Theorem main_never_raises (order : SetOrder) (nodes_files : list (list Node))
    (deps_files : list (list Dependency)) :
  match Script2.main order nodes_files deps_files with
  | Script2.NoNodesLoaded => concat nodes_files = []
  | Script2.Raised _ => False
  | Script2.Completed saved stats =>
      concat nodes_files <> []
      /\ exists r,
           Script2.calculate_critical_path order
             (Script2.load_files Script2.init nodes_files deps_files) = Some r
           /\ fst saved
              = map (fun nd =>
                       set_onCriticalPath nd
                         (str_in (id nd) (Script2.critical_nodes r)))
                    (Dict.values
                       (Script2.nodes
                          (Script2.load_files Script2.init nodes_files
                                              deps_files)))
           /\ NoDup (map id (fst saved))
           /\ (forall n, In n (concat nodes_files) ->
                 exists nd,
                   Script2Load.last_loaded (id n) (concat nodes_files) = Some nd
                   /\ In (set_onCriticalPath nd
                            (str_in (id n) (Script2.critical_nodes r)))
                         (fst saved))
           /\ snd saved
              = map (fun dep =>
                       set_pathType dep
                         (ScriptAnnotation.edge_label (Script2.critical_nodes r)
                                                      dep))
                    (concat deps_files)
           /\ Script2.print_statistics (Script2.self_out r)
                (Script2.critical_nodes r) (Script2.slack r) = Some stats
  end.
Proof.
  unfold Script2.main.
  set (calc := Script2.load_files Script2.init nodes_files deps_files).
  destruct (load_files_facts nodes_files deps_files)
    as [Hnd [Hget [Hmem [Hid Hdeps]]]]. fold calc in Hnd, Hget, Hmem, Hid, Hdeps.
  destruct (Script2.nodes calc) as [| kv rest] eqn:En.
  - destruct (concat nodes_files) as [| n ns] eqn:Ec; [reflexivity |].
    exfalso. specialize (Hmem n (or_introl eq_refl)). discriminate.
  - assert (Hne : concat nodes_files <> []).
    { intros Ec. specialize (Hget (fst kv)). rewrite Ec in Hget.
      destruct kv as [k v]. simpl in Hget.
      rewrite String.eqb_refl in Hget. discriminate. }
    rewrite <- En in *.
    destruct (Script2Run.calculate_critical_path_spec order calc Hnd)
      as [r [Hrun F]].
    rewrite Hrun.
    destruct (Script2Report.print_statistics_total order calc r F)
      as [stats [Hst _]].
    rewrite Hst. split; [exact Hne |]. exists r.
    split; [reflexivity |].
    assert (Hsaved : fst (Script2.save_results (Script2.self_out r))
              = map (fun nd =>
                       set_onCriticalPath nd
                         (str_in (id nd) (Script2.critical_nodes r)))
                    (Dict.values (Script2.nodes calc))).
    { unfold Script2.save_results. simpl.
      rewrite (Script2Run.rf_nodes _ _ _ F).
      unfold Dict.values. rewrite !map_map. apply map_ext_in.
      intros [k nd] Hin. simpl. now rewrite (Hid k nd Hin). }
    split; [exact Hsaved |]. split; [| split; [| split]].
    + rewrite Hsaved.
      assert (E : map id
                    (map (fun nd =>
                            set_onCriticalPath nd
                              (str_in (id nd) (Script2.critical_nodes r)))
                         (Dict.values (Script2.nodes calc)))
                  = Dict.keys (Script2.nodes calc)).
      { unfold Dict.values, Dict.keys. rewrite !map_map. apply map_ext_in.
        intros [k nd] Hin. simpl. now apply Hid. }
      rewrite E. exact Hnd.
    + intros n Hn.
      specialize (Hmem n Hn). unfold Dict.mem in Hmem.
      destruct (Dict.get (Script2.nodes calc) (id n)) as [nd |] eqn:Eg;
        [| discriminate].
      exists nd. rewrite Hget in Eg.
      destruct (Script2Load.last_loaded (id n) (concat nodes_files)) as [x |]
        eqn:El; [| discriminate].
      injection Eg as ->. split; [reflexivity |].
      rewrite Hsaved. apply in_map_iff. exists nd.
      assert (Hin : In (id n, nd) (Script2.nodes calc)).
      { apply get_In. rewrite Hget, El. reflexivity. }
      rewrite (Hid _ _ Hin). split; [reflexivity |].
      unfold Dict.values. apply in_map_iff. now exists (id n, nd).
    + unfold Script2.save_results. simpl.
      rewrite (Script2Run.rf_deps _ _ _ F), Hdeps.
      apply map_ext. intros dep.
      apply Classification.annotate_dependency_label.
      intros n Hn. rewrite (Script2Run.rf_nodes _ _ _ F).
      rewrite Classification.keys_annotate.
      now apply (Script2Slack.run_critical order calc r F) in Hn.
    + exact Hst.
Qed.

(** ** The unit-duration script: the graph *)
Module ScriptGraph.
Import Script ScriptOrder ScriptForward.

Lemma build_graph_step_fold (deps : list Dependency) :
  forall g0,
    (forall u, adj (graph (fold_left build_graph_step deps g0)) u
               = adj (graph g0) u
                 ++ map target
                      (filter (fun d => String.eqb (source d) u) deps))
    /\ (forall v, radj (reverse_graph (fold_left build_graph_step deps g0)) v
                  = radj (reverse_graph g0) v
                    ++ map source
                         (filter (fun d => String.eqb (target d) v) deps))
    /\ (forall v,
          Dict.get_or (in_degree (fold_left build_graph_step deps g0)) v 0%Z
          = (Dict.get_or (in_degree g0) v 0
             + Z.of_nat
                 (length (filter (fun d => String.eqb (target d) v) deps)))%Z)
    /\ (forall u,
          Dict.get_or (out_degree (fold_left build_graph_step deps g0)) u 0%Z
          = (Dict.get_or (out_degree g0) u 0
             + Z.of_nat
                 (length (filter (fun d => String.eqb (source d) u) deps)))%Z)
    /\ (forall x,
          In x (Dict.keys (in_degree (fold_left build_graph_step deps g0)))
          <-> In x (Dict.keys (in_degree g0))
              \/ exists d, In d deps /\ x = target d)
    /\ (forall x,
          In x (Dict.keys (out_degree (fold_left build_graph_step deps g0)))
          <-> In x (Dict.keys (out_degree g0))
              \/ exists d, In d deps /\ x = source d).
Proof.
  induction deps as [| d deps IH]; intros g0; simpl.
  - repeat split; intros; rewrite ?app_nil_r; try lia; try tauto.
    + now destruct H as [H | [d [[] _]]].
    + now destruct H as [H | [d [[] _]]].
  - destruct (IH (build_graph_step g0 d)) as [H1 [H2 [H3 [H4 [H5 H6]]]]].
    split; [| split; [| split; [| split; [| split]]]].
    + intros u. rewrite H1. unfold build_graph_step, adj. simpl.
      destruct (String.eqb_spec (source d) u) as [<- | Hne].
      * rewrite get_or_set_same, <- app_assoc. reflexivity.
      * rewrite get_or_set_other by congruence. reflexivity.
    + intros v. rewrite H2. unfold build_graph_step, radj. simpl.
      destruct (String.eqb_spec (target d) v) as [<- | Hne].
      * rewrite get_or_set_same, <- app_assoc. reflexivity.
      * rewrite get_or_set_other by congruence. reflexivity.
    + intros v. rewrite H3. unfold build_graph_step. simpl.
      destruct (String.eqb_spec (target d) v) as [<- | Hne].
      * rewrite get_or_set_same. simpl length. lia.
      * rewrite get_or_set_other by congruence. lia.
    + intros u. rewrite H4. unfold build_graph_step. simpl.
      destruct (String.eqb_spec (source d) u) as [<- | Hne].
      * rewrite get_or_set_same. simpl length. lia.
      * rewrite get_or_set_other by congruence. lia.
    + intros x. rewrite H5. unfold build_graph_step. simpl.
      rewrite keys_set_In. split.
      * intros [[-> | H] | [d' [Hd' ->]]]; eauto.
      * intros [H | [d' [[<- | Hd'] ->]]]; eauto.
    + intros x. rewrite H6. unfold build_graph_step. simpl.
      rewrite keys_set_In. split.
      * intros [[-> | H] | [d' [Hd' ->]]]; eauto.
      * intros [H | [d' [[<- | Hd'] ->]]]; eauto.
Qed.

Lemma ensure_entry_keys (d : Dict.t Z) (node x : string) :
  In x (Dict.keys (ensure_entry d node)) <-> x = node \/ In x (Dict.keys d).
Proof.
  unfold ensure_entry. destruct (Dict.mem d node) eqn:E.
  - apply mem_In_keys in E. split; [tauto | intros [-> | H]; assumption].
  - rewrite keys_set_In. tauto.
Qed.

Lemma ensure_fold (L : list string) :
  forall io,
    let out :=
      fold_left
        (fun io node => (ensure_entry (fst io) node, ensure_entry (snd io) node))
        L io in
    (forall v, Dict.get_or (fst out) v 0%Z = Dict.get_or (fst io) v 0%Z)
    /\ (forall v, Dict.get_or (snd out) v 0%Z = Dict.get_or (snd io) v 0%Z)
    /\ (forall x, In x (Dict.keys (fst out)) <->
                  In x (Dict.keys (fst io)) \/ In x L)
    /\ (forall x, In x (Dict.keys (snd out)) <->
                  In x (Dict.keys (snd io)) \/ In x L).
Proof.
  induction L as [| a L IH]; intros io; simpl.
  - repeat split; intros; tauto.
  - specialize (IH (ensure_entry (fst io) a, ensure_entry (snd io) a)).
    simpl in IH. destruct IH as [H1 [H2 [H3 H4]]].
    destruct (ensure_entry_spec (fst io) a) as [E1 _].
    destruct (ensure_entry_spec (snd io) a) as [E2 _].
    split; [| split; [| split]].
    + intros v. now rewrite H1, E1.
    + intros v. now rewrite H2, E2.
    + intros x. rewrite H3, ensure_entry_keys. intuition (subst; auto).
    + intros x. rewrite H4, ensure_entry_keys. intuition (subst; auto).
Qed.

Lemma all_nodes_NoDup (order : SetOrder) (deps : list Dependency) :
  NoDup (all_nodes (build_graph order deps)).
Proof.
  unfold build_graph.
  set (g := fold_left build_graph_step deps
              {| graph := []; reverse_graph := []; in_degree := [];
                 out_degree := []; all_nodes := [] |}).
  destruct (fold_left _ (set_iter order (all_nodes g)) _) as [ind outd].
  simpl. subst g.
  assert (G : forall ds g0, NoDup (all_nodes g0) ->
            NoDup (all_nodes (fold_left build_graph_step ds g0))).
  { induction ds as [| d ds IH]; intros g0 H; simpl; [exact H |].
    apply IH. unfold build_graph_step. simpl.
    now apply set_add_NoDup, set_add_NoDup. }
  apply G. constructor.
Qed.

End ScriptGraph.

(** X12: what [build_graph] of the unit-duration script returns.  [graph[u]]
    lists the targets of the dependencies that start at [u], in their order
    and with their repetitions, and [reverse_graph[v]] their sources;
    [in_degree] and [out_degree] count the dependencies that end and start
    at a node; [all_nodes] holds every endpoint once; and after the closing
    loop exactly the ids of [all_nodes] have an entry in [in_degree] and in
    [out_degree]. *)
Theorem build_graph_counts_edges (order : SetOrder) (deps : list Dependency) :
  (forall u,
      ScriptOrder.adj (Script.graph (Script.build_graph order deps)) u
      = map target (filter (fun d => String.eqb (source d) u) deps))
  /\ (forall v,
        ScriptForward.radj
          (Script.reverse_graph (Script.build_graph order deps)) v
        = map source (filter (fun d => String.eqb (target d) v) deps))
  /\ (forall v,
        Dict.get_or (Script.in_degree (Script.build_graph order deps)) v 0%Z
        = Z.of_nat (length (filter (fun d => String.eqb (target d) v) deps)))
  /\ (forall u,
        Dict.get_or (Script.out_degree (Script.build_graph order deps)) u 0%Z
        = Z.of_nat (length (filter (fun d => String.eqb (source d) u) deps)))
  /\ NoDup (Script.all_nodes (Script.build_graph order deps))
  /\ (forall x,
        In x (Script.all_nodes (Script.build_graph order deps)) <->
        exists d, In d deps /\ (x = source d \/ x = target d))
  /\ (forall x,
        In x (Dict.keys (Script.in_degree (Script.build_graph order deps)))
        <-> In x (Script.all_nodes (Script.build_graph order deps)))
  /\ (forall x,
        In x (Dict.keys (Script.out_degree (Script.build_graph order deps)))
        <-> In x (Script.all_nodes (Script.build_graph order deps))).
Proof.
  pose proof (ScriptGraph.all_nodes_NoDup order deps) as Hnd.
  pose proof (ScriptFacts.build_graph_all_nodes order deps) as Hall.
  revert Hnd Hall. unfold Script.build_graph.
  set (g0 := {| Script.graph := []; Script.reverse_graph := [];
                Script.in_degree := []; Script.out_degree := [];
                Script.all_nodes := [] |}).
  destruct (ScriptGraph.build_graph_step_fold deps g0)
    as [H1 [H2 [H3 [H4 [H5 H6]]]]].
  set (g := fold_left Script.build_graph_step deps g0) in *.
  pose proof (ScriptGraph.ensure_fold (set_iter order (Script.all_nodes g))
                (Script.in_degree g, Script.out_degree g)) as He.
  cbv zeta in He.
  destruct (fold_left _ (set_iter order (Script.all_nodes g)) _)
    as [ind outd].
  simpl in *. destruct He as [E1 [E2 [E3 E4]]].
  intros Hnd Hall.
  split; [| split; [| split; [| split; [| split; [| split; [| split]]]]]].
  - intros u. now rewrite H1.
  - intros v. now rewrite H2.
  - intros v. now rewrite E1, H3.
  - intros u. now rewrite E2, H4.
  - exact Hnd.
  - exact Hall.
  - intros x. rewrite E3, H5, set_iter_In, Hall. split.
    + intros [[[] | [d [Hd ->]]] | H]; eauto.
    + tauto.
  - intros x. rewrite E4, H6, set_iter_In, Hall. split.
    + intros [[[] | [d [Hd ->]]] | H]; eauto.
    + tauto.
Qed.

(** ** The unit-duration script: the order *)
Module ScriptComplete.
Import Script ScriptOrder.

(** When some id is never emitted, ids that are not emitted form arbitrarily
    long walks, hence a closed one. *)
Lemma missing_gives_cycle (adj : string -> list string)
    (keys r : list string) :
  (forall v, In v keys -> ~ In v r -> exists u, ~ In u r /\ In v (adj u)) ->
  (forall u v, In v (adj u) -> In u keys) ->
  (exists v, In v keys /\ ~ In v r) ->
  exists n, path adj n n.
Proof.
  intros Hpend Hsrc [v0 [Hv0 Hn0]].
  assert (Hlong : forall n, exists l,
             length l = S n /\ walk adj l
             /\ forall x, In x l -> In x keys /\ ~ In x r).
  { induction n as [| n [l [Hlen [Hw Hall]]]].
    - exists [v0]. split; [reflexivity |]. split; [exact I |].
      intros x [<- | []]. tauto.
    - destruct l as [| h t]; [discriminate |].
      destruct (Hall h (or_introl eq_refl)) as [Hh1 Hh2].
      destruct (Hpend h Hh1 Hh2) as [u [Hu Huh]].
      exists (u :: h :: t). split; [simpl in *; lia |].
      split; [split; assumption |].
      intros x [<- | Hx]; [| now apply Hall].
      split; [| exact Hu]. now apply (Hsrc u h). }
  destruct (Hlong (length keys)) as [l [Hlen [Hw Hall]]].
  assert (Hdup : ~ NoDup l).
  { intros Hnd.
    assert (Hle : length l <= length keys).
    { apply NoDup_incl_length; [exact Hnd |].
      intros x Hx. now apply Hall. }
    lia. }
  apply repeated_element in Hdup.
  destruct Hdup as [x [l1 [l2 [l3 ->]]]].
  exists x. apply walk_suffix in Hw.
  now apply (walk_path adj l2 x x l3).
Qed.

End ScriptComplete.


(** The endpoints of an edge are in [all_nodes], and [in_degree] has an entry
    for exactly the ids of [all_nodes]. *)
Lemma build_graph_counts_edges_facts (order : SetOrder)
    (deps : list Dependency) :
  (forall u v,
      In v (ScriptOrder.adj (Script.graph (Script.build_graph order deps)) u) ->
      In u (Script.all_nodes (Script.build_graph order deps)))
  /\ (forall u v,
        In v (ScriptOrder.adj (Script.graph (Script.build_graph order deps)) u)
        -> In v (Script.all_nodes (Script.build_graph order deps)))
  /\ (forall x,
        In x (Dict.keys (Script.in_degree (Script.build_graph order deps)))
        <-> In x (Script.all_nodes (Script.build_graph order deps))).
Proof.
  pose proof (ScriptFacts.build_graph_all_nodes order deps) as Hall.
  pose proof (ScriptOrder.build_graph_counted order deps) as [_ _ _ Htg].
  assert (Hkeys : forall x,
             In x (Dict.keys (Script.in_degree (Script.build_graph order deps)))
             <-> In x (Script.all_nodes (Script.build_graph order deps))).
  { revert Hall. unfold Script.build_graph.
    set (g0 := {| Script.graph := []; Script.reverse_graph := [];
                  Script.in_degree := []; Script.out_degree := [];
                  Script.all_nodes := [] |}).
    destruct (ScriptGraph.build_graph_step_fold deps g0)
      as [_ [_ [_ [_ [H5 _]]]]].
    set (g := fold_left Script.build_graph_step deps g0) in *.
    pose proof (ScriptGraph.ensure_fold (set_iter order (Script.all_nodes g))
                  (Script.in_degree g, Script.out_degree g)) as He.
    cbv zeta in He.
    destruct (fold_left _ (set_iter order (Script.all_nodes g)) _)
      as [ind outd].
    simpl in *. destruct He as [_ [_ [E3 _]]].
    intros Hall x. rewrite E3, H5, set_iter_In, Hall. split.
    - intros [[[] | [d [Hd ->]]] | H]; eauto.
    - tauto. }
  split; [| split; [| exact Hkeys]].
  - intros u v Hv. apply Hall.
    pose proof (ScriptGraph.build_graph_step_fold deps
                  {| Script.graph := []; Script.reverse_graph := [];
                     Script.in_degree := []; Script.out_degree := [];
                     Script.all_nodes := [] |}) as [H1 _].
    assert (E : ScriptOrder.adj (Script.graph (Script.build_graph order deps)) u
                = map target (filter (fun d => String.eqb (source d) u) deps)).
    { unfold Script.build_graph.
      destruct (fold_left _ (set_iter order _) _) as [ind outd]. simpl.
      now rewrite H1. }
    rewrite E in Hv. apply in_map_iff in Hv. destruct Hv as [d [_ Hd]].
    apply filter_In in Hd. destruct Hd as [Hd Hs].
    apply String.eqb_eq in Hs. exists d. split; [exact Hd |]. now left.
  - intros u v Hv. apply Hkeys. now apply (Htg u v).
Qed.

(** X13: [topological_sort] of the unit-duration script, on the graph built
    from the dependencies, returns an order without repetition, made of
    endpoints of dependencies, in which every id comes after all the ids
    with an edge into it; the order holds every endpoint exactly when the
    dependencies have no closed walk. *)
Theorem uniform_order_topological (order : SetOrder)
    (deps : list Dependency) :
  exists g topo,
    Script.topological_sort
      (Script.graph (Script.build_graph order deps))
      (Script.in_degree (Script.build_graph order deps)) = Some (g, topo)
    /\ NoDup topo
    /\ (forall v, In v topo ->
          In v (Script.all_nodes (Script.build_graph order deps)))
    /\ (forall v, In v topo ->
          forall u,
            In v (ScriptOrder.adj
                    (Script.graph (Script.build_graph order deps)) u) ->
            before u v topo)
    /\ ((forall v, In v (Script.all_nodes (Script.build_graph order deps)) ->
                   In v topo)
        <-> (forall n,
               ~ path (ScriptOrder.adj
                         (Script.graph (Script.build_graph order deps)))
                      n n)).
Proof.
  destruct (ScriptFacts.topological_sort_total
              (Script.graph (Script.build_graph order deps))
              (Script.in_degree (Script.build_graph order deps)))
    as [[g topo] Hts].
  destruct (ScriptOrder.topological_sort_kahn order deps g topo Hts)
    as [_ [Hnd [Hsub [Hord Hpend]]]].
  destruct (build_graph_counts_edges_facts order deps)
    as [Hadj [_ Hkeys]].
  exists g, topo. split; [exact Hts |]. split; [exact Hnd |].
  split; [| split; [exact Hord |]].
  - intros v Hv. apply Hkeys. now apply Hsub.
  - split.
    + intros Hcomplete n Hp.
      assert (Hn : In n (Script.all_nodes (Script.build_graph order deps))).
      { assert (Hout : exists v,
                  In v (ScriptOrder.adj
                          (Script.graph (Script.build_graph order deps)) n))
          by (inversion Hp; subst; eauto).
        destruct Hout as [v Hv]. now apply (Hadj n v). }
      exact (ScriptOrder.cycle_not_in_order order deps g topo n Hts
               (Hcomplete n Hn) Hp).
    + intros Hno v Hv.
      destruct (in_dec string_dec v topo) as [Hin | Hni]; [exact Hin |].
      exfalso.
      destruct (ScriptComplete.missing_gives_cycle
                  (ScriptOrder.adj
                     (Script.graph (Script.build_graph order deps)))
                  (Dict.keys (Script.in_degree (Script.build_graph order deps)))
                  topo Hpend) as [n Hp].
      * intros u w Hw. apply Hkeys. now apply (Hadj u w).
      * exists v. split; [now apply Hkeys | exact Hni].
      * exact (Hno n Hp).
Qed.

(** ** The unit-duration script: the two tables of one run *)
Module ScriptTables.
Import Script ScriptOrder ScriptForward ScriptBackward.

(** What one run of [calculate_critical_path] on a built graph leaves. *)
Record tables (order : SetOrder) (deps : list Dependency)
    (topo crit : list string) (es ls : Dict.t Z) : Prop := {
  tb_sort :
    exists g,
      topological_sort (graph (build_graph order deps))
                       (in_degree (build_graph order deps)) = Some (g, topo);
  tb_run :
    calculate_critical_path order (build_graph order deps)
    = Some (crit, es, ls);
  tb_nodup : NoDup topo;
  tb_nodes :
    forall v, In v topo -> In v (all_nodes (build_graph order deps));
  tb_ordered :
    forall v, In v topo ->
      forall u, In v (adj (graph (build_graph order deps)) u) ->
                before u v topo;
  tb_fwd : fwd_inv (adj (graph (build_graph order deps))) topo es;
  tb_mem :
    forall n, Dict.mem ls n
              = is_end (build_graph order deps) n || str_in n topo;
  tb_end :
    forall n, is_end (build_graph order deps) n = true ->
              Dict.get ls n = Some (Dict.get_or es n 0%Z);
  tb_at :
    forall l1 n l2,
      topo = l1 ++ n :: l2 ->
      is_end (build_graph order deps) n = false ->
      (resolved (build_graph order deps) l2 n = [] ->
       Dict.get ls n = Some (Dict.get_or es n 0%Z))
      /\ (resolved (build_graph order deps) l2 n <> [] ->
          exists m,
            Dict.get ls n = Some m
            /\ is_least m
                 (map (fun s => (Dict.get_or ls s 0 - 1)%Z)
                      (resolved (build_graph order deps) l2 n)))
}.

Lemma run_tables (order : SetOrder) (deps : list Dependency) :
  exists topo crit es ls, tables order deps topo crit es ls.
Proof.
  set (gr := build_graph order deps).
  destruct (ScriptFacts.topological_sort_total (graph gr) (in_degree gr))
    as [[g topo] Hts].
  destruct (topological_sort_kahn order deps g topo Hts)
    as [Hg [Hnd [Hsub [Hord _]]]]. fold gr in Hg, Hsub, Hord.
  destruct (build_graph_counts_edges_facts order deps) as [_ [_ Hkeys]].
  fold gr in Hkeys.
  assert (Hrun : exists crit es ls g1 g2,
             calculate_critical_path order gr = Some (crit, es, ls)
             /\ foldM forward_step topo
                  (g, fold_left
                        (fun es node =>
                           if (Dict.get_or (in_degree gr) node 0 =? 0)%Z
                           then Dict.set es node 0%Z else es)
                        (set_iter order (all_nodes gr)) [])
                = Some (g1, es)
             /\ fold_left (backward_step (out_degree gr) es) (rev topo)
                          (g1, initial_latest order gr es) = (g2, ls)).
  { unfold calculate_critical_path. rewrite Hts.
    destruct (ScriptFacts.forward_total topo
      (g, fold_left
            (fun es node =>
               if (Dict.get_or (in_degree gr) node 0 =? 0)%Z
               then Dict.set es node 0%Z else es)
            (set_iter order (all_nodes gr)) [])) as [[g1 es] Hfw].
    rewrite Hfw. fold (initial_latest order gr es).
    destruct (fold_left (backward_step (out_degree gr) es) (rev topo)
                        (g1, initial_latest order gr es)) as [g2 ls] eqn:Hbw.
    eexists _, es, ls, g1, g2. split; [reflexivity |].
    split; [reflexivity | exact Hbw]. }
  destruct Hrun as [crit [es [ls [g1 [g2 [Hrun [Hfw Hbw]]]]]]].
  exists topo, crit, es, ls.
  assert (H0 : forall v b,
             Dict.get
               (fold_left
                  (fun es node =>
                     if (Dict.get_or (in_degree gr) node 0 =? 0)%Z
                     then Dict.set es node 0%Z else es)
                  (set_iter order (all_nodes gr)) []) v = Some b ->
             b = 0%Z).
  { apply initial_earliest_zero. intros v b [=]. }
  destruct (forward_inv (adj (graph gr)) topo g _ Hnd Hord Hg H0
              topo [] g1 es (eq_sym (app_nil_r topo)) Hfw) as [Hinv Hg1].
  destruct (backward_fold gr es (rev topo) (NoDup_rev Hnd) g1
              (initial_latest order gr es) g2 ls Hg1 Hbw)
    as [_ [Hkeep [Hmem Hvis]]].
  constructor.
  - now exists g.
  - exact Hrun.
  - exact Hnd.
  - intros v Hv. apply Hkeys. now apply Hsub.
  - exact Hord.
  - exact Hinv.
  - intros n. now rewrite Hmem, initial_latest_mem, Script2Tables.str_in_rev.
  - intros n Hn. fold gr in Hn. apply Hkeep. rewrite initial_latest_get.
    now rewrite Hn.
  - intros l1 n l2 Hsplit Hn. fold gr in Hn.
    assert (Hrev : rev topo = rev l2 ++ n :: rev l1).
    { rewrite Hsplit, rev_app_distr. simpl. now rewrite <- app_assoc. }
    assert (Hn0 : Dict.mem (initial_latest order gr es) n = false).
    { now rewrite initial_latest_mem. }
    assert (HR : filter
                   (fun s => Dict.mem (initial_latest order gr es) s
                             || str_in s (rev l2)) (adj (graph gr) n)
                 = resolved gr l2 n).
    { unfold resolved. apply filter_ext. intros s.
      now rewrite initial_latest_mem, Script2Tables.str_in_rev. }
    assert (Hod : Dict.get_or (out_degree gr) n 0%Z <> 0%Z).
    { intros Hz. unfold is_end in Hn.
      assert (Hin : In n (all_nodes gr)).
      { apply Hkeys, Hsub. rewrite Hsplit. apply in_or_app. right. now left. }
      apply str_in_In in Hin. apply Z.eqb_eq in Hz.
      rewrite Hin, Hz in Hn. discriminate. }
    destruct (Hvis (rev l2) n (rev l1) Hrev Hn0) as [_ [H1 H2]].
    rewrite HR in H1, H2. split; [now apply H1 | now apply H2].
Qed.

Section Run.
  Variable order : SetOrder.
  Variable deps : list Dependency.
  Variables topo crit : list string.
  Variables es ls : Dict.t Z.
  Hypothesis T : tables order deps topo crit es ls.

Let gr := build_graph order deps.

  (** Along an edge out of the order, the start grows by at least one. *)
Lemma start_grows (u v : string) :
    In u topo -> In v (adj (graph gr) u) ->
    exists a b, Dict.get es u = Some a /\ Dict.get es v = Some b
                /\ (0 <= a)%Z /\ (a + 1 <= b)%Z.
  Proof.
    intros Hu Hv.
    destruct (fwd_edges _ _ _ (tb_fwd _ _ _ _ _ _ T) u v Hu Hv)
      as [a [b [Ha [Hb Hle]]]].
    exists a, b. destruct (fwd_origin _ _ _ (tb_fwd _ _ _ _ _ _ T) u a Ha).
    auto.
  Qed.

  (** The resolved successors of [n]. *)
Lemma resolved_In l2 n s :
    In s (resolved gr l2 n) <->
    In s (adj (graph gr) n) /\ (is_end gr s = true \/ In s l2).
  Proof.
    unfold resolved. rewrite filter_In, orb_true_iff, str_in_In. tauto.
  Qed.

Lemma step l1 n l2 :
    topo = l1 ++ n :: l2 ->
    (forall s, In s l2 ->
       exists e l, Dict.get es s = Some e /\ Dict.get ls s = Some l
                   /\ (0 <= e <= l)%Z) ->
    exists e l, Dict.get es n = Some e /\ Dict.get ls n = Some l
                /\ (0 <= e <= l)%Z.
  Proof.
    intros Hl Hlater.
    assert (Hn : In n topo).
    { rewrite Hl. apply in_or_app. right. now left. }
    destruct (Dict.get es n) as [e |] eqn:Ee;
      [| now apply (fwd_visited _ _ _ (tb_fwd _ _ _ _ _ _ T)) in Hn].
    destruct (fwd_origin _ _ _ (tb_fwd _ _ _ _ _ _ T) n e Ee) as [He0 _].
    assert (Hge : Dict.get_or es n 0%Z = e).
    { unfold Dict.get_or. now rewrite Ee. }
    exists e.
    destruct (is_end gr n) eqn:Eend.
    { exists e. rewrite (tb_end _ _ _ _ _ _ T n Eend), Hge.
      split; [reflexivity |]. split; [reflexivity | lia]. }
    destruct (tb_at _ _ _ _ _ _ T l1 n l2 Hl Eend) as [Hnone Hsome].
    fold gr in Hnone, Hsome.
    destruct (resolved gr l2 n) as [| s0 ss] eqn:Er.
    { exists e. rewrite (Hnone eq_refl), Hge.
      split; [reflexivity |]. split; [reflexivity | lia]. }
    destruct Hsome as [m [Hm [Hin _]]]; [discriminate |].
    exists m. split; [reflexivity |]. split; [exact Hm |].
    split; [exact He0 |].
    apply in_map_iff in Hin. destruct Hin as [s [Hsm Hs]].
    rewrite <- Er in Hs. apply resolved_In in Hs. destruct Hs as [Hadj Hres].
    destruct (start_grows n s Hn Hadj) as [a [b [Ha [Hb [_ Hle]]]]].
    rewrite Ee in Ha. injection Ha as <-.
    destruct Hres as [Hse | Hsl].
    - pose proof (tb_end _ _ _ _ _ _ T s Hse) as Hls.
      unfold Dict.get_or in Hls, Hsm. rewrite Hb in Hls.
      rewrite Hls in Hsm. lia.
    - destruct (Hlater s Hsl) as [e' [l' [He' [Hl' Hle']]]].
      unfold Dict.get_or in Hsm. rewrite Hl' in Hsm.
      rewrite Hb in He'. injection He' as <-. lia.
  Qed.

  (** No id of the order has negative slack. *)
Lemma latest_after_earliest :
    forall k l1 n l2,
      length l2 <= k -> topo = l1 ++ n :: l2 ->
      exists e l, Dict.get es n = Some e /\ Dict.get ls n = Some l
                  /\ (0 <= e <= l)%Z.
  Proof.
    induction k as [| k IH]; intros l1 n l2 Hlen Hl.
    - destruct l2; [| simpl in Hlen; lia]. apply (step l1 n [] Hl).
      intros s [].
    - apply (step l1 n l2 Hl). intros s Hs.
      apply in_split in Hs. destruct Hs as [a [b Hab]].
      apply (IH (l1 ++ n :: a) s b).
      + rewrite Hab, length_app in Hlen. simpl in Hlen. lia.
      + rewrite Hl, Hab, <- app_assoc. reflexivity.
  Qed.

End Run.
End ScriptTables.

(** X14: in the unit-duration script every node without dependents is
    reported critical, its [latest_start] being its own [earliest_start];
    every id of the order has [0 <= earliest_start <= latest_start]; and
    whenever there is a dependency, at least one node is reported
    critical. *)
Theorem uniform_end_nodes_critical (order : SetOrder)
    (deps : list Dependency) :
  exists topo crit es ls,
    (exists g,
        Script.topological_sort
          (Script.graph (Script.build_graph order deps))
          (Script.in_degree (Script.build_graph order deps)) = Some (g, topo))
    /\ Script.calculate_critical_path order (Script.build_graph order deps)
       = Some (crit, es, ls)
    /\ (forall n,
          In n (Script.all_nodes (Script.build_graph order deps)) ->
          Dict.get_or (Script.out_degree (Script.build_graph order deps)) n 0%Z
          = 0%Z ->
          Dict.get ls n = Some (Dict.get_or es n 0%Z) /\ In n crit)
    /\ (forall n, In n topo ->
          exists e l,
            Dict.get es n = Some e /\ Dict.get ls n = Some l
            /\ (0 <= e <= l)%Z)
    /\ (deps <> [] -> exists n, In n crit).
Proof.
  destruct (ScriptTables.run_tables order deps) as [topo [crit [es [ls T]]]].
  exists topo, crit, es, ls.
  pose proof (ScriptTables.tb_run _ _ _ _ _ _ T) as Hrun.
  assert (Hcrit : forall x,
            In x crit <->
            In x (Script.all_nodes (Script.build_graph order deps))
            /\ Dict.get_or es x 0%Z = Dict.get_or ls x 0%Z).
  { intros x.
    exact (Classification.uniform_critical_nodes order _ crit es ls x Hrun). }
  split; [exact (ScriptTables.tb_sort _ _ _ _ _ _ T) |].
  split; [exact Hrun |].
  assert (Hend : forall n,
            ScriptBackward.is_end (Script.build_graph order deps) n = true ->
            Dict.get ls n = Some (Dict.get_or es n 0%Z) /\ In n crit).
  { intros n Hn.
    pose proof (ScriptTables.tb_end _ _ _ _ _ _ T n Hn) as Hl.
    split; [exact Hl |]. apply Hcrit. split.
    - unfold ScriptBackward.is_end in Hn. apply andb_true_iff in Hn.
      now apply str_in_In.
    - unfold Dict.get_or at 2. now rewrite Hl. }
  split; [| split].
  - intros n Hn Hz. apply Hend. unfold ScriptBackward.is_end.
    apply str_in_In in Hn. apply Z.eqb_eq in Hz. now rewrite Hn, Hz.
  - intros n Hn. apply in_split in Hn. destruct Hn as [l1 [l2 Hl]].
    exact (ScriptTables.latest_after_earliest order deps topo crit es ls T
             (length l2) l1 n l2 (Nat.le_refl _) Hl).
  - intros Hne.
    destruct (existsb (ScriptBackward.is_end (Script.build_graph order deps))
                      (Script.all_nodes (Script.build_graph order deps)))
      eqn:Eex.
    { apply existsb_exists in Eex. destruct Eex as [n [_ Hn]].
      exists n. now apply Hend. }
    assert (Hnone : forall s,
              ScriptBackward.is_end (Script.build_graph order deps) s = false).
    { intros s.
      destruct (ScriptBackward.is_end (Script.build_graph order deps) s)
        eqn:Es; [| reflexivity].
      exfalso.
      assert (Hs : In s (Script.all_nodes (Script.build_graph order deps))).
      { unfold ScriptBackward.is_end in Es. apply andb_true_iff in Es.
        now apply str_in_In. }
      assert (Hx : existsb
                     (ScriptBackward.is_end (Script.build_graph order deps))
                     (Script.all_nodes (Script.build_graph order deps))
                   = true).
      { apply existsb_exists. now exists s. }
      congruence. }
    destruct topo as [| x t] using rev_ind.
    + destruct deps as [| d ds]; [congruence |].
      exists (source d). apply Hcrit. split.
      * apply ScriptFacts.build_graph_all_nodes. exists d.
        split; [now left | now left].
      * assert (Hl : Dict.get_or ls (source d) 0%Z = 0%Z).
        { pose proof (ScriptTables.tb_mem _ _ _ _ _ _ T (source d)) as Hm.
          rewrite Hnone in Hm. simpl in Hm. unfold Dict.mem in Hm.
          unfold Dict.get_or. now destruct (Dict.get ls (source d)). }
        rewrite Hl. unfold Dict.get_or.
        destruct (Dict.get es (source d)) as [b |] eqn:Eb; [| reflexivity].
        destruct (ScriptForward.fwd_origin _ _ _
                    (ScriptTables.tb_fwd _ _ _ _ _ _ T) _ _ Eb)
          as [_ [Hb | [u [[] _]]]].
        exact Hb.
    + exists x. apply Hcrit. split.
      * apply (ScriptTables.tb_nodes _ _ _ _ _ _ T).
        apply in_or_app. right. now left.
      * destruct (ScriptTables.tb_at _ _ _ _ _ _ T t x [] eq_refl (Hnone x))
          as [Hl _].
        assert (Hr : ScriptBackward.resolved (Script.build_graph order deps)
                       [] x = []).
        { destruct (ScriptBackward.resolved (Script.build_graph order deps)
                      [] x) as [| s ss] eqn:Er; [reflexivity |].
          exfalso.
          assert (Hs : In s (ScriptBackward.resolved
                               (Script.build_graph order deps) [] x)).
          { rewrite Er. now left. }
          apply ScriptTables.resolved_In in Hs.
          destruct Hs as [_ [Hs | []]]. rewrite Hnone in Hs. discriminate. }
        unfold Dict.get_or at 2. now rewrite (Hl Hr).
Qed.

(** ** The unit-duration script: chains *)
Module ScriptChains.
Import Script ScriptOrder ScriptForward ScriptBackward ScriptTables.

Section Run.
  Variable order : SetOrder.
  Variable deps : list Dependency.
  Variables topo crit : list string.
  Variables es ls : Dict.t Z.
  Hypothesis T : tables order deps topo crit es ls.

  (** An id with [earliest_start = b] ends a chain of [b] edges. *)
Lemma chain_of_length :
    forall k v b,
      Dict.get es v = Some b -> (Z.to_nat b <= k)%nat ->
      exists l,
        walk (adj (graph (build_graph order deps))) (l ++ [v])
        /\ Z.of_nat (length l) = b.
  Proof.
    induction k as [| k IH]; intros v b Hb Hk;
      destruct (fwd_origin _ _ _ (tb_fwd _ _ _ _ _ _ T) v b Hb)
        as [Hb0 [-> | [u [Hu [Hv Hub]]]]].
    - exists []. split; [exact I | reflexivity].
    - destruct (fwd_origin _ _ _ (tb_fwd _ _ _ _ _ _ T) u _ Hub) as [Hu0 _].
      lia.
    - exists []. split; [exact I | reflexivity].
    - destruct (fwd_origin _ _ _ (tb_fwd _ _ _ _ _ _ T) u _ Hub) as [Hu0 _].
      destruct (IH u (b - 1)%Z Hub) as [l [Hw Hlen]]; [lia |].
      exists (l ++ [u]). split.
      + now apply Script2Longest.walk_snoc.
      + rewrite length_app. simpl. lia.
  Qed.

  (** A chain that ends at an id of the order stays in the order and has at
      most [earliest_start] edges. *)
Lemma chain_bound :
    forall l n,
      In n topo ->
      walk (adj (graph (build_graph order deps))) (l ++ [n]) ->
      exists e, Dict.get es n = Some e /\ (Z.of_nat (length l) <= e)%Z.
  Proof.
    induction l as [| p l IH] using rev_ind; intros n Hn Hw.
    - destruct (Dict.get es n) as [e |] eqn:Ee;
        [| now apply (fwd_visited _ _ _ (tb_fwd _ _ _ _ _ _ T)) in Hn].
      exists e. split; [reflexivity |].
      destruct (fwd_origin _ _ _ (tb_fwd _ _ _ _ _ _ T) n e Ee). simpl. lia.
    - apply Script2Longest.walk_snoc_inv in Hw. destruct Hw as [Hw Hpn].
      destruct (tb_ordered _ _ _ _ _ _ T n Hn p Hpn) as [l1 [l2 [Hl Hin]]].
      assert (Hp : In p topo) by (rewrite Hl; apply in_or_app; now left).
      destruct (IH p Hp Hw) as [ep [Hep Hle]].
      destruct (start_grows order deps topo crit es ls T p n Hp Hpn)
        as [a [b [Ha [Hb [_ Hab]]]]].
      rewrite Hep in Ha. injection Ha as <-.
      exists b. split; [exact Hb |]. rewrite length_app. simpl. lia.
  Qed.

End Run.
End ScriptChains.

(** X15: in the unit-duration script critical nodes form chains.  A critical
    id of the order with a successor that already has a [latest_start] when
    it is visited has a critical successor that starts exactly one unit
    later; a critical id of the order with predecessors has a critical
    predecessor that starts exactly one unit earlier. *)
Theorem uniform_critical_chain (order : SetOrder) (deps : list Dependency) :
  exists topo crit es ls,
    (exists g,
        Script.topological_sort
          (Script.graph (Script.build_graph order deps))
          (Script.in_degree (Script.build_graph order deps)) = Some (g, topo))
    /\ Script.calculate_critical_path order (Script.build_graph order deps)
       = Some (crit, es, ls)
    /\ (forall l1 n l2,
          topo = l1 ++ n :: l2 -> In n crit ->
          ScriptBackward.resolved (Script.build_graph order deps) l2 n <> [] ->
          exists s,
            In s (ScriptOrder.adj
                    (Script.graph (Script.build_graph order deps)) n)
            /\ In s crit
            /\ Dict.get_or es s 0%Z = (Dict.get_or es n 0 + 1)%Z)
    /\ (forall n,
          In n topo -> In n crit ->
          ScriptForward.radj
            (Script.reverse_graph (Script.build_graph order deps)) n <> [] ->
          exists p,
            In p (ScriptForward.radj
                    (Script.reverse_graph (Script.build_graph order deps)) n)
            /\ In p crit
            /\ Dict.get_or es n 0%Z = (Dict.get_or es p 0 + 1)%Z).
Proof.
  destruct (ScriptTables.run_tables order deps) as [topo [crit [es [ls T]]]].
  exists topo, crit, es, ls.
  pose proof (ScriptTables.tb_run _ _ _ _ _ _ T) as Hrun.
  assert (Hcrit : forall x,
            In x crit <->
            In x (Script.all_nodes (Script.build_graph order deps))
            /\ Dict.get_or es x 0%Z = Dict.get_or ls x 0%Z).
  { intros x.
    exact (Classification.uniform_critical_nodes order _ crit es ls x Hrun). }
  assert (Hslack : forall n, In n topo ->
            exists e l, Dict.get es n = Some e /\ Dict.get ls n = Some l
                        /\ (0 <= e <= l)%Z).
  { intros n Hn. apply in_split in Hn. destruct Hn as [l1 [l2 Hl]].
    exact (ScriptTables.latest_after_earliest order deps topo crit es ls T
             (length l2) l1 n l2 (Nat.le_refl _) Hl). }
  assert (Hinterior : forall n s,
            In s (ScriptOrder.adj
                    (Script.graph (Script.build_graph order deps)) n) ->
            ScriptBackward.is_end (Script.build_graph order deps) n = false).
  { intros n s Hs. unfold ScriptBackward.is_end.
    rewrite (ScriptBackward.build_graph_out_degree order deps n).
    destruct (ScriptOrder.adj (Script.graph (Script.build_graph order deps)) n);
      [destruct Hs |].
    simpl length. rewrite andb_false_iff. right. apply Z.eqb_neq. lia. }
  split; [exact (ScriptTables.tb_sort _ _ _ _ _ _ T) |].
  split; [exact Hrun |]. split.
  - intros l1 n l2 Hl Hn Hres.
    assert (Hnt : In n topo).
    { rewrite Hl. apply in_or_app. right. now left. }
    destruct (ScriptBackward.resolved (Script.build_graph order deps) l2 n)
      as [| s0 ss] eqn:Er; [congruence |].
    assert (Hs0 : In s0 (ScriptBackward.resolved
                           (Script.build_graph order deps) l2 n)).
    { rewrite Er. now left. }
    apply ScriptTables.resolved_In in Hs0. destruct Hs0 as [Hadj0 _].
    destruct (ScriptTables.tb_at _ _ _ _ _ _ T l1 n l2 Hl
                (Hinterior n s0 Hadj0)) as [_ Hsome].
    rewrite Er in Hsome.
    destruct Hsome as [m [Hm [Hin _]]]; [discriminate |].
    apply in_map_iff in Hin. destruct Hin as [s [Hsm Hs]].
    rewrite <- Er in Hs. apply ScriptTables.resolved_In in Hs.
    destruct Hs as [Hadj Hr].
    destruct (ScriptTables.start_grows order deps topo crit es ls T n s
                Hnt Hadj) as [a [b [Ha [Hb [_ Hab]]]]].
    apply Hcrit in Hn. destruct Hn as [_ Heq].
    unfold Dict.get_or in Heq. rewrite Ha, Hm in Heq. subst m.
    exists s. split; [exact Hadj |].
    assert (Hlsb : Dict.get_or ls s 0%Z = b /\
                   In s (Script.all_nodes (Script.build_graph order deps))).
    { destruct Hr as [Hend | Hsl].
      - pose proof (ScriptTables.tb_end _ _ _ _ _ _ T s Hend) as Hls.
        unfold Dict.get_or in Hls |- *. rewrite Hb in Hls. rewrite Hls.
        split; [reflexivity |].
        unfold ScriptBackward.is_end in Hend. apply andb_true_iff in Hend.
        now apply str_in_In.
      - assert (Hst : In s topo).
        { rewrite Hl. apply in_or_app. right. now right. }
        destruct (Hslack s Hst) as [e' [l' [He' [Hl' Hle']]]].
        rewrite Hb in He'. injection He' as <-.
        unfold Dict.get_or in Hsm |- *. rewrite Hl' in Hsm |- *.
        split; [lia |]. now apply (ScriptTables.tb_nodes _ _ _ _ _ _ T). }
    destruct Hlsb as [Hlsb Hsall].
    assert (Hb1 : b = (a + 1)%Z) by (rewrite Hlsb in Hsm; lia).
    split.
    + apply Hcrit. split; [exact Hsall |].
      rewrite Hlsb. unfold Dict.get_or. now rewrite Hb.
    + unfold Dict.get_or. now rewrite Ha, Hb.
  - intros n Hn Hc Hpred.
    destruct (Dict.get es n) as [b |] eqn:Eb;
      [| now apply (ScriptForward.fwd_visited _ _ _
                      (ScriptTables.tb_fwd _ _ _ _ _ _ T)) in Hn].
    destruct (ScriptForward.radj
                (Script.reverse_graph (Script.build_graph order deps)) n)
      as [| u0 us] eqn:Er; [congruence |].
    assert (Hu0 : In n (ScriptOrder.adj
                          (Script.graph (Script.build_graph order deps)) u0)).
    { apply (ScriptForward.build_graph_reverse order deps). rewrite Er.
      now left. }
    destruct (ScriptTables.tb_ordered _ _ _ _ _ _ T n Hn u0 Hu0)
      as [k1 [k2 [Hk Hin0]]].
    assert (Hu0t : In u0 topo) by (rewrite Hk; apply in_or_app; now left).
    destruct (ScriptTables.start_grows order deps topo crit es ls T u0 n
                Hu0t Hu0) as [a0 [b0 [Ha0 [Hb0 [Ha00 Hab0]]]]].
    rewrite Eb in Hb0. injection Hb0 as <-.
    destruct (ScriptForward.fwd_origin _ _ _
                (ScriptTables.tb_fwd _ _ _ _ _ _ T) n b Eb)
      as [_ [-> | [p [Hp [Hpn Hpe]]]]]; [lia |].
    exists p. rewrite <- Er.
    split; [now apply (ScriptForward.build_graph_reverse order deps) |].
    pose proof Hp as Hpt. apply in_split in Hpt.
    destruct Hpt as [a [c Hac]].
    assert (Hnc : In n c).
    { destruct (ScriptTables.tb_ordered _ _ _ _ _ _ T n Hn p Hpn)
        as [q1 [q2 [Hq Hpq]]].
      apply in_split in Hpq. destruct Hpq as [q3 [q4 Hq34]].
      assert (E : topo = q3 ++ p :: (q4 ++ n :: q2)).
      { rewrite Hq, Hq34, <- app_assoc. reflexivity. }
      pose proof (ScriptTables.tb_nodup _ _ _ _ _ _ T) as Hnd.
      rewrite Hac in E, Hnd.
      destruct (Script2Passes.NoDup_split_unique _ _ _ _ _ Hnd E) as [_ ->].
      apply in_or_app. right. now left. }
    assert (Hres : In n (ScriptBackward.resolved
                           (Script.build_graph order deps) c p)).
    { apply ScriptTables.resolved_In. split; [exact Hpn | now right]. }
    destruct (ScriptTables.tb_at _ _ _ _ _ _ T a p c Hac (Hinterior p n Hpn))
      as [_ Hsome].
    destruct Hsome as [m [Hm [_ Hleast]]].
    { intros E. rewrite E in Hres. destruct Hres. }
    assert (Hmn : (m <= Dict.get_or ls n 0 - 1)%Z).
    { apply Hleast. apply in_map_iff. now exists n. }
    apply Hcrit in Hc. destruct Hc as [_ Heq].
    unfold Dict.get_or at 1 in Heq. rewrite Eb in Heq. rewrite <- Heq in Hmn.
    destruct (Hslack p Hp) as [e' [l' [He' [Hl' Hle']]]].
    rewrite Hpe in He'. injection He' as <-.
    rewrite Hm in Hl'. injection Hl' as <-.
    split.
    + apply Hcrit. split; [now apply (ScriptTables.tb_nodes _ _ _ _ _ _ T) |].
      unfold Dict.get_or. rewrite Hpe, Hm. lia.
    + unfold Dict.get_or. rewrite Eb, Hpe. lia.
Qed.

(** X16: in the unit-duration script the [earliest_start] of an id of the
    order is the number of edges of the longest chain of dependencies that
    ends at it: some chain has that many edges and none has more. *)
Theorem uniform_start_is_longest_chain (order : SetOrder)
    (deps : list Dependency) :
  exists topo crit es ls,
    (exists g,
        Script.topological_sort
          (Script.graph (Script.build_graph order deps))
          (Script.in_degree (Script.build_graph order deps)) = Some (g, topo))
    /\ Script.calculate_critical_path order (Script.build_graph order deps)
       = Some (crit, es, ls)
    /\ forall n, In n topo ->
         exists e,
           Dict.get es n = Some e /\ (0 <= e)%Z
           /\ (exists l,
                 walk (ScriptOrder.adj
                         (Script.graph (Script.build_graph order deps)))
                      (l ++ [n])
                 /\ Z.of_nat (length l) = e)
           /\ (forall l,
                 walk (ScriptOrder.adj
                         (Script.graph (Script.build_graph order deps)))
                      (l ++ [n]) ->
                 (Z.of_nat (length l) <= e)%Z).
Proof.
  destruct (ScriptTables.run_tables order deps) as [topo [crit [es [ls T]]]].
  exists topo, crit, es, ls.
  split; [exact (ScriptTables.tb_sort _ _ _ _ _ _ T) |].
  split; [exact (ScriptTables.tb_run _ _ _ _ _ _ T) |].
  intros n Hn.
  destruct (ScriptChains.chain_bound order deps topo crit es ls T [] n Hn I)
    as [e [He He0]].
  exists e. split; [exact He |]. split; [simpl in He0; lia |]. split.
  - exact (ScriptChains.chain_of_length order deps topo crit es ls T
             (Z.to_nat e) n e He (Nat.le_refl _)).
  - intros l Hw.
    destruct (ScriptChains.chain_bound order deps topo crit es ls T l n Hn Hw)
      as [e' [He' Hle]].
    rewrite He in He'. injection He' as <-. exact Hle.
Qed.

(** ** The unit-duration script: placeholders, loading and the summary *)
Module ScriptFiles.
Import Script.

(** The items that one file contributes. *)
Definition items_of {A : Type} (data : FileData A) : list A :=
  match data with
  | JsonList items => items
  | JsonValue item => [item]
  | Unreadable => []
  | Uncaught => []
  end.

(** A file whose exception is caught and reported. *)
Definition is_unreadable {A : Type} (file : string * FileData A) : bool :=
  match snd file with Unreadable => true | _ => false end.

(** A file whose exception is not caught. *)
Definition is_uncaught {A : Type} (file : string * FileData A) : bool :=
  match snd file with Uncaught => true | _ => false end.

Lemma load_json_files_fold {A : Type} (files : list (string * FileData A))
    (st : list A * list string) :
  foldM merge_file files st
  = if existsb is_uncaught files then None
    else Some (fst st ++ concat (map (fun file => items_of (snd file)) files),
               snd st ++ map fst (filter is_unreadable files)).
Proof.
  revert st. induction files as [| [path data] files IH]; intros [m e]; simpl.
  - now rewrite !app_nil_r.
  - unfold merge_file at 1, is_uncaught at 1, is_unreadable at 1.
    destruct data; simpl; [| | | reflexivity]; rewrite IH;
      destruct (existsb is_uncaught files); simpl;
      rewrite <- ?app_assoc; reflexivity.
Qed.

Lemma load_json_files_closed {A : Type}
    (files : list (string * FileData A)) :
  load_json_files files
  = if existsb is_uncaught files then None
    else Some (concat (map (fun file => items_of (snd file)) files),
               map fst (filter is_unreadable files)).
Proof.
  unfold load_json_files. now rewrite load_json_files_fold.
Qed.

Lemma placeholders_ids (l : list string) :
  map id (map placeholder_node l) = l.
Proof.
  induction l as [| x l IH]; simpl; [reflexivity | now rewrite IH].
Qed.

End ScriptFiles.

(** X17: [create_missing_nodes] keeps the given nodes, in place, and appends
    one placeholder for each id that a dependency names and no node has, and
    nothing else; it adds nothing when every named id has a node, so a second
    call changes nothing; and it keeps ids distinct when they were. *)
Theorem create_missing_nodes_minimal (order : SetOrder) (nodes : list Node)
    (deps : list Dependency) :
  exists added,
    Script.create_missing_nodes order nodes deps
    = nodes ++ map Script.placeholder_node added
    /\ NoDup added
    /\ (forall i, In i added <->
          (exists dep, In dep deps /\ (i = source dep \/ i = target dep))
          /\ ~ In i (map id nodes))
    /\ ((forall dep, In dep deps ->
           In (source dep) (map id nodes) /\ In (target dep) (map id nodes)) ->
        added = [])
    /\ Script.create_missing_nodes order
         (Script.create_missing_nodes order nodes deps) deps
       = Script.create_missing_nodes order nodes deps
    /\ (NoDup (map id nodes) ->
        NoDup (map id (Script.create_missing_nodes order nodes deps))).
Proof.
  set (missing := set_diff (Script.referenced_node_ids deps)
                           (set_of_list (map id nodes))).
  assert (Hmiss : forall i, In i (set_iter order missing) <->
            (exists dep, In dep deps /\ (i = source dep \/ i = target dep))
            /\ ~ In i (map id nodes)).
  { intros i. unfold missing.
    rewrite set_iter_In, set_diff_In, set_of_list_In.
    now rewrite ScriptAnnotation.referenced_node_ids_In. }
  assert (Hmnd : NoDup (set_iter order missing)).
  { apply set_iter_NoDup. unfold missing. apply set_diff_NoDup.
    unfold Script.referenced_node_ids.
    assert (G : forall ds acc, NoDup acc ->
              NoDup (fold_left
                       (fun s dep => set_add (target dep)
                                             (set_add (source dep) s))
                       ds acc)).
    { induction ds as [| d ds IH]; intros acc H; simpl; [exact H |].
      apply IH. now apply set_add_NoDup, set_add_NoDup. }
    apply G. constructor. }
  exists (set_iter order missing).
  split; [apply ScriptFacts.create_missing_nodes_app |].
  split; [exact Hmnd |]. split; [exact Hmiss |]. split; [| split].
  - intros Hall.
    destruct (set_iter order missing) as [| i l] eqn:E; [reflexivity |].
    exfalso. assert (Hi : In i (i :: l)) by now left.
    apply Hmiss in Hi.
    destruct Hi as [[dep [Hd [-> | ->]]] Hni]; apply Hni;
      now apply (Hall dep Hd).
  - apply ScriptAnnotation.create_missing_nodes_closed.
    intros dep Hd. now apply ScriptAnnotation.create_missing_nodes_ids.
  - intros Hnd. rewrite ScriptFacts.create_missing_nodes_app.
    fold missing. rewrite map_app, ScriptFiles.placeholders_ids.
    apply NoDup_app; [exact Hnd | exact Hmnd |].
    intros x Hx Hx'. apply Hmiss in Hx'. tauto.
Qed.

(** X18: [load_json_files] merges the files in the order it is given them:
    a JSON array contributes its items, any other JSON value contributes
    itself as one item, and a file that raises [JSONDecodeError] or
    [FileNotFoundError] contributes nothing, is reported, and does not stop
    the loading.  Any other exception raised while a file is read leaves the
    function, whatever the other files hold: nothing is returned.  Loading
    two lists of files one after the other is loading their concatenation,
    and fails exactly when one of the two fails. *)
Theorem load_json_files_merges (A : Type)
    (files files' : list (string * Script.FileData A)) :
  Script.load_json_files files
  = (if existsb ScriptFiles.is_uncaught files then None
     else Some (concat (map (fun file => ScriptFiles.items_of (snd file))
                            files),
                map fst (filter ScriptFiles.is_unreadable files)))
  /\ (Script.load_json_files files = None <->
      exists path, In (path, Script.Uncaught) files)
  /\ Script.load_json_files (files ++ files')
     = match Script.load_json_files files, Script.load_json_files files' with
       | Some (merged, errors), Some (merged', errors') =>
           Some (merged ++ merged', errors ++ errors')
       | _, _ => None
       end
  /\ (forall x,
        In x (concat (map (fun file => ScriptFiles.items_of (snd file)) files))
        <->
        exists path data,
          In (path, data) files
          /\ (data = Script.JsonValue x
              \/ exists items, data = Script.JsonList items /\ In x items)).
Proof.
  split; [apply ScriptFiles.load_json_files_closed |].
  split; [| split].
  - rewrite ScriptFiles.load_json_files_closed.
    destruct (existsb ScriptFiles.is_uncaught files) eqn:E.
    + split; [intros _ | reflexivity].
      apply existsb_exists in E. destruct E as [[path data] [Hin Hu]].
      exists path. unfold ScriptFiles.is_uncaught in Hu. simpl in Hu.
      destruct data; try discriminate. exact Hin.
    + split; [discriminate |]. intros [path Hin]. exfalso.
      assert (H : existsb ScriptFiles.is_uncaught files = true).
      { apply existsb_exists. exists (path, Script.Uncaught).
        split; [exact Hin | reflexivity]. }
      congruence.
  - rewrite !ScriptFiles.load_json_files_closed, existsb_app.
    destruct (existsb ScriptFiles.is_uncaught files);
      destruct (existsb ScriptFiles.is_uncaught files'); simpl;
      try reflexivity.
    now rewrite map_app, concat_app, filter_app, map_app.
  - intros x. rewrite in_concat. split.
    + intros [l [Hl Hx]]. apply in_map_iff in Hl.
      destruct Hl as [[path data] [<- Hin]]. exists path, data.
      split; [exact Hin |]. simpl in Hx.
      destruct data as [items | item | |]; simpl in Hx.
      * right. now exists items.
      * left. destruct Hx as [-> | []]. reflexivity.
      * destruct Hx.
      * destruct Hx.
    + intros [path [data [Hin Hd]]].
      exists (ScriptFiles.items_of data). split.
      * apply in_map_iff. now exists (path, data).
      * destruct Hd as [-> | [items [-> Hx]]]; simpl; tauto.
Qed.

(** Every dependency saved by the unit-duration script carries one of the
    two labels. *)
Lemma uniform_labels_partition (deps : list Dependency) :
  (forall d, In d deps ->
     pathType d = Some "critical" \/ pathType d = Some "parallel") ->
  length (filter (Script.has_pathType "critical") deps)
  + length (filter (Script.has_pathType "parallel") deps) = length deps.
Proof.
  induction deps as [| d deps IH]; intros H; simpl; [reflexivity |].
  assert (IH' := IH (fun x Hx => H x (or_intror Hx))).
  assert (Hd : (Script.has_pathType "critical" d = true
                /\ Script.has_pathType "parallel" d = false)
               \/ (Script.has_pathType "critical" d = false
                   /\ Script.has_pathType "parallel" d = true)).
  { unfold Script.has_pathType.
    destruct (H d (or_introl eq_refl)) as [-> | ->]; [left | right];
      split; reflexivity. }
  destruct Hd as [[-> ->] | [-> ->]]; simpl; lia.
Qed.

Lemma summary_nonempty (nodes : list Node) (deps : list Dependency) :
  deps <> [] ->
  Script.summary nodes deps
  = Some {| Script.critical_count := length (filter Script.is_flagged nodes);
            Script.node_count := length nodes;
            Script.critical_deps :=
              length (filter (Script.has_pathType "critical") deps);
            Script.parallel_deps :=
              length (filter (Script.has_pathType "parallel") deps) |}.
Proof.
  destruct deps; [congruence | reflexivity].
Qed.

(** X19: [main] of the unit-duration script, from the files it reads.  When
    both calls of [load_json_files] return, [main] ends normally: every
    loaded node is saved at its position, changed only in [onCriticalPath],
    the placeholders after them; the loaded dependencies are saved in their
    order, changed only in [pathType].  Without dependencies no summary is
    printed and every node is saved as not critical; otherwise the summary
    counts every saved node, and its counts of critical and of parallel
    dependencies add up to the number of dependencies.  When a call of
    [load_json_files] raises, the exception leaves [main] and nothing is
    saved. *)
Theorem main_files_summary (order : SetOrder)
    (nodes_files : list (string * Script.FileData Node))
    (deps_files : list (string * Script.FileData Dependency)) :
  match Script.load_json_files nodes_files,
        Script.load_json_files deps_files with
  | Some (nodes, errors1), Some (deps, errors2) =>
      exists nodes' deps' smry,
        Script.main_files order nodes_files deps_files
        = Some (nodes', deps', smry, errors1 ++ errors2)
        /\ (forall i nd,
              nth_error nodes i = Some nd ->
              exists b, nth_error nodes' i = Some (set_onCriticalPath nd b))
        /\ length nodes <= length nodes'
        /\ (exists crit,
              deps' = map (fun dep =>
                             set_pathType dep
                               (ScriptAnnotation.edge_label crit dep))
                          deps
              \/ deps' = [] /\ deps = [])
        /\ (deps = [] ->
            smry = None
            /\ nodes' = map (fun nd => set_onCriticalPath nd false) nodes)
        /\ (deps <> [] ->
            exists sm,
              smry = Some sm
              /\ Script.node_count sm = length nodes'
              /\ Script.critical_count sm <= Script.node_count sm
              /\ Script.critical_deps sm + Script.parallel_deps sm
                 = length deps)
  | _, _ => Script.main_files order nodes_files deps_files = None
  end.
Proof.
  unfold Script.main_files.
  destruct (Script.load_json_files nodes_files) as [[nodes errors1] |];
    [| now destruct (Script.load_json_files deps_files) as [[? ?] |]].
  destruct (Script.load_json_files deps_files) as [[deps errors2] |];
    [| reflexivity].
  destruct deps as [| d ds].
  - simpl. eexists _, _, _. split; [reflexivity |].
    split; [| split; [| split; [| split]]].
    + intros i nd Hi. exists false.
      exact (map_nth_error (fun node => set_onCriticalPath node false)
               i nodes Hi).
    + now rewrite length_map.
    + exists []. now right.
    + intros _. split; reflexivity.
    + congruence.
  - remember (d :: ds) as deps eqn:Ed.
    assert (Hne : deps <> []) by (subst; discriminate).
    destruct (ScriptRun.main_spec order nodes deps Hne)
      as [crit [es [ls [_ Hmain]]]].
    rewrite Hmain. cbn [Script.summary].
    rewrite ScriptFacts.create_missing_nodes_app.
    set (nodes' := map (fun node => set_onCriticalPath node
                                      (str_in (id node) crit))
                       (nodes ++ map Script.placeholder_node _)).
    set (deps' := map (fun dep =>
                         set_pathType dep
                           (ScriptAnnotation.edge_label crit dep)) deps).
    exists nodes', deps', (Script.summary nodes' deps').
    split; [reflexivity |]. split; [| split; [| split; [| split]]].
    + intros i nd Hi. exists (str_in (id nd) crit). unfold nodes'.
      rewrite map_app, nth_error_app1.
      * exact (map_nth_error (fun node => set_onCriticalPath node
                                            (str_in (id node) crit))
                 i nodes Hi).
      * rewrite length_map. apply nth_error_Some. congruence.
    + unfold nodes'. rewrite length_map, length_app. lia.
    + exists crit. now left.
    + intros E. congruence.
    + intros _.
      assert (Hd' : deps' <> []).
      { unfold deps'. subst deps. discriminate. }
      rewrite (summary_nonempty nodes' deps' Hd').
      eexists. split; [reflexivity |]. simpl.
      split; [reflexivity |]. split; [apply filter_length_le |].
      rewrite uniform_labels_partition.
      * unfold deps'. apply length_map.
      * intros x Hx. unfold deps' in Hx. apply in_map_iff in Hx.
        destruct Hx as [x0 [<- _]]. simpl.
        destruct (Classification.edge_label_cases crit x0) as [-> | ->];
          tauto.
Qed.

(** ** The Kahn loop on arbitrary tables *)

Lemma kahn_loop_length (fuel : nat) (g : Dict.t (list string))
    (deg : Dict.t Z) (q r : list string) g' r' :
  kahn_loop fuel g deg q r = Some (g', r') ->
  length r' <= length r + kahn_fuel deg q
  /\ forall k, Dict.get_or g' k [] = Dict.get_or g k [].
Proof.
  revert g deg q r. induction fuel as [| fuel IH]; intros g deg q r H.
  - destruct q; simpl in H; [| discriminate]. injection H as <- <-.
    split; [lia | reflexivity].
  - destruct q as [| c q]; simpl in H.
    + injection H as <- <-. split; [lia | reflexivity].
    + destruct (relax (Dict.get_or (Dict.touch g c []) c []) deg q)
        as [deg' q'] eqn:E.
      apply IH in H. destruct H as [Hlen Hg].
      pose proof (relax_fuel (Dict.get_or (Dict.touch g c []) c []) deg q)
        as Hf.
      rewrite E in Hf. simpl in Hf. split.
      * rewrite length_app in Hlen. simpl in Hlen.
        unfold kahn_fuel in *. simpl. lia.
      * intros k. now rewrite Hg, get_or_touch.
Qed.

Lemma zero_and_positive_entries (deg : Dict.t Z) :
  length (filter (fun kv => (snd kv =? 0)%Z) deg) + positives deg
  <= length deg.
Proof.
  unfold positives. induction deg as [| [k v] deg IH]; simpl; [lia |].
  destruct (v =? 0)%Z eqn:E0; destruct (0 <? v)%Z eqn:E1; simpl; lia.
Qed.

(** X20: the [while] loop of [topological_sort] ends for every graph and
    every [in_degree] table, whether or not the table counts the edges of the
    graph: it emits at most as many ids as [in_degree] has entries, and it
    leaves the adjacency lists as they were. *)
Theorem topological_sort_terminates (graph : Dict.t (list string))
    (in_degree : Dict.t Z) :
  exists g topo,
    Script.topological_sort graph in_degree = Some (g, topo)
    /\ length topo <= length in_degree
    /\ forall k, Dict.get_or g k [] = Dict.get_or graph k [].
Proof.
  destruct (ScriptFacts.topological_sort_total graph in_degree)
    as [[g topo] H].
  exists g, topo. split; [exact H |].
  unfold Script.topological_sort in H.
  apply kahn_loop_length in H. destruct H as [Hlen Hg].
  split; [| exact Hg].
  unfold kahn_fuel in Hlen. rewrite length_map in Hlen. simpl in Hlen.
  pose proof (zero_and_positive_entries in_degree). lia.
Qed.
